(** * ButteMAP: requirement satisfaction engine

    A shallow embedding of the evaluators of [src/app.js]:
    the prerequisite tree evaluator ([evalPrereqNode]), the rule-aware
    program evaluator ([evaluateProgram] and its helpers) and the GE
    evaluator ([evaluateGE] with [pickForArea] and [walk]).
    Around them: the summary of missing prerequisites, the per-area
    summary and percentage of [evaluateGE], the terms, the transcript
    with its taken set, the catalog rights, the program closeness score
    and the mapping of exam area tokens.

    Conventions.
    - Course codes and labels are [string]s (ASCII).
    - Unit values are rationals [Q].  Sums and comparisons of units are
      exact: the catalog's unit values are nonnegative multiples of one
      half, whose sums the doubles of the source hold exactly.  The
      quotients and products that decide a count, the average unit size
      of a UNITS section and the percent of a program, are rounded to
      binary64 as the source computes them ([Double]).  The percent of
      the GE evaluation keeps the exact quotient, from which [Math.round]
      gives the same integer as from its double for fewer than [2 ^ 46]
      leaves; the grade point average and the legacy score are exact
      quotients, which the source approximates by doubles.
    - A JS [Set] used for membership only is a [list string] with
      add-if-absent.  A JS object used as a map is the association list of
      its entries in the order in which JS enumerates them ([Obj]): the
      keys that are array indices first, in ascending numeric order, then
      the other keys in insertion order.  An object read from the catalog
      is given in that order.
      Keys are not names that every JS object inherits ([constructor],
      [__proto__], [toString] and the like); where the word of a section
      name is looked up ([wordsToNum]), the statements say so through
      [inheritedMember].
    - Counts are natural numbers; a numeral in a section name is below
      [2 ^ 53], so that [parseInt] is exact on it.
    - Mutable [matched]/[chosen] flags on items live in an explicit store
      that is threaded through the evaluator. *)

From Stdlib Require Import List Bool Arith Lia String Ascii.
From Stdlib Require Import ZArith QArith Qround Qpower Lqa.
From Stdlib Require Import Sorting.Sorted Sorting.Permutation.
From Stdlib Require DecimalString.
Import ListNotations.

Set Warnings "-register-all".

Local Open Scope string_scope.
Local Open Scope list_scope.

(** ** Strings *)

Module Str.

(** [\s] restricted to ASCII: space, TAB, LF, VT, FF, CR. *)
Definition isSpace (c : ascii) : bool :=
  let n := nat_of_ascii c in
  (n =? 32)%nat || ((9 <=? n)%nat && (n <=? 13)%nat).

Definition isUpperAZ (c : ascii) : bool :=
  let n := nat_of_ascii c in (65 <=? n)%nat && (n <=? 90)%nat.

Definition isLowerAZ (c : ascii) : bool :=
  let n := nat_of_ascii c in (97 <=? n)%nat && (n <=? 122)%nat.

Definition isDigit (c : ascii) : bool :=
  let n := nat_of_ascii c in (48 <=? n)%nat && (n <=? 57)%nat.

(** [\w]: letters, digits and underscore. *)
Definition isWord (c : ascii) : bool :=
  isUpperAZ c || isLowerAZ c || isDigit c || (nat_of_ascii c =? 95)%nat.

Definition upperChar (c : ascii) : ascii :=
  if isLowerAZ c then ascii_of_nat (nat_of_ascii c - 32) else c.

Definition lowerChar (c : ascii) : ascii :=
  if isUpperAZ c then ascii_of_nat (nat_of_ascii c + 32) else c.

Fixpoint mapChars (f : ascii -> ascii) (s : string) : string :=
  match s with
  | EmptyString => EmptyString
  | String c s' => String (f c) (mapChars f s')
  end.

Definition toUpperCase : string -> string := mapChars upperChar.
Definition toLowerCase : string -> string := mapChars lowerChar.

Fixpoint dropSpaces (s : string) : string :=
  match s with
  | String c s' => if isSpace c then dropSpaces s' else s
  | EmptyString => EmptyString
  end.

Fixpoint allSpaces (s : string) : bool :=
  match s with
  | EmptyString => true
  | String c s' => isSpace c && allSpaces s'
  end.

Fixpoint dropTrailingSpaces (s : string) : string :=
  match s with
  | EmptyString => EmptyString
  | String c s' => if allSpaces s then EmptyString
                   else String c (dropTrailingSpaces s')
  end.

Definition trim (s : string) : string := dropTrailingSpaces (dropSpaces s).

(** [s.replace(/\s+/g, ' ')]: every maximal run of white space becomes
    one blank. *)
Fixpoint collapseSpaces (s : string) : string :=
  match s with
  | EmptyString => EmptyString
  | String c s' =>
      if isSpace c then
        match s' with
        | String c' _ =>
            if isSpace c' then collapseSpaces s'
            else String " " (collapseSpaces s')
        | EmptyString => String " " EmptyString
        end
      else String c (collapseSpaces s')
  end.

(** [s.replace(/-/g, ' ')]. *)
Definition dashToSpace (c : ascii) : ascii :=
  if (nat_of_ascii c =? 45)%nat then " "%char else c.

Fixpoint startsWith (p s : string) : bool :=
  match p, s with
  | EmptyString, _ => true
  | String a p', String b s' => Ascii.eqb a b && startsWith p' s'
  | String _ _, EmptyString => false
  end.

Fixpoint includes (sub s : string) : bool :=
  startsWith sub s ||
  match s with
  | EmptyString => false
  | String _ s' => includes sub s'
  end.

(** The characters before the first one satisfying [p]. *)
Fixpoint takeUntil (p : ascii -> bool) (s : string) : string :=
  match s with
  | EmptyString => EmptyString
  | String c s' => if p c then EmptyString else String c (takeUntil p s')
  end.

Fixpoint filterChars (p : ascii -> bool) (s : string) : string :=
  match s with
  | EmptyString => EmptyString
  | String c s' => if p c then String c (filterChars p s')
                   else filterChars p s'
  end.

Definition nonEmpty (s : string) : bool :=
  match s with EmptyString => false | _ => true end.

End Str.

(** [normalizeCode] of the source. *)
Definition normalizeCode (raw : string) : string :=
  Str.trim (Str.collapseSpaces (Str.mapChars Str.dashToSpace (Str.toUpperCase raw))).

(** [norm] of the source. *)
Definition norm (s : string) : string :=
  Str.toUpperCase (Str.trim (Str.collapseSpaces s)).

(** [prefixOf]: [code.split(' ')[0]]. *)
Definition prefixOf (code : string) : string :=
  Str.takeUntil (fun c => Ascii.eqb c " "%char) code.

(** ** Sets of codes *)

Definition CodeSet := list string.

Definition has (s : CodeSet) (c : string) : bool :=
  existsb (String.eqb c) s.

Definition add (s : CodeSet) (c : string) : CodeSet :=
  if has s c then s else s ++ [c].

(** ** Course aliases: [state.courseAliases] *)

Record CourseAliases := {
  alias_to_canonical_codes : string -> option string;
  prefix_alias_to_canonical_prefix : string -> option string
}.

(** [map[k] || k]: an absent or empty entry falls back to the key. *)
Definition lookupOr (m : string -> option string) (k : string) : string :=
  match m k with
  | Some v => if Str.nonEmpty v then v else k
  | None => k
  end.

Definition canonicalizeCode (al : CourseAliases) (code : string) : string :=
  lookupOr (alias_to_canonical_codes al) (normalizeCode code).

(** [disciplineFromPrefix]: first white-space separated token of the
    canonical code, letters only, through the prefix alias table. *)
Definition disciplineFromPrefix (al : CourseAliases) (code : string) : string :=
  let canon := Str.toUpperCase (canonicalizeCode al code) in
  let prefix := Str.filterChars Str.isUpperAZ (Str.takeUntil Str.isSpace canon) in
  lookupOr (prefix_alias_to_canonical_prefix al) prefix.

(** [state.userExams] entries. *)
Record UserExam := { ux_program : string; ux_exam : string }.

(** ** Prerequisite tree evaluator *)

Module Prereq.

(** A requirement-tree node.  The source dispatches on the fields that are
    present: [op] (AND/OR with [nodes]), then [course], then [text];
    [CompletionOrder === 'Concurrent'] is the [concurrent] flag.  [PNone]
    is an absent node or one with none of these fields. *)
Inductive Node :=
| PNone
| PAnd (nodes : list Node)
| POr (nodes : list Node)
| PCourse (course : string) (concurrent : bool)
| PText (text : string) (concurrent : bool).

(** Entries of an [options] array: a string or a nested array. *)
Inductive Missing :=
| MStr (s : string)
| MArr (l : list Missing).

Record Result := {
  met : bool;
  options : list Missing;
  singleOption : option string;
  isCorequisite : bool;
  op : option string
}.

Definition trivially : Result :=
  {| met := true; options := []; singleOption := None;
     isCorequisite := false; op := None |}.

(** [r.singleOption || r.options], then [.flat()] spreads one level. *)
Definition flatOption (r : Result) : list Missing :=
  match singleOption r with
  | Some s => if Str.nonEmpty s then [MStr s] else options r
  | None => options r
  end.

Definition mathCourses : list string :=
  ["MATH 12"; "MATH 13"; "MATH 18"; "MATH 20";
   "MATH 30"; "MATH 31"; "MATH 32"; "MATH 42"].

Section Eval.

Variable aliases : CourseAliases.
Variable userExams : list UserExam.
Variable takenSet : CodeSet.

Definition hasOtherExam (exam : string) : bool :=
  existsb (fun e => String.eqb (ux_program e) "Other" &&
                    String.eqb (ux_exam e) exam) userExams.

Definition evalCourse (course : string) (concurrent : bool) : Result :=
  if concurrent then
    {| met := true; options := []; singleOption := Some course;
       isCorequisite := true; op := None |}
  else
    let code := normalizeCode course in
    let m := has takenSet code || has takenSet (canonicalizeCode aliases code) in
    {| met := m; options := if m then [] else [MStr code];
       singleOption := Some code; isCorequisite := false; op := None |}.

Definition evalText (text : string) (concurrent : bool) : Result :=
  if concurrent then
    {| met := true; options := []; singleOption := Some text;
       isCorequisite := true; op := None |}
  else
    let txt := Str.toLowerCase text in
    if Str.includes "high school chemistry" txt ||
       (Str.includes "year of" txt && Str.includes "chemistry" txt) then
      let m := hasOtherExam "HS Chemistry (1 year)" in
      {| met := m;
         options := if m then [] else [MStr "HS Chemistry (or take CHEM 11/CHEM 51)"];
         singleOption := Some "HS_CHEMISTRY"; isCorequisite := false; op := None |}
    else if Str.includes "intermediate algebra" txt ||
            (Str.includes "algebra" txt && Str.includes "equivalent" txt) then
      let hasMath :=
        existsb (fun c => has takenSet (normalizeCode c) ||
                          has takenSet (canonicalizeCode aliases c)) mathCourses in
      let m := hasOtherExam "Intermediate Algebra" || hasMath in
      {| met := m; options := if m then [] else [MStr "Intermediate Algebra"];
         singleOption := Some "HS_INT_ALGEBRA"; isCorequisite := false; op := None |}
    else
      {| met := true; options := []; singleOption := Some txt;
         isCorequisite := false; op := None |}.

Fixpoint evalPrereqNode (node : Node) : Result :=
  match node with
  | PNone => trivially
  | PAnd nodes =>
      let results := map evalPrereqNode nodes in
      let allMet := forallb met results in
      let missingOptions :=
        map (fun r => MArr (options r)) (filter (fun r => negb (met r)) results) in
      {| met := allMet; options := if allMet then [] else missingOptions;
         singleOption := None; isCorequisite := false; op := Some "AND" |}
  | POr nodes =>
      let results := map evalPrereqNode nodes in
      let anyMet := existsb met results in
      let allOptions := flat_map flatOption results in
      {| met := anyMet; options := if anyMet then [] else allOptions;
         singleOption := None; isCorequisite := false; op := Some "OR" |}
  | PCourse course concurrent =>
      if Str.nonEmpty course then evalCourse course concurrent
      else trivially
  | PText text concurrent =>
      if Str.nonEmpty text then evalText text concurrent
      else trivially
  end.

End Eval.

End Prereq.

(** ** JS objects used as maps: association lists in enumeration order

    JS enumerates the keys of an object ([Object.keys], [Object.entries],
    [Object.values], [for .. in]) with the array indices first, in
    ascending numeric order, and then the other keys in insertion order.
    An object is represented by the list of its entries in that order;
    [set] puts a new key where the enumeration will find it. *)

Module Obj.

Definition t (V : Type) := list (string * V).

Fixpoint get {V} (o : t V) (k : string) : option V :=
  match o with
  | [] => None
  | (k', v) :: o' => if String.eqb k k' then Some v else get o' k
  end.

Fixpoint digitsValue (s : string) (acc : N) : option N :=
  match s with
  | EmptyString => Some acc
  | String c s' =>
      if Str.isDigit c
      then digitsValue s' (10 * acc + N.of_nat (nat_of_ascii c - 48))%N
      else None
  end.

(** An array index: the canonical decimal numeral of an integer below
    [2^32 - 1]. *)
Definition arrayIndex (k : string) : option N :=
  match k with
  | EmptyString => None
  | String c rest =>
      if Ascii.eqb c "0" && Str.nonEmpty rest then None
      else match digitsValue k 0 with
           | Some n => if (n <=? 4294967294)%N then Some n else None
           | None => None
           end
  end.

(** Whether the new key [k] is enumerated before the key [k']. *)
Definition before (k k' : string) : bool :=
  match arrayIndex k, arrayIndex k' with
  | Some n, Some n' => (n <? n')%N
  | Some _, None => true
  | None, _ => false
  end.

(** An existing key keeps its position. *)
Fixpoint replace {V} (o : t V) (k : string) (v : V) : t V :=
  match o with
  | [] => []
  | (k', v') :: o' =>
      if String.eqb k k' then (k', v) :: o' else (k', v') :: replace o' k v
  end.

Fixpoint insert {V} (o : t V) (k : string) (v : V) : t V :=
  match o with
  | [] => [(k, v)]
  | (k', v') :: o' =>
      if before k k' then (k, v) :: o else (k', v') :: insert o' k v
  end.

(** [o[k] = v]. *)
Definition set {V} (o : t V) (k : string) (v : V) : t V :=
  match get o k with
  | Some _ => replace o k v
  | None => insert o k v
  end.

Definition keys {V} (o : t V) : list string := map fst o.
Definition values {V} (o : t V) : list V := map snd o.

Definition hasKey {V} (o : t V) (k : string) : bool :=
  match get o k with Some _ => true | None => false end.

End Obj.

(** ** Numbers *)

Definition Qltb (x y : Q) : bool := negb (Qle_bool y x).
Definition Qgeb (x y : Q) : bool := Qle_bool y x.

Definition Qsum (l : list Q) : Q := fold_left Qplus l 0%Q.

(** [x || d] on a number: zero falls back to [d]. *)
Definition orQ (x d : Q) : Q := if Qeq_bool x 0 then d else x.

(** [Math.round]: the nearest integer, halves upwards. *)
Definition roundQ (x : Q) : Z := Qfloor (x + (1 # 2)).

(** The quotients and products of the source are those of IEEE 754
    binary64 numbers: the exact result rounded to the nearest number with
    a 53-bit significand, ties to the even significand.  The exponent is
    not bounded here: no overflow to [Infinity] and no subnormal numbers;
    a division by zero gives zero, as in [Q]. *)
Module Double.

(** The nearest integer, ties to even. *)
Definition rne (x : Q) : Z :=
  let f := Qfloor x in
  match Qcompare (x - inject_Z f) (1 # 2) with
  | Lt => f
  | Gt => (f + 1)%Z
  | Eq => if Z.even f then f else (f + 1)%Z
  end.

(** For [x > 0], the exponent [e] with [2^e <= x < 2^(e+1)]. *)
Definition ilog2 (x : Q) : Z :=
  let e := (Z.log2 (Qnum x) - Z.log2 (Zpos (Qden x)))%Z in
  if Qle_bool (2 ^ e) x then e else (e - 1)%Z.

Definition roundPos (x : Q) : Q :=
  let e := ilog2 x in
  inject_Z (rne (x * 2 ^ (52 - e))) * 2 ^ (e - 52).

Definition round (x : Q) : Q :=
  match Qnum x with
  | Z0 => 0
  | Zpos _ => roundPos x
  | Zneg _ => - roundPos (- x)
  end.

(** [a / b] and [a * b] on numbers. *)
Definition div (a b : Q) : Q := round (a / b).
Definition mul (a b : Q) : Q := round (a * b).

End Double.

(** ** Loops of the source that are not bounded by a collection *)

Inductive Step (S : Type) :=
| Continue (s : S)
| Break (s : S).
Arguments Continue {S} s.
Arguments Break {S} s.

(** [while fuel body s] runs [body] until it breaks; [None] when the fuel
    runs out first. *)
Fixpoint while {S : Type} (fuel : nat) (body : S -> Step S) (s : S) : option S :=
  match fuel with
  | O => None
  | S fuel' =>
      match body s with
      | Continue s' => while fuel' body s'
      | Break s' => Some s'
      end
  end.

(** [Array.prototype.sort] is stable.  [sortBy lt l] sorts [l] for a
    comparator that is negative exactly when [lt a b]: an element is
    inserted in front of the elements placed after it in [l] unless one of
    them sorts strictly before it. *)
Fixpoint insertBy {A} (lt : A -> A -> bool) (x : A) (l : list A) : list A :=
  match l with
  | [] => [x]
  | y :: l' => if lt y x then y :: insertBy lt x l' else x :: l
  end.

Definition sortBy {A} (lt : A -> A -> bool) (l : list A) : list A :=
  fold_right (insertBy lt) [] l.

(** ** Program requirement data (catalog JSON) *)

Record RawOption := { o_code : string; o_units : option Q }.

Record RawItem := { any_of : list RawOption }.

Record Rule := {
  r_type : option string;
  r_min : option nat;
  r_max : option nat;
  r_min_units : option Q;
  r_min_disciplines : option nat;
  r_allow_from : list string;
  r_per_list_min_units : Obj.t Q
}.

Record RawSection := {
  s_name : string;
  s_rule : option Rule;
  s_items : list RawItem
}.

Record CrossRule := {
  c_type : string;
  c_applies_to : list string;
  c_per_list_min_units : Obj.t Q;
  c_min_units_total : Q
}.

Record Detail := {
  sections : list RawSection;
  cross_list_rules : list CrossRule
}.

(** ** Allocation primitives *)

Record Opt := { code : string; units : Q }.

Record Item := {
  options : list Opt;
  matched : bool;
  chosen : option Opt
}.

(** A chosen course with the pool it was taken from. *)
Record Chosen := { ch_code : string; ch_units : Q; ch_from : string }.

(** The items of the working sections, by section position; the
    [matched]/[chosen] flags are written here. *)
Definition Store := list (list Item).

Definition getItems (st : Store) (si : nat) : list Item := nth si st [].

Definition getItem (st : Store) (si ii : nat) : option Item :=
  nth_error (getItems st si) ii.

Fixpoint updNth {A} (f : A -> A) (n : nat) (l : list A) {struct l} : list A :=
  match l, n with
  | [], _ => []
  | x :: l', O => f x :: l'
  | x :: l', S n' => x :: updNth f n' l'
  end.

(** [item.matched = true; item.chosen = pick]. *)
Definition markItem (st : Store) (si ii : nat) (pick : Opt) : Store :=
  updNth (updNth (fun it => {| options := options it; matched := true;
                               chosen := Some pick |}) ii) si st.

Definition ruleTypeOf (t : option string) : string :=
  match t with
  | Some s => if Str.nonEmpty s then Str.toUpperCase s else "ALL"
  | None => "ALL"
  end.

Definition ruleType (r : option Rule) : string :=
  ruleTypeOf (match r with Some r => r_type r | None => None end).

Definition sectionIsInCrossList (detail : Detail) (sectionName : string) : bool :=
  existsb (fun r => String.eqb (c_type r) "CROSS_LIST_UNITS" &&
                    existsb (String.eqb sectionName) (c_applies_to r))
          (cross_list_rules detail).

Definition findMatchForItem (item : Item) (takenSet usedSet : CodeSet) : option Opt :=
  find (fun opt => has takenSet (code opt) && negb (has usedSet (code opt)))
       (options item).

(** Working copy of a section: name and (coerced) rule; its items are in
    the store at the same position. *)
Record Section := { name : string; rule : Rule }.

Definition ruleALL : Rule :=
  {| r_type := Some "ALL"; r_min := None; r_max := None; r_min_units := None;
     r_min_disciplines := None; r_allow_from := []; r_per_list_min_units := [] |}.

Definition isAllish (detail : Detail) (s : Section) : bool :=
  let x := ruleTypeOf (r_type (rule s)) in
  if String.eqb x "ALL" then true
  else if String.eqb x "LIST" then negb (sectionIsInCrossList detail (name s))
  else false.

Definition indexed {A} (l : list A) : list (nat * A) :=
  combine (seq 0 (List.length l)) l.

(** [poolsByList]: for every section name, where the items of the (last)
    section carrying it are in the store. *)
Definition buildPools (secs : list Section) : Obj.t nat :=
  fold_left (fun o p => Obj.set o (name (snd p)) (fst p)) (indexed secs) [].

(** Allocation state of one [evaluateProgram] call. *)
Record Alloc := { store : Store; usedSet : CodeSet }.

(** [item.matched = true; item.chosen = pick; usedSet.add(pick.code)]. *)
Definition consume (a : Alloc) (si ii : nat) (pick : Opt) : Alloc :=
  {| store := markItem (store a) si ii pick;
     usedSet := add (usedSet a) (code pick) |}.

(** ** Rule-aware program evaluator *)

Module Program.

(** [wordsToNum]: a decimal numeral or one of the words one .. ten.
    The source looks the word up in an object literal, [map[s]], which
    also finds the members that the literal inherits from
    [Object.prototype]; the lower-cased words that name one are listed in
    [inheritedMembers].  For them the source returns an object, not a
    number, and [coerceSelectCountRule] installs it as [min] and [max]:
    such words are outside this embedding, which keeps counts numeric, and
    the statements on section names exclude them by [inheritedMember]. *)
Fixpoint parseDigits (s : string) (acc : nat) : nat :=
  match s with
  | EmptyString => acc
  | String c s' => parseDigits s' (10 * acc + (nat_of_ascii c - 48))
  end.

Fixpoint allDigits (s : string) : bool :=
  match s with
  | EmptyString => true
  | String c s' => Str.isDigit c && allDigits s'
  end.

Definition numberWords : list (string * nat) :=
  [("one", 1); ("two", 2); ("three", 3); ("four", 4); ("five", 5);
   ("six", 6); ("seven", 7); ("eight", 8); ("nine", 9); ("ten", 10)]%nat.

Definition wordsToNum (w : string) : option nat :=
  if Str.nonEmpty w then
    let s := Str.toLowerCase w in
    if allDigits s then Some (parseDigits s 0)
    else option_map snd (find (fun p => String.eqb s (fst p)) numberWords)
  else None.

Definition inheritedMembers : list string := ["constructor"; "__proto__"].

Definition inheritedMember (w : string) : bool :=
  existsb (String.eqb (Str.toLowerCase w)) inheritedMembers.

Fixpoint dropChars (n : nat) (s : string) : string :=
  match n, s with
  | S n', String _ s' => dropChars n' s'
  | _, _ => s
  end.

(** The group captured by [/^\s*Select\s+(\w+)/i] on a section name. *)
Definition selectWord (nm : string) : option string :=
  let s := Str.dropSpaces nm in
  if Str.startsWith "select" (Str.toLowerCase s) then
    let rest := dropChars 6 s in
    match rest with
    | String c _ =>
        if Str.isSpace c then
          let w := Str.takeUntil (fun c => negb (Str.isWord c)) (Str.dropSpaces rest) in
          if Str.nonEmpty w then Some w else None
        else None
    | EmptyString => None
    end
  else None.

(** [coerceSelectCountRule]: a LIST section named "Select <n> ..." becomes
    a COUNT section with [min = max = n], for [n] a positive numeral or a
    number word.  (A word that is an [inheritedMember] is truthy in the
    source as well, see [wordsToNum].) *)
Definition coerceSelectCountRule (sec : RawSection) : option Rule :=
  if Str.nonEmpty (s_name sec) then
    match selectWord (s_name sec) with
    | Some w =>
        if String.eqb (ruleType (s_rule sec)) "LIST" then
          match wordsToNum w with
          | Some (S n) =>
              Some {| r_type := Some "COUNT"; r_min := Some (S n); r_max := Some (S n);
                      r_min_units := None; r_min_disciplines := None;
                      r_allow_from := []; r_per_list_min_units := [] |}
          | _ => s_rule sec
          end
        else s_rule sec
    | None => s_rule sec
    end
  else s_rule sec.

(** [/^GE\s|General Education/i]. *)
Definition isGESection (nm : string) : bool :=
  let l := Str.toLowerCase nm in
  (Str.startsWith "ge" l &&
   match dropChars 2 l with String c _ => Str.isSpace c | EmptyString => false end)
  || Str.includes "general education" l.

Definition ruleMin (r : Rule) : nat :=
  match r_min r with Some n => n | None => 1%nat end.

Definition ruleMax (r : Rule) : nat :=
  match r_max r with Some n => n | None => ruleMin r end.

Definition ruleMinUnits (r : Rule) : Q :=
  match r_min_units r with Some q => q | None => 0 end.

Definition ruleMinDisciplines (r : Rule) : nat :=
  match r_min_disciplines r with Some n => n | None => 0%nat end.

(** [obj[k] || 0]. *)
Definition getOr0 (o : Obj.t Q) (k : string) : Q :=
  match Obj.get o k with Some q => q | None => 0 end.

Definition mkChosen (pick : Opt) (from : string) : Chosen :=
  {| ch_code := code pick; ch_units := units pick; ch_from := from |}.

(** Units of the chosen courses taken from one list. *)
Definition unitsFrom (listName : string) (chosen : list Chosen) : Q :=
  Qsum (map ch_units (filter (fun c => String.eqb (ch_from c) listName) chosen)).

Definition unmatchedCount (st : Store) : nat :=
  list_sum (map (fun items => List.length (filter (fun it => negb (matched it)) items)) st).

Inductive MissingReason :=
| MoreFrom (n : nat) (sectionName : string)
| NeedDisciplines (minDisciplines current : nat)
| MoreUnitsFrom (deficit : Q) (listName : string)
| MoreUnitsOverall (deficit : Q).

Record UnitsState := {
  u_alloc : Alloc;
  u_chosen : list Chosen;
  u_gotUnits : Q
}.

Record UnitsResult := {
  ur_alloc : Alloc;
  ur_chosen : list Chosen;
  ur_gotUnits : Q;
  ur_missing : list MissingReason;
  ur_minUnits : Q
}.

Section Evaluator.

Variable aliases : CourseAliases.
(** [state.coursesIndex]: the [MinimumCredits] of a catalog course. *)
Variable coursesIndex : string -> option Q.
Variable takenSet : CodeSet.

Definition indexOption (o : RawOption) : Opt :=
  let c := norm (o_code o) in
  {| code := c;
     units := match o_units o with
              | Some u => u
              | None => match coursesIndex (canonicalizeCode aliases c) with
                        | Some m => m
                        | None => 0
                        end
              end |}.

Definition indexSectionItems (sec : RawSection) : list Item :=
  map (fun it => {| options := map indexOption (any_of it);
                    matched := false; chosen := None |}) (s_items sec).

Section WithSections.

(** [poolsByList] of the call. *)
Variable poolsByList : Obj.t nat.

(** *** COUNT sections *)

Fixpoint countLocal (max : nat) (from : string) (si : nat) (idxs : list nat)
    (a : Alloc) (chosen : list Chosen) : Alloc * list Chosen :=
  match idxs with
  | [] => (a, chosen)
  | ii :: rest =>
      if (max <=? List.length chosen)%nat then (a, chosen)
      else
        match getItem (store a) si ii with
        | Some item =>
            match findMatchForItem item takenSet (usedSet a) with
            | Some pick =>
                countLocal max from si rest (consume a si ii pick)
                           (chosen ++ [mkChosen pick from])
            | None => countLocal max from si rest a chosen
            end
        | None => countLocal max from si rest a chosen
        end
  end.

Fixpoint countBorrowPool (need : nat) (listName : string) (pi : nat)
    (idxs : list nat) (a : Alloc) (chosen : list Chosen) : Alloc * list Chosen :=
  match idxs with
  | [] => (a, chosen)
  | ii :: rest =>
      if (need <=? List.length chosen)%nat then (a, chosen)
      else
        match getItem (store a) pi ii with
        | Some item =>
            if matched item then countBorrowPool need listName pi rest a chosen
            else
              match findMatchForItem item takenSet (usedSet a) with
              | Some pick =>
                  countBorrowPool need listName pi rest (consume a pi ii pick)
                                  (chosen ++ [mkChosen pick listName])
              | None => countBorrowPool need listName pi rest a chosen
              end
        | None => countBorrowPool need listName pi rest a chosen
        end
  end.

Fixpoint countBorrow (need : nat) (allow : list string)
    (a : Alloc) (chosen : list Chosen) : Alloc * list Chosen :=
  match allow with
  | [] => (a, chosen)
  | listName :: rest =>
      if (need <=? List.length chosen)%nat then (a, chosen)
      else
        let '(a', chosen') :=
          match Obj.get poolsByList listName with
          | Some pi =>
              countBorrowPool need listName pi
                (seq 0 (List.length (getItems (store a) pi))) a chosen
          | None => (a, chosen)
          end in
        countBorrow need rest a' chosen'
  end.

(** [satisfyCountSection]; [si] is the position of the section's own
    items in the store. *)
Definition satisfyCountSection (s : Section) (si : nat) (a : Alloc)
    : Alloc * list Chosen :=
  let need := ruleMin (rule s) in
  let max := ruleMax (rule s) in
  let '(a1, chosen1) :=
    countLocal max (name s) si (seq 0 (List.length (getItems (store a) si))) a [] in
  countBorrow need (r_allow_from (rule s)) a1 chosen1.

(** *** UNITS sections *)

(** The first pool item that is unmatched, has a match and passes the
    filter: the first value of [availableFromList]/[availableFromSection]
    that the caller does not skip. *)
Fixpoint firstAvailable (filterFn : Opt -> bool) (used : CodeSet)
    (items : list Item) (ii : nat) : option (nat * Opt) :=
  match items with
  | [] => None
  | item :: rest =>
      if matched item then firstAvailable filterFn used rest (S ii)
      else
        match findMatchForItem item takenSet used with
        | Some pick =>
            if filterFn pick then Some (ii, pick)
            else firstAvailable filterFn used rest (S ii)
        | None => firstAvailable filterFn used rest (S ii)
        end
  end.

Definition takePick (s : UnitsState) (si ii : nat) (pick : Opt) (from : string)
    : UnitsState :=
  {| u_alloc := consume (u_alloc s) si ii pick;
     u_chosen := u_chosen s ++ [mkChosen pick from];
     u_gotUnits := u_gotUnits s + units pick |}.

(** [pickOneFromList]: [None] is the source's [false]. *)
Definition pickOneFromList (listName : string) (s : UnitsState) : option UnitsState :=
  match Obj.get poolsByList listName with
  | Some pi =>
      match firstAvailable (fun _ => true) (usedSet (u_alloc s))
                           (getItems (store (u_alloc s)) pi) 0 with
      | Some (ii, pick) => Some (takePick s pi ii pick listName)
      | None => None
      end
  | None => None
  end.

Fixpoint pickFromLists (filterFn : Opt -> bool) (allow : list string)
    (s : UnitsState) : option UnitsState :=
  match allow with
  | [] => None
  | listName :: rest =>
      match Obj.get poolsByList listName with
      | Some pi =>
          match firstAvailable filterFn (usedSet (u_alloc s))
                               (getItems (store (u_alloc s)) pi) 0 with
          | Some (ii, pick) => Some (takePick s pi ii pick listName)
          | None => pickFromLists filterFn rest s
          end
      | None => pickFromLists filterFn rest s
      end
  end.

(** [pickWithFilter]: the section's own items first, then the
    [allow_from] lists in order. *)
Definition pickWithFilter (sec : Section) (si : nat) (filterFn : Opt -> bool)
    (s : UnitsState) : option UnitsState :=
  match firstAvailable filterFn (usedSet (u_alloc s))
                       (getItems (store (u_alloc s)) si) 0 with
  | Some (ii, pick) => Some (takePick s si ii pick (name sec))
  | None => pickFromLists filterFn (r_allow_from (rule sec)) s
  end.

Definition disciplinesOf (chosen : list Chosen) : CodeSet :=
  fold_left (fun ds c => add ds (disciplineFromPrefix aliases (ch_code c))) chosen [].

(** Body of the distinct-discipline loop. *)
Definition disciplineStep (sec : Section) (si : nat) (minUnitsTotal : Q)
    (minDisciplines : nat) (sd : UnitsState * CodeSet)
    : Step (UnitsState * CodeSet) :=
  let '(s, disciplineSet) := sd in
  if (List.length disciplineSet <? minDisciplines)%nat &&
     (Qltb (u_gotUnits s) minUnitsTotal ||
      (List.length disciplineSet <? minDisciplines)%nat) then
    let prevSize := List.length disciplineSet in
    match pickWithFilter sec si
            (fun pick => negb (has disciplineSet
                                   (disciplineFromPrefix aliases (code pick)))) s with
    | None => Break (s, disciplineSet)
    | Some s' =>
        let ds' := disciplinesOf (u_chosen s') in
        if (List.length ds' =? prevSize)%nat then Break (s', ds')
        else Continue (s', ds')
    end
  else Break (s, disciplineSet).

(** The [else] branch: local matches in order until [min_units]. *)
Fixpoint unitsLocal (minUnitsTotal : Q) (from : string) (si : nat)
    (idxs : list nat) (s : UnitsState) : UnitsState :=
  match idxs with
  | [] => s
  | ii :: rest =>
      if Qgeb (u_gotUnits s) minUnitsTotal then s
      else
        match getItem (store (u_alloc s)) si ii with
        | Some item =>
            match findMatchForItem item takenSet (usedSet (u_alloc s)) with
            | Some pick => unitsLocal minUnitsTotal from si rest (takePick s si ii pick from)
            | None => unitsLocal minUnitsTotal from si rest s
            end
        | None => unitsLocal minUnitsTotal from si rest s
        end
  end.

(** Body of the per-list [while (have < need)] loop. *)
Definition perListStep (listName : string) (need : Q) (sh : UnitsState * Q)
    : Step (UnitsState * Q) :=
  let '(s, have) := sh in
  if Qltb have need then
    match pickOneFromList listName s with
    | None => Break (s, have)
    | Some s' => Continue (s', unitsFrom listName (u_chosen s'))
    end
  else Break (s, have).

Fixpoint perListLoop (perListMin : Obj.t Q) (allow : list string)
    (s : UnitsState) : option UnitsState :=
  match allow with
  | [] => Some s
  | listName :: rest =>
      let need := getOr0 perListMin listName in
      let have := unitsFrom listName (u_chosen s) in
      match while (S (unmatchedCount (store (u_alloc s))))
                  (perListStep listName need) (s, have) with
      | Some (s', _) => perListLoop perListMin rest s'
      | None => None
      end
  end.

(** Body of the final top-up loop. *)
Definition topUpStep (sec : Section) (si : nat) (minUnitsTotal : Q)
    (s : UnitsState) : Step UnitsState :=
  if Qltb (u_gotUnits s) minUnitsTotal then
    match pickWithFilter sec si (fun _ => true) s with
    | None => Break s
    | Some s' => Continue s'
    end
  else Break s.

Definition unitsMissing (sec : Section) (chosen : list Chosen) (gotUnits : Q)
    : list MissingReason :=
  let minUnitsTotal := ruleMinUnits (rule sec) in
  let minDisciplines := ruleMinDisciplines (rule sec) in
  (if (0 <? minDisciplines)%nat then
     let n := List.length (disciplinesOf chosen) in
     if (n <? minDisciplines)%nat then [NeedDisciplines minDisciplines n] else []
   else [])
  ++ flat_map (fun listName =>
       let need := getOr0 (r_per_list_min_units (rule sec)) listName in
       let have := unitsFrom listName chosen in
       if Qltb have need then [MoreUnitsFrom (need - have) listName] else [])
     (r_allow_from (rule sec))
  ++ (if Qltb gotUnits minUnitsTotal
      then [MoreUnitsOverall (minUnitsTotal - gotUnits)] else []).

(** [satisfyUnitsSection].  The three [while] loops run on fuel: every
    round that continues marks one more item as matched, so one more than
    the number of unmatched items is enough ([satisfyUnitsSection_total]). *)
Definition satisfyUnitsSection (sec : Section) (si : nat) (a : Alloc)
    : option UnitsResult :=
  let minUnitsTotal := ruleMinUnits (rule sec) in
  let minDisciplines := ruleMinDisciplines (rule sec) in
  let s0 := {| u_alloc := a; u_chosen := []; u_gotUnits := 0 |} in
  let s1 :=
    if (0 <? minDisciplines)%nat then
      option_map fst
        (while (S (unmatchedCount (store a)))
               (disciplineStep sec si minUnitsTotal minDisciplines) (s0, []))
    else
      Some (unitsLocal minUnitsTotal (name sec) si
              (seq 0 (List.length (getItems (store a) si))) s0) in
  match s1 with
  | None => None
  | Some s1 =>
      match perListLoop (r_per_list_min_units (rule sec))
                        (r_allow_from (rule sec)) s1 with
      | None => None
      | Some s2 =>
          match while (S (unmatchedCount (store (u_alloc s2))))
                      (topUpStep sec si minUnitsTotal) s2 with
          | None => None
          | Some s3 =>
              Some {| ur_alloc := u_alloc s3;
                      ur_chosen := u_chosen s3;
                      ur_gotUnits := u_gotUnits s3;
                      ur_missing := unitsMissing sec (u_chosen s3) (u_gotUnits s3);
                      ur_minUnits := minUnitsTotal |}
          end
      end
  end.

End WithSections.

(** *** CROSS_LIST_UNITS *)

(** A pooled option: [itemRef] is the catalog item it belongs to (section
    and item position in [detail.sections]); [h_name] is the pool name
    that the leftover pass attaches. *)
Record Hit := {
  h_code : string;
  h_units : Q;
  h_itemRef : nat * nat;
  h_name : option string
}.

Record CrossState := {
  x_usedCodes : CodeSet;
  x_usedSet : CodeSet;
  x_earnedBySection : Obj.t Q;
  x_chosenBySection : Obj.t (list Hit);
  (** the writes [h.itemRef.matched = true; h.itemRef.chosen = ...] on the
      catalog items, in order *)
  x_marks : list ((nat * nat) * Opt)
}.

Record CrossResult := {
  done : bool;
  totalUnits : Q;
  minTotal : Q;
  earnedBySection : Obj.t Q;
  perMin : Obj.t Q;
  chosenBySection : Obj.t (list Hit);
  marks : list ((nat * nat) * Opt)
}.

Definition hitsOfItem (spos : nat) (ipos : nat) (it : RawItem) : list Hit :=
  map (fun opt =>
         {| h_code := Str.toUpperCase (Str.trim (o_code opt));
            h_units := match o_units opt with Some u => orQ u 0 | None => 0 end;
            h_itemRef := (spos, ipos);
            h_name := None |})
      (any_of it).

Definition hitsOfSection (spos : nat) (s : RawSection) : list Hit :=
  flat_map (fun p => hitsOfItem spos (fst p) (snd p))
           (combine (seq 0 (List.length (s_items s))) (s_items s)).

(** [sectionPool]: one array per applicable section name. *)
Definition sectionPool (detail : Detail) (rule : CrossRule) : Obj.t (list Hit) :=
  fold_left
    (fun pool p =>
       let '(spos, s) := p in
       if existsb (String.eqb (s_name s)) (c_applies_to rule)
       then Obj.set pool (s_name s) (hitsOfSection spos s)
       else pool)
    (combine (seq 0 (List.length (sections detail))) (sections detail)) [].

(** Comparator [(a, b) => b.units - a.units]. *)
Definition moreUnits (a b : Hit) : bool := Qltb (h_units b) (h_units a).

Definition hitsBySection (pool : Obj.t (list Hit)) : Obj.t (list Hit) :=
  map (fun p => (fst p,
                 sortBy moreUnits (filter (fun x => has takenSet (h_code x)) (snd p))))
      pool.

Definition crossConsume (name : string) (h : Hit) (x : CrossState) : CrossState :=
  {| x_usedCodes := add (x_usedCodes x) (h_code h);
     x_usedSet := add (x_usedSet x) (h_code h);
     x_earnedBySection :=
       Obj.set (x_earnedBySection x) name
               (getOr0 (x_earnedBySection x) name + h_units h);
     x_chosenBySection :=
       Obj.set (x_chosenBySection x) name
               (match Obj.get (x_chosenBySection x) name with
                | Some l => l | None => [] end ++ [h]);
     x_marks := x_marks x ++ [(h_itemRef h, {| code := h_code h; units := h_units h |})] |}.

(** Pass 1 on one pool. *)
Fixpoint crossPass1Pool (name : string) (need : Q) (hits : list Hit)
    (x : CrossState) : CrossState :=
  match hits with
  | [] => x
  | h :: rest =>
      if Qgeb (getOr0 (x_earnedBySection x) name) need then x
      else if has (x_usedCodes x) (h_code h) || has (x_usedSet x) (h_code h)
      then crossPass1Pool name need rest x
      else crossPass1Pool name need rest (crossConsume name h x)
  end.

Definition crossPass1 (perMin : Obj.t Q) (hits : Obj.t (list Hit))
    (x : CrossState) : CrossState :=
  fold_left (fun x p => crossPass1Pool (fst p) (getOr0 perMin (fst p)) (snd p) x)
            hits x.

Definition leftoversOf (hits : Obj.t (list Hit)) (x : CrossState) : list Hit :=
  flat_map
    (fun p =>
       map (fun h => {| h_code := h_code h; h_units := h_units h;
                        h_itemRef := h_itemRef h; h_name := Some (fst p) |})
           (filter (fun h => negb (has (x_usedCodes x) (h_code h)) &&
                             negb (has (x_usedSet x) (h_code h)))
                   (snd p)))
    hits.

Definition hitName (h : Hit) : string :=
  match h_name h with Some n => n | None => "" end.

(** Pass 2 over the sorted leftovers. *)
Fixpoint crossPass2 (minTotal : Q) (leftovers : list Hit)
    (tx : Q * CrossState) : Q * CrossState :=
  match leftovers with
  | [] => tx
  | h :: rest =>
      let '(total, x) := tx in
      if Qgeb total minTotal then tx
      else crossPass2 minTotal rest
             (total + h_units h, crossConsume (hitName h) h x)
  end.

(** [evalCrossListUnits]: [None] is the source's [null]; the second
    component is [usedSet] after the call. *)
Definition evalCrossListUnits (detail : Detail) (usedSet : CodeSet)
    : option CrossResult * CodeSet :=
  match find (fun r => String.eqb (c_type r) "CROSS_LIST_UNITS")
             (cross_list_rules detail) with
  | None => (None, usedSet)
  | Some rule =>
      let perMin := c_per_list_min_units rule in
      let minTotal := orQ (c_min_units_total rule) 0 in
      let pool := sectionPool detail rule in
      let hits := hitsBySection pool in
      let x0 := {| x_usedCodes := []; x_usedSet := usedSet;
                   x_earnedBySection := map (fun n => (n, 0)) (Obj.keys pool);
                   x_chosenBySection := map (fun n => (n, [])) (Obj.keys pool);
                   x_marks := [] |} in
      let x1 := crossPass1 perMin hits x0 in
      let total1 := Qsum (Obj.values (x_earnedBySection x1)) in
      let leftovers := sortBy moreUnits (leftoversOf hits x1) in
      let '(total2, x2) := crossPass2 minTotal leftovers (total1, x1) in
      let perListOK :=
        forallb (fun n => Qgeb (getOr0 (x_earnedBySection x2) n) (getOr0 perMin n))
                (Obj.keys pool) in
      (Some {| done := perListOK && Qgeb total2 minTotal;
               totalUnits := total2;
               minTotal := minTotal;
               earnedBySection := x_earnedBySection x2;
               perMin := perMin;
               chosenBySection := x_chosenBySection x2;
               marks := x_marks x2 |},
       x_usedSet x2)
  end.

(** *** [evaluateProgram] *)

(** What the evaluator keeps per COUNT or UNITS section
    ([s._chosen], [s._units] and the [report] row). *)
Record Report := {
  rp_section : nat;
  rp_chosen : list Chosen;
  rp_units : option Q;
  rp_missing : list MissingReason;
  rp_required : Z;
  rp_met : Z
}.

Record EvalState := {
  e_alloc : Alloc;
  requiredAtomCount : Z;
  metAtomCount : Z;
  e_report : list Report
}.

Record Finding := {
  f_applies_to : list string;
  met_total : bool;
  total_units : Q;
  need_total : Q;
  (** [(list, have, need)] for every per-list minimum that is short *)
  per_list_min_status : list (string * Q * Q)
}.

Record Result := {
  percent : Z;
  requiredItems : Z;
  satisfied : Z;
  cross_list_checks : list Finding;
  crossListSummary : option CrossResult;
  isComplete : option bool;
  (** the working state at the end of the call *)
  finalAlloc : Alloc;
  report : list Report
}.

(** The working copy of a catalog section. *)
Definition workingSection (s0 : RawSection) : Section :=
  {| name := s_name s0;
     rule := match coerceSelectCountRule s0 with
             | Some r => r
             | None => ruleALL
             end |}.

(** One item of an ALL/LIST section. *)
Definition allishItem (si ii : nat) (e : EvalState) : EvalState :=
  let e1 := {| e_alloc := e_alloc e;
               requiredAtomCount := requiredAtomCount e + 1;
               metAtomCount := metAtomCount e;
               e_report := e_report e |} in
  match getItem (store (e_alloc e)) si ii with
  | Some item =>
      match findMatchForItem item takenSet (usedSet (e_alloc e)) with
      | Some pick =>
          {| e_alloc := consume (e_alloc e) si ii pick;
             requiredAtomCount := requiredAtomCount e + 1;
             metAtomCount := metAtomCount e + 1;
             e_report := e_report e |}
      | None => e1
      end
  | None => e1
  end.

Definition allishSection (si : nat) (e : EvalState) : EvalState :=
  fold_left (fun e ii => allishItem si ii e)
            (seq 0 (List.length (getItems (store (e_alloc e)) si))) e.

Definition countSection (pools : Obj.t nat) (s : Section) (si : nat)
    (e : EvalState) : EvalState :=
  let need := Z.of_nat (ruleMin (rule s)) in
  let '(a, chosen) := satisfyCountSection pools s si (e_alloc e) in
  let got := Z.min (Z.of_nat (List.length chosen)) need in
  let missing :=
    if (ruleMin (rule s) <=? List.length chosen)%nat then []
    else [MoreFrom (ruleMin (rule s) - List.length chosen) (name s)] in
  {| e_alloc := a;
     requiredAtomCount := requiredAtomCount e + need;
     metAtomCount := metAtomCount e + got;
     e_report := e_report e ++
       [{| rp_section := si; rp_chosen := chosen; rp_units := None;
           rp_missing := missing; rp_required := need; rp_met := got |}] |}.

(** [chosen.reduce((sum, c) => sum + (c.units || 3), 0) / chosen.length],
    or 3 when nothing is chosen. *)
Definition avgUnits (chosen : list Chosen) : Q :=
  match chosen with
  | [] => 3
  | _ => Double.div (Qsum (map (fun c => orQ (ch_units c) 3) chosen))
                    (inject_Z (Z.of_nat (List.length chosen)))
  end.

(** [Math.ceil(minUnits / avgUnits)]. *)
Definition estimatedCoursesNeeded (minUnits : Q) (chosen : list Chosen) : Z :=
  Qceiling (Double.div minUnits (avgUnits chosen)).

Definition unitsSection (pools : Obj.t nat) (s : Section) (si : nat)
    (e : EvalState) : option EvalState :=
  match satisfyUnitsSection pools s si (e_alloc e) with
  | None => None
  | Some r =>
      let est := estimatedCoursesNeeded (ur_minUnits r) (ur_chosen r) in
      let got := Z.min (Z.of_nat (List.length (ur_chosen r))) est in
      Some {| e_alloc := ur_alloc r;
              requiredAtomCount := requiredAtomCount e + est;
              metAtomCount := metAtomCount e + got;
              e_report := e_report e ++
                [{| rp_section := si; rp_chosen := ur_chosen r;
                    rp_units := Some (ur_gotUnits r);
                    rp_missing := ur_missing r;
                    rp_required := est; rp_met := got |}] |}
  end.

(** The atoms of the cross-list result: one for the total and one per
    entry of its [perMin]. *)
Definition crossAtoms (cross : CrossResult) : Z * Z :=
  (1 + Z.of_nat (List.length (perMin cross)),
   (if Qgeb (totalUnits cross) (minTotal cross) then 1 else 0)
   + Z.of_nat (List.length
       (filter (fun p => Qgeb (getOr0 (earnedBySection cross) (fst p)) (snd p))
               (perMin cross))))%Z.

(** One entry of [crossFindings], read from the working items. *)
Definition crossFinding (secs : list Section) (st : Store) (r : CrossRule) : Finding :=
  let lists := c_applies_to r in
  let perListUnits0 : Obj.t Q := fold_left (fun o l => Obj.set o l 0) lists [] in
  let '(total, perListUnits) :=
    fold_left
      (fun acc p =>
         let '(si, s) := p in
         if existsb (String.eqb (name s)) lists then
           fold_left
             (fun acc item =>
                let '(total, plu) := acc in
                match matched item, chosen item with
                | true, Some c =>
                    (total + units c, Obj.set plu (name s) (getOr0 plu (name s) + units c))
                | _, _ => acc
                end)
             (getItems st si) acc
         else acc)
      (indexed secs) (0, perListUnits0) in
  let minTotal := orQ (c_min_units_total r) 0 in
  let perListShort :=
    filter (fun p => Qltb (getOr0 perListUnits (fst p)) (snd p))
           (c_per_list_min_units r) in
  {| f_applies_to := lists;
     met_total := Qgeb total minTotal;
     total_units := total;
     need_total := minTotal;
     per_list_min_status :=
       map (fun p => (fst p, getOr0 perListUnits (fst p), snd p)) perListShort |}.

Definition crossFindings (detail : Detail) (secs : list Section) (st : Store)
    : list Finding :=
  map (crossFinding secs st)
      (filter (fun r => String.eqb (Str.toUpperCase (c_type r)) "CROSS_LIST_UNITS")
              (cross_list_rules detail)).

Fixpoint runUnits (pools : Obj.t nat) (l : list (nat * Section)) (e : EvalState)
    : option EvalState :=
  match l with
  | [] => Some e
  | (si, s) :: rest =>
      match unitsSection pools s si e with
      | Some e' => runUnits pools rest e'
      | None => None
      end
  end.

(** The section loops of [evaluateProgram], after the cross-list call:
    ALL/LIST sections, then COUNT sections, then UNITS sections. *)
Definition sectionsPhase (detail : Detail) (skipGESections : bool)
    (used0 : CodeSet) : option EvalState :=
  let secs := map workingSection (sections detail) in
  let poolsByList := buildPools secs in
  let store0 := map indexSectionItems (sections detail) in
  let skipped (s : Section) := skipGESections && isGESection (name s) in
  let e0 := {| e_alloc := {| store := store0; usedSet := used0 |};
               requiredAtomCount := 0; metAtomCount := 0; e_report := [] |} in
  let e1 :=
    fold_left (fun e p => if skipped (snd p) then e else allishSection (fst p) e)
              (filter (fun p => isAllish detail (snd p)) (indexed secs)) e0 in
  let e2 :=
    fold_left (fun e p => if skipped (snd p) then e
                          else countSection poolsByList (snd p) (fst p) e)
              (filter (fun p => String.eqb (ruleTypeOf (r_type (rule (snd p)))) "COUNT"
                                && negb (sectionIsInCrossList detail (name (snd p))))
                      (indexed secs)) e1 in
  runUnits poolsByList
    (filter (fun p => negb (skipped (snd p)))
       (filter (fun p => String.eqb (ruleTypeOf (r_type (rule (snd p)))) "UNITS")
               (indexed secs))) e2.

(** [evaluateProgram] on the taken set built from the transcript.  The
    display rows ([details]) are not part of the embedding. *)
Definition evaluateProgram (detail : Detail) (skipGESections : bool)
    : option Result :=
  let secs := map workingSection (sections detail) in
  let '(cross, used0) := evalCrossListUnits detail [] in
  match sectionsPhase detail skipGESections used0 with
  | None => None
  | Some e3 =>
      let '(required, met) :=
        match cross with
        | Some c => (requiredAtomCount e3 + fst (crossAtoms c),
                     metAtomCount e3 + snd (crossAtoms c))%Z
        | None => (requiredAtomCount e3, metAtomCount e3)
        end in
      let hasAnyItems :=
        existsb (fun items => negb (Nat.eqb (List.length items) 0))
                (store (e_alloc e3)) in
      let pct :=
        if Z.eqb required 0 then (if hasAnyItems then 0 else 100)%Z
        else roundQ (Double.mul (Double.div (inject_Z met) (inject_Z required)) 100) in
      Some {| percent := pct;
              requiredItems := required;
              satisfied := met;
              cross_list_checks :=
                crossFindings detail secs (store (e_alloc e3));
              crossListSummary := cross;
              isComplete := option_map (fun _ => Z.eqb met required) cross;
              finalAlloc := e_alloc e3;
              report := e_report e3 |}
  end.

End Evaluator.
End Program.

(** ** GE evaluator *)

Module GE.

Record AreaSpec := {
  area : string;
  min_courses : nat;
  min_units : Q;
  distinct_disciplines : nat
}.

Record RequireSpec := {
  attribute : string;
  count : nat;
  from_areas : list string;
  satisfies_area : option string
}.

(** A logic node.  The source dispatches on the fields present: [area],
    then [bucket], then [op] (AND/OR); a child of an AND with a [require]
    field is an attribute requirement.  [NOther] is an absent node or one
    with none of these fields. *)
Inductive Node :=
| NArea (a : AreaSpec)
| NBucket (a : AreaSpec)
| NAnd (nodes : list Node) (min_total_courses : nat) (and_min_units : Q)
| NOr (nodes : list Node) (display_as : option string) (group : option string)
| NRequire (r : RequireSpec)
| NOther.

(** The working state of one [evaluateGE] call. *)
Record State := {
  used : CodeSet;
  alloc : Obj.t (list string);
  orGroups : Obj.t (list string);
  orChoice : Obj.t (option string)
}.

Record Scored := { c : string; u : Q; w : Z }.

Record Picked := { p_chosen : list string; p_units : Q; p_satisfied : bool }.

Record Score := { sc_units : Q; sc_courses : nat }.

(** A scored OR alternative: the position of the child, whether its trial
    was satisfied, its delta score and the snapshot it ran against. *)
Record Choice := {
  ch_child : nat;
  ch_ok : bool;
  ch_score : Score;
  ch_snap : CodeSet * Obj.t (list string)
}.

Definition getList (o : Obj.t (list string)) (k : string) : list string :=
  match Obj.get o k with Some l => l | None => [] end.

Definition codesOf (o : Obj.t CodeSet) (k : string) : CodeSet :=
  match Obj.get o k with Some l => l | None => [] end.

Fixpoint dedupe (l : list string) (seen : CodeSet) : list string :=
  match l with
  | [] => []
  | x :: l' => if has seen x then dedupe l' seen else x :: dedupe l' (x :: seen)
  end.

(** Comparator [(a, b) => a.w - b.w || b.u - a.u]. *)
Definition rankBefore (a b : Scored) : bool :=
  (w a <? w b)%Z || ((w a =? w b)%Z && Qltb (u b) (u a)).

(** Comparator [(x, y) => y.u - x.u] on [(area, code, units)]. *)
Definition moreUnits3 (x y : string * string * Q) : bool :=
  Qltb (snd y) (snd x).

(** Whether an alternative replaces the best one so far. *)
Definition better (a b : Choice) : bool :=
  (ch_ok b && negb (ch_ok a)) ||
  (Bool.eqb (ch_ok b) (ch_ok a) &&
   (Qltb (sc_units (ch_score a)) (sc_units (ch_score b)) ||
    (Qeq_bool (sc_units (ch_score b)) (sc_units (ch_score a)) &&
     (sc_courses (ch_score a) <? sc_courses (ch_score b))%nat))).

Definition isOpNode (n : Node) : bool :=
  match n with NAnd _ _ _ | NOr _ _ _ => true | _ => false end.

Definition isAreaNode (n : Node) : bool :=
  match n with NArea a => Str.nonEmpty (area a) | _ => false end.

(** [x.area || x.bucket] of a child. *)
Definition areaOrBucket (n : Node) : option string :=
  match n with
  | NArea a | NBucket a => if Str.nonEmpty (area a) then Some (area a) else None
  | _ => None
  end.

Definition kidAreasOf (kids : list Node) : list string :=
  flat_map (fun k => match areaOrBucket k with Some a => [a] | None => [] end) kids.

Fixpoint joinSlash (l : list string) : string :=
  match l with
  | [] => ""
  | [x] => x
  | x :: l' => x ++ "/" ++ joinSlash l'
  end.

Definition groupLabelOf (display_as group : option string) (kidAreas : list string)
    : string :=
  let d := match display_as with Some d => Str.trim d | None => "" end in
  if Str.nonEmpty d then d
  else match group with
       | Some g => if Str.nonEmpty g then g
                   else match kidAreas with [] => "OR" | _ => joinSlash kidAreas end
       | None => match kidAreas with [] => "OR" | _ => joinSlash kidAreas end
       end.

Section Evaluator.

(** Lookups built by [buildGELookups] and the head of [evaluateGE]. *)
Variable bucketMap : Obj.t CodeSet.
Variable attrMap : Obj.t CodeSet.
(** [examUnits]: units of the exam pseudo-courses, by code. *)
Variable examUnits : Obj.t Q.
Variable examByArea : Obj.t CodeSet.
(** Passed courses of the transcript and the exam pseudo-courses. *)
Variable okCourses : CodeSet.
(** [state.coursesIndex]: the [MinimumCredits] of a catalog course. *)
Variable coursesIndex : string -> option Q.

Definition unitsFor (code : string) : Q :=
  match Obj.get examUnits code with
  | Some x => x
  | None => match coursesIndex code with Some m => m | None => 0 end
  end.

Definition areaCandidates : Obj.t (list string) :=
  map (fun p =>
         let fromCatalog := filter (has okCourses) (snd p) in
         let fromExams := codesOf examByArea (fst p) in
         (fst p, dedupe (fromCatalog ++ fromExams) []))
      bucketMap.

Definition countAreasContaining (code : string) : nat :=
  List.length (filter (fun s => has s code) (Obj.values bucketMap)).

Definition multiUseCount (code : string) : Z :=
  Z.of_nat (countAreasContaining code) - 1.

Definition prefOf (code : string) : string :=
  if Obj.hasKey examUnits code then "EXAM:" ++ code else prefixOf code.

Definition scoredPool (areaName : string) (usedNow : CodeSet) : list Scored :=
  sortBy rankBefore
    (map (fun x => {| c := x; u := unitsFor x; w := multiUseCount x |})
         (filter (fun x => negb (has usedNow x)) (getList areaCandidates areaName))).

(** Selection state: [chosen], [units], [seenPrefixes]. *)
Definition Sel := (list string * Q * CodeSet)%type.

(** First pass: down the ranking, until both minima are met. *)
Fixpoint pass1 (needCourses : nat) (needUnits : Q) (needDistinct : nat)
    (scored : list Scored) (sel : Sel) : Sel :=
  match scored with
  | [] => sel
  | it :: rest =>
      let '(chosen, units, seen) := sel in
      let pref := prefOf (c it) in
      if negb (Nat.eqb needDistinct 0) && has seen pref
      then pass1 needCourses needUnits needDistinct rest sel
      else
        let chosen' := chosen ++ [c it] in
        let units' := units + u it in
        let seen' := add seen pref in
        if (needCourses <=? List.length chosen')%nat && Qgeb units' needUnits
        then (chosen', units', seen')
        else pass1 needCourses needUnits needDistinct rest (chosen', units', seen')
  end.

(** Second pass, entered when units are still short. *)
Fixpoint pass2 (needUnits : Q) (needDistinct : nat)
    (scored : list Scored) (sel : Sel) : Sel :=
  match scored with
  | [] => sel
  | it :: rest =>
      let '(chosen, units, seen) := sel in
      if existsb (String.eqb (c it)) chosen then pass2 needUnits needDistinct rest sel
      else
        let pref := prefOf (c it) in
        if negb (Nat.eqb needDistinct 0) && has seen pref
        then pass2 needUnits needDistinct rest sel
        else
          let chosen' := chosen ++ [c it] in
          let units' := units + u it in
          let seen' := add seen pref in
          if Qgeb units' needUnits then (chosen', units', seen')
          else pass2 needUnits needDistinct rest (chosen', units', seen')
  end.

Definition pickForArea (areaObj : AreaSpec) (usedNow : CodeSet) : Picked :=
  let needCourses := min_courses areaObj in
  let needUnits := min_units areaObj in
  let pool := filter (fun x => negb (has usedNow x))
                     (getList areaCandidates (area areaObj)) in
  match pool with
  | [] => {| p_chosen := []; p_units := 0; p_satisfied := false |}
  | _ =>
      let scored := scoredPool (area areaObj) usedNow in
      let needDistinct := distinct_disciplines areaObj in
      let sel1 := pass1 needCourses needUnits needDistinct scored ([], 0, []) in
      let '(chosen, units, _) :=
        if Qltb (snd (fst sel1)) needUnits
        then pass2 needUnits needDistinct scored sel1
        else sel1 in
      if String.eqb (area areaObj) "6A" &&
         existsb (Str.startsWith "EXAM:Other:IGETC 6A") chosen
      then {| p_chosen := chosen; p_units := units;
              p_satisfied := (needCourses <=? List.length chosen)%nat |}
      else {| p_chosen := chosen; p_units := units;
              p_satisfied := (needCourses <=? List.length chosen)%nat
                             && Qgeb units needUnits |}
  end.

(** [alloc[k].push(x)] with [alloc[k]] created when absent. *)
Definition pushAlloc (al : Obj.t (list string)) (k x : string) : Obj.t (list string) :=
  Obj.set al k (getList al k ++ [x]).

(** An area or bucket leaf of [walk]. *)
Definition walkLeaf (a : AreaSpec) (st : State) : bool * State :=
  let res := pickForArea a (used st) in
  match p_chosen res with
  | [] => (p_satisfied res, st)
  | _ =>
      let al0 := Obj.set (alloc st) (area a) (getList (alloc st) (area a)) in
      let '(us, al) :=
        fold_left
          (fun acc x =>
             let '(us, al) := acc in
             if has us x then acc else (add us x, pushAlloc al (area a) x))
          (p_chosen res) (used st, al0) in
      (p_satisfied res,
       {| used := us; alloc := al; orGroups := orGroups st; orChoice := orChoice st |})
  end.

Definition countOr1 (r : RequireSpec) : nat :=
  match count r with O => 1%nat | n => n end.

Fixpoint requireLoop (cnt : nat) (satArea : option string)
    (pool : list (string * string * Q)) (picked : nat) (st : State) : nat * State :=
  match pool with
  | [] => (picked, st)
  | (a, x, _) :: rest =>
      let us := add (used st) x in
      let al1 := Obj.set (alloc st) a (getList (alloc st) a) in
      let al2 :=
        if Nat.eqb (List.length (getList al1 a)) 0 &&
           negb (existsb (String.eqb x) (getList al1 a))
        then pushAlloc al1 a x else al1 in
      let al3 :=
        match satArea with
        | Some sa =>
            let al := Obj.set al2 sa (getList al2 sa) in
            if negb (existsb (String.eqb x) (getList al sa))
            then pushAlloc al sa x else al
        | None => al2
        end in
      let st' := {| used := us; alloc := al3;
                    orGroups := orGroups st; orChoice := orChoice st |} in
      if (cnt <=? S picked)%nat then (S picked, st')
      else requireLoop cnt satArea rest (S picked) st'
  end.

(** [satisfyRequires]. *)
Definition satisfyRequires (r : RequireSpec) (st : State) : bool * State :=
  let labSet := codesOf attrMap (attribute r) in
  let pool :=
    sortBy moreUnits3
      (flat_map (fun a =>
                   map (fun x => (a, x, unitsFor x))
                       (filter (fun x => negb (has (used st) x) && has labSet x)
                               (getList areaCandidates a)))
                (from_areas r)) in
  let satArea := match satisfies_area r with
                 | Some sa => if Str.nonEmpty sa then Some sa else None
                 | None => None
                 end in
  let '(picked, st') := requireLoop (countOr1 r) satArea pool 0 st in
  ((countOr1 r <=? picked)%nat, st').

Fixpoint groupFill (groupMinCourses : nat) (groupMinUnits : Q)
    (pools : list (string * string * Q)) (have : nat * Q) (st : State)
    : (nat * Q) * State :=
  match pools with
  | [] => (have, st)
  | (a, x, ux) :: rest =>
      let st' := {| used := add (used st) x; alloc := pushAlloc (alloc st) a x;
                    orGroups := orGroups st; orChoice := orChoice st |} in
      let have' := (S (fst have), snd have + ux) in
      if (groupMinCourses <=? fst have')%nat && Qgeb (snd have') groupMinUnits
      then (have', st')
      else groupFill groupMinCourses groupMinUnits rest have' st'
  end.

(** The group-level minimum of an AND node: [None] when the node declares
    none, otherwise whether it is met after the fill. *)
Definition groupMinimum (sub : list Node) (groupMinCourses : nat) (groupMinUnits : Q)
    (st : State) : option bool * State :=
  if negb (Nat.eqb groupMinCourses 0) || negb (Qeq_bool groupMinUnits 0) then
    let involvedAreas := kidAreasOf sub in
    let haveCourses :=
      list_sum (map (fun a => List.length (getList (alloc st) a)) involvedAreas) in
    let haveUnits :=
      fold_left (fun t a => t + Qsum (map unitsFor (getList (alloc st) a)))
                involvedAreas 0 in
    let deficitCourses := (groupMinCourses - haveCourses)%nat in
    if negb (Nat.eqb deficitCourses 0) || Qltb haveUnits groupMinUnits then
      let pools :=
        sortBy moreUnits3
          (flat_map (fun a =>
                       map (fun x => (a, x, unitsFor x))
                           (filter (fun x => negb (has (used st) x))
                                   (getList areaCandidates a)))
                    involvedAreas) in
      let '((hc, hu), st') :=
        groupFill groupMinCourses groupMinUnits pools (haveCourses, haveUnits) st in
      (Some ((groupMinCourses <=? hc)%nat && Qgeb hu groupMinUnits), st')
    else
      (Some ((groupMinCourses <=? haveCourses)%nat && Qgeb haveUnits groupMinUnits), st)
  else (None, st).

(** [deltaScore(before, after)]. *)
Definition deltaScore (before after : Obj.t (list string)) : Score :=
  fold_left
    (fun sc a =>
       fold_left
         (fun sc x =>
            if existsb (String.eqb x) (getList before a) then sc
            else {| sc_units := sc_units sc + unitsFor x;
                    sc_courses := S (sc_courses sc) |})
         (getList after a) sc)
    (dedupe (Obj.keys after ++ Obj.keys before) [])
    {| sc_units := 0; sc_courses := 0 |}.

(** [restore(snap)]: [used] and [alloc] go back to the snapshot. *)
Definition restore (snap : CodeSet * Obj.t (list string)) (st : State) : State :=
  {| used := fst snap; alloc := snd snap;
     orGroups := orGroups st; orChoice := orChoice st |}.

Section Walk.

(** The recursive call of [walk]. *)
Variable walkRec : Node -> State -> bool * State.

(** [for (const n of sub.filter(p)) out.push(walk(n))]. *)
Fixpoint walkEach (p : Node -> bool) (sub : list Node) (out : list bool) (st : State)
    : list bool * State :=
  match sub with
  | [] => (out, st)
  | n :: rest =>
      if p n then
        let '(ok, st') := walkRec n st in
        walkEach p rest (out ++ [ok]) st'
      else walkEach p rest out st
  end.

(** The scoring loop of an OR node over the children from position [i]. *)
Fixpoint orTrials (kids : list Node) (i : nat) (best : option Choice) (st : State)
    : option Choice * State :=
  match kids with
  | [] => (best, st)
  | child :: rest =>
      let snap := (used st, alloc st) in
      let '(ok, st1) := walkRec child st in
      let score := deltaScore (snd snap) (alloc st1) in
      let choice := {| ch_child := i; ch_ok := ok; ch_score := score; ch_snap := snap |} in
      let best' :=
        match best with
        | None => Some choice
        | Some a => if better a choice then Some choice else Some a
        end in
      orTrials rest (S i) best' (restore snap st1)
  end.

(** [walk(best.child)]: the child at the recorded position. *)
Fixpoint walkNth (kids : list Node) (i : nat) (st : State) : bool * State :=
  match kids, i with
  | [], _ => (true, st)
  | child :: _, O => walkRec child st
  | _ :: rest, S i' => walkNth rest i' st
  end.

End Walk.

Definition requireEach (sub : list Node) (out : list bool) (st : State)
    : list bool * State :=
  fold_left
    (fun acc n =>
       match n with
       | NRequire r =>
           let '(ok, st') := satisfyRequires r (snd acc) in (fst acc ++ [ok], st')
       | _ => acc
       end)
    sub (out, st).

(** What an OR node records after the winner has been re-run. *)
Definition commitOr (kids : list Node) (display_as group : option string)
    (st : State) : State :=
  let kidAreas := kidAreasOf kids in
  let groupLabel := groupLabelOf display_as group kidAreas in
  let chosenArea :=
    match find (fun a => negb (Nat.eqb (List.length (getList (alloc st) a)) 0)) kidAreas with
    | Some a => Some a
    | None => hd_error kidAreas
    end in
  {| used := used st;
     alloc := Obj.set (alloc st) groupLabel
                (match chosenArea with Some a => getList (alloc st) a | None => [] end);
     orGroups := Obj.set (orGroups st) groupLabel kidAreas;
     orChoice := Obj.set (orChoice st) groupLabel chosenArea |}.

Fixpoint walk (node : Node) (st : State) {struct node} : bool * State :=
  match node with
  | NArea a => if Str.nonEmpty (area a) then walkLeaf a st else (true, st)
  | NBucket a => if Str.nonEmpty (area a) then walkLeaf a st else (true, st)
  | NAnd sub groupMinCourses groupMinUnits =>
      let '(out1, st1) := walkEach walk isOpNode sub [] st in
      let '(out2, st2) := walkEach walk isAreaNode sub out1 st1 in
      let '(out3, st3) := requireEach sub out2 st2 in
      let '(g, st4) := groupMinimum sub groupMinCourses groupMinUnits st3 in
      let out4 := match g with Some ok => out3 ++ [ok] | None => out3 end in
      (forallb (fun ok => ok) out4, st4)
  | NOr kids display_as group =>
      match orTrials walk kids 0 None st with
      | (Some best, st1) =>
          let '(_, st2) := walkNth walk kids (ch_child best) st1 in
          (true, commitOr kids display_as group st2)
      | (None, st1) => (false, st1)
      end
  | NRequire _ => (true, st)
  | NOther => (true, st)
  end.

(** The allocation part of [evaluateGE]: [walk(ge.logic)] from an empty
    state.  The per-area summary and the percentage computed from the
    final [alloc] are not part of the embedding. *)
Definition evaluateGE (logic : Node) : State :=
  snd (walk logic {| used := []; alloc := []; orGroups := []; orChoice := [] |}).

End Evaluator.

End GE.

(** ** Prerequisite summaries *)

Module PrereqSummary.
Import Prereq.

(** What [checkPrereqsMet] returns: the evaluation and the tree. *)
Record Check := { result : Result; tree : option Node }.

(** An entry of [missing]: a string, or the group [{op, items}]. *)
Inductive SummaryItem :=
| SStr (s : string)
| SGroup (groupOp : string) (items : list string).

Record Summary := {
  course : string;
  prereqTree : option Node;
  missing : list SummaryItem
}.

(** The strings of an option, nested arrays spread in order:
    [flattenOptions(opt, null)]. *)
Fixpoint flattenOption (m : Missing) : list string :=
  match m with
  | MStr s => [s]
  | MArr l => flat_map flattenOption l
  end.

(** [flattenOptions(opts, op)] of [getMissingPrereqSummary]. *)
Definition flattenOptions (opts : list Missing) (op : option string)
    : list SummaryItem :=
  let items := flat_map flattenOption opts in
  match op with
  | Some o =>
      if String.eqb o "OR" && (1 <? List.length items)%nat
      then [SGroup "OR" items] else map SStr items
  | None => map SStr items
  end.

Section Summary.

Variable aliases : CourseAliases.
Variable userExams : list UserExam.
Variable takenSet : CodeSet.
(** [state.coursesIndex.get(code)?.RequirementTree]. *)
Variable requirementTree : string -> option Node.

Definition getCoursePrereqs (courseCode : string) : option Node :=
  requirementTree (canonicalizeCode aliases courseCode).

Definition checkPrereqsMet (courseCode : string) : Check :=
  match getCoursePrereqs courseCode with
  | None => {| result := trivially; tree := None |}
  | Some prereqs =>
      {| result := evalPrereqNode aliases userExams takenSet prereqs;
         tree := Some prereqs |}
  end.

(** [getMissingPrereqSummary]: [None] is the source's [null]. *)
Definition getMissingPrereqSummary (courseCode : string) : option Summary :=
  let r := checkPrereqsMet courseCode in
  if met (result r) then None
  else Some {| course := courseCode;
               prereqTree := tree r;
               missing := flattenOptions (options (result r)) (op (result r)) |}.

End Summary.

End PrereqSummary.

(** ** GE summary *)

Module GESummary.
Import GE.

(** A row of [perArea]. *)
Record AreaStatus := {
  have : nat;
  units : Q;
  needCourses : nat;
  needUnits : Q;
  distinct : nat
}.

(** What [evaluateGE] returns. *)
Record GEResult := {
  r_alloc : Obj.t (list string);
  perArea : Obj.t AreaStatus;
  percent : Z;
  displayGroups : Obj.t (list string)
}.

(** [findAreaSpec]: the first node, in document order, whose [area] or
    [bucket] is the given name. *)
Fixpoint findAreaSpec (node : Node) (areaName : string) : option AreaSpec :=
  let first :=
    fix first (kids : list Node) : option AreaSpec :=
      match kids with
      | [] => None
      | k :: rest =>
          match findAreaSpec k areaName with
          | Some hit => Some hit
          | None => first rest
          end
      end in
  match node with
  | NArea a | NBucket a => if String.eqb (area a) areaName then Some a else None
  | NAnd kids _ _ => first kids
  | NOr kids _ _ => first kids
  | NRequire _ | NOther => None
  end.

(** The array [out] after [listAreaLeaves(node, out)]. *)
Fixpoint pushLeaves (node : Node) (out : list string) : list string :=
  match node with
  | NArea a | NBucket a => if Str.nonEmpty (area a) then out ++ [area a] else out
  | NOr kids display_as group => out ++ [groupLabelOf display_as group (kidAreasOf kids)]
  | NAnd kids _ _ => fold_left (fun o k => pushLeaves k o) kids out
  | NRequire _ | NOther => out
  end.

Definition uniq (a : list string) : list string := dedupe a [].

(** [listAreaLeaves(node)]: a leaf or an OR node returns [out] itself,
    every other node [uniq(out)]. *)
Definition listAreaLeaves (node : Node) : list string :=
  match node with
  | NArea a | NBucket a =>
      if Str.nonEmpty (area a) then pushLeaves node [] else uniq (pushLeaves node [])
  | NOr _ _ _ => pushLeaves node []
  | _ => uniq (pushLeaves node [])
  end.

(** [arr.length ? Math.min(...arr) : 0]. *)
Definition minOrZeroNat (arr : list nat) : nat :=
  match arr with
  | [] => 0%nat
  | x :: rest => fold_left Nat.min rest x
  end.

Definition minOrZeroQ (arr : list Q) : Q :=
  match arr with
  | [] => 0
  | x :: rest => fold_left (fun m y => if Qltb y m then y else m) rest x
  end.

Section Summary.

Variable bucketMap : Obj.t CodeSet.
Variable attrMap : Obj.t CodeSet.
Variable examUnits : Obj.t Q.
Variable examByArea : Obj.t CodeSet.
Variable okCourses : CodeSet.
Variable coursesIndex : string -> option Q.
(** [ge.pattern] and [ge.logic]. *)
Variable pattern : string.
Variable logic : Node.

Definition specMinCourses (s : option AreaSpec) : nat :=
  match s with Some a => min_courses a | None => 0%nat end.

Definition specMinUnits (s : option AreaSpec) : Q :=
  match s with Some a => min_units a | None => 0 end.

Definition specDistinct (s : option AreaSpec) : nat :=
  match s with Some a => distinct_disciplines a | None => 0%nat end.

Definition unitsOf (list : list string) : Q :=
  Qsum (map (unitsFor examUnits coursesIndex) list).

(** The row of a bucket. *)
Definition bucketRow (al : Obj.t (list string)) (areaName : string) : AreaStatus :=
  let list := getList al areaName in
  let spec := findAreaSpec logic areaName in
  {| have := List.length list;
     units := unitsOf list;
     needCourses := specMinCourses spec;
     needUnits :=
       if String.eqb pattern "igetc" && String.eqb areaName "6A" &&
          existsb (Str.startsWith "EXAM:Other:IGETC 6A") list
       then 0 else specMinUnits spec;
     distinct := specDistinct spec |}.

(** The row of an OR group. *)
Definition groupRow (al : Obj.t (list string)) (label : string)
    (children : list string) : AreaStatus :=
  let chosenList := getList al label in
  let childSpecs := map (findAreaSpec logic) children in
  {| have := List.length chosenList;
     units := unitsOf chosenList;
     needCourses := minOrZeroNat (map specMinCourses childSpecs);
     needUnits := minOrZeroQ (map specMinUnits childSpecs);
     distinct := 0 |}.

(** The row of any other allocated key. *)
Definition otherRow (al : Obj.t (list string)) (areaName : string) : AreaStatus :=
  let list := getList al areaName in
  {| have := List.length list; units := unitsOf list;
     needCourses := 1; needUnits := 0; distinct := 0 |}.

Definition buildPerArea (al orGroups : Obj.t (list string)) : Obj.t AreaStatus :=
  let p1 :=
    fold_left (fun pa areaName => Obj.set pa areaName (bucketRow al areaName))
              (Obj.keys bucketMap) [] in
  let p2 :=
    fold_left (fun pa e => Obj.set pa (fst e) (groupRow al (fst e) (snd e)))
              orGroups p1 in
  fold_left (fun pa areaName =>
               if Obj.hasKey pa areaName then pa
               else Obj.set pa areaName (otherRow al areaName))
            (Obj.keys al) p2.

(** The filter of [doneLeaves]. *)
Definition leafDone (pa : Obj.t AreaStatus) (a : string) : bool :=
  match Obj.get pa a with
  | None => false
  | Some s => (needCourses s <=? have s)%nat && Qgeb (units s) (needUnits s)
  end.

Definition percentOf (pa : Obj.t AreaStatus) : Z :=
  let reqLeaves := listAreaLeaves logic in
  let doneLeaves := filter (leafDone pa) reqLeaves in
  match reqLeaves with
  | [] => 0%Z
  | _ => roundQ (inject_Z (100 * Z.of_nat (List.length doneLeaves))
                 / inject_Z (Z.of_nat (List.length reqLeaves)))
  end.

(** [evaluateGE]: the walk, then the per-area summary and the
    percentage. *)
Definition evaluateGESummary : GEResult :=
  let st := GE.evaluateGE bucketMap attrMap examUnits examByArea okCourses
                          coursesIndex logic in
  let pa := buildPerArea (alloc st) (orGroups st) in
  {| r_alloc := alloc st; perArea := pa; percent := percentOf pa;
     displayGroups := orGroups st |}.

End Summary.

End GESummary.

(** ** Terms, transcript and catalog rights *)

Module Transcript.

(** An entry of [term.items] and a term of [state.terms]. *)
Record TermItem := { ti_code : string; ti_grade : string }.

Record Term := { season : string; year : Z; items : list TermItem }.

Definition TERM_ORDER : list string := ["Winter"; "Spring"; "Summer"; "Fall"].

(** [l.indexOf(x)]: the first position of [x], or -1. *)
Fixpoint indexOf (l : list string) (x : string) : Z :=
  match l with
  | [] => -1
  | y :: l' =>
      if String.eqb y x then 0
      else let i := indexOf l' x in if (i <? 0)%Z then -1 else i + 1
  end%Z.

Definition compareTerms (a b : Term) : Z :=
  if negb (year a =? year b)%Z then (year a - year b)%Z
  else (indexOf TERM_ORDER (season a) - indexOf TERM_ORDER (season b))%Z.

(** [addTerm]: what it does to [state.terms]. *)
Definition addTerm (s : string) (y : Z) (terms : list Term) : list Term :=
  sortBy (fun a b => (compareTerms a b <? 0)%Z)
         (terms ++ [{| season := s; year := y;
                       items := [{| ti_code := ""; ti_grade := "IP" |}] |}]).

(** [GRADE_POINTS[g]]: [None] is [undefined], [Some None] is [null]. *)
Definition GRADE_POINTS (g : string) : option (option Q) :=
  if String.eqb g "A" then Some (Some 4)
  else if String.eqb g "B" then Some (Some 3)
  else if String.eqb g "C" then Some (Some 2)
  else if String.eqb g "D" then Some (Some 1)
  else if String.eqb g "F" then Some (Some 0)
  else if existsb (String.eqb g) ["P"; "NP"; "IP"; "PL"; "W"] then Some None
  else None.

Definition GRADE_OPTIONS : list string :=
  ["IP"; "PL"; "A"; "B"; "C"; "D"; "F"; "P"; "NP"; "W"].

Definition PASSING_GE : CodeSet := ["A"; "B"; "C"; "P"].

(** A row of the transcript; the display title is left out. *)
Record Row := { code : string; grade : string; units : Q; isPass : bool }.

Record TranscriptResult := {
  all : list Row;
  completed : list Row;
  ip : list Row;
  pl : list Row;
  gpa : option Q;
  unitsCompleted : Q;
  unitsIP : Q;
  unitsPL : Q
}.

(** Exam tables: a row of [state.examData[program]] with the fields the
    score check and the course equivalencies read, and an entry of
    [state.userExams] with its score. *)
Record ExamRow := {
  x_exam : string;
  min_score_butte_csu : option Q;
  min_score_cal_getc : option Q;
  score_cutoff : option Q;
  butte_course_equivalencies : list string
}.

Record ScoredExam := { sx_program : string; sx_exam : string; sx_score : Q }.

Definition meetsScore (row : ExamRow) (scheme : string) (score : Q) : bool :=
  let min :=
    if String.eqb scheme "cal_getc"
    then match min_score_cal_getc row with Some m => m | None => 3 end
    else match min_score_butte_csu row with Some m => m | None => 3 end in
  Qgeb score min
  && match score_cutoff row with
     | Some cut => Qeq_bool cut 0 || Qgeb score cut
     | None => true
     end.

Section Transcript.

Variable aliases : CourseAliases.
(** [state.coursesIndex]: the [MinimumCredits] of a catalog course. *)
Variable coursesIndex : string -> option Q.
(** [state.examData[program] || []]. *)
Variable examData : string -> list ExamRow.

Definition rowOf (it : TermItem) : Row :=
  let codeCanon := canonicalizeCode aliases (ti_code it) in
  {| code := codeCanon;
     grade := ti_grade it;
     units := match coursesIndex codeCanon with Some m => m | None => 0 end;
     isPass := has PASSING_GE (ti_grade it) |}.

Definition rowsOf (terms : list Term) : list Row :=
  flat_map (fun t =>
              flat_map (fun it => if Str.nonEmpty (ti_code it) then [rowOf it] else [])
                       (items t))
           terms.

(** The loop that adds up grade points and graded units. *)
Definition gradeTotals (completed : list Row) : Q * Q :=
  fold_left (fun acc r =>
               match GRADE_POINTS (grade r) with
               | Some (Some gp) => (fst acc + gp * units r, snd acc + units r)
               | _ => acc
               end)
            completed (0, 0).

Definition computeTranscript (terms : list Term) : TranscriptResult :=
  let rows := rowsOf terms in
  let completed :=
    filter (fun r => negb (existsb (String.eqb (grade r)) ["IP"; "PL"; "W"])) rows in
  let ip := filter (fun r => String.eqb (grade r) "IP") rows in
  let pl := filter (fun r => String.eqb (grade r) "PL") rows in
  let '(pts, u) := gradeTotals completed in
  {| all := rows; completed := completed; ip := ip; pl := pl;
     gpa := if Qltb 0 u then Some (pts / u) else None;
     unitsCompleted :=
       Qsum (map units
               (filter (fun r => match GRADE_POINTS (grade r) with
                                 | Some None => false
                                 | _ => true
                                 end) completed));
     unitsIP := Qsum (map units ip);
     unitsPL := Qsum (map units pl) |}.

(** [buildExamEquivalencyCodes]. *)
Definition buildExamEquivalencyCodes (userExams : list ScoredExam) : list string :=
  GESummary.uniq
    (flat_map
       (fun ux =>
          match find (fun r => String.eqb (x_exam r) (sx_exam ux))
                     (examData (sx_program ux)) with
          | Some row =>
              if meetsScore row "butte_local" (sx_score ux)
              then map (fun c => norm (canonicalizeCode aliases c))
                       (butte_course_equivalencies row)
              else []
          | None => []
          end)
       userExams).

(** The head of [evaluateProgram]: the taken set of a transcript. *)
Definition takenCodesRaw (transcript : TranscriptResult) (countPlanned : bool)
    : list string :=
  map code (filter isPass (completed transcript))
  ++ (if countPlanned
      then map code (ip transcript) ++ map code (pl transcript)
      else []).

Definition takenSetOf (transcript : TranscriptResult) (countPlanned : bool)
    (userExams : list ScoredExam) : CodeSet :=
  fold_left add (buildExamEquivalencyCodes userExams)
    (fold_left add
       (map (fun c => norm (canonicalizeCode aliases c))
            (takenCodesRaw transcript countPlanned))
       []).

(** [evaluateProgram(detail, transcript, countPlanned, skipGESections)]. *)
Definition evaluateProgramFromTranscript (detail : Detail)
    (transcript : TranscriptResult)
    (countPlanned skipGESections : bool) (userExams : list ScoredExam)
    : option Program.Result :=
  Program.evaluateProgram aliases coursesIndex
    (takenSetOf transcript countPlanned userExams) detail skipGESections.

End Transcript.

(** *** Catalog rights *)

Definition showZ (y : Z) : string := DecimalString.NilZero.string_of_int (Z.to_int y).

Definition AY_LABEL (y : Z) : string := showZ y ++ "-" ++ showZ (y + 1).

(** [parseInt(s, 10)]: leading white space, an optional sign, then the
    longest run of digits; [None] is [NaN]. *)
Definition parseInt (s : string) : option Z :=
  let s1 := Str.dropSpaces s in
  let '(negative, s2) :=
    match s1 with
    | String "-" r => (true, r)
    | String "+" r => (false, r)
    | _ => (false, s1)
    end in
  let digits := Str.takeUntil (fun c => negb (Str.isDigit c)) s2 in
  if Str.nonEmpty digits
  then let n := Z.of_nat (Program.parseDigits digits 0) in
       Some (if negative then (- n)%Z else n)
  else None.

Definition YEAR_FROM_LABEL (s : string) : option Z := parseInt (String.substring 0 4 s).

Definition termToAY (s : string) (y : Z) : string :=
  if String.eqb s "Fall" then AY_LABEL y
  else if String.eqb s "Spring" || String.eqb s "Summer" then AY_LABEL (y - 1)
  else AY_LABEL y.

(** The loop over the sorted years; [prev] is [years[i-1]]. *)
Fixpoint keepLoop (prev : option Z) (years : list Z) (keep : CodeSet) : CodeSet :=
  match years with
  | [] => keep
  | y :: rest =>
      let keep1 := add keep (AY_LABEL y) in
      let keep2 :=
        match prev with
        | Some p => if (1 <? y - p)%Z then [AY_LABEL y] else keep1
        | None => keep1
        end in
      keepLoop (Some y) rest keep2
  end.

Fixpoint allSome {A} (l : list (option A)) : option (list A) :=
  match l with
  | [] => Some []
  | Some x :: l' => option_map (cons x) (allSome l')
  | None :: _ => None
  end.

(** [computeAutoRights]; the result is [None] when a label does not read
    back as a year ([NaN], outside the embedding). *)
Definition computeAutoRights (terms : list Term) : option CodeSet :=
  let ays :=
    map (fun t => termToAY (season t) (year t))
        (filter (fun t =>
                   existsb (fun i => Str.nonEmpty (ti_code i)
                                     && negb (String.eqb (ti_grade i) "PL"))
                           (items t))
                terms) in
  let uniqAYs := sortBy String.ltb (GESummary.uniq ays) in
  match uniqAYs with
  | [] => Some []
  | _ =>
      match allSome (map YEAR_FROM_LABEL uniqAYs) with
      | Some parsed => Some (keepLoop None (sortBy Z.ltb parsed) [])
      | None => None
      end
  end.

(** [rightsAvailable]: the automatic years, when enabled, and the manual
    ones. *)
Definition rightsAvailable (auto : bool) (allow : CodeSet) (terms : list Term)
    : option CodeSet :=
  match (if auto then computeAutoRights terms else Some []) with
  | Some autoSet => Some (fold_left add allow autoSet)
  | None => None
  end.

End Transcript.

(** ** Program closeness *)

Module Closeness.

(** An entry of a section's [items]: an object with [any_of], an array of
    codes, or a single code. *)
Inductive ListedItem :=
| ITyped (it : RawItem)
| IArray (options : list string)
| ISingle (code : string).

Record ListedSection := {
  l_name : string;
  l_rule : option Rule;
  l_items : list ListedItem
}.

Record Prog := {
  program_type : string;
  prog_code : string;
  prog_sections : list ListedSection;
  prog_cross_list_rules : list CrossRule
}.

(** A row of [details] of the legacy score. *)
Record LegacyRow := {
  lr_or : bool;
  lr_met : bool;
  lr_matched : option string;
  lr_options : list string
}.

Record LegacyScore := {
  pct : Q;
  requiredItems : nat;
  satisfied : nat;
  confidence : Q;
  details : list (string * list LegacyRow)
}.

Inductive Score :=
| NewScore (r : option Program.Result)
| Legacy (s : LegacyScore).

(** [/pat/i.test(s)] for a pattern that is a plain string. *)
Definition testCI (pat s : string) : bool :=
  Str.includes (Str.toLowerCase pat) (Str.toLowerCase s).

(** [programRequiresGE]: [(needsLocal, needsADTGE)]. *)
Definition programRequiresGE (prog : Prog) : bool * bool :=
  let t := program_type prog in
  let code := prog_code prog in
  let isADT :=
    (testCI "for Transfer" t || testCI "AS-T" t || testCI "AA-T" t)
    || (testCI "AS-T" code || testCI "AA-T" code) in
  let isAAAS :=
    (testCI "Associate in Arts" t || testCI "Associate in Science" t) && negb isADT in
  (isAAAS, isADT).

Definition usesNew (prog : Prog) : bool :=
  existsb (fun sec => existsb (fun it => match it with ITyped _ => true | _ => false end)
                              (l_items sec))
          (prog_sections prog).

(** The items as [indexSectionItems] reads them: an item without [any_of]
    has no option. *)
Definition toRaw (it : ListedItem) : RawItem :=
  match it with
  | ITyped r => r
  | IArray _ | ISingle _ => {| any_of := [] |}
  end.

Definition detailOf (prog : Prog) : Detail :=
  {| sections := map (fun s => {| s_name := l_name s; s_rule := l_rule s;
                                  s_items := map toRaw (l_items s) |})
                     (prog_sections prog);
     cross_list_rules := prog_cross_list_rules prog |}.

(** The legacy row of an item. *)
Definition legacyRow (have : CodeSet) (item : ListedItem) : LegacyRow :=
  match item with
  | IArray l =>
      let options := map normalizeCode l in
      let matched :=
        match find (has have) options with
        | Some m => if Str.nonEmpty m then Some m else None
        | None => None
        end in
      {| lr_or := true;
         lr_met := match matched with Some _ => true | None => false end;
         lr_matched := matched; lr_options := options |}
  | ISingle c =>
      let code := normalizeCode c in
      let met := has have code in
      {| lr_or := false; lr_met := met;
         lr_matched := if met then Some code else None; lr_options := [code] |}
  | ITyped _ =>
      {| lr_or := false; lr_met := false; lr_matched := None; lr_options := [] |}
  end.

Section Score.

Variable aliases : CourseAliases.
Variable coursesIndex : string -> option Q.
Variable examData : string -> list Transcript.ExamRow.
Variable userExams : list Transcript.ScoredExam.

(** [scoreProgramCourseCompletion].  The legacy branch is entered only
    when no item has [any_of]. *)
Definition scoreProgramCourseCompletion (prog : Prog)
    (transcript : Transcript.TranscriptResult) (countPlanned : bool) : Score :=
  if usesNew prog then
    let '(needsLocal, needsADTGE) := programRequiresGE prog in
    NewScore (Transcript.evaluateProgramFromTranscript aliases coursesIndex examData
                (detailOf prog) transcript countPlanned (needsLocal || needsADTGE)
                userExams)
  else
    let have0 :=
      fold_left add
        (map Transcript.code (filter Transcript.isPass (Transcript.completed transcript)))
        [] in
    let have :=
      if countPlanned
      then fold_left add (map Transcript.code (Transcript.pl transcript))
             (fold_left add (map Transcript.code (Transcript.ip transcript)) have0)
      else have0 in
    let details :=
      map (fun s => (if Str.nonEmpty (l_name s) then l_name s else "Section",
                     map (legacyRow have) (l_items s)))
          (prog_sections prog) in
    let rows := flat_map snd details in
    let requiredItems := List.length rows in
    let satisfied := List.length (filter lr_met rows) in
    Legacy {| pct := match requiredItems with
                     | O => 0
                     | _ => inject_Z (Z.of_nat satisfied)
                            / inject_Z (Z.of_nat requiredItems)
                     end;
              requiredItems := requiredItems;
              satisfied := satisfied;
              confidence := 1;
              details := details |}.

End Score.

End Closeness.

(** ** Exam area tokens *)

Module ExamAreas.

(** [/^US\d+$/i.test(x)]. *)
Definition isUSToken (x : string) : bool :=
  let up := Str.toUpperCase x in
  Str.startsWith "US" up
  && match Program.dropChars 2 up with
     | EmptyString => false
     | rest => Program.allDigits rest
     end.

(** [x.replace(/^AREA\s*/i, '')]. *)
Definition stripArea (x : string) : string :=
  if Str.startsWith "AREA" (Str.toUpperCase x)
  then Str.dropSpaces (Program.dropChars 4 x)
  else x.

(** [/^(A[123]|B[1234]|C[12]|D|E|F)$/.test(k)]. *)
Definition isCsuArea (k : string) : bool :=
  existsb (String.eqb k)
          ["A1"; "A2"; "A3"; "B1"; "B2"; "B3"; "B4"; "C1"; "C2"; "D"; "E"; "F"].

Definition csuMap : Obj.t string :=
  [("1A", "A2"); ("1B", "A3"); ("1C", "A1"); ("2A", "B4"); ("3A", "C1");
   ("3B", "C2"); ("4", "D"); ("5A", "B1"); ("5B", "B2"); ("5C", "B3"); ("7", "F")].

(** [mapTokensToPatternAreas]. *)
Definition mapTokensToPatternAreas (pattern : string) (tokens : list string)
    : list string :=
  let t := filter (fun x => negb (isUSToken x)) tokens in
  if String.eqb pattern "igetc" || String.eqb pattern "cal_getc"
     || String.eqb pattern "butte_local"
  then map (fun x => Str.toUpperCase (stripArea x)) t
  else if String.eqb pattern "csu_breadth"
  then flat_map (fun x =>
                   let k := Str.toUpperCase (stripArea x) in
                   if isCsuArea k then [k]
                   else match Obj.get csuMap k with
                        | Some v => if Str.nonEmpty v then [v] else []
                        | None => []
                        end)
                t
  else [].

End ExamAreas.

(** * Properties *)

(** ** Sets of codes *)

Lemma has_In (s : CodeSet) (c : string) : has s c = true <-> In c s.
Proof.
  unfold has. rewrite existsb_exists. split.
  - intros [x [Hin Heq]]. apply String.eqb_eq in Heq. now subst.
  - intros Hin. exists c. split; [assumption | apply String.eqb_refl].
Qed.

Lemma has_add (s : CodeSet) (c d : string) :
  has (add s c) d = has s d || String.eqb d c.
Proof.
  unfold add. destruct (has s c) eqn:Hc.
  - destruct (String.eqb d c) eqn:Hd.
    + apply String.eqb_eq in Hd. subst. rewrite Hc. reflexivity.
    + now rewrite orb_false_r.
  - unfold has. rewrite existsb_app. simpl. now rewrite orb_false_r.
Qed.

Lemma has_add_mono (s : CodeSet) (c d : string) :
  has s d = true -> has (add s c) d = true.
Proof. intros H. rewrite has_add, H. reflexivity. Qed.

Lemma has_add_same (s : CodeSet) (c : string) : has (add s c) c = true.
Proof. rewrite has_add, String.eqb_refl. apply orb_true_r. Qed.

(** ** Prerequisite trees *)

Module PrereqFacts.
Import Prereq.

Section Facts.

Variable aliases : CourseAliases.
Variable userExams : list UserExam.
Variable takenSet : CodeSet.

Local Abbreviation eval := (evalPrereqNode aliases userExams takenSet).

Lemma and_met (nodes : list Node) :
  met (eval (PAnd nodes)) = forallb (fun n => met (eval n)) nodes.
Proof.
  cbn [evalPrereqNode met]. induction nodes as [|n ns IH]; [reflexivity|].
  cbn [map forallb]. now rewrite IH.
Qed.

Lemma or_met (nodes : list Node) :
  met (eval (POr nodes)) = existsb (fun n => met (eval n)) nodes.
Proof.
  cbn [evalPrereqNode met]. induction nodes as [|n ns IH]; [reflexivity|].
  cbn [map existsb]. now rewrite IH.
Qed.

Lemma course_met (course : string) :
  Str.nonEmpty course = true ->
  met (eval (PCourse course false)) =
  has takenSet (normalizeCode course)
  || has takenSet (canonicalizeCode aliases (normalizeCode course)).
Proof. intros H. cbn [evalPrereqNode]. rewrite H. reflexivity. Qed.

Lemma concurrent_met (course : string) :
  met (eval (PCourse course true)) = true.
Proof. cbn [evalPrereqNode]. destruct (Str.nonEmpty course); reflexivity. Qed.

End Facts.

(** The tree of scenario 6. *)
Definition scenario6 : Node :=
  PAnd [PCourse "A" false; POr [PCourse "B" false; PCourse "C" false]].

Definition noAliases : CourseAliases :=
  {| alias_to_canonical_codes := fun _ => None;
     prefix_alias_to_canonical_prefix := fun _ => None |}.

(** C9.  On a taken set of canonical codes: an And node is met iff all
    its children are met; an Or node is met iff at least one child is met;
    a course leaf is met iff the canonical code it references is in the
    taken set, except that a leaf flagged Concurrent is always met; and
    the tree And(A, Or(B, C)) is met once A and C are taken.  The
    evaluator is a function of the taken set and returns no new one: the
    set is not changed. *)
Theorem prereq_tree_semantics
    (aliases : CourseAliases) (userExams : list UserExam) (takenSet : CodeSet)
    (Hcanonical : forall c, In c takenSet -> canonicalizeCode aliases c = c) :
  let eval := evalPrereqNode aliases userExams takenSet in
  (forall nodes,
      met (eval (PAnd nodes)) = true <-> Forall (fun n => met (eval n) = true) nodes)
  /\ (forall nodes,
      met (eval (POr nodes)) = true <-> Exists (fun n => met (eval n) = true) nodes)
  /\ (forall course, Str.nonEmpty course = true ->
      (met (eval (PCourse course false)) = true
       <-> In (canonicalizeCode aliases (normalizeCode course)) takenSet))
  /\ (forall course, met (eval (PCourse course true)) = true)
  /\ (In "A" takenSet -> In "C" takenSet -> met (eval scenario6) = true).
Proof.
  intros eval. subst eval. repeat split.
  - rewrite and_met, forallb_forall, Forall_forall. auto.
  - rewrite and_met, forallb_forall, Forall_forall. auto.
  - rewrite or_met, existsb_exists, Exists_exists. auto.
  - rewrite or_met, existsb_exists, Exists_exists. auto.
  - rewrite course_met by assumption. intros Hm.
    apply orb_true_iff in Hm. destruct Hm as [Hm | Hm]; apply has_In in Hm.
    + rewrite (Hcanonical _ Hm). assumption.
    + assumption.
  - intros Hin. rewrite course_met by assumption.
    apply has_In in Hin. rewrite Hin. apply orb_true_r.
  - apply concurrent_met.
  - intros HA HC. unfold scenario6.
    rewrite and_met. cbn [forallb]. rewrite or_met. cbn [existsb].
    rewrite !course_met by reflexivity.
    change (normalizeCode "A") with "A". change (normalizeCode "C") with "C".
    apply has_In in HA. apply has_In in HC. rewrite HA, HC.
    cbn. rewrite !orb_true_r. reflexivity.
Qed.

Lemma prereq_tree_semantics_witness :
  (forall c, In c ["A"; "C"] -> canonicalizeCode noAliases c = c)
  /\ met (evalPrereqNode noAliases [] ["A"; "C"] scenario6) = true.
Proof.
  assert (H : forall c, In c ["A"; "C"] -> canonicalizeCode noAliases c = c).
  { intros c [<- | [<- | []]]; reflexivity. }
  split; [exact H|].
  apply (prereq_tree_semantics noAliases [] ["A"; "C"] H); simpl; auto.
Defined.

End PrereqFacts.

(** ** The item store *)

Lemma updNth_nth_error {A} (f : A -> A) (n : nat) (l : list A) (m : nat) :
  nth_error (updNth f n l) m =
  if (n =? m)%nat then option_map f (nth_error l m) else nth_error l m.
Proof.
  revert n m. induction l as [|x l IH]; intros n m.
  - cbn. destruct m; destruct (n =? _)%nat; reflexivity.
  - destruct n as [|n], m as [|m]; cbn; try reflexivity. apply IH.
Qed.

Lemma updNth_length {A} (f : A -> A) (n : nat) (l : list A) :
  List.length (updNth f n l) = List.length l.
Proof.
  revert n. induction l as [|x l IH]; intros [|n]; cbn; auto.
Qed.

Lemma getItems_nth_error (st : Store) (si : nat) :
  getItems st si = match nth_error st si with Some l => l | None => [] end.
Proof.
  unfold getItems. revert si. induction st as [|x st IH]; intros [|si]; cbn; auto.
Qed.

Definition markOf (pick : Opt) (it : Item) : Item :=
  {| options := options it; matched := true; chosen := Some pick |}.

Lemma getItems_markItem (st : Store) (si ii : nat) (pick : Opt) (sj : nat) :
  getItems (markItem st si ii pick) sj =
  if (si =? sj)%nat then updNth (markOf pick) ii (getItems st sj)
  else getItems st sj.
Proof.
  rewrite !getItems_nth_error. unfold markItem. rewrite updNth_nth_error.
  destruct (si =? sj)%nat; [|reflexivity].
  destruct (nth_error st sj); reflexivity.
Qed.

Lemma getItem_markItem (st : Store) (si ii : nat) (pick : Opt) (sj ij : nat) :
  getItem (markItem st si ii pick) sj ij =
  if (si =? sj)%nat && (ii =? ij)%nat
  then option_map (markOf pick) (getItem st sj ij)
  else getItem st sj ij.
Proof.
  unfold getItem. rewrite getItems_markItem.
  destruct (si =? sj)%nat; [|reflexivity].
  rewrite updNth_nth_error. reflexivity.
Qed.

Lemma getItems_markItem_length (st : Store) (si ii : nat) (pick : Opt) (sj : nat) :
  List.length (getItems (markItem st si ii pick) sj) = List.length (getItems st sj).
Proof.
  rewrite getItems_markItem. destruct (si =? sj)%nat; [apply updNth_length | reflexivity].
Qed.

Lemma getItem_Some_lt (st : Store) (si ii : nat) (it : Item) :
  getItem st si ii = Some it -> (ii < List.length (getItems st si))%nat.
Proof. unfold getItem. intros H. apply nth_error_Some. congruence. Qed.

Lemma getItem_lt_Some (st : Store) (si ii : nat) :
  (ii < List.length (getItems st si))%nat -> exists it, getItem st si ii = Some it.
Proof.
  unfold getItem. intros H. apply nth_error_Some in H.
  destruct (nth_error (getItems st si) ii) as [it|]; [now exists it | congruence].
Qed.

(** ** Allocation only grows *)

Section Grows.

Variable takenSet : CodeSet.

(** From [a] to [a']: codes stay used, items keep their options and stay
    matched, and no item appears or disappears. *)
Definition grows (a a' : Alloc) : Prop :=
  (forall c, has (usedSet a) c = true -> has (usedSet a') c = true)
  /\ (forall si, List.length (getItems (store a') si) = List.length (getItems (store a) si))
  /\ (forall si ii it, getItem (store a) si ii = Some it ->
        exists it', getItem (store a') si ii = Some it'
                    /\ options it' = options it
                    /\ (matched it = true -> matched it' = true)).

Lemma grows_refl (a : Alloc) : grows a a.
Proof.
  repeat split; auto. intros si ii it H. exists it. auto.
Qed.

Lemma grows_trans (a b c : Alloc) : grows a b -> grows b c -> grows a c.
Proof.
  intros [U1 [L1 I1]] [U2 [L2 I2]]. repeat split.
  - auto.
  - intros si. rewrite L2. apply L1.
  - intros si ii it H. destruct (I1 _ _ _ H) as [it1 [H1 [O1 M1]]].
    destruct (I2 _ _ _ H1) as [it2 [H2 [O2 M2]]].
    exists it2. repeat split; [assumption | congruence | auto].
Qed.

Lemma grows_consume (a : Alloc) (si ii : nat) (pick : Opt) :
  grows a (consume a si ii pick).
Proof.
  repeat split; cbn [consume store usedSet].
  - intros c H. now apply has_add_mono.
  - intros sj. apply getItems_markItem_length.
  - intros sj ij it H. rewrite getItem_markItem, H.
    destruct ((si =? sj)%nat && (ii =? ij)%nat).
    + eexists. split; [reflexivity|]. cbn. auto.
    + exists it. auto.
Qed.

Lemma consume_matched (a : Alloc) (si ii : nat) (pick : Opt) (it : Item) :
  getItem (store a) si ii = Some it ->
  exists it', getItem (store (consume a si ii pick)) si ii = Some it'
              /\ matched it' = true.
Proof.
  intros H. cbn [consume store]. rewrite getItem_markItem, H, !Nat.eqb_refl.
  eexists. split; reflexivity.
Qed.

(** An item nothing more can be taken from: matched already, or none of
    its options is taken and unused. *)
Definition spent (a : Alloc) (it : Item) : Prop :=
  matched it = true \/ findMatchForItem it takenSet (usedSet a) = None.

Lemma findMatch_None_mono (it it' : Item) (used used' : CodeSet) :
  options it' = options it ->
  (forall c, has used c = true -> has used' c = true) ->
  findMatchForItem it takenSet used = None ->
  findMatchForItem it' takenSet used' = None.
Proof.
  unfold findMatchForItem. intros -> Hsub Hnone.
  destruct (find (fun opt => has takenSet (code opt) && negb (has used' (code opt)))
                 (options it)) as [o|] eqn:Hf; [|reflexivity].
  apply find_some in Hf. destruct Hf as [Hin Hok].
  pose proof (find_none _ _ Hnone _ Hin) as Hbad. cbn in Hbad.
  apply andb_true_iff in Hok. destruct Hok as [Ht Hu].
  rewrite Ht in Hbad. cbn in Hbad. apply negb_false_iff in Hbad.
  apply Hsub in Hbad. rewrite Hbad in Hu. discriminate.
Qed.

Lemma spent_grows (a a' : Alloc) (si ii : nat) (it : Item) :
  grows a a' -> getItem (store a) si ii = Some it -> spent a it ->
  exists it', getItem (store a') si ii = Some it' /\ spent a' it'.
Proof.
  intros [U [L I]] H Hs. destruct (I _ _ _ H) as [it' [H' [O M]]].
  exists it'. split; [assumption|]. destruct Hs as [Hm | Hn].
  - left. auto.
  - right. eapply findMatch_None_mono; eauto.
Qed.

End Grows.

(** ** COUNT sections *)

Module CountFacts.
Import Program.

(** The allocation of a COUNT section in the spec's words. *)
Section Spec.

Variable takenSet : CodeSet.
Variable poolsByList : Obj.t nat.

(** The local pass in the spec's words: the items in declaration order,
    each giving its first taken and unused option, until [max] are chosen.
    The result lists the item positions with their picks. *)
Fixpoint specLocal (max : nat) (items : list Item) (ii : nat) (used : CodeSet) (n : nat)
    : list (nat * Opt) :=
  match items with
  | [] => []
  | it :: rest =>
      if (max <=? n)%nat then []
      else
        match findMatchForItem it takenSet used with
        | Some pick =>
            (ii, pick) :: specLocal max rest (S ii) (add used (code pick)) (S n)
        | None => specLocal max rest (S ii) used n
        end
  end.

(** Borrowing from one pool: its unmatched items in order, until [need]
    are chosen. *)
Fixpoint specBorrowPool (need : nat) (items : list Item) (ii : nat) (used : CodeSet)
    (n : nat) : list (nat * Opt) :=
  match items with
  | [] => []
  | it :: rest =>
      if (need <=? n)%nat then []
      else if matched it then specBorrowPool need rest (S ii) used n
      else
        match findMatchForItem it takenSet used with
        | Some pick =>
            (ii, pick) :: specBorrowPool need rest (S ii) (add used (code pick)) (S n)
        | None => specBorrowPool need rest (S ii) used n
        end
  end.

(** The items at position [si] take the picks of [evs]. *)
Definition applyPicks (a : Alloc) (si : nat) (evs : list (nat * Opt)) : Alloc :=
  fold_left (fun a p => consume a si (fst p) (snd p)) evs a.

(** A borrowed pick: the list it comes from, where that list is in the
    store, the item and the option. *)
Record Borrowed := { b_list : string; b_pool : nat; b_item : nat; b_pick : Opt }.

Definition applyBorrowed (a : Alloc) (evs : list Borrowed) : Alloc :=
  fold_left (fun a b => consume a (b_pool b) (b_item b) (b_pick b)) evs a.

(** Borrowing in the spec's words: the [allow_from] lists in listed order,
    while fewer than [need] are chosen. *)
Fixpoint specBorrow (need : nat) (allow : list string) (a : Alloc) (n : nat)
    : list Borrowed :=
  match allow with
  | [] => []
  | listName :: rest =>
      if (need <=? n)%nat then []
      else
        match Obj.get poolsByList listName with
        | Some pi =>
            let evs := specBorrowPool need (getItems (store a) pi) 0 (usedSet a) n in
            map (fun p => {| b_list := listName; b_pool := pi;
                             b_item := fst p; b_pick := snd p |}) evs
            ++ specBorrow need rest (applyPicks a pi evs) (n + List.length evs)
        | None => specBorrow need rest a n
        end
  end.

End Spec.

Section Facts.

Variable takenSet : CodeSet.
Variable poolsByList : Obj.t nat.

Lemma countLocal_spec (max : nat) (from : string) (si : nat) (idxs : list nat) :
  forall (a : Alloc) (chosen : list Chosen),
    (List.length chosen <= max)%nat ->
    exists extra,
      snd (countLocal takenSet max from si idxs a chosen) = chosen ++ extra
      /\ (List.length (chosen ++ extra) <= max)%nat
      /\ Forall (fun c => ch_from c = from) extra.
Proof.
  induction idxs as [|ii rest IH]; intros a chosen Hlen; cbn [countLocal].
  - exists []. rewrite app_nil_r. auto.
  - destruct (max <=? List.length chosen)%nat eqn:Hmax.
    { exists []. rewrite app_nil_r. auto. }
    apply Nat.leb_gt in Hmax.
    destruct (getItem (store a) si ii) as [item|]; [|apply IH; assumption].
    destruct (findMatchForItem item takenSet (usedSet a)) as [pick|];
      [|apply IH; assumption].
    destruct (IH (consume a si ii pick) (chosen ++ [mkChosen pick from]))
      as [extra [Heq [Hle Hfrom]]].
    { rewrite length_app. cbn. lia. }
    exists (mkChosen pick from :: extra).
    rewrite Heq, <- app_assoc. cbn [app]. repeat split.
    + rewrite <- app_assoc in Hle. exact Hle.
    + constructor; [reflexivity | assumption].
Qed.

Lemma countBorrowPool_spec (need : nat) (listName : string) (pi : nat)
    (idxs : list nat) :
  forall (a : Alloc) (chosen : list Chosen),
    exists extra,
      snd (countBorrowPool takenSet need listName pi idxs a chosen) = chosen ++ extra
      /\ (extra <> [] -> (List.length (chosen ++ extra) <= need)%nat)
      /\ Forall (fun c => ch_from c = listName) extra.
Proof.
  induction idxs as [|ii rest IH]; intros a chosen; cbn [countBorrowPool].
  - exists []. rewrite app_nil_r. repeat split; auto. congruence.
  - destruct (need <=? List.length chosen)%nat eqn:Hneed.
    { exists []. rewrite app_nil_r. repeat split; auto. congruence. }
    apply Nat.leb_gt in Hneed.
    destruct (getItem (store a) pi ii) as [item|]; [|apply IH].
    destruct (matched item); [apply IH|].
    destruct (findMatchForItem item takenSet (usedSet a)) as [pick|]; [|apply IH].
    destruct (IH (consume a pi ii pick) (chosen ++ [mkChosen pick listName]))
      as [extra [Heq [Hle Hfrom]]].
    exists (mkChosen pick listName :: extra).
    rewrite Heq, <- app_assoc. cbn [app]. repeat split.
    + intros _. destruct extra as [|x extra'].
      * rewrite length_app. cbn. lia.
      * rewrite <- app_assoc in Hle. apply Hle. discriminate.
    + constructor; [reflexivity | assumption].
Qed.

Lemma countBorrow_spec (need : nat) (allow : list string) :
  forall (a : Alloc) (chosen : list Chosen),
    exists extra,
      snd (countBorrow takenSet poolsByList need allow a chosen) = chosen ++ extra
      /\ (extra <> [] -> (List.length (chosen ++ extra) <= need)%nat)
      /\ ((need <= List.length chosen)%nat -> extra = [])
      /\ Forall (fun c => In (ch_from c) allow) extra.
Proof.
  induction allow as [|listName rest IH]; intros a chosen; cbn [countBorrow].
  - exists []. rewrite app_nil_r. repeat split; auto. congruence.
  - destruct (need <=? List.length chosen)%nat eqn:Hneed.
    { exists []. rewrite app_nil_r. repeat split; auto. congruence. }
    apply Nat.leb_gt in Hneed.
    set (step := match Obj.get poolsByList listName with
                 | Some pi => _ | None => _ end).
    assert (Hstep : exists extra1,
               snd step = chosen ++ extra1
               /\ (extra1 <> [] -> (List.length (chosen ++ extra1) <= need)%nat)
               /\ Forall (fun c => ch_from c = listName) extra1).
    { subst step. destruct (Obj.get poolsByList listName) as [pi|].
      - apply countBorrowPool_spec.
      - exists []. rewrite app_nil_r. repeat split; auto. congruence. }
    destruct Hstep as [extra1 [Heq1 [Hle1 Hfrom1]]].
    destruct step as [a' chosen']. cbn [snd] in Heq1. subst chosen'.
    destruct (IH a' (chosen ++ extra1)) as [extra2 [Heq2 [Hle2 [Hnil2 Hfrom2]]]].
    exists (extra1 ++ extra2). rewrite Heq2, <- app_assoc. repeat split.
    + intros Hne. destruct extra2 as [|x extra2'].
      * rewrite app_nil_r in *. apply Hle1. exact Hne.
      * rewrite app_assoc. apply Hle2. discriminate.
    + intros Hge. lia.
    + apply Forall_app. split.
      * eapply Forall_impl; [|exact Hfrom1]. cbn. intros c ->. now left.
      * eapply Forall_impl; [|exact Hfrom2]. cbn. intros c Hin. now right.
Qed.

Lemma grows_getItem_back (a a' : Alloc) (si ii : nat) (it' : Item) :
  grows a a' -> getItem (store a') si ii = Some it' ->
  exists it, getItem (store a) si ii = Some it.
Proof.
  intros [_ [L _]] H. apply getItem_Some_lt in H. rewrite L in H.
  now apply getItem_lt_Some.
Qed.

Lemma spent_final (a a' : Alloc) (si ii : nat) (it it' : Item) :
  grows a a' -> getItem (store a) si ii = Some it -> spent takenSet a it ->
  getItem (store a') si ii = Some it' -> spent takenSet a' it'.
Proof.
  intros G H Hs H'. destruct (spent_grows takenSet a a' si ii it G H Hs)
    as [it2 [H2 Hs2]]. congruence.
Qed.

Lemma countLocal_grows (max : nat) (from : string) (si : nat) (idxs : list nat) :
  forall (a : Alloc) (chosen : list Chosen),
    grows a (fst (countLocal takenSet max from si idxs a chosen)).
Proof.
  induction idxs as [|ii rest IH]; intros a chosen; cbn [countLocal].
  - apply grows_refl.
  - destruct (max <=? List.length chosen)%nat; [apply grows_refl|].
    destruct (getItem (store a) si ii) as [item|]; [|apply IH].
    destruct (findMatchForItem item takenSet (usedSet a)) as [pick|]; [|apply IH].
    eapply grows_trans; [apply grows_consume | apply IH].
Qed.

Lemma countBorrowPool_exhaust (need : nat) (listName : string) (pi : nat)
    (idxs : list nat) :
  forall (a : Alloc) (chosen : list Chosen),
    let r := countBorrowPool takenSet need listName pi idxs a chosen in
    grows a (fst r)
    /\ ((List.length (snd r) < need)%nat ->
        forall ii it, In ii idxs -> getItem (store (fst r)) pi ii = Some it ->
                      spent takenSet (fst r) it).
Proof.
  induction idxs as [|ii0 rest IH]; intros a chosen; cbn [countBorrowPool].
  - split; [apply grows_refl | intros _ ii it []].
  - destruct (need <=? List.length chosen)%nat eqn:Hneed.
    { apply Nat.leb_le in Hneed. cbn. split; [apply grows_refl | lia]. }
    assert (Hkeep : forall a2 : Alloc,
               grows a a2 ->
               (forall it2, getItem (store a2) pi ii0 = Some it2 -> spent takenSet a2 it2) ->
               forall chosen2,
                 let r := countBorrowPool takenSet need listName pi rest a2 chosen2 in
                 grows a (fst r)
                 /\ ((List.length (snd r) < need)%nat ->
                     forall ii it, In ii (ii0 :: rest) ->
                                   getItem (store (fst r)) pi ii = Some it ->
                                   spent takenSet (fst r) it)).
    { intros a2 G2 Hs2 chosen2. destruct (IH a2 chosen2) as [G Hex].
      split; [eapply grows_trans; eassumption|].
      intros Hlt ii it [<- | Hin] Hget; [|exact (Hex Hlt ii it Hin Hget)].
      destruct (grows_getItem_back _ _ _ _ _ G Hget) as [it2 H2].
      eapply spent_final; eauto. }
    destruct (getItem (store a) pi ii0) as [item|] eqn:Hitem.
    + destruct (matched item) eqn:Hm.
      * apply Hkeep; [apply grows_refl|]. intros it2 H2.
        left. congruence.
      * destruct (findMatchForItem item takenSet (usedSet a)) as [pick|] eqn:Hf.
        -- apply Hkeep; [apply grows_consume|]. intros it2 H2.
           destruct (consume_matched a pi ii0 pick item Hitem) as [it3 [H3 M3]].
           left. congruence.
        -- apply Hkeep; [apply grows_refl|]. intros it2 H2.
           right. congruence.
    + apply Hkeep; [apply grows_refl|]. intros it2 H2. congruence.
Qed.

Lemma countBorrow_exhaust (need : nat) (allow : list string) :
  forall (a : Alloc) (chosen : list Chosen),
    let r := countBorrow takenSet poolsByList need allow a chosen in
    grows a (fst r)
    /\ ((List.length (snd r) < need)%nat ->
        forall listName pi ii it,
          In listName allow -> Obj.get poolsByList listName = Some pi ->
          getItem (store (fst r)) pi ii = Some it -> spent takenSet (fst r) it).
Proof.
  induction allow as [|l0 rest IH]; intros a chosen; cbn [countBorrow].
  - split; [apply grows_refl | intros _ ? ? ? ? []].
  - destruct (need <=? List.length chosen)%nat eqn:Hneed.
    { apply Nat.leb_le in Hneed. cbn. split; [apply grows_refl | lia]. }
    destruct (Obj.get poolsByList l0) as [pi0|] eqn:Hpool.
    + pose proof (countBorrowPool_exhaust need l0 pi0
                    (seq 0 (List.length (getItems (store a) pi0))) a chosen) as Hp.
      destruct (countBorrowPool takenSet need l0 pi0 _ a chosen) as [a1 chosen1].
      cbn [fst snd] in Hp. destruct Hp as [G1 Hex1].
      pose proof (countBorrow_spec need rest a1 chosen1) as [extra [Heq _]].
      destruct (IH a1 chosen1) as [G2 Hex2].
      split; [eapply grows_trans; eassumption|].
      intros Hlt listName pi ii it [<- | Hin] Hget Hitem;
        [|exact (Hex2 Hlt listName pi ii it Hin Hget Hitem)].
      assert (pi = pi0) by congruence. subst pi.
      destruct (grows_getItem_back _ _ _ _ _ G2 Hitem) as [it1 H1].
      eapply spent_final; [exact G2 | exact H1 | | exact Hitem].
      apply (Hex1 ltac:(rewrite Heq, length_app in Hlt; lia) ii it1); [|exact H1].
      apply in_seq. apply getItem_Some_lt in H1.
      destruct G1 as [_ [L1 _]]. rewrite L1 in H1. lia.
    + destruct (IH a chosen) as [G2 Hex2]. split; [exact G2|].
      intros Hlt listName pi ii it [<- | Hin] Hget Hitem;
        [congruence | exact (Hex2 Hlt listName pi ii it Hin Hget Hitem)].
Qed.

(** The allocator against the spec's words. *)
Lemma getItem_consume_other (a : Alloc) (si ii : nat) (pick : Opt) (sj ij : nat) :
  (si <> sj \/ ii <> ij) ->
  getItem (store (consume a si ii pick)) sj ij = getItem (store a) sj ij.
Proof.
  intros H. cbn [consume store]. rewrite getItem_markItem.
  destruct (si =? sj)%nat eqn:E1; [|reflexivity].
  destruct (ii =? ij)%nat eqn:E2; [|reflexivity].
  apply Nat.eqb_eq in E1, E2. lia.
Qed.

Lemma countLocal_refines (max : nat) (from : string) (si : nat) (items : list Item) :
  forall (ii : nat) (a : Alloc) (chosen : list Chosen),
    (forall j, nth_error items j = getItem (store a) si (ii + j)) ->
    let evs := specLocal takenSet max items ii (usedSet a) (List.length chosen) in
    countLocal takenSet max from si (seq ii (List.length items)) a chosen
    = (applyPicks a si evs, chosen ++ map (fun p => mkChosen (snd p) from) evs).
Proof.
  induction items as [|it rest IH]; intros ii a chosen Hitems; cbn [List.length seq countLocal specLocal].
  - cbn. now rewrite app_nil_r.
  - destruct (max <=? List.length chosen)%nat; [cbn; now rewrite app_nil_r|].
    pose proof (Hitems 0%nat) as H0. rewrite Nat.add_0_r in H0. cbn in H0. rewrite <- H0.
    assert (Hrest : forall a', (forall j, getItem (store a') si (S ii + j) = getItem (store a) si (S ii + j)) ->
                               forall j, nth_error rest j = getItem (store a') si (S ii + j)).
    { intros a' Ha' j. rewrite Ha'. specialize (Hitems (S j)). cbn in Hitems.
      rewrite Hitems. f_equal. lia. }
    destruct (findMatchForItem it takenSet (usedSet a)) as [pick|].
    + rewrite (IH (S ii) (consume a si ii pick) (chosen ++ [mkChosen pick from])).
      * cbn [usedSet consume]. rewrite length_app. cbn [List.length].
        replace (List.length chosen + 1)%nat with (S (List.length chosen)) by lia.
        cbn [applyPicks fold_left map fst snd]. rewrite <- app_assoc. reflexivity.
      * apply Hrest. intros j. apply getItem_consume_other. right. lia.
    + apply IH. apply Hrest. reflexivity.
Qed.

Lemma countBorrowPool_refines (need : nat) (listName : string) (pi : nat)
    (items : list Item) :
  forall (ii : nat) (a : Alloc) (chosen : list Chosen),
    (forall j, nth_error items j = getItem (store a) pi (ii + j)) ->
    let evs := specBorrowPool takenSet need items ii (usedSet a) (List.length chosen) in
    countBorrowPool takenSet need listName pi (seq ii (List.length items)) a chosen
    = (applyPicks a pi evs, chosen ++ map (fun p => mkChosen (snd p) listName) evs).
Proof.
  induction items as [|it rest IH]; intros ii a chosen Hitems;
    cbn [List.length seq countBorrowPool specBorrowPool].
  - cbn. now rewrite app_nil_r.
  - destruct (need <=? List.length chosen)%nat; [cbn; now rewrite app_nil_r|].
    pose proof (Hitems 0%nat) as H0. rewrite Nat.add_0_r in H0. cbn in H0. rewrite <- H0.
    assert (Hrest : forall a', (forall j, getItem (store a') pi (S ii + j) = getItem (store a) pi (S ii + j)) ->
                               forall j, nth_error rest j = getItem (store a') pi (S ii + j)).
    { intros a' Ha' j. rewrite Ha'. specialize (Hitems (S j)). cbn in Hitems.
      rewrite Hitems. f_equal. lia. }
    destruct (matched it); [apply IH; apply Hrest; reflexivity|].
    destruct (findMatchForItem it takenSet (usedSet a)) as [pick|].
    + rewrite (IH (S ii) (consume a pi ii pick) (chosen ++ [mkChosen pick listName])).
      * cbn [usedSet consume]. rewrite length_app. cbn [List.length].
        replace (List.length chosen + 1)%nat with (S (List.length chosen)) by lia.
        cbn [applyPicks fold_left map fst snd]. rewrite <- app_assoc. reflexivity.
      * apply Hrest. intros j. apply getItem_consume_other. right. lia.
    + apply IH. apply Hrest. reflexivity.
Qed.

Definition borrowedChoice (b : Borrowed) : Chosen := mkChosen (b_pick b) (b_list b).

Lemma applyBorrowed_app (a : Alloc) (l1 l2 : list Borrowed) :
  applyBorrowed a (l1 ++ l2) = applyBorrowed (applyBorrowed a l1) l2.
Proof. unfold applyBorrowed. apply fold_left_app. Qed.

Lemma applyBorrowed_pool (a : Alloc) (listName : string) (pi : nat) (evs : list (nat * Opt)) :
  applyBorrowed a (map (fun p => {| b_list := listName; b_pool := pi;
                                    b_item := fst p; b_pick := snd p |}) evs)
  = applyPicks a pi evs.
Proof.
  revert a. induction evs as [|p evs IH]; intros a; [reflexivity|].
  cbn [map applyBorrowed applyPicks fold_left b_pool b_item b_pick].
  apply IH.
Qed.

Lemma countBorrow_refines (need : nat) (allow : list string) :
  forall (a : Alloc) (chosen : list Chosen),
    let evs := specBorrow takenSet poolsByList need allow a (List.length chosen) in
    countBorrow takenSet poolsByList need allow a chosen
    = (applyBorrowed a evs, chosen ++ map borrowedChoice evs).
Proof.
  induction allow as [|listName rest IH]; intros a chosen; cbn [countBorrow specBorrow].
  - cbn. now rewrite app_nil_r.
  - destruct (need <=? List.length chosen)%nat; [cbn; now rewrite app_nil_r|].
    destruct (Obj.get poolsByList listName) as [pi|]; [|apply IH].
    rewrite (countBorrowPool_refines need listName pi (getItems (store a) pi) 0 a chosen)
      by (intros j; reflexivity).
    cbv zeta.
    set (evs := specBorrowPool takenSet need (getItems (store a) pi) 0 (usedSet a)
                               (List.length chosen)).
    rewrite IH. rewrite length_app, length_map.
    rewrite applyBorrowed_app, applyBorrowed_pool, map_app, map_map, app_assoc.
    reflexivity.
Qed.

Lemma specLocal_positions (max : nat) (items : list Item) :
  forall ii used n,
    let evs := specLocal takenSet max items ii used n in
    Forall (fun p => (ii <= fst p)%nat) evs
    /\ StronglySorted lt (map fst evs)
    /\ (n <= max -> n + List.length evs <= max)%nat.
Proof.
  induction items as [|it rest IH]; intros ii used n; cbn [specLocal].
  - cbn. repeat split; [constructor | constructor | lia].
  - destruct (max <=? n)%nat eqn:Hmax.
    { cbn. repeat split; [constructor | constructor | lia]. }
    apply Nat.leb_gt in Hmax.
    destruct (findMatchForItem it takenSet used) as [pick|].
    + destruct (IH (S ii) (add used (code pick)) (S n)) as [H1 [H2 H3]].
      cbn [map fst List.length]. repeat split.
      * constructor; [cbn; lia|]. eapply Forall_impl; [|exact H1]. cbn. intros; lia.
      * constructor; [exact H2|]. apply Forall_map.
        eapply Forall_impl; [|exact H1]. cbn. intros; lia.
      * intros _. specialize (H3 ltac:(lia)). lia.
    + destruct (IH (S ii) used n) as [H1 [H2 H3]]. repeat split; auto.
      eapply Forall_impl; [|exact H1]. cbn. intros; lia.
Qed.

(** When the local pass ends with fewer than [max] courses, it has been
    through all the items it was given: each is matched or has no taken,
    unused option left. *)
Lemma countLocal_exhaust (max : nat) (from : string) (si : nat) (idxs : list nat) :
  forall (a : Alloc) (chosen : list Chosen),
    let r := countLocal takenSet max from si idxs a chosen in
    grows a (fst r)
    /\ ((List.length (snd r) < max)%nat ->
        forall ii it, In ii idxs -> getItem (store (fst r)) si ii = Some it ->
                      spent takenSet (fst r) it).
Proof.
  induction idxs as [|ii0 rest IH]; intros a chosen; cbn [countLocal].
  - split; [apply grows_refl | intros _ ii it []].
  - destruct (max <=? List.length chosen)%nat eqn:Hmax.
    { apply Nat.leb_le in Hmax. cbn. split; [apply grows_refl | lia]. }
    assert (Hkeep : forall a2 : Alloc,
               grows a a2 ->
               (forall it2, getItem (store a2) si ii0 = Some it2 -> spent takenSet a2 it2) ->
               forall chosen2,
                 let r := countLocal takenSet max from si rest a2 chosen2 in
                 grows a (fst r)
                 /\ ((List.length (snd r) < max)%nat ->
                     forall ii it, In ii (ii0 :: rest) ->
                                   getItem (store (fst r)) si ii = Some it ->
                                   spent takenSet (fst r) it)).
    { intros a2 G2 Hs2 chosen2. destruct (IH a2 chosen2) as [G Hex].
      split; [eapply grows_trans; eassumption|].
      intros Hlt ii it [<- | Hin] Hget; [|exact (Hex Hlt ii it Hin Hget)].
      destruct (grows_getItem_back _ _ _ _ _ G Hget) as [it2 H2].
      eapply spent_final; eauto. }
    destruct (getItem (store a) si ii0) as [item|] eqn:Hitem.
    + destruct (findMatchForItem item takenSet (usedSet a)) as [pick|] eqn:Hf.
      * apply Hkeep; [apply grows_consume|]. intros it2 H2.
        destruct (consume_matched a si ii0 pick item Hitem) as [it3 [H3 M3]].
        left. congruence.
      * apply Hkeep; [apply grows_refl|]. intros it2 H2.
        right. congruence.
    + apply Hkeep; [apply grows_refl|]. intros it2 H2. congruence.
Qed.

Lemma specBorrow_lists (need : nat) (allow : list string) :
  forall a n,
    Forall (fun b => In (b_list b) allow
                     /\ Obj.get poolsByList (b_list b) = Some (b_pool b))
           (specBorrow takenSet poolsByList need allow a n).
Proof.
  induction allow as [|l rest IH]; intros a n; cbn [specBorrow]; [constructor|].
  destruct (need <=? n)%nat; [constructor|].
  destruct (Obj.get poolsByList l) as [pi|] eqn:E.
  - apply Forall_app. split.
    + apply Forall_map. apply Forall_forall. intros p _. cbn. auto.
    + eapply Forall_impl; [|apply IH]. cbn. intros b [H1 H2]. auto.
  - eapply Forall_impl; [|apply IH]. cbn. intros b [H1 H2]. auto.
Qed.

End Facts.
(** C6.  A COUNT section with [min <= max] never selects more than [max]
    items.  Its allocation is the one the spec describes: the local pass
    goes through the section's own items in declaration order and takes
    from each its first taken and unused option, until [max] are chosen;
    only when it ends short of [min] are items borrowed, from the unmatched
    items of the [allow_from] pools in listed order, until [min] is reached
    or the pools are exhausted.  When the local pass ends below [max] every
    own item is matched or has no taken, unused option; when the section
    ends short of [min] the same holds of every [allow_from] pool.  The
    section adds [min] required atoms and [min(chosen, min)] satisfied
    atoms. *)
Theorem count_section_allocation
    (takenSet : CodeSet) (poolsByList : Obj.t nat)
    (s : Section) (si : nat) (e : EvalState)
    (Hminmax : (ruleMin (rule s) <= ruleMax (rule s))%nat) :
  let need := ruleMin (rule s) in
  let max := ruleMax (rule s) in
  let a := e_alloc e in
  let locals := specLocal takenSet max (getItems (store a) si) 0 (usedSet a) 0 in
  let a1 := applyPicks a si locals in
  let borrowed :=
    specBorrow takenSet poolsByList need (r_allow_from (rule s)) a1
               (List.length locals) in
  let r := satisfyCountSection takenSet poolsByList s si a in
  let e' := countSection takenSet poolsByList s si e in
  fst r = applyBorrowed a1 borrowed
  /\ snd r = map (fun p => mkChosen (snd p) (name s)) locals
             ++ map borrowedChoice borrowed
  /\ (List.length (snd r) <= max)%nat
  /\ (List.length locals <= max)%nat
  /\ StronglySorted lt (map fst locals)
  /\ ((List.length locals < max)%nat ->
      forall ii it, getItem (store a1) si ii = Some it ->
                    matched it = true \/ findMatchForItem it takenSet (usedSet a1) = None)
  /\ Forall (fun b => In (b_list b) (r_allow_from (rule s))
                      /\ Obj.get poolsByList (b_list b) = Some (b_pool b)) borrowed
  /\ ((need <= List.length locals)%nat -> borrowed = [])
  /\ (borrowed <> [] -> (List.length (snd r) <= need)%nat)
  /\ ((List.length (snd r) < need)%nat ->
      forall listName pi ii it,
        In listName (r_allow_from (rule s)) ->
        Obj.get poolsByList listName = Some pi ->
        getItem (store (fst r)) pi ii = Some it ->
        matched it = true \/ findMatchForItem it takenSet (usedSet (fst r)) = None)
  /\ requiredAtomCount e' = (requiredAtomCount e + Z.of_nat need)%Z
  /\ metAtomCount e' =
     (metAtomCount e + Z.of_nat (Nat.min (List.length (snd r)) need))%Z
  /\ (Nat.min (List.length (snd r)) need <= need)%nat.
Proof.
  intros need max a locals a1 borrowed r e'.
  pose proof (countLocal_refines takenSet max (name s) si (getItems (store a) si) 0 a [])
    as Hloc.
  cbv zeta in Hloc. cbn [List.length app] in Hloc. fold locals a1 in Hloc.
  specialize (Hloc ltac:(intros j; reflexivity)).
  pose proof (countBorrow_refines takenSet poolsByList need (r_allow_from (rule s)) a1
                (map (fun p => mkChosen (snd p) (name s)) locals)) as Hbor.
  cbv zeta in Hbor. rewrite length_map in Hbor. fold borrowed in Hbor.
  assert (Hr : r = (applyBorrowed a1 borrowed,
                    map (fun p => mkChosen (snd p) (name s)) locals
                    ++ map borrowedChoice borrowed)).
  { subst r. unfold satisfyCountSection. fold a need max. rewrite Hloc. exact Hbor. }
  destruct (specLocal_positions takenSet max (getItems (store a) si) 0 (usedSet a) 0)
    as [_ [Hsorted Hlocmax]].
  fold locals in Hsorted, Hlocmax. specialize (Hlocmax ltac:(lia)). cbn [Nat.add] in Hlocmax.
  pose proof (countLocal_exhaust takenSet max (name s) si
                (seq 0 (List.length (getItems (store a) si))) a []) as [_ Hlocex].
  rewrite Hloc in Hlocex. cbn [fst snd] in Hlocex. rewrite length_map in Hlocex.
  destruct (countBorrow_spec takenSet poolsByList need (r_allow_from (rule s)) a1
              (map (fun p => mkChosen (snd p) (name s)) locals))
    as [bor [Hb [Hborle [Hbornil _]]]].
  rewrite Hbor in Hb. cbn [snd] in Hb. apply app_inv_head in Hb. subst bor.
  rewrite length_map in Hbornil.
  pose proof (countBorrow_exhaust takenSet poolsByList need (r_allow_from (rule s)) a1
                (map (fun p => mkChosen (snd p) (name s)) locals)) as [_ Hex].
  rewrite Hbor in Hex. cbn [fst snd] in Hex.
  assert (Hnil : (need <= List.length locals)%nat -> borrowed = []).
  { intros H. specialize (Hbornil H).
    destruct borrowed; [reflexivity | discriminate]. }
  assert (Hle : borrowed <> [] -> (List.length (snd r) <= need)%nat).
  { intros H. rewrite Hr. cbn [snd]. apply Hborle.
    intros Hm. destruct borrowed; [congruence | discriminate]. }
  assert (Hlen : (List.length (snd r) <= max)%nat).
  { destruct borrowed as [|b bs] eqn:Eb.
    - rewrite Hr. cbn [snd map]. rewrite app_nil_r, length_map. exact Hlocmax.
    - etransitivity; [apply Hle; discriminate | exact Hminmax]. }
  split; [now rewrite Hr|]. split; [now rewrite Hr|].
  split; [exact Hlen|]. split; [exact Hlocmax|]. split; [exact Hsorted|].
  split.
  { intros Hlt ii it Hget. apply (Hlocex Hlt ii it); [|exact Hget].
    apply in_seq. apply getItem_Some_lt in Hget.
    assert (G : grows a a1).
    { pose proof (countLocal_grows takenSet max (name s) si
                    (seq 0 (List.length (getItems (store a) si))) a []) as G.
      now rewrite Hloc in G. }
    destruct G as [_ [L _]]. rewrite L in Hget. lia. }
  split; [apply specBorrow_lists|].
  split; [exact Hnil|]. split; [exact Hle|].
  split.
  { rewrite Hr. cbn [fst snd]. exact Hex. }
  subst e'. unfold countSection. fold a r need. destruct r as [a2 chosen2].
  cbn [snd requiredAtomCount metAtomCount].
  repeat split; lia.
Qed.


(** Scenario 2: [COUNT{min:2, max:2, allow_from:["ElectivesA"]}] with one
    local match and one match in ElectivesA. *)
Definition scenario2Section : Section :=
  {| name := "Core";
     rule := {| r_type := Some "COUNT"; r_min := Some 2%nat; r_max := Some 2%nat;
                r_min_units := None; r_min_disciplines := None;
                r_allow_from := ["ElectivesA"]; r_per_list_min_units := [] |} |}.

Definition scenario2State : EvalState :=
  let item c := {| options := [{| code := c; units := 3 |}];
                   matched := false; chosen := None |} in
  {| e_alloc := {| store := [[item "CORE 1"; item "CORE 2"]; [item "ELEC 1"]];
                   usedSet := [] |};
     requiredAtomCount := 0; metAtomCount := 0; e_report := [] |}.

Lemma count_section_allocation_witness :
  (ruleMin (rule scenario2Section) <= ruleMax (rule scenario2Section))%nat
  /\ (List.length
        (snd (satisfyCountSection ["CORE 1"; "ELEC 1"] [("Core", 0%nat); ("ElectivesA", 1%nat)]
                scenario2Section 0 (e_alloc scenario2State))) <= 2)%nat.
Proof.
  assert (H : (ruleMin (rule scenario2Section) <= ruleMax (rule scenario2Section))%nat)
    by (cbn; lia).
  split; [exact H|].
  exact (proj1 (proj2 (proj2 (count_section_allocation ["CORE 1"; "ELEC 1"]
                                [("Core", 0%nat); ("ElectivesA", 1%nat)]
                                scenario2Section 0 scenario2State H)))).
Defined.

(** Scenario 2 run: both courses are chosen and two atoms are satisfied. *)
Example scenario2_run :
  let e' := countSection ["CORE 1"; "ELEC 1"] [("Core", 0%nat); ("ElectivesA", 1%nat)]
                         scenario2Section 0 scenario2State in
  map ch_code (flat_map rp_chosen (e_report e')) = ["CORE 1"; "ELEC 1"]
  /\ metAtomCount e' = 2%Z.
Proof. vm_compute. split; reflexivity. Qed.

End CountFacts.

(** ** Loops on fuel *)

Lemma while_inv {S : Type} (P : S -> Prop) (body : S -> Step S) :
  (forall s s', P s -> body s = Continue s' -> P s') ->
  (forall s s', P s -> body s = Break s' -> P s') ->
  forall fuel s r, P s -> while fuel body s = Some r -> P r.
Proof.
  intros Hc Hb. induction fuel as [|fuel IH]; intros s r Hs Hrun; cbn in Hrun.
  - discriminate.
  - destruct (body s) as [s'|s'] eqn:Hbody.
    + eapply IH; [|exact Hrun]. eapply Hc; eauto.
    + injection Hrun as <-. eapply Hb; eauto.
Qed.

Lemma while_terminates {S : Type} (m : S -> nat) (body : S -> Step S) :
  (forall s s', body s = Continue s' -> (m s' < m s)%nat) ->
  forall fuel s, (m s < fuel)%nat -> exists r, while fuel body s = Some r.
Proof.
  intros Hdec. induction fuel as [|fuel IH]; intros s Hlt; [lia|].
  cbn. destruct (body s) as [s'|s'] eqn:Hbody.
  - apply IH. apply Hdec in Hbody. lia.
  - now exists s'.
Qed.

(** ** Numbers *)

Lemma Qltb_lt (x y : Q) : Qltb x y = true <-> x < y.
Proof.
  unfold Qltb. rewrite negb_true_iff. split.
  - intros H. apply Qnot_le_lt. intros Hle. apply Qle_bool_iff in Hle. congruence.
  - intros H. destruct (Qle_bool y x) eqn:E; [|reflexivity].
    apply Qle_bool_iff in E. exfalso. apply (Qlt_not_le _ _ H E).
Qed.

Lemma Qltb_ge (x y : Q) : Qltb x y = false <-> y <= x.
Proof.
  unfold Qltb. rewrite negb_false_iff. apply Qle_bool_iff.
Qed.

Lemma Qgeb_le (x y : Q) : Qgeb x y = true <-> y <= x.
Proof. unfold Qgeb. apply Qle_bool_iff. Qed.

Lemma Qgeb_lt (x y : Q) : Qgeb x y = false <-> x < y.
Proof.
  unfold Qgeb. split.
  - intros H. apply Qnot_le_lt. intros Hle. apply Qle_bool_iff in Hle. congruence.
  - intros H. destruct (Qle_bool y x) eqn:E; [|reflexivity].
    apply Qle_bool_iff in E. exfalso. apply (Qlt_not_le _ _ H E).
Qed.

Lemma fold_Qplus_nonneg (l : list Q) :
  Forall (fun q => 0 <= q) l -> forall acc, 0 <= acc -> 0 <= fold_left Qplus l acc.
Proof.
  induction 1 as [|q l Hq Hl IH]; intros acc Hacc; cbn; [assumption|].
  apply IH. lra.
Qed.

Lemma Qsum_nonneg (l : list Q) : Forall (fun q => 0 <= q) l -> 0 <= Qsum l.
Proof. intros H. apply fold_Qplus_nonneg; [assumption | lra]. Qed.

(** ** UNITS sections *)

Module UnitsFacts.
Import Program.

Lemma unmatched_updNth (pick : Opt) (items : list Item) (ii : nat) (it : Item) :
  nth_error items ii = Some it -> matched it = false ->
  S (List.length (filter (fun it => negb (matched it)) (updNth (markOf pick) ii items)))
  = List.length (filter (fun it => negb (matched it)) items).
Proof.
  revert ii. induction items as [|x items IH]; intros [|ii] H Hm; cbn in H; try discriminate.
  - injection H as ->. cbn. rewrite Hm. reflexivity.
  - cbn. destruct (negb (matched x)); cbn; rewrite (IH ii H Hm); reflexivity.
Qed.

Lemma list_sum_updNth {A} (g : A -> nat) (h : A -> A) (l : list A) (n : nat) (x : A) :
  nth_error l n = Some x -> S (g (h x)) = g x ->
  S (list_sum (map g (updNth h n l))) = list_sum (map g l).
Proof.
  revert n. induction l as [|y l IH]; intros [|n] H Hg; cbn in H; try discriminate.
  - injection H as ->. cbn. lia.
  - pose proof (IH n H Hg) as IH'. cbn [updNth map].
    change (list_sum (g y :: map g (updNth h n l)))
      with (g y + list_sum (map g (updNth h n l)))%nat.
    change (list_sum (g y :: map g l)) with (g y + list_sum (map g l))%nat.
    lia.
Qed.

Lemma unmatchedCount_markItem (st : Store) (si ii : nat) (pick : Opt) (it : Item) :
  getItem st si ii = Some it -> matched it = false ->
  S (unmatchedCount (markItem st si ii pick)) = unmatchedCount st.
Proof.
  unfold getItem. rewrite getItems_nth_error. intros H Hm.
  destruct (nth_error st si) as [items|] eqn:Hs; [|destruct ii; discriminate].
  unfold unmatchedCount, markItem.
  apply (list_sum_updNth _ _ st si items Hs).
  apply (unmatched_updNth pick items ii it H Hm).
Qed.

Section Facts.

Variable aliases : CourseAliases.
Variable takenSet : CodeSet.
Variable poolsByList : Obj.t nat.

Lemma firstAvailable_spec (filterFn : Opt -> bool) (used : CodeSet) (items : list Item) :
  forall k ii pick,
    firstAvailable takenSet filterFn used items k = Some (ii, pick) ->
    exists it, (k <= ii)%nat /\ nth_error items (ii - k) = Some it
               /\ matched it = false
               /\ findMatchForItem it takenSet used = Some pick
               /\ filterFn pick = true.
Proof.
  induction items as [|x items IH]; intros k ii pick H; cbn in H; [discriminate|].
  assert (Hrest : firstAvailable takenSet filterFn used items (S k) = Some (ii, pick) ->
                  exists it, (k <= ii)%nat /\ nth_error (x :: items) (ii - k) = Some it
                             /\ matched it = false
                             /\ findMatchForItem it takenSet used = Some pick
                             /\ filterFn pick = true).
  { intros H'. destruct (IH _ _ _ H') as [it [Hle [Hn R]]].
    exists it. split; [lia|]. split; [|exact R].
    replace (ii - k)%nat with (S (ii - S k)) by lia. exact Hn. }
  destruct (matched x) eqn:Hm; [auto|].
  destruct (findMatchForItem x takenSet used) as [p|] eqn:Hf; [|auto].
  destruct (filterFn p) eqn:Hp; [|auto].
  injection H as <- <-. exists x. rewrite Nat.sub_diag. cbn. auto.
Qed.

(** A state reached by taking one pick from an unmatched item. *)
Definition picked (s s' : UnitsState) : Prop :=
  exists pi ii it pick from,
    getItem (store (u_alloc s)) pi ii = Some it
    /\ matched it = false
    /\ findMatchForItem it takenSet (usedSet (u_alloc s)) = Some pick
    /\ s' = takePick s pi ii pick from.

Lemma firstAvailable_picked (filterFn : Opt -> bool) (s : UnitsState) (pi ii : nat)
    (pick : Opt) (from : string) :
  firstAvailable takenSet filterFn (usedSet (u_alloc s))
                 (getItems (store (u_alloc s)) pi) 0 = Some (ii, pick) ->
  picked s (takePick s pi ii pick from).
Proof.
  intros H. apply firstAvailable_spec in H. destruct H as [it [_ [Hn [Hm [Hf _]]]]].
  rewrite Nat.sub_0_r in Hn. exists pi, ii, it, pick, from. auto.
Qed.

Lemma pickOneFromList_picked (listName : string) (s s' : UnitsState) :
  pickOneFromList takenSet poolsByList listName s = Some s' -> picked s s'.
Proof.
  unfold pickOneFromList. destruct (Obj.get poolsByList listName) as [pi|]; [|discriminate].
  destruct (firstAvailable _ _ _ _ _) as [[ii pick]|] eqn:Hf; [|discriminate].
  intros H. injection H as <-. eapply firstAvailable_picked; eauto.
Qed.

Lemma pickFromLists_picked (filterFn : Opt -> bool) (allow : list string)
    (s s' : UnitsState) :
  pickFromLists takenSet poolsByList filterFn allow s = Some s' -> picked s s'.
Proof.
  induction allow as [|l rest IH]; cbn; [discriminate|].
  destruct (Obj.get poolsByList l) as [pi|]; [|exact IH].
  destruct (firstAvailable _ _ _ _ _) as [[ii pick]|] eqn:Hf; [|exact IH].
  intros H. injection H as <-. eapply firstAvailable_picked; eauto.
Qed.

Lemma pickWithFilter_picked (sec : Section) (si : nat) (filterFn : Opt -> bool)
    (s s' : UnitsState) :
  pickWithFilter takenSet poolsByList sec si filterFn s = Some s' -> picked s s'.
Proof.
  unfold pickWithFilter.
  destruct (firstAvailable _ _ _ _ _) as [[ii pick]|] eqn:Hf.
  - intros H. injection H as <-. eapply firstAvailable_picked; eauto.
  - apply pickFromLists_picked.
Qed.

Lemma picked_unmatched (s s' : UnitsState) :
  picked s s' ->
  (unmatchedCount (store (u_alloc s')) < unmatchedCount (store (u_alloc s)))%nat.
Proof.
  intros [pi [ii [it [pick [from [Hget [Hm [_ ->]]]]]]]].
  cbn [takePick u_alloc consume store].
  rewrite <- (unmatchedCount_markItem _ _ _ pick _ Hget Hm). lia.
Qed.

(** *** Termination *)

Lemma perListLoop_total (perListMin : Obj.t Q) (allow : list string) :
  forall s, exists s', perListLoop takenSet poolsByList perListMin allow s = Some s'.
Proof.
  induction allow as [|l rest IH]; intros s; cbn [perListLoop]; [now exists s|].
  destruct (while_terminates
              (fun sh : UnitsState * Q => unmatchedCount (store (u_alloc (fst sh))))
              (perListStep takenSet poolsByList l (getOr0 perListMin l)))
    with (fuel := S (unmatchedCount (store (u_alloc s))))
         (s := (s, unitsFrom l (u_chosen s))) as [[s1 h1] Hrun].
  - intros [s0 h0] [s0' h0']. unfold perListStep.
    destruct (Qltb h0 (getOr0 perListMin l)); [|discriminate].
    destruct (pickOneFromList takenSet poolsByList l s0) as [s2|] eqn:Hp; [|discriminate].
    intros H. injection H as <- _. cbn [fst].
    apply picked_unmatched. eapply pickOneFromList_picked; eauto.
  - cbn. lia.
  - rewrite Hrun. apply IH.
Qed.

(** [satisfyUnitsSection] always returns: the fuel is never used up. *)
Lemma satisfyUnitsSection_total (sec : Section) (si : nat) (a : Alloc) :
  exists r, satisfyUnitsSection aliases takenSet poolsByList sec si a = Some r.
Proof.
  unfold satisfyUnitsSection.
  set (s0 := {| u_alloc := a; u_chosen := []; u_gotUnits := 0 |}).
  assert (H1 : exists s1,
             (if (0 <? ruleMinDisciplines (rule sec))%nat
              then option_map fst
                     (while (S (unmatchedCount (store a)))
                            (disciplineStep aliases takenSet poolsByList sec si
                               (ruleMinUnits (rule sec)) (ruleMinDisciplines (rule sec)))
                            (s0, []))
              else Some (unitsLocal takenSet (ruleMinUnits (rule sec)) (name sec) si
                           (seq 0 (List.length (getItems (store a) si))) s0))
             = Some s1).
  { destruct (0 <? ruleMinDisciplines (rule sec))%nat; [|eauto].
    destruct (while_terminates
                (fun sd : UnitsState * CodeSet => unmatchedCount (store (u_alloc (fst sd))))
                (disciplineStep aliases takenSet poolsByList sec si
                   (ruleMinUnits (rule sec)) (ruleMinDisciplines (rule sec))))
      with (fuel := S (unmatchedCount (store a))) (s := (s0, @nil string))
      as [[s1 d1] Hrun].
    - intros [sa da] [sb db]. unfold disciplineStep.
      destruct (_ && _); [|discriminate].
      destruct (pickWithFilter _ _ _ _ _ sa) as [s2|] eqn:Hp; [|discriminate].
      destruct (_ =? _)%nat; [discriminate|].
      intros H. injection H as <- _. cbn [fst].
      apply picked_unmatched. eapply pickWithFilter_picked; eauto.
    - cbn. lia.
    - rewrite Hrun. cbn. eauto. }
  destruct H1 as [s1 ->].
  destruct (perListLoop_total (r_per_list_min_units (rule sec))
              (r_allow_from (rule sec)) s1) as [s2 ->].
  destruct (while_terminates
              (fun s : UnitsState => unmatchedCount (store (u_alloc s)))
              (topUpStep takenSet poolsByList sec si (ruleMinUnits (rule sec))))
    with (fuel := S (unmatchedCount (store (u_alloc s2)))) (s := s2) as [s3 Hrun].
  - intros sa sb. unfold topUpStep.
    destruct (Qltb _ _); [|discriminate].
    destruct (pickWithFilter _ _ _ _ _ sa) as [s'|] eqn:Hp; [|discriminate].
    intros H. injection H as <-.
    apply picked_unmatched. eapply pickWithFilter_picked; eauto.
  - lia.
  - rewrite Hrun. eauto.
Qed.

(** *** Overshoot of [min_units] *)

(** Every option in the store has a nonnegative unit value. *)
Definition unitsNonneg (st : Store) : Prop :=
  Forall (Forall (fun it => Forall (fun o => 0 <= units o) (options it))) st.

Definition itemsNonneg (st : Store) : Prop :=
  forall si ii it o, getItem st si ii = Some it -> In o (options it) -> 0 <= units o.

Lemma unitsNonneg_items (st : Store) : unitsNonneg st -> itemsNonneg st.
Proof.
  intros H si ii it o Hget Hin. unfold getItem in Hget.
  rewrite getItems_nth_error in Hget.
  destruct (nth_error st si) as [items|] eqn:Hs; [|destruct ii; discriminate].
  apply nth_error_In in Hs, Hget.
  unfold unitsNonneg in H. rewrite Forall_forall in H. specialize (H _ Hs).
  rewrite Forall_forall in H. specialize (H _ Hget).
  rewrite Forall_forall in H. now apply H.
Qed.

(** The last course was added while the total was below [minU]. *)
Definition lastWasNeeded (minU : Q) (chosen : list Chosen) (got : Q) : Prop :=
  (chosen = [] /\ got == 0)
  \/ exists prev c, chosen = prev ++ [c] /\ got - ch_units c < minU.

Definition unitsInv (minU : Q) (s : UnitsState) : Prop :=
  itemsNonneg (store (u_alloc s))
  /\ Forall (fun c => 0 <= ch_units c) (u_chosen s)
  /\ lastWasNeeded minU (u_chosen s) (u_gotUnits s).

Lemma findMatch_In (it : Item) (used : CodeSet) (pick : Opt) :
  findMatchForItem it takenSet used = Some pick -> In pick (options it).
Proof. unfold findMatchForItem. intros H. now apply find_some in H. Qed.

Lemma takePick_inv (minU : Q) (s : UnitsState) (pi ii : nat) (it : Item)
    (pick : Opt) (from : string) :
  unitsInv minU s -> u_gotUnits s < minU ->
  getItem (store (u_alloc s)) pi ii = Some it ->
  findMatchForItem it takenSet (usedSet (u_alloc s)) = Some pick ->
  unitsInv minU (takePick s pi ii pick from).
Proof.
  intros [Hst [Hch _]] Hlt Hget Hf. unfold unitsInv.
  cbn [takePick u_alloc u_chosen u_gotUnits consume store].
  split; [|split].
  - intros sj ij it' o Hget' Hin. rewrite getItem_markItem in Hget'.
    destruct ((pi =? sj)%nat && (ii =? ij)%nat).
    + destruct (getItem (store (u_alloc s)) sj ij) as [it0|] eqn:H0; [|discriminate].
      injection Hget' as <-. eapply Hst; eauto.
    + eapply Hst; eauto.
  - apply Forall_app. split; [assumption|]. constructor; [|constructor].
    cbn. eapply Hst; [exact Hget|]. eapply findMatch_In; eauto.
  - right. exists (u_chosen s), (mkChosen pick from). split; [reflexivity|].
    cbn. lra.
Qed.

Lemma picked_inv (minU : Q) (s s' : UnitsState) :
  unitsInv minU s -> u_gotUnits s < minU -> picked s s' -> unitsInv minU s'.
Proof.
  intros Hinv Hlt [pi [ii [it [pick [from [Hget [_ [Hf ->]]]]]]]].
  eapply takePick_inv; eauto.
Qed.

Lemma unitsLocal_inv (minU : Q) (from : string) (si : nat) (idxs : list nat) :
  forall s, unitsInv minU s ->
            unitsInv minU (unitsLocal takenSet minU from si idxs s).
Proof.
  induction idxs as [|ii rest IH]; intros s Hinv; cbn [unitsLocal]; [assumption|].
  destruct (Qgeb (u_gotUnits s) minU) eqn:Hge; [assumption|].
  apply Qgeb_lt in Hge.
  destruct (getItem (store (u_alloc s)) si ii) as [item|] eqn:Hget; [|auto].
  destruct (findMatchForItem item takenSet (usedSet (u_alloc s))) as [pick|] eqn:Hf;
    [|auto].
  apply IH. eapply takePick_inv; eauto.
Qed.

Lemma unitsFrom_nonneg (l : string) (chosen : list Chosen) :
  Forall (fun c => 0 <= ch_units c) chosen -> 0 <= unitsFrom l chosen.
Proof.
  intros H. unfold unitsFrom. apply Qsum_nonneg.
  apply Forall_map. apply Forall_forall. intros c Hin.
  apply filter_In in Hin. rewrite Forall_forall in H. now apply H.
Qed.

(** Without a positive per-list minimum the per-list loop takes nothing. *)
Lemma perListLoop_idle (perListMin : Obj.t Q) (allow : list string) (s : UnitsState) :
  (forall l, In l allow -> getOr0 perListMin l <= 0) ->
  Forall (fun c => 0 <= ch_units c) (u_chosen s) ->
  perListLoop takenSet poolsByList perListMin allow s = Some s.
Proof.
  intros Hper Hch. induction allow as [|l rest IH]; cbn [perListLoop]; [reflexivity|].
  cbn [while perListStep].
  assert (Hno : Qltb (unitsFrom l (u_chosen s)) (getOr0 perListMin l) = false).
  { apply Qltb_ge. pose proof (unitsFrom_nonneg l _ Hch).
    pose proof (Hper l (or_introl eq_refl)). lra. }
  rewrite Hno. apply IH. intros l' Hin. apply Hper. now right.
Qed.

End Facts.

(** C7, as amended.  For a UNITS section with [min_disciplines = 0], no
    positive per-list minimum on its [allow_from] lists and nonnegative
    unit values, the allocator returns, and every course it added was added
    while the total was still below [min_units]: the final total exceeds
    [min_units] by less than the units of the last chosen course. *)
Theorem units_section_overshoot
    (aliases : CourseAliases) (takenSet : CodeSet) (poolsByList : Obj.t nat)
    (sec : Section) (si : nat) (a : Alloc)
    (Hdisc : ruleMinDisciplines (rule sec) = 0%nat)
    (Hper : forall l, In l (r_allow_from (rule sec)) ->
                      getOr0 (r_per_list_min_units (rule sec)) l <= 0)
    (Hnonneg : unitsNonneg (store a)) :
  exists r,
    satisfyUnitsSection aliases takenSet poolsByList sec si a = Some r
    /\ ((ur_chosen r = [] /\ ur_gotUnits r == 0)
        \/ exists prev c,
             ur_chosen r = prev ++ [c]
             /\ ur_gotUnits r - ch_units c < ruleMinUnits (rule sec)).
Proof.
  destruct (satisfyUnitsSection_total aliases takenSet poolsByList sec si a) as [r Hr].
  exists r. split; [exact Hr|].
  unfold satisfyUnitsSection in Hr. rewrite Hdisc in Hr. cbn [Nat.ltb Nat.leb] in Hr.
  set (minU := ruleMinUnits (rule sec)) in *.
  set (s1 := unitsLocal takenSet minU (name sec) si _ _) in Hr.
  assert (H1 : unitsInv minU s1).
  { apply unitsLocal_inv. split; [|split].
    - now apply unitsNonneg_items.
    - constructor.
    - left. split; [reflexivity|]. cbn. lra. }
  rewrite (perListLoop_idle takenSet poolsByList _ _ s1 Hper (proj1 (proj2 H1))) in Hr.
  destruct (while _ _ s1) as [s3|] eqn:Hw; [|discriminate].
  injection Hr as <-. cbn [ur_chosen ur_gotUnits].
  apply (while_inv (unitsInv minU)) in Hw; [apply Hw | | | exact H1].
  - intros s s' Hinv. unfold topUpStep.
    destruct (Qltb (u_gotUnits s) minU) eqn:Hlt; [|discriminate].
    destruct (pickWithFilter _ _ _ _ _ s) as [s2|] eqn:Hp; [|discriminate].
    intros H. injection H as <-. apply Qltb_lt in Hlt.
    eapply picked_inv; eauto. eapply pickWithFilter_picked; eauto.
  - intros s s' Hinv. unfold topUpStep.
    destruct (Qltb (u_gotUnits s) minU);
      [destruct (pickWithFilter _ _ _ _ _ s)|]; try discriminate;
      intros H; injection H as <-; exact Hinv.
Qed.

Definition unitsRule (minUnits : Q) (allow : list string) (perList : Obj.t Q) : Rule :=
  {| r_type := Some "UNITS"; r_min := None; r_max := None;
     r_min_units := Some minUnits; r_min_disciplines := None;
     r_allow_from := allow; r_per_list_min_units := perList |}.

Definition unitItem (c : string) (u : Q) : Item :=
  {| options := [{| code := c; units := u |}]; matched := false; chosen := None |}.

(** Scenario 3: [UNITS{min_units: 9}] with two 3-unit matches taken. *)
Definition scenario3Section : Section :=
  {| name := "Electives"; rule := unitsRule 9 [] [] |}.

Definition scenario3Alloc : Alloc :=
  {| store := [[unitItem "ART 1" 3; unitItem "ART 2" 3; unitItem "ART 3" 3]];
     usedSet := [] |}.

Lemma units_section_overshoot_witness :
  ruleMinDisciplines (rule scenario3Section) = 0%nat
  /\ unitsNonneg (store scenario3Alloc)
  /\ exists r,
       satisfyUnitsSection PrereqFacts.noAliases ["ART 1"; "ART 2"] [("Electives", 0%nat)]
                           scenario3Section 0 scenario3Alloc = Some r.
Proof.
  assert (Hn : unitsNonneg (store scenario3Alloc)).
  { repeat constructor; cbn; lra. }
  split; [reflexivity|]. split; [exact Hn|].
  destruct (units_section_overshoot PrereqFacts.noAliases ["ART 1"; "ART 2"]
              [("Electives", 0%nat)] scenario3Section 0 scenario3Alloc
              eq_refl (fun l (H : In l []) => match H with end) Hn) as [r [Hr _]].
  exists r. exact Hr.
Defined.

(** Scenario 3 run: [gotUnits = 6] and three more units are missing. *)
Example scenario3_run :
  option_map (fun r => (map ch_code (ur_chosen r), ur_gotUnits r, ur_missing r))
    (satisfyUnitsSection PrereqFacts.noAliases ["ART 1"; "ART 2"] [("Electives", 0%nat)]
                         scenario3Section 0 scenario3Alloc)
  = Some (["ART 1"; "ART 2"], 6, [MoreUnitsOverall 3]).
Proof. vm_compute. reflexivity. Qed.

(** A UNITS section with a per-list minimum: [min_units = 3] is reached by
    the local course, and the minimum of 6 units from list L then adds two
    more courses. *)
Definition perListSection : Section :=
  {| name := "Core"; rule := unitsRule 3 ["L"] [("L", 6)] |}.

Definition perListAlloc : Alloc :=
  {| store := [[unitItem "BIO 1" 3]; [unitItem "LAB 1" 3; unitItem "LAB 2" 3]];
     usedSet := [] |}.

(** C7 as stated fails: with [min_disciplines = 0] the total ends at 9
    units against [min_units = 3], six units over, and no chosen course is
    worth more than 3 units. *)
Lemma units_section_overshoot_counterexample :
  ruleMinDisciplines (rule perListSection) = 0%nat
  /\ exists r,
       satisfyUnitsSection PrereqFacts.noAliases ["BIO 1"; "LAB 1"; "LAB 2"]
         [("Core", 0%nat); ("L", 1%nat)] perListSection 0 perListAlloc = Some r
       /\ ur_gotUnits r == 9
       /\ ~ exists c, In c (ur_chosen r)
                      /\ ur_gotUnits r <= ruleMinUnits (rule perListSection) + ch_units c.
Proof.
  split; [reflexivity|]. eexists. split; [vm_compute; reflexivity|].
  split; [reflexivity|].
  intros [c [Hin Hle]]. cbn in Hin.
  destruct Hin as [<- | [<- | [<- | []]]]; vm_compute in Hle; apply Hle; reflexivity.
Qed.

End UnitsFacts.

(** ** The result of a UNITS section *)

Module UnitsAtoms.
Import Program UnitsFacts.

Lemma satisfyUnitsSection_minUnits (aliases : CourseAliases) (takenSet : CodeSet)
    (poolsByList : Obj.t nat) (sec : Section) (si : nat) (a : Alloc) (r : UnitsResult) :
  satisfyUnitsSection aliases takenSet poolsByList sec si a = Some r ->
  ur_minUnits r = ruleMinUnits (rule sec).
Proof.
  unfold satisfyUnitsSection.
  destruct (if (0 <? _)%nat then _ else _) as [s1|]; [|discriminate].
  destruct (perListLoop _ _ _ _ s1) as [s2|]; [|discriminate].
  destruct (while _ _ s2) as [s3|]; [|discriminate].
  intros H. injection H as <-. reflexivity.
Qed.

Definition scenario3State : EvalState :=
  {| e_alloc := scenario3Alloc; requiredAtomCount := 0; metAtomCount := 0;
     e_report := [] |}.

End UnitsAtoms.

(** ** Stable sorting *)

Section SortBy.

Context {A : Type}.
Variable lt : A -> A -> bool.

(** [a] may stand in front of [b]. *)
Definition notAfter (a b : A) : Prop := lt b a = false.

Hypothesis lt_asym : forall a b, lt a b = true -> lt b a = false.
Hypothesis notAfter_trans : forall a b c, notAfter a b -> notAfter b c -> notAfter a c.

Lemma insertBy_perm (x : A) (l : list A) : Permutation (x :: l) (insertBy lt x l).
Proof.
  induction l as [|y l IH]; cbn; [reflexivity|].
  destruct (lt y x); [|reflexivity].
  etransitivity; [apply perm_swap|]. now constructor.
Qed.

Lemma sortBy_perm (l : list A) : Permutation l (sortBy lt l).
Proof.
  induction l as [|x l IH]; cbn; [constructor|].
  etransitivity; [|apply insertBy_perm]. now constructor.
Qed.

Lemma insertBy_sorted (x : A) (l : list A) :
  StronglySorted notAfter l -> StronglySorted notAfter (insertBy lt x l).
Proof.
  induction 1 as [|y l Hs IH Hy]; cbn.
  - repeat constructor.
  - destruct (lt y x) eqn:E.
    + constructor; [assumption|].
      eapply Permutation_Forall; [apply insertBy_perm|].
      constructor; [|assumption]. unfold notAfter. now apply lt_asym.
    + constructor; [now constructor|].
      constructor; [exact E|].
      eapply Forall_impl; [|exact Hy]. intros z Hz.
      eapply notAfter_trans; [exact E | exact Hz].
Qed.

Lemma sortBy_sorted (l : list A) : StronglySorted notAfter (sortBy lt l).
Proof.
  induction l as [|x l IH]; cbn; [constructor | now apply insertBy_sorted].
Qed.

Lemma sortBy_In (l : list A) (x : A) : In x (sortBy lt l) <-> In x l.
Proof.
  split; apply Permutation_in; [symmetry|]; apply sortBy_perm.
Qed.

End SortBy.

(** ** Objects *)

Lemma Obj_get_replace {V} (o : Obj.t V) (k : string) (v : V) (k' : string) :
  Obj.get (Obj.replace o k v) k'
  = if String.eqb k' k
    then match Obj.get o k with Some _ => Some v | None => None end
    else Obj.get o k'.
Proof.
  induction o as [|[k0 v0] o IH]; cbn.
  - destruct (String.eqb k' k); reflexivity.
  - destruct (String.eqb k k0) eqn:E; cbn.
    + apply String.eqb_eq in E. subst k0.
      destruct (String.eqb k' k); reflexivity.
    + destruct (String.eqb k' k0) eqn:E'.
      * apply String.eqb_eq in E'. subst k0.
        rewrite String.eqb_sym, E. reflexivity.
      * exact IH.
Qed.

Lemma Obj_get_insert {V} (o : Obj.t V) (k : string) (v : V) (k' : string) :
  Obj.get o k = None ->
  Obj.get (Obj.insert o k v) k' = if String.eqb k' k then Some v else Obj.get o k'.
Proof.
  induction o as [|[k0 v0] o IH]; cbn; [reflexivity|].
  destruct (String.eqb k k0) eqn:E; [discriminate|]. intros Hk.
  destruct (Obj.before k k0); cbn.
  - destruct (String.eqb k' k); reflexivity.
  - destruct (String.eqb k' k0) eqn:E'.
    + apply String.eqb_eq in E'. subst k0.
      rewrite String.eqb_sym, E. reflexivity.
    + exact (IH Hk).
Qed.

Lemma Obj_get_set {V} (o : Obj.t V) (k : string) (v : V) (k' : string) :
  Obj.get (Obj.set o k v) k' = if String.eqb k' k then Some v else Obj.get o k'.
Proof.
  unfold Obj.set. destruct (Obj.get o k) eqn:E.
  - rewrite Obj_get_replace, E. reflexivity.
  - now apply Obj_get_insert.
Qed.

Lemma Obj_keys_replace {V} (o : Obj.t V) (k : string) (v : V) :
  Obj.keys (Obj.replace o k v) = Obj.keys o.
Proof.
  unfold Obj.keys. induction o as [|[k0 v0] o IH]; cbn; [reflexivity|].
  destruct (String.eqb k k0); cbn; [reflexivity | now rewrite IH].
Qed.

Lemma Obj_keys_insert {V} (o : Obj.t V) (k : string) (v : V) :
  Permutation (Obj.keys o ++ [k]) (Obj.keys (Obj.insert o k v)).
Proof.
  unfold Obj.keys. induction o as [|[k0 v0] o IH]; cbn; [reflexivity|].
  destruct (Obj.before k k0); cbn.
  - change (k0 :: map fst o ++ [k]) with ((k0 :: map fst o) ++ [k]).
    rewrite Permutation_app_comm. reflexivity.
  - now constructor.
Qed.

(** A key that is no array index goes to the end. *)
Lemma Obj_insert_last {V} (o : Obj.t V) (k : string) (v : V) :
  Obj.arrayIndex k = None -> Obj.insert o k v = o ++ [(k, v)].
Proof.
  intros Hk. induction o as [|[k0 v0] o IH]; cbn; [reflexivity|].
  unfold Obj.before. rewrite Hk. now rewrite IH.
Qed.

Lemma Obj_keys_set {V} (o : Obj.t V) (k : string) (v : V) :
  if Obj.hasKey o k then Obj.keys (Obj.set o k v) = Obj.keys o
  else Permutation (Obj.keys o ++ [k]) (Obj.keys (Obj.set o k v)).
Proof.
  unfold Obj.hasKey, Obj.set. destruct (Obj.get o k).
  - apply Obj_keys_replace.
  - apply Obj_keys_insert.
Qed.

Lemma Obj_hasKey_In {V} (o : Obj.t V) (k : string) :
  Obj.hasKey o k = true <-> In k (Obj.keys o).
Proof.
  unfold Obj.hasKey. induction o as [|[k0 v0] o IH]; cbn.
  - split; [discriminate | tauto].
  - destruct (String.eqb k k0) eqn:E.
    + apply String.eqb_eq in E. subst. tauto.
    + apply String.eqb_neq in E. rewrite IH. split; [tauto|].
      intros [H | H]; [congruence | exact H].
Qed.

Lemma Obj_keys_set_NoDup {V} (o : Obj.t V) (k : string) (v : V) :
  NoDup (Obj.keys o) -> NoDup (Obj.keys (Obj.set o k v)).
Proof.
  intros H. pose proof (Obj_keys_set o k v) as Hk.
  destruct (Obj.hasKey o k) eqn:E; [now rewrite Hk|].
  eapply Permutation_NoDup; [exact Hk|].
  apply NoDup_app; [assumption | repeat constructor; auto |].
  intros x Hin [<- | []]. apply Obj_hasKey_In in Hin. congruence.
Qed.

Lemma Obj_get_constant {V} (keys : list string) (v : V) (n : string) :
  Obj.get (map (fun k => (k, v)) keys) n = None
  \/ Obj.get (map (fun k => (k, v)) keys) n = Some v.
Proof.
  induction keys as [|k keys IH]; cbn; [now left|].
  destruct (String.eqb n k); [now right | exact IH].
Qed.

Lemma StronglySorted_weaken {A} (R R' : A -> A -> Prop) (l : list A) :
  (forall a b, R a b -> R' a b) -> StronglySorted R l -> StronglySorted R' l.
Proof.
  intros HR. induction 1 as [|x l Hs IH Hx]; constructor; [assumption|].
  eapply Forall_impl; [|exact Hx]. auto.
Qed.

(** ** CROSS_LIST_UNITS *)

Module CrossFacts.
Import Program.

(** Descending units. *)
Definition descending (l : list Hit) : Prop :=
  StronglySorted (fun a b => h_units b <= h_units a) l.

Lemma sortBy_moreUnits_descending (l : list Hit) : descending (sortBy moreUnits l).
Proof.
  unfold descending.
  eapply StronglySorted_weaken; [|apply (sortBy_sorted moreUnits)].
  - intros a b H. unfold notAfter, moreUnits in H. now apply Qltb_ge in H.
  - intros a b H. unfold moreUnits in *. apply Qltb_lt in H. apply Qltb_ge. lra.
  - unfold notAfter, moreUnits. intros a b c H1 H2.
    apply Qltb_ge in H1, H2. apply Qltb_ge. lra.
Qed.

(** The code of a hit is consumed. *)
Definition usedIn (x : CrossState) (h : Hit) : bool :=
  has (x_usedCodes x) (h_code h) || has (x_usedSet x) (h_code h).

Definition markOfHit (h : Hit) : (nat * nat) * Opt :=
  (h_itemRef h, {| code := h_code h; units := h_units h |}).

Lemma crossConsume_usedIn (name : string) (h h' : Hit) (x : CrossState) :
  usedIn x h' = true -> usedIn (crossConsume name h x) h' = true.
Proof.
  unfold usedIn. cbn [crossConsume x_usedCodes x_usedSet]. rewrite !has_add. intros H.
  apply orb_true_iff in H. destruct H as [-> | ->]; cbn;
    rewrite ?orb_true_r; reflexivity.
Qed.

Lemma crossConsume_self (name : string) (h : Hit) (x : CrossState) :
  usedIn (crossConsume name h x) h = true.
Proof.
  unfold usedIn. cbn [crossConsume x_usedCodes x_usedSet]. now rewrite has_add_same.
Qed.

Lemma crossConsume_other (name : string) (h : Hit) (x : CrossState) (n : string) :
  n <> name ->
  getOr0 (x_earnedBySection (crossConsume name h x)) n = getOr0 (x_earnedBySection x) n.
Proof.
  intros Hn. unfold getOr0. cbn [crossConsume x_earnedBySection]. rewrite Obj_get_set.
  apply String.eqb_neq in Hn. now rewrite Hn.
Qed.

Section Facts.

Variable takenSet : CodeSet.

(** Pass 1 on one pool: what is used stays used, the other pools' totals
    are untouched, and the pass ends with the pool's minimum met or with
    every hit of the pool consumed; every hit it consumes was still
    unconsumed and below the minimum when taken. *)
Lemma crossPass1Pool_spec (name : string) (need : Q) (hits : list Hit) :
  forall x,
    let x' := crossPass1Pool name need hits x in
    (forall h, usedIn x h = true -> usedIn x' h = true)
    /\ (forall n, n <> name ->
                  getOr0 (x_earnedBySection x') n = getOr0 (x_earnedBySection x) n)
    /\ (need <= getOr0 (x_earnedBySection x') name
        \/ Forall (fun h => usedIn x' h = true) hits)
    /\ exists taken, x_marks x' = x_marks x ++ map markOfHit taken
                     /\ incl taken hits.
Proof.
  induction hits as [|h rest IH]; intros x; cbn [crossPass1Pool].
  - cbn. repeat split; auto. exists []. split; [now rewrite app_nil_r | easy].
  - destruct (Qgeb (getOr0 (x_earnedBySection x) name) need) eqn:Hge.
    { cbn. apply Qgeb_le in Hge. repeat split; auto.
      exists []. split; [now rewrite app_nil_r | easy]. }
    destruct (has (x_usedCodes x) (h_code h) || has (x_usedSet x) (h_code h)) eqn:Hu.
    + destruct (IH x) as [Hmono [Hoth [Hend [taken [Hm Hincl]]]]].
      repeat split; auto.
      * destruct Hend as [Hend | Hend]; [now left | right].
        constructor; [|assumption]. now apply Hmono.
      * exists taken. split; [assumption|]. now apply incl_tl.
    + destruct (IH (crossConsume name h x)) as [Hmono [Hoth [Hend [taken [Hm Hincl]]]]].
      repeat split.
      * intros h' H'. apply Hmono. now apply crossConsume_usedIn.
      * intros n Hn. rewrite (Hoth n Hn). now apply crossConsume_other.
      * destruct Hend as [Hend | Hend]; [now left | right].
        constructor; [|assumption]. apply Hmono. apply crossConsume_self.
      * exists (h :: taken). split.
        -- rewrite Hm. cbn [crossConsume x_marks map]. rewrite <- app_assoc. reflexivity.
        -- intros z [<- | Hz]; [now left | right; now apply Hincl].
Qed.

Lemma crossPass1_spec (perMin : Obj.t Q) (hits : Obj.t (list Hit)) :
  NoDup (Obj.keys hits) ->
  forall x,
    let x1 := crossPass1 perMin hits x in
    (forall h, usedIn x h = true -> usedIn x1 h = true)
    /\ (forall n, ~ In n (Obj.keys hits) ->
                  getOr0 (x_earnedBySection x1) n = getOr0 (x_earnedBySection x) n)
    /\ (forall name l, In (name, l) hits ->
          getOr0 perMin name <= getOr0 (x_earnedBySection x1) name
          \/ Forall (fun h => usedIn x1 h = true) l)
    /\ exists taken, x_marks x1 = x_marks x ++ map markOfHit taken.
Proof.
  unfold crossPass1.
  induction hits as [|[name0 l0] rest IH]; intros Hnd x; cbn [fold_left fst snd].
  - cbn. repeat split; auto; try easy. exists []. now rewrite app_nil_r.
  - cbn [Obj.keys map fst] in Hnd. inversion Hnd as [|? ? Hnotin Hnd']. subst.
    destruct (crossPass1Pool_spec name0 (getOr0 perMin name0) l0 x)
      as [Hmono0 [Hoth0 [Hend0 [taken0 [Hm0 _]]]]].
    destruct (IH Hnd' (crossPass1Pool name0 (getOr0 perMin name0) l0 x))
      as [Hmono [Hoth [Hend [taken Hm]]]].
    repeat split.
    + auto.
    + intros n Hn. cbn in Hn. rewrite Hoth by tauto. apply Hoth0. intros ->. tauto.
    + intros name l [Heq | Hin].
      * injection Heq as <- <-. rewrite (Hoth name0 Hnotin).
        destruct Hend0 as [H | H]; [now left | right].
        eapply Forall_impl; [|exact H]. cbn. auto.
      * now apply Hend.
    + exists (taken0 ++ taken). rewrite Hm, Hm0, map_app, app_assoc. reflexivity.
Qed.

(** Pass 2 consumes the shortest prefix of the leftovers that reaches
    [minTotal], or all of them. *)
Lemma crossPass2_spec (minTotal : Q) (leftovers : list Hit) :
  forall total x,
    let r := crossPass2 minTotal leftovers (total, x) in
    exists k,
      (k <= List.length leftovers)%nat
      /\ x_marks (snd r) = x_marks x ++ map markOfHit (firstn k leftovers)
      /\ fst r = fold_left Qplus (map h_units (firstn k leftovers)) total
      /\ (minTotal <= fst r \/ k = List.length leftovers)
      /\ (forall j, (j < k)%nat ->
            fold_left Qplus (map h_units (firstn j leftovers)) total < minTotal).
Proof.
  induction leftovers as [|h rest IH]; intros total x; cbn [crossPass2].
  - exists 0%nat. cbn. rewrite app_nil_r. repeat split; auto. intros j Hj. lia.
  - destruct (Qgeb total minTotal) eqn:Hge.
    + exists 0%nat. cbn. rewrite app_nil_r. apply Qgeb_le in Hge.
      repeat split; auto; [lia | intros j Hj; lia].
    + apply Qgeb_lt in Hge.
      destruct (IH (total + h_units h) (crossConsume (hitName h) h x))
        as [k [Hk [Hm [Ht [Hend Hpre]]]]].
      exists (S k). cbn [firstn map fold_left List.length]. repeat split.
      * lia.
      * rewrite Hm. cbn [crossConsume x_marks]. rewrite <- app_assoc. reflexivity.
      * exact Ht.
      * destruct Hend as [H | H]; [now left | right; now rewrite H].
      * intros [|j] Hj; cbn [firstn map fold_left]; [exact Hge | apply Hpre; lia].
Qed.

Lemma sectionPool_NoDup (detail : Detail) (rule : CrossRule) :
  NoDup (Obj.keys (sectionPool detail rule)).
Proof.
  unfold sectionPool.
  assert (H : forall l (o : Obj.t (list Hit)),
             NoDup (Obj.keys o) ->
             NoDup (Obj.keys
               (fold_left
                  (fun pool (p : nat * RawSection) =>
                     let '(spos, s) := p in
                     if existsb (String.eqb (s_name s)) (c_applies_to rule)
                     then Obj.set pool (s_name s) (hitsOfSection spos s)
                     else pool) l o))).
  { induction l as [|[spos s] l IH]; intros o Ho; cbn [fold_left]; [assumption|].
    apply IH. destruct (existsb _ _); [now apply Obj_keys_set_NoDup | assumption]. }
  apply H. constructor.
Qed.

Lemma hitsBySection_keys (pool : Obj.t (list Hit)) :
  Obj.keys (hitsBySection takenSet pool) = Obj.keys pool.
Proof.
  unfold hitsBySection, Obj.keys. rewrite map_map. reflexivity.
Qed.

Lemma hitsBySection_sorted (pool : Obj.t (list Hit)) (name : string) (l : list Hit) :
  In (name, l) (hitsBySection takenSet pool) ->
  descending l /\ Forall (fun h => has takenSet (h_code h) = true) l.
Proof.
  unfold hitsBySection. intros H. apply in_map_iff in H.
  destruct H as [[n arr] [Heq _]]. injection Heq as <- <-. cbn [snd]. split.
  - apply sortBy_moreUnits_descending.
  - apply Forall_forall. intros h Hin. apply sortBy_In in Hin.
    now apply filter_In in Hin.
Qed.

Lemma leftovers_unconsumed (hits : Obj.t (list Hit)) (x : CrossState) :
  Forall (fun h => usedIn x h = false) (sortBy moreUnits (leftoversOf hits x)).
Proof.
  apply Forall_forall. intros h Hin. apply sortBy_In in Hin.
  unfold leftoversOf in Hin. apply in_flat_map in Hin.
  destruct Hin as [[n l] [_ Hin]]. apply in_map_iff in Hin.
  destruct Hin as [h0 [<- Hin]]. apply filter_In in Hin. destruct Hin as [_ Hf].
  unfold usedIn. cbn [h_code]. rewrite <- negb_orb in Hf.
  now apply negb_true_iff in Hf.
Qed.

End Facts.

(** *** The two passes in the spec's words *)

(** The hits of a pool that can still be consumed, in the order of the
    pool: those whose code is not consumed so far, the first of each code. *)
Fixpoint unconsumed (seen : CodeSet) (hits : list Hit) : list Hit :=
  match hits with
  | [] => []
  | h :: rest =>
      if has seen (h_code h) then unconsumed seen rest
      else h :: unconsumed (add seen (h_code h)) rest
  end.

(** The hits of [l] in order, while the units earned are below [need]. *)
Fixpoint takeUntil (need : Q) (l : list Hit) (earned : Q) : list Hit :=
  match l with
  | [] => []
  | h :: rest =>
      if Qgeb earned need then [] else h :: takeUntil need rest (earned + h_units h)
  end.

Definition seenAfter (seen : CodeSet) (taken : list Hit) : CodeSet :=
  fold_left add (map h_code taken) seen.

(** Pass 1 in the spec's words: pool after pool, the highest-unit
    unconsumed matches until the pool's minimum is met. *)
Fixpoint specPass1 (perMin : Obj.t Q) (pools : Obj.t (list Hit)) (seen : CodeSet)
    : Obj.t (list Hit) :=
  match pools with
  | [] => []
  | (name, hits) :: rest =>
      let taken := takeUntil (getOr0 perMin name) (unconsumed seen hits) 0 in
      (name, taken) :: specPass1 perMin rest (seenAfter seen taken)
  end.

(** The leftovers in the spec's words: the matches of every pool whose
    code is not consumed, each with the name of its pool. *)
Definition specLeftovers (pools : Obj.t (list Hit)) (seen : CodeSet) : list Hit :=
  flat_map
    (fun p => map (fun h => {| h_code := h_code h; h_units := h_units h;
                               h_itemRef := h_itemRef h; h_name := Some (fst p) |})
                  (filter (fun h => negb (has seen (h_code h))) (snd p)))
    pools.

Definition consumeFrom (name : string) (taken : list Hit) (x : CrossState) : CrossState :=
  fold_left (fun x h => crossConsume name h x) taken x.

Definition consumePools (l : Obj.t (list Hit)) (x : CrossState) : CrossState :=
  fold_left (fun x p => consumeFrom (fst p) (snd p) x) l x.

(** [seen] holds the codes that [x] has consumed. *)
Definition seenOf (seen : CodeSet) (x : CrossState) : Prop :=
  forall c, has seen c = has (x_usedCodes x) c || has (x_usedSet x) c.

Lemma seenOf_consume (seen : CodeSet) (name : string) (h : Hit) (x : CrossState) :
  seenOf seen x -> seenOf (add seen (h_code h)) (crossConsume name h x).
Proof.
  intros H c. cbn [crossConsume x_usedCodes x_usedSet]. rewrite !has_add, H.
  destruct (has (x_usedCodes x) c), (has (x_usedSet x) c), (String.eqb c (h_code h));
    reflexivity.
Qed.

Lemma earned_consume_same (name : string) (h : Hit) (x : CrossState) :
  getOr0 (x_earnedBySection (crossConsume name h x)) name
  = getOr0 (x_earnedBySection x) name + h_units h.
Proof.
  unfold getOr0 at 1. cbn [crossConsume x_earnedBySection].
  now rewrite Obj_get_set, String.eqb_refl.
Qed.

Lemma crossPass1Pool_refines (name : string) (need : Q) (hits : list Hit) :
  forall seen x,
    seenOf seen x ->
    crossPass1Pool name need hits x
    = consumeFrom name
        (takeUntil need (unconsumed seen hits) (getOr0 (x_earnedBySection x) name)) x.
Proof.
  induction hits as [|h rest IH]; intros seen x Hseen; cbn [crossPass1Pool unconsumed].
  - reflexivity.
  - rewrite <- (Hseen (h_code h)).
    destruct (Qgeb (getOr0 (x_earnedBySection x) name) need) eqn:Hge.
    + destruct (has seen (h_code h)).
      * destruct (unconsumed seen rest); cbn [takeUntil]; [reflexivity|].
        now rewrite Hge.
      * cbn [takeUntil]. now rewrite Hge.
    + destruct (has seen (h_code h)).
      * now apply IH.
      * cbn [takeUntil]. rewrite Hge. cbn [consumeFrom fold_left].
        rewrite (IH (add seen (h_code h)) (crossConsume name h x)
                    (seenOf_consume seen name h x Hseen)).
        rewrite earned_consume_same. reflexivity.
Qed.

Lemma seenOf_consumeFrom (name : string) (taken : list Hit) :
  forall seen x, seenOf seen x -> seenOf (seenAfter seen taken) (consumeFrom name taken x).
Proof.
  unfold seenAfter, consumeFrom.
  induction taken as [|h rest IH]; intros seen x H; cbn [map fold_left]; [exact H|].
  apply IH. now apply seenOf_consume.
Qed.

Lemma consumeFrom_other (name : string) (taken : list Hit) (n : string) :
  n <> name ->
  forall x, getOr0 (x_earnedBySection (consumeFrom name taken x)) n
            = getOr0 (x_earnedBySection x) n.
Proof.
  intros Hn. unfold consumeFrom.
  induction taken as [|h rest IH]; intros x; cbn [fold_left]; [reflexivity|].
  rewrite IH. now apply crossConsume_other.
Qed.

(** Pass 1 is the consumption, pool after pool, of what the spec
    describes. *)
Lemma crossPass1_refines (perMin : Obj.t Q) (hits : Obj.t (list Hit)) :
  NoDup (Obj.keys hits) ->
  forall seen x,
    seenOf seen x ->
    (forall n, In n (Obj.keys hits) -> getOr0 (x_earnedBySection x) n = 0) ->
    crossPass1 perMin hits x = consumePools (specPass1 perMin hits seen) x
    /\ seenOf (seenAfter seen (flat_map snd (specPass1 perMin hits seen)))
              (crossPass1 perMin hits x).
Proof.
  unfold crossPass1, consumePools.
  induction hits as [|[name l] rest IH]; intros Hnd seen x Hseen Hzero;
    cbn [fold_left specPass1 fst snd flat_map].
  - split; [reflexivity | exact Hseen].
  - cbn [Obj.keys map fst] in Hnd. inversion Hnd as [|? ? Hnotin Hnd']. subst.
    rewrite (crossPass1Pool_refines name (getOr0 perMin name) l seen x Hseen).
    rewrite (Hzero name (or_introl eq_refl)).
    set (taken := takeUntil (getOr0 perMin name) (unconsumed seen l) 0).
    destruct (IH Hnd' (seenAfter seen taken) (consumeFrom name taken x)) as [H1 H2].
    + now apply seenOf_consumeFrom.
    + intros n Hn. rewrite consumeFrom_other; [apply Hzero; now right|].
      intros ->. contradiction.
    + split; [exact H1|].
      unfold seenAfter in *. rewrite map_app, fold_left_app. exact H2.
Qed.

Lemma leftovers_refines (hits : Obj.t (list Hit)) (seen : CodeSet) (x : CrossState) :
  seenOf seen x -> leftoversOf hits x = specLeftovers hits seen.
Proof.
  intros H. unfold leftoversOf, specLeftovers. apply flat_map_ext. intros p.
  f_equal. apply filter_ext. intros h. rewrite H. now rewrite negb_orb.
Qed.

Lemma crossPass2_refines (minTotal : Q) (leftovers : list Hit) :
  forall total x,
    crossPass2 minTotal leftovers (total, x)
    = (fold_left Qplus (map h_units (takeUntil minTotal leftovers total)) total,
       fold_left (fun x h => crossConsume (hitName h) h x)
                 (takeUntil minTotal leftovers total) x).
Proof.
  induction leftovers as [|h rest IH]; intros total x; cbn [crossPass2 takeUntil].
  - reflexivity.
  - destruct (Qgeb total minTotal); [reflexivity|].
    rewrite IH. reflexivity.
Qed.

(** [takeUntil] gives the shortest prefix that reaches [need], or the
    whole list. *)
Lemma takeUntil_prefix (need : Q) (l : list Hit) :
  forall earned,
    exists k,
      (k <= List.length l)%nat
      /\ takeUntil need l earned = firstn k l
      /\ (need <= fold_left Qplus (map h_units (firstn k l)) earned
          \/ k = List.length l)
      /\ (forall j, (j < k)%nat ->
            fold_left Qplus (map h_units (firstn j l)) earned < need).
Proof.
  induction l as [|h rest IH]; intros earned; cbn [takeUntil].
  - exists 0%nat. cbn. repeat split; auto. intros j Hj. lia.
  - destruct (Qgeb earned need) eqn:Hge.
    + exists 0%nat. cbn. apply Qgeb_le in Hge. repeat split; auto; [lia|].
      intros j Hj. lia.
    + apply Qgeb_lt in Hge. destruct (IH (earned + h_units h)) as [k [Hk [Ht [He Hm]]]].
      exists (S k). cbn [firstn map fold_left List.length]. repeat split.
      * lia.
      * now rewrite Ht.
      * destruct He as [He | He]; [now left | right; now rewrite He].
      * intros [|j] Hj; cbn [firstn map fold_left]; [exact Hge | apply Hm; lia].
Qed.

(** Codes consumed one after the other without a repetition. *)
Lemma consumed_codes_marks (name : string) (taken : list Hit) :
  forall x, map (fun m => code (snd m)) (x_marks (consumeFrom name taken x))
            = map (fun m => code (snd m)) (x_marks x) ++ map h_code taken.
Proof.
  unfold consumeFrom. induction taken as [|h rest IH]; intros x; cbn [fold_left map].
  - now rewrite app_nil_r.
  - rewrite IH. cbn [crossConsume x_marks]. rewrite map_app. cbn [map snd code].
    now rewrite <- app_assoc.
Qed.

Lemma unconsumed_fresh (hits : list Hit) :
  forall seen,
    NoDup (map h_code (unconsumed seen hits))
    /\ Forall (fun h => has seen (h_code h) = false) (unconsumed seen hits)
    /\ incl (unconsumed seen hits) hits.
Proof.
  induction hits as [|h rest IH]; intros seen; cbn [unconsumed].
  - repeat split; [constructor | constructor | easy].
  - destruct (has seen (h_code h)) eqn:E.
    + destruct (IH seen) as [H1 [H2 H3]]. repeat split; auto. now apply incl_tl.
    + destruct (IH (add seen (h_code h))) as [H1 [H2 H3]]. repeat split.
      * cbn [map]. constructor; [|exact H1]. intros Hin. apply in_map_iff in Hin.
        destruct Hin as [h' [Hc Hh']]. rewrite Forall_forall in H2.
        specialize (H2 h' Hh'). rewrite has_add, Hc, String.eqb_refl, orb_true_r in H2.
        discriminate.
      * constructor; [exact E|]. eapply Forall_impl; [|exact H2]. cbn.
        intros h' Hh'. rewrite has_add in Hh'. now apply orb_false_iff in Hh'.
      * intros z [<- | Hz]; [now left | right; now apply H3].
Qed.

Lemma takeUntil_incl (need : Q) (l : list Hit) :
  forall earned, exists k, takeUntil need l earned = firstn k l.
Proof.
  intros earned. destruct (takeUntil_prefix need l earned) as [k [_ [H _]]]. now exists k.
Qed.

Lemma has_seenAfter (taken : list Hit) :
  forall seen c, has (seenAfter seen taken) c = has seen c || existsb (String.eqb c) (map h_code taken).
Proof.
  unfold seenAfter. induction taken as [|h rest IH]; intros seen c; cbn [map fold_left existsb].
  - now rewrite orb_false_r.
  - rewrite IH, has_add. now rewrite orb_assoc.
Qed.

Lemma In_firstn {A} (k : nat) (l : list A) (x : A) : In x (firstn k l) -> In x l.
Proof.
  revert k. induction l as [|y l IH]; intros [|k] H; cbn in H; try contradiction.
  destruct H as [<- | H]; [now left | right; eapply IH; eauto].
Qed.

Lemma NoDup_firstn {A} (k : nat) (l : list A) : NoDup l -> NoDup (firstn k l).
Proof.
  revert k. induction l as [|x l IH]; intros [|k] H; cbn; try constructor.
  - inversion H; subst. intros Hin. apply H2. eapply In_firstn; eauto.
  - inversion H; subst. now apply IH.
Qed.

(** Pass 1 consumes no code twice and none that was consumed before. *)
Lemma specPass1_fresh (perMin : Obj.t Q) (pools : Obj.t (list Hit)) :
  forall seen,
    NoDup (map h_code (flat_map snd (specPass1 perMin pools seen)))
    /\ Forall (fun h => has seen (h_code h) = false)
              (flat_map snd (specPass1 perMin pools seen)).
Proof.
  induction pools as [|[name l] rest IH]; intros seen; cbn [specPass1 flat_map snd].
  - split; constructor.
  - set (taken := takeUntil (getOr0 perMin name) (unconsumed seen l) 0).
    destruct (takeUntil_incl (getOr0 perMin name) (unconsumed seen l) 0) as [k Hk].
    fold taken in Hk.
    destruct (unconsumed_fresh l seen) as [U1 [U2 _]].
    assert (T1 : NoDup (map h_code taken)).
    { rewrite Hk, <- firstn_map. now apply NoDup_firstn. }
    assert (T2 : Forall (fun h => has seen (h_code h) = false) taken).
    { rewrite Hk. apply Forall_forall. intros h Hh. rewrite Forall_forall in U2.
      apply U2. eapply In_firstn; eauto. }
    destruct (IH (seenAfter seen taken)) as [R1 R2].
    assert (R2' : Forall (fun h => has seen (h_code h) = false
                                   /\ ~ In (h_code h) (map h_code taken))
                         (flat_map snd (specPass1 perMin rest (seenAfter seen taken)))).
    { eapply Forall_impl; [|exact R2]. cbn. intros h Hh.
      rewrite has_seenAfter in Hh. apply orb_false_iff in Hh. destruct Hh as [H1 H2].
      split; [exact H1|]. intros Hin. apply (has_In (map h_code taken)) in Hin.
      unfold has in Hin. congruence. }
    split.
    + rewrite map_app. apply NoDup_app; [exact T1 | exact R1 |].
      intros c Hc1 Hc2. apply in_map_iff in Hc2. destruct Hc2 as [h [<- Hh]].
      rewrite Forall_forall in R2'. now apply (proj2 (R2' h Hh)).
    + apply Forall_app. split; [exact T2|].
      eapply Forall_impl; [|exact R2']. cbn. tauto.
Qed.

Lemma consumePools_marks (l : Obj.t (list Hit)) :
  forall x, x_marks (consumePools l x) = x_marks x ++ map markOfHit (flat_map snd l).
Proof.
  unfold consumePools.
  induction l as [|[name taken] rest IH]; intros x; cbn [fold_left flat_map fst snd].
  - now rewrite app_nil_r.
  - rewrite IH. rewrite map_app, app_assoc. f_equal.
    clear. unfold consumeFrom. revert x.
    induction taken as [|h t IHt]; intros x; cbn [fold_left map].
    + now rewrite app_nil_r.
    + rewrite IHt. cbn [crossConsume x_marks]. now rewrite <- app_assoc.
Qed.

Lemma consumeAll_marks (l : list Hit) :
  forall x, x_marks (fold_left (fun x h => crossConsume (hitName h) h x) l x)
            = x_marks x ++ map markOfHit l.
Proof.
  induction l as [|h t IH]; intros x; cbn [fold_left map].
  - now rewrite app_nil_r.
  - rewrite IH. cbn [crossConsume x_marks]. now rewrite <- app_assoc.
Qed.

Lemma specLeftovers_unseen (pools : Obj.t (list Hit)) (seen : CodeSet) :
  Forall (fun h => has seen (h_code h) = false) (specLeftovers pools seen).
Proof.
  apply Forall_forall. intros h Hin. unfold specLeftovers in Hin.
  apply in_flat_map in Hin. destruct Hin as [p [_ Hin]].
  apply in_map_iff in Hin. destruct Hin as [h0 [<- Hin]]. cbn [h_code].
  apply filter_In in Hin. now apply negb_true_iff, (proj2 Hin).
Qed.

Definition rawItem (l : list (string * Q)) : RawItem :=
  {| any_of := map (fun p => {| o_code := fst p; o_units := Some (snd p) |}) l |}.

Definition ruleOfType (t : string) : Rule :=
  {| r_type := Some t; r_min := None; r_max := None; r_min_units := None;
     r_min_disciplines := None; r_allow_from := []; r_per_list_min_units := [] |}.

(** Scenario 5: lists X and Y pooled with a minimum of 3 units each and 9
    in total; two 3-unit X courses and one 3-unit Y course are taken. *)
Definition scenario5 : Detail :=
  {| sections :=
       [ {| s_name := "X"; s_rule := Some (ruleOfType "LIST");
            s_items := [rawItem [("HIST 1", 3)]; rawItem [("HIST 2", 3)]] |};
         {| s_name := "Y"; s_rule := Some (ruleOfType "LIST");
            s_items := [rawItem [("ART 1", 3)]] |} ];
     cross_list_rules :=
       [ {| c_type := "CROSS_LIST_UNITS"; c_applies_to := ["X"; "Y"];
            c_per_list_min_units := [("X", 3); ("Y", 3)];
            c_min_units_total := 9 |} ] |}.

Definition scenario5Taken : CodeSet := ["HIST 1"; "HIST 2"; "ART 1"].

(** C5, as amended.  Candidate matches of each pool are the taken options
    by descending units.  Pass 1 goes through the pools in the order in
    which JS enumerates them and consumes, in each, the highest-unit
    matches whose code is not consumed yet, until the units earned by the
    pool reach its minimum ([specPass1]); it consumes no code twice.  The
    leftovers are the matches whose code is still unconsumed after pass 1,
    by descending units, and pass 2 consumes the shortest prefix of them
    that reaches [min_units_total] (all of them if none does), crediting
    each to its own pool; when no code is among the leftovers twice, no
    code is consumed twice in the whole evaluation.  In scenario 5 the X
    minimum is met after pass 1 (3/3), and the result has X at 6 units
    against its minimum of 3, Y at 3/3, the total at 9/9 and
    [done = true]. *)
Theorem cross_list_two_pass
    (takenSet : CodeSet) (detail : Detail) (rule : CrossRule) (usedSet : CodeSet)
    (Hrule : find (fun r => String.eqb (c_type r) "CROSS_LIST_UNITS")
                  (cross_list_rules detail) = Some rule) :
  let perMins := c_per_list_min_units rule in
  let minTot := orQ (c_min_units_total rule) 0 in
  let pool := sectionPool detail rule in
  let hits := hitsBySection takenSet pool in
  let x0 := {| x_usedCodes := []; x_usedSet := usedSet;
               x_earnedBySection := map (fun n => (n, 0)) (Obj.keys pool);
               x_chosenBySection := map (fun n => (n, [])) (Obj.keys pool);
               x_marks := [] |} in
  let taken1 := specPass1 perMins hits usedSet in
  let x1 := consumePools taken1 x0 in
  let seen1 := seenAfter usedSet (flat_map snd taken1) in
  let total1 := Qsum (Obj.values (x_earnedBySection x1)) in
  let leftovers := sortBy moreUnits (specLeftovers hits seen1) in
  (exists res used',
      evalCrossListUnits takenSet detail usedSet = (Some res, used')
      /\ (forall name l, In (name, l) hits ->
            descending l /\ Forall (fun h => has takenSet (h_code h) = true) l)
      /\ crossPass1 perMins hits x0 = x1
      /\ x_marks x1 = map markOfHit (flat_map snd taken1)
      /\ NoDup (map h_code (flat_map snd taken1))
      /\ Forall (fun h => has usedSet (h_code h) = false) (flat_map snd taken1)
      /\ (forall name l, In (name, l) hits ->
            getOr0 perMins name <= getOr0 (x_earnedBySection x1) name
            \/ Forall (fun h => usedIn x1 h = true) l)
      /\ descending leftovers
      /\ Forall (fun h => usedIn x1 h = false) leftovers
      /\ exists k,
           (k <= List.length leftovers)%nat
           /\ (let x2 := fold_left (fun x h => crossConsume (hitName h) h x)
                                   (firstn k leftovers) x1 in
               marks res = x_marks x2
               /\ earnedBySection res = x_earnedBySection x2
               /\ chosenBySection res = x_chosenBySection x2
               /\ used' = x_usedSet x2)
           /\ marks res = x_marks x1 ++ map markOfHit (firstn k leftovers)
           /\ totalUnits res =
              fold_left Qplus (map h_units (firstn k leftovers)) total1
           /\ (minTot <= totalUnits res \/ k = List.length leftovers)
           /\ (forall j, (j < k)%nat ->
                 fold_left Qplus (map h_units (firstn j leftovers)) total1 < minTot)
           /\ (NoDup (map h_code leftovers) ->
               NoDup (map (fun m => code (snd m)) (marks res))))
  /\ (let hits5 := hitsBySection scenario5Taken
                     (sectionPool scenario5
                        {| c_type := "CROSS_LIST_UNITS"; c_applies_to := ["X"; "Y"];
                           c_per_list_min_units := [("X", 3); ("Y", 3)];
                           c_min_units_total := 9 |}) in
       x_earnedBySection
         (crossPass1 [("X", 3); ("Y", 3)] hits5
            {| x_usedCodes := []; x_usedSet := [];
               x_earnedBySection := [("X", 0); ("Y", 0)];
               x_chosenBySection := [("X", []); ("Y", [])]; x_marks := [] |})
       = [("X", 3); ("Y", 3)]
       /\ option_map (fun r => (earnedBySection r, perMin r, totalUnits r, minTotal r, done r))
            (fst (evalCrossListUnits scenario5Taken scenario5 []))
          = Some ([("X", 6); ("Y", 3)], [("X", 3); ("Y", 3)], 9, 9, true)).
Proof.
  intros perMin0 minTotal0 pool hits x0 taken1 x1 seen1 total1 leftovers. split.
  - assert (Hnd : NoDup (Obj.keys hits)).
    { subst hits. rewrite hitsBySection_keys. apply sectionPool_NoDup. }
    assert (Hseen0 : seenOf usedSet x0) by (intros c; reflexivity).
    assert (Hzero : forall n, In n (Obj.keys hits) -> getOr0 (x_earnedBySection x0) n = 0).
    { intros n _. unfold getOr0. cbn [x0 x_earnedBySection].
      destruct (Obj_get_constant (Obj.keys pool) (0 : Q) n) as [-> | ->];
        reflexivity. }
    destruct (crossPass1_refines perMin0 hits Hnd usedSet x0 Hseen0 Hzero) as [Hp1 Hseen1].
    fold taken1 x1 in Hp1. fold taken1 seen1 in Hseen1. rewrite Hp1 in Hseen1.
    pose proof (leftovers_refines hits seen1 x1 Hseen1) as Hleft.
    unfold evalCrossListUnits. rewrite Hrule.
    fold perMin0 minTotal0 pool hits x0. rewrite Hp1. fold total1. rewrite Hleft.
    fold leftovers. rewrite crossPass2_refines.
    destruct (takeUntil_prefix minTotal0 leftovers total1) as [k [Hk [Ht [Hend Hpre]]]].
    rewrite Ht.
    eexists. eexists. split; [reflexivity|].
    cbn [marks totalUnits earnedBySection chosenBySection].
    destruct (specPass1_fresh perMin0 hits usedSet) as [F1 F2]. fold taken1 in F1, F2.
    assert (Hm1 : x_marks x1 = map markOfHit (flat_map snd taken1)).
    { subst x1. rewrite consumePools_marks. reflexivity. }
    assert (Hunused : Forall (fun h => usedIn x1 h = false) leftovers).
    { apply Forall_forall. intros h Hin. apply sortBy_In in Hin.
      pose proof (specLeftovers_unseen hits seen1) as Hu. rewrite Forall_forall in Hu.
      specialize (Hu h Hin). unfold usedIn. now rewrite <- Hseen1. }
    split; [apply hitsBySection_sorted|].
    split; [reflexivity|].
    split; [exact Hm1|].
    split; [exact F1|]. split; [exact F2|].
    split.
    { rewrite <- Hp1. now apply crossPass1_spec. }
    split; [apply sortBy_moreUnits_descending|].
    split; [exact Hunused|].
    exists k. split; [exact Hk|]. split; [repeat split|].
    split; [apply consumeAll_marks|].
    split; [reflexivity|]. split; [exact Hend|]. split; [exact Hpre|].
    intros Hdist. rewrite consumeAll_marks, Hm1, map_app, !map_map.
    cbn [markOfHit snd code].
    change (map (fun x => h_code x) (flat_map snd taken1))
      with (map h_code (flat_map snd taken1)).
    apply NoDup_app; [exact F1 | |].
    + change (map (fun x => h_code x) (firstn k leftovers))
        with (map h_code (firstn k leftovers)).
      rewrite <- firstn_map. now apply NoDup_firstn.
    + intros c Hc1 Hc2. apply in_map_iff in Hc2. destruct Hc2 as [h [<- Hh]].
      apply In_firstn in Hh. rewrite Forall_forall in Hunused.
      specialize (Hunused h Hh). unfold usedIn in Hunused. rewrite <- Hseen1 in Hunused.
      subst seen1. rewrite has_seenAfter in Hunused. apply orb_false_iff in Hunused.
      destruct Hunused as [_ Hu]. apply (has_In (map h_code (flat_map snd taken1))) in Hc1.
      unfold has in Hc1. congruence.
  - vm_compute. split; reflexivity.
Qed.


Lemma cross_list_two_pass_witness :
  find (fun r => String.eqb (c_type r) "CROSS_LIST_UNITS")
       (cross_list_rules scenario5)
  = Some {| c_type := "CROSS_LIST_UNITS"; c_applies_to := ["X"; "Y"];
            c_per_list_min_units := [("X", 3); ("Y", 3)];
            c_min_units_total := 9 |}
  /\ exists res used',
       evalCrossListUnits scenario5Taken scenario5 [] = (Some res, used').
Proof.
  split; [reflexivity|].
  destruct (cross_list_two_pass scenario5Taken scenario5 _ [] eq_refl)
    as [[res [used' [Hres _]]] _].
  exists res, used'. exact Hres.
Defined.

(** C5 as stated fails on scenario 5: the leftover X course consumed by
    pass 2 is credited to X, so the result has X at 6 units, not 3. *)
Lemma cross_list_two_pass_counterexample :
  exists res used',
    evalCrossListUnits scenario5Taken scenario5 [] = (Some res, used')
    /\ getOr0 (earnedBySection res) "X" == 6
    /\ ~ getOr0 (earnedBySection res) "X" == 3.
Proof.
  eexists. eexists. split; [vm_compute; reflexivity|]. split; [reflexivity|].
  cbn. intros H. discriminate H.
Qed.

(** Lists named "20" and "10", in this order, offering the same course:
    their names are array indices, JS enumerates the pool of "10" first,
    and pass 1 gives the course to it. *)
Definition numberedLists : Detail :=
  {| sections :=
       [ {| s_name := "20"; s_rule := Some (ruleOfType "LIST");
            s_items := [rawItem [("HIST 1", 3)]] |};
         {| s_name := "10"; s_rule := Some (ruleOfType "LIST");
            s_items := [rawItem [("HIST 1", 3)]] |} ];
     cross_list_rules :=
       [ {| c_type := "CROSS_LIST_UNITS"; c_applies_to := ["20"; "10"];
            c_per_list_min_units := [("10", 3); ("20", 3)];
            c_min_units_total := 3 |} ] |}.

Example pools_in_enumeration_order :
  map (fun r => Obj.keys (sectionPool numberedLists r)) (cross_list_rules numberedLists)
  = [["10"; "20"]]
  /\ option_map (fun r => (earnedBySection r, done r))
       (fst (evalCrossListUnits ["HIST 1"] numberedLists []))
     = Some ([("10", 3); ("20", 0)], false).
Proof. vm_compute. split; reflexivity. Qed.

End CrossFacts.

(** ** [evaluateProgram] *)

Module EvalFacts.
Import Program UnitsFacts CrossFacts.

Section Facts.

Variable aliases : CourseAliases.
Variable coursesIndex : string -> option Q.
Variable takenSet : CodeSet.

Lemma runUnits_total (pools : Obj.t nat) (l : list (nat * Section)) :
  forall e, exists e', runUnits aliases takenSet pools l e = Some e'.
Proof.
  induction l as [|[si s] l IH]; intros e; cbn [runUnits]; [now exists e|].
  unfold unitsSection.
  destruct (satisfyUnitsSection_total aliases takenSet pools s si (e_alloc e)) as [r ->].
  apply IH.
Qed.

(** The section loops always return. *)
Lemma sectionsPhase_total (detail : Detail) (skip : bool) (used0 : CodeSet) :
  exists e, sectionsPhase aliases coursesIndex takenSet detail skip used0 = Some e.
Proof. unfold sectionsPhase. apply runUnits_total. Qed.

Lemma find_first_cross (pre : list CrossRule) (r1 : CrossRule) (rest : list CrossRule) :
  Forall (fun r => c_type r <> "CROSS_LIST_UNITS") pre ->
  c_type r1 = "CROSS_LIST_UNITS" ->
  find (fun r => String.eqb (c_type r) "CROSS_LIST_UNITS") (pre ++ r1 :: rest) = Some r1.
Proof.
  intros Hpre Hr1. induction Hpre as [|r pre Hr _ IH]; cbn.
  - now rewrite Hr1.
  - apply String.eqb_neq in Hr. now rewrite Hr.
Qed.

Lemma crossAtoms_bounds (c : CrossResult) :
  (0 <= snd (crossAtoms c) <= fst (crossAtoms c))%Z.
Proof.
  unfold crossAtoms. cbn [fst snd].
  pose proof (filter_length_le
                (fun p => Qgeb (getOr0 (earnedBySection c) (fst p)) (snd p)) (perMin c)).
  destruct (Qgeb (totalUnits c) (minTotal c)); lia.
Qed.

Lemma crossFinding_applies_to (secs : list Section) (st : Store) (r : CrossRule) :
  f_applies_to (crossFinding secs st r) = c_applies_to r.
Proof.
  unfold crossFinding. destruct (fold_left _ (indexed secs) _) as [total plu].
  reflexivity.
Qed.

End Facts.

(** C10.  When the program has several CROSS_LIST_UNITS rules, the
    cross-list allocation is that of the first one alone: it is the only
    rule that consumes courses, and the atoms added for cross-listing are
    one for its total plus one per entry of its per-list minima; every
    rule, the later ones included, has its entry in [cross_list_checks]. *)
Theorem only_first_cross_rule_allocates
    (aliases : CourseAliases) (coursesIndex : string -> option Q)
    (takenSet : CodeSet) (detail : Detail) (skip : bool)
    (pre : list CrossRule) (r1 : CrossRule) (rest : list CrossRule)
    (Hrules : cross_list_rules detail = pre ++ r1 :: rest)
    (Hpre : Forall (fun r => c_type r <> "CROSS_LIST_UNITS") pre)
    (Hr1 : c_type r1 = "CROSS_LIST_UNITS") :
  let alone := {| sections := sections detail; cross_list_rules := [r1] |} in
  evalCrossListUnits takenSet detail [] = evalCrossListUnits takenSet alone []
  /\ exists c used0 e3 res,
       evalCrossListUnits takenSet detail [] = (Some c, used0)
       /\ perMin c = c_per_list_min_units r1
       /\ sectionsPhase aliases coursesIndex takenSet detail skip used0 = Some e3
       /\ evaluateProgram aliases coursesIndex takenSet detail skip = Some res
       /\ crossListSummary res = Some c
       /\ requiredItems res =
          (requiredAtomCount e3 + 1
           + Z.of_nat (List.length (c_per_list_min_units r1)))%Z
       /\ satisfied res = (metAtomCount e3 + snd (crossAtoms c))%Z
       /\ (0 <= snd (crossAtoms c)
           <= 1 + Z.of_nat (List.length (c_per_list_min_units r1)))%Z
       /\ map f_applies_to (cross_list_checks res) =
          map c_applies_to
              (filter (fun r => String.eqb (Str.toUpperCase (c_type r)) "CROSS_LIST_UNITS")
                      (cross_list_rules detail)).
Proof.
  intros alone.
  pose proof (find_first_cross pre r1 rest Hpre Hr1) as Hfind.
  rewrite <- Hrules in Hfind.
  assert (Halone : evalCrossListUnits takenSet detail []
                   = evalCrossListUnits takenSet alone []).
  { unfold evalCrossListUnits. rewrite Hfind. subst alone.
    cbn [cross_list_rules find]. rewrite Hr1. cbn [String.eqb]. reflexivity. }
  split; [exact Halone|].
  assert (Hc : exists c used0, evalCrossListUnits takenSet detail [] = (Some c, used0)
                               /\ perMin c = c_per_list_min_units r1).
  { unfold evalCrossListUnits. rewrite Hfind.
    destruct (crossPass2 _ _ _) as [t2 x2]. eexists. eexists.
    split; reflexivity. }
  destruct Hc as [c [used0 [Hc Hper]]].
  destruct (sectionsPhase_total aliases coursesIndex takenSet detail skip used0)
    as [e3 He3].
  exists c, used0, e3. unfold evaluateProgram. rewrite Hc, He3.
  eexists. split; [reflexivity|]. split; [exact Hper|]. split; [reflexivity|].
  split; [reflexivity|]. cbn [crossListSummary requiredItems satisfied cross_list_checks].
  pose proof (crossAtoms_bounds c) as Hb.
  assert (Hfst : fst (crossAtoms c)
                 = (1 + Z.of_nat (List.length (c_per_list_min_units r1)))%Z).
  { unfold crossAtoms. cbn [fst]. now rewrite Hper. }
  rewrite Hfst in *. repeat split; try lia.
  unfold crossFindings. rewrite map_map. apply map_ext.
  intros r. apply crossFinding_applies_to.
Qed.

(** Scenario 5 with a second rule on the same lists. *)
Definition twoRules : Detail :=
  {| sections := sections scenario5;
     cross_list_rules :=
       cross_list_rules scenario5
       ++ [ {| c_type := "CROSS_LIST_UNITS"; c_applies_to := ["X"; "Y"];
               c_per_list_min_units := [("X", 6); ("Y", 6)];
               c_min_units_total := 30 |} ] |}.

Lemma only_first_cross_rule_allocates_witness :
  (exists r1 rest,
      cross_list_rules twoRules = [] ++ r1 :: rest
      /\ c_type r1 = "CROSS_LIST_UNITS")
  /\ evalCrossListUnits scenario5Taken twoRules []
     = evalCrossListUnits scenario5Taken scenario5 [].
Proof.
  split.
  - eexists. eexists. split; reflexivity.
  - exact (proj1 (only_first_cross_rule_allocates PrereqFacts.noAliases (fun _ => None)
                    scenario5Taken twoRules false [] _ _ eq_refl
                    (Forall_nil _) eq_refl)).
Defined.

(** With the second rule present the atoms are still those of the first
    rule (one for the total, two per-list minima), and both rules are
    reported. *)
Example twoRules_run :
  option_map (fun r => (requiredItems r, satisfied r,
                        List.length (cross_list_checks r)))
             (evaluateProgram PrereqFacts.noAliases (fun _ => None)
                              scenario5Taken twoRules false)
  = Some (3%Z, 3%Z, 2%nat).
Proof. vm_compute. reflexivity. Qed.

(** A course listed in two pooled sections, with no per-list minimum and
    6 units required in total, while a single 3-unit course is taken. *)
Definition sharedCourse : Detail :=
  {| sections :=
       [ {| s_name := "X"; s_rule := Some (ruleOfType "LIST");
            s_items := [rawItem [("HIST 1", 3)]] |};
         {| s_name := "Y"; s_rule := Some (ruleOfType "LIST");
            s_items := [rawItem [("HIST 1", 3)]] |} ];
     cross_list_rules :=
       [ {| c_type := "CROSS_LIST_UNITS"; c_applies_to := ["X"; "Y"];
            c_per_list_min_units := []; c_min_units_total := 6 |} ] |}.

(** C1 fails in pass 2 of the cross-list allocation, which does not look
    at [usedSet] again as pass 1 does: the one taken course is chosen for
    the item of X and again for the item of Y, its 3 units are counted
    twice, and [evaluateProgram] reports the 6-unit total as met. *)
Lemma code_consumed_twice :
  option_map (fun r => (option_map (fun c => (marks c, totalUnits c, done c))
                                   (crossListSummary r),
                        usedSet (finalAlloc r), requiredItems r, satisfied r, percent r))
             (evaluateProgram PrereqFacts.noAliases (fun _ => None) ["HIST 1"]
                              sharedCourse false)
  = Some (Some ([((0%nat, 0%nat), {| code := "HIST 1"; units := 3 |});
                 ((1%nat, 0%nat), {| code := "HIST 1"; units := 3 |})],
                6, true),
          ["HIST 1"], 1%Z, 1%Z, 100%Z).
Proof. vm_compute. reflexivity. Qed.

End EvalFacts.

(** ** LIST sections *)

Lemma fold_left_filter {A S} (F : S -> A -> S) (P : A -> bool) (l : list A) :
  forall s, fold_left F (filter P l) s
            = fold_left (fun s x => if P x then F s x else s) l s.
Proof.
  induction l as [|x l IH]; intros s; cbn; [reflexivity|].
  destruct (P x); cbn; apply IH.
Qed.

Lemma fold_indexed_rel {A B S} (R : A -> B -> Prop)
    (F : S -> nat * A -> S) (G : S -> nat * B -> S) :
  (forall i a b s, R a b -> F s (i, a) = G s (i, b)) ->
  forall l l', Forall2 R l l' ->
  forall k s, fold_left F (combine (seq k (List.length l)) l) s
              = fold_left G (combine (seq k (List.length l')) l') s.
Proof.
  intros HFG l l' H. induction H as [|a b l l' Hab _ IH]; intros k s; cbn.
  - reflexivity.
  - rewrite (HFG k a b s Hab). apply IH.
Qed.

Lemma filter_indexed_rel {A} (R : A -> A -> Prop) (P Q : nat * A -> bool) :
  (forall i a b, R a b ->
                 (a = b /\ P (i, a) = Q (i, b)) \/ (P (i, a) = false /\ Q (i, b) = false)) ->
  forall l l', Forall2 R l l' ->
  forall k, filter P (combine (seq k (List.length l)) l)
            = filter Q (combine (seq k (List.length l')) l').
Proof.
  intros HPQ l l' H. induction H as [|a b l l' Hab _ IH]; intros k; cbn.
  - reflexivity.
  - destruct (HPQ k a b Hab) as [[-> ->] | [-> ->]].
    + destruct (Q (k, b)); [f_equal|]; apply IH.
    + apply IH.
Qed.

Lemma Forall2_same {A} (R : A -> A -> Prop) (l : list A) :
  (forall a, R a a) -> Forall2 R l l.
Proof. intros H. induction l; constructor; auto. Qed.

Module ListFacts.
Import Program.

(** The count that [coerceSelectCountRule] reads off a section name
    "Select <n> ...", if any. *)
Definition selectCount (nm : string) : option nat :=
  if Str.nonEmpty nm then
    match selectWord nm with
    | Some w => match wordsToNum w with
                | Some (S n) => Some (S n)
                | _ => None
                end
    | None => None
    end
  else None.

(** Whether the word after "Select" names a member that the literal of
    [wordsToNum] inherits. *)
Definition selectsInherited (nm : string) : bool :=
  match selectWord nm with
  | Some w => inheritedMember w
  | None => false
  end.

(** The same section under rule ALL. *)
Definition asALL (s : RawSection) : RawSection :=
  {| s_name := s_name s; s_rule := Some ruleALL; s_items := s_items s |}.

Lemma coerce_no_select (s : RawSection) :
  selectCount (s_name s) = None -> coerceSelectCountRule s = s_rule s.
Proof.
  unfold selectCount, coerceSelectCountRule.
  destruct (Str.nonEmpty (s_name s)); [|reflexivity].
  destruct (selectWord (s_name s)) as [w|]; [|reflexivity].
  destruct (String.eqb (ruleType (s_rule s)) "LIST"); [|reflexivity].
  destruct (wordsToNum w) as [[|n]|]; [reflexivity | discriminate | reflexivity].
Qed.

Lemma coerce_asALL (s : RawSection) : coerceSelectCountRule (asALL s) = Some ruleALL.
Proof.
  unfold coerceSelectCountRule. cbn [asALL s_name s_rule].
  destruct (Str.nonEmpty (s_name s)); [|reflexivity].
  destruct (selectWord (s_name s)); reflexivity.
Qed.

Lemma split_at {A} (l : list A) (n : nat) (x : A) :
  nth_error l n = Some x -> l = firstn n l ++ x :: skipn (S n) l.
Proof.
  revert n. induction l as [|y l IH]; intros [|n] H; cbn in H; try discriminate.
  - now injection H as ->.
  - cbn [firstn skipn app]. f_equal. now apply IH.
Qed.

Lemma indexed_nth {A} (l : list A) (n : nat) (x : A) :
  nth_error l n = Some x -> nth_error (indexed l) n = Some (n, x).
Proof.
  unfold indexed. intros H.
  assert (G : forall k, nth_error (combine (seq k (List.length l)) l) n = Some (k + n, x)%nat).
  { revert n H. induction l as [|y l IH]; intros [|n] H k; cbn in H; try discriminate.
    - injection H as ->. cbn. now rewrite Nat.add_0_r.
    - cbn. rewrite (IH n H (S k)). f_equal. f_equal. lia. }
  apply (G 0%nat).
Qed.

Lemma indexed_firstn_lt {A} (l : list A) (n : nat) (p : nat * A) :
  In p (firstn n (indexed l)) -> (fst p < n)%nat.
Proof.
  unfold indexed.
  assert (G : forall k, In p (firstn n (combine (seq k (List.length l)) l)) ->
                        (fst p < k + n)%nat).
  { revert n. induction l as [|y l IH]; intros [|n] k H; cbn in H; try contradiction.
    destruct H as [<- | H]; [cbn; lia|]. specialize (IH n (S k) H). lia. }
  apply (G 0%nat).
Qed.

Section Facts.

Variable aliases : CourseAliases.
Variable coursesIndex : string -> option Q.
Variable takenSet : CodeSet.

(** An ALL section in the spec's words: every item in order, each matched
    item giving its first taken and unused option.  The result lists the
    positions of the matched items with their picks. *)
Fixpoint specAll (items : list Item) (ii : nat) (used : CodeSet) : list (nat * Opt) :=
  match items with
  | [] => []
  | it :: rest =>
      match findMatchForItem it takenSet used with
      | Some pick => (ii, pick) :: specAll rest (S ii) (add used (code pick))
      | None => specAll rest (S ii) used
      end
  end.

(** The ALL/LIST loop of [evaluateProgram] over the sections [ps]. *)
Definition allLoop (detail : Detail) (skip : bool) (ps : list (nat * Section))
    (e : EvalState) : EvalState :=
  fold_left (fun e p => if skip && isGESection (name (snd p)) then e
                        else allishSection takenSet (fst p) e)
            (filter (fun p => isAllish detail (snd p)) ps) e.

(** The COUNT and UNITS loops that follow it. *)
Definition laterLoops (detail : Detail) (skip : bool) (e1 : EvalState)
    : option EvalState :=
  let secs := map workingSection (sections detail) in
  let poolsByList := buildPools secs in
  let skipped (s : Section) := skip && isGESection (name s) in
  let e2 :=
    fold_left (fun e p => if skipped (snd p) then e
                          else countSection takenSet poolsByList (snd p) (fst p) e)
              (filter (fun p => String.eqb (ruleTypeOf (r_type (rule (snd p)))) "COUNT"
                                && negb (sectionIsInCrossList detail (name (snd p))))
                      (indexed secs)) e1 in
  runUnits aliases takenSet poolsByList
    (filter (fun p => negb (skipped (snd p)))
       (filter (fun p => String.eqb (ruleTypeOf (r_type (rule (snd p)))) "UNITS")
               (indexed secs))) e2.

(** The state in which the section loops start. *)
Definition startState (detail : Detail) (used0 : CodeSet) : EvalState :=
  {| e_alloc := {| store := map (indexSectionItems aliases coursesIndex) (sections detail);
                   usedSet := used0 |};
     requiredAtomCount := 0; metAtomCount := 0; e_report := [] |}.

(** Working sections that the evaluator cannot tell apart: equal, or a
    LIST section outside the cross-list rules against its ALL twin. *)
Definition alike (detail : Detail) (w w' : Section) : Prop :=
  w = w'
  \/ (name w = name w'
      /\ ruleTypeOf (r_type (rule w)) = "LIST"
      /\ rule w' = ruleALL
      /\ sectionIsInCrossList detail (name w) = false).

Lemma alike_name (detail : Detail) (w w' : Section) :
  alike detail w w' -> name w = name w'.
Proof. intros [-> | [H _]]; auto. Qed.

Lemma buildPools_alike (detail : Detail) (secs secs' : list Section) :
  Forall2 (alike detail) secs secs' -> buildPools secs = buildPools secs'.
Proof.
  intros H. unfold buildPools, indexed.
  apply (fold_indexed_rel (alike detail)); [|exact H].
  intros i a b s Hab. cbn [fst snd]. now rewrite (alike_name _ _ _ Hab).
Qed.

Lemma crossFinding_alike (detail : Detail) (secs secs' : list Section)
    (st : Store) (r : CrossRule) :
  Forall2 (alike detail) secs secs' ->
  crossFinding secs st r = crossFinding secs' st r.
Proof.
  intros H. unfold crossFinding, indexed.
  match goal with
  | |- context [fold_left ?F (combine (seq 0 (List.length secs)) secs) ?init] =>
      assert (HF : forall i a b s, alike detail a b -> F s (i, a) = F s (i, b))
        by (intros i a b s Hab; cbn; now rewrite (alike_name _ _ _ Hab));
      rewrite (fold_indexed_rel (alike detail) F F HF secs secs' H)
  end.
  reflexivity.
Qed.

Lemma sectionPool_same_items (l l' : list RawSection) (cr : list CrossRule)
    (rule : CrossRule) :
  Forall2 (fun s s' => s_name s = s_name s' /\ s_items s = s_items s') l l' ->
  sectionPool {| sections := l; cross_list_rules := cr |} rule
  = sectionPool {| sections := l'; cross_list_rules := cr |} rule.
Proof.
  intros H. unfold sectionPool. cbn [sections].
  eapply fold_indexed_rel; [|exact H].
  intros i a b s [Hn Hi]. cbn. unfold hitsOfSection. now rewrite Hn, Hi.
Qed.

Lemma sectionIsInCrossList_rules (detail detail' : Detail) (n : string) :
  cross_list_rules detail' = cross_list_rules detail ->
  sectionIsInCrossList detail' n = sectionIsInCrossList detail n.
Proof. unfold sectionIsInCrossList. now intros ->. Qed.

Lemma isAllish_alike (detail : Detail) (w w' : Section) :
  alike detail w w' -> isAllish detail w = true <-> isAllish detail w' = true.
Proof.
  intros [-> | [Hn [Hl [Hr Hc]]]]; [tauto|].
  unfold isAllish. rewrite Hl, Hr, Hc. cbn. tauto.
Qed.

Lemma sectionsPhase_alike (detail detail' : Detail) (skip : bool) (used0 : CodeSet) :
  cross_list_rules detail' = cross_list_rules detail ->
  map (indexSectionItems aliases coursesIndex) (sections detail')
  = map (indexSectionItems aliases coursesIndex) (sections detail) ->
  Forall2 (alike detail) (map workingSection (sections detail))
                         (map workingSection (sections detail')) ->
  sectionsPhase aliases coursesIndex takenSet detail skip used0
  = sectionsPhase aliases coursesIndex takenSet detail' skip used0.
Proof.
  intros Hcr Hst Hal. unfold sectionsPhase.
  set (secs := map workingSection (sections detail)) in *.
  set (secs' := map workingSection (sections detail')) in *.
  rewrite Hst, <- (buildPools_alike detail secs secs' Hal).
  set (pools := buildPools secs).
  set (e0 := {| e_alloc := _; requiredAtomCount := 0; metAtomCount := 0;
                e_report := [] |}).
  assert (H1 :
    fold_left (fun e p => if skip && isGESection (name (snd p)) then e
                          else allishSection takenSet (fst p) e)
              (filter (fun p => isAllish detail (snd p)) (indexed secs)) e0
    = fold_left (fun e p => if skip && isGESection (name (snd p)) then e
                            else allishSection takenSet (fst p) e)
                (filter (fun p => isAllish detail' (snd p)) (indexed secs')) e0).
  { rewrite !fold_left_filter. unfold indexed.
    apply (fold_indexed_rel (alike detail)); [|exact Hal].
    intros i a b s Hab. cbn [fst snd].
    rewrite (alike_name _ _ _ Hab).
    assert (Hi : isAllish detail' b = isAllish detail a).
    { pose proof (isAllish_alike detail a b Hab) as Hiff.
      unfold isAllish at 1.
      rewrite (sectionIsInCrossList_rules detail detail' _ Hcr).
      fold (isAllish detail b).
      destruct (isAllish detail a), (isAllish detail b); try reflexivity;
        destruct Hiff as [H1 H2]; [exact (H1 eq_refl) | symmetry; exact (H2 eq_refl)]. }
    rewrite Hi. reflexivity. }
  rewrite <- H1. clear H1.
  set (e1 := fold_left _ _ e0).
  assert (H2 :
    filter (fun p : nat * Section =>
              String.eqb (ruleTypeOf (r_type (rule (snd p)))) "COUNT"
              && negb (sectionIsInCrossList detail (name (snd p)))) (indexed secs)
    = filter (fun p : nat * Section =>
                String.eqb (ruleTypeOf (r_type (rule (snd p)))) "COUNT"
                && negb (sectionIsInCrossList detail' (name (snd p)))) (indexed secs')).
  { unfold indexed. apply (filter_indexed_rel (alike detail)); [|exact Hal].
    intros i a b [-> | [Hn [Hl [Hr Hc]]]]; cbn [snd].
    - left. split; [reflexivity|].
      now rewrite (sectionIsInCrossList_rules detail detail' _ Hcr).
    - right. rewrite Hl, Hr. split; reflexivity. }
  rewrite <- H2. clear H2.
  assert (H3 :
    filter (fun p : nat * Section =>
              String.eqb (ruleTypeOf (r_type (rule (snd p)))) "UNITS") (indexed secs)
    = filter (fun p : nat * Section =>
                String.eqb (ruleTypeOf (r_type (rule (snd p)))) "UNITS") (indexed secs')).
  { unfold indexed. apply (filter_indexed_rel (alike detail)); [|exact Hal].
    intros i a b [-> | [Hn [Hl [Hr Hc]]]]; cbn [snd].
    - left. split; reflexivity.
    - right. rewrite Hl, Hr. split; reflexivity. }
  rewrite <- H3. reflexivity.
Qed.

Lemma allishItem_atoms (si ii : nat) (e : EvalState) :
  let e' := allishItem takenSet si ii e in
  requiredAtomCount e' = (requiredAtomCount e + 1)%Z
  /\ match getItem (store (e_alloc e)) si ii with
     | Some item =>
         match findMatchForItem item takenSet (usedSet (e_alloc e)) with
         | Some pick =>
             metAtomCount e' = (metAtomCount e + 1)%Z
             /\ has (usedSet (e_alloc e')) (code pick) = true
             /\ exists item', getItem (store (e_alloc e')) si ii = Some item'
                              /\ matched item' = true /\ chosen item' = Some pick
         | None => metAtomCount e' = metAtomCount e /\ e_alloc e' = e_alloc e
         end
     | None => metAtomCount e' = metAtomCount e /\ e_alloc e' = e_alloc e
     end.
Proof.
  unfold allishItem.
  destruct (getItem (store (e_alloc e)) si ii) as [item|] eqn:Hget; [|cbn; auto].
  destruct (findMatchForItem item takenSet (usedSet (e_alloc e))) as [pick|];
    [|cbn; auto].
  cbn [requiredAtomCount metAtomCount e_alloc consume usedSet store].
  split; [reflexivity|]. split; [reflexivity|].
  split; [apply has_add_same|].
  rewrite getItem_markItem, Hget, !Nat.eqb_refl. cbn.
  eexists. repeat split.
Qed.

Lemma sectionsPhase_loops (detail : Detail) (skip : bool) (used0 : CodeSet) :
  sectionsPhase aliases coursesIndex takenSet detail skip used0
  = laterLoops detail skip
      (allLoop detail skip (indexed (map workingSection (sections detail)))
               (startState detail used0)).
Proof. reflexivity. Qed.

Definition allItems (si : nat) (idxs : list nat) (e : EvalState) : EvalState :=
  fold_left (fun e ii => allishItem takenSet si ii e) idxs e.

Lemma allItems_refines (si : nat) (items : list Item) :
  forall (ii : nat) (e : EvalState),
    (forall j, nth_error items j = getItem (store (e_alloc e)) si (ii + j)) ->
    let picks := specAll items ii (usedSet (e_alloc e)) in
    allItems si (seq ii (List.length items)) e
    = {| e_alloc := CountFacts.applyPicks (e_alloc e) si picks;
         requiredAtomCount := requiredAtomCount e + Z.of_nat (List.length items);
         metAtomCount := metAtomCount e + Z.of_nat (List.length picks);
         e_report := e_report e |}.
Proof.
  unfold allItems.
  induction items as [|it rest IH]; intros ii e Hitems;
    cbn [List.length seq fold_left specAll].
  - cbn. rewrite !Z.add_0_r. now destruct e.
  - pose proof (Hitems 0%nat) as H0. rewrite Nat.add_0_r in H0. cbn in H0.
    assert (Hrest : forall e',
               (forall j, getItem (store (e_alloc e')) si (S ii + j)
                          = getItem (store (e_alloc e)) si (S ii + j)) ->
               forall j, nth_error rest j = getItem (store (e_alloc e')) si (S ii + j)).
    { intros e' He' j. rewrite He'. specialize (Hitems (S j)). cbn in Hitems.
      rewrite Hitems. f_equal. lia. }
    unfold allishItem at 2. rewrite <- H0.
    destruct (findMatchForItem it takenSet (usedSet (e_alloc e))) as [pick|].
    + rewrite IH.
      * cbn [e_alloc requiredAtomCount metAtomCount e_report usedSet consume
             CountFacts.applyPicks fold_left fst snd List.length].
        f_equal; lia.
      * apply Hrest. intros j. cbn [e_alloc].
        apply CountFacts.getItem_consume_other. right. lia.
    + rewrite IH.
      * cbn [e_alloc requiredAtomCount metAtomCount e_report]. f_equal; lia.
      * apply Hrest. reflexivity.
Qed.

Lemma allishSection_refines (si : nat) (e : EvalState) :
  let items := getItems (store (e_alloc e)) si in
  let picks := specAll items 0 (usedSet (e_alloc e)) in
  allishSection takenSet si e
  = {| e_alloc := CountFacts.applyPicks (e_alloc e) si picks;
       requiredAtomCount := requiredAtomCount e + Z.of_nat (List.length items);
       metAtomCount := metAtomCount e + Z.of_nat (List.length picks);
       e_report := e_report e |}.
Proof.
  intros items picks. unfold allishSection. fold items.
  apply (allItems_refines si items 0 e). intros j. reflexivity.
Qed.

Lemma applyPicks_usedSet (a : Alloc) (si : nat) (picks : list (nat * Opt)) :
  usedSet (CountFacts.applyPicks a si picks)
  = fold_left add (map (fun p => code (snd p)) picks) (usedSet a).
Proof.
  unfold CountFacts.applyPicks. revert a.
  induction picks as [|p picks IH]; intros a; cbn [fold_left map]; [reflexivity|].
  rewrite IH. reflexivity.
Qed.

Lemma applyPicks_other (a : Alloc) (si : nat) (picks : list (nat * Opt)) (sj : nat) :
  si <> sj ->
  getItems (store (CountFacts.applyPicks a si picks)) sj = getItems (store a) sj.
Proof.
  intros Hne. unfold CountFacts.applyPicks. revert a.
  induction picks as [|p picks IH]; intros a; cbn [fold_left]; [reflexivity|].
  rewrite IH. cbn [consume store]. rewrite getItems_markItem.
  apply Nat.eqb_neq in Hne. now rewrite Hne.
Qed.

Lemma applyPicks_grows (a : Alloc) (si : nat) (picks : list (nat * Opt)) :
  grows a (CountFacts.applyPicks a si picks).
Proof.
  unfold CountFacts.applyPicks. revert a.
  induction picks as [|p picks IH]; intros a; cbn [fold_left]; [apply grows_refl|].
  eapply grows_trans; [apply grows_consume | apply IH].
Qed.

Lemma specAll_positions (items : list Item) :
  forall ii used,
    Forall (fun p => (ii <= fst p < ii + List.length items)%nat) (specAll items ii used)
    /\ StronglySorted lt (map fst (specAll items ii used)).
Proof.
  induction items as [|it rest IH]; intros ii used; cbn [specAll List.length].
  - split; constructor.
  - destruct (findMatchForItem it takenSet used) as [pick|].
    + destruct (IH (S ii) (add used (code pick))) as [H1 H2]. split.
      * constructor; [cbn; lia|]. eapply Forall_impl; [|exact H1]. cbn. intros; lia.
      * cbn [map fst]. constructor; [exact H2|]. apply Forall_map.
        eapply Forall_impl; [|exact H1]. cbn. intros; lia.
    + destruct (IH (S ii) used) as [H1 H2]. split; [|exact H2].
      eapply Forall_impl; [|exact H1]. cbn. intros; lia.
Qed.

(** After the section every item of it is matched or has no taken, unused
    option, and every pick is the choice of its item. *)
Lemma allItems_exhaust (si : nat) (idxs : list nat) :
  forall e,
    let e' := allItems si idxs e in
    grows (e_alloc e) (e_alloc e')
    /\ (forall ii it, In ii idxs -> getItem (store (e_alloc e')) si ii = Some it ->
                      spent takenSet (e_alloc e') it).
Proof.
  unfold allItems.
  induction idxs as [|ii0 rest IH]; intros e; cbn [fold_left].
  - split; [apply grows_refl | intros ii it []].
  - destruct (IH (allishItem takenSet si ii0 e)) as [G Hex].
    assert (G0 : grows (e_alloc e) (e_alloc (allishItem takenSet si ii0 e))).
    { unfold allishItem. destruct (getItem _ si ii0) as [item|]; [|apply grows_refl].
      destruct (findMatchForItem item takenSet _) as [pick|]; [|apply grows_refl].
      apply grows_consume. }
    split; [eapply grows_trans; eassumption|].
    intros ii it [-> | Hin] Hget; [|exact (Hex ii it Hin Hget)].
    destruct (CountFacts.grows_getItem_back _ _ _ _ _ G Hget) as [it1 H1].
    eapply CountFacts.spent_final; [exact G | exact H1 | | exact Hget].
    revert H1. unfold allishItem.
    destruct (getItem (store (e_alloc e)) si ii) as [item|] eqn:Hitem.
    + destruct (findMatchForItem item takenSet (usedSet (e_alloc e))) as [pick|] eqn:Hf.
      * cbn [e_alloc]. intros H1.
        destruct (consume_matched (e_alloc e) si ii pick item Hitem) as [it3 [H3 M3]].
        left. congruence.
      * cbn [e_alloc]. intros H1. right. congruence.
    + cbn [e_alloc]. congruence.
Qed.

Lemma applyPicks_marks (si : nat) (picks : list (nat * Opt)) :
  forall a,
    StronglySorted lt (map fst picks) ->
    Forall (fun p => exists it, getItem (store a) si (fst p) = Some it) picks ->
    forall ii pick, In (ii, pick) picks ->
      exists it, getItem (store (CountFacts.applyPicks a si picks)) si ii = Some it
                 /\ matched it = true /\ chosen it = Some pick.
Proof.
  unfold CountFacts.applyPicks.
  induction picks as [|[i0 p0] picks IH]; intros a Hs Hv ii pick Hin; [destruct Hin|].
  cbn [fold_left fst snd]. cbn [map fst] in Hs.
  inversion Hs as [|? ? Hs' Hlt]; subst. inversion Hv as [|? ? [it0 H0] Hv']; subst.
  cbn [fst] in H0.
  destruct Hin as [Heq | Hin].
  - injection Heq as -> ->.
    assert (Hkeep : forall l b,
               Forall (fun p => (ii < fst p)%nat) l ->
               getItem (store (fold_left (fun a p => consume a si (fst p) (snd p)) l b)) si ii
               = getItem (store b) si ii).
    { induction l as [|q l IHl]; intros b Hl; cbn [fold_left]; [reflexivity|].
      inversion Hl; subst. rewrite IHl by assumption.
      apply CountFacts.getItem_consume_other. right. lia. }
    rewrite Hkeep.
    + cbn [consume store]. rewrite getItem_markItem, H0, !Nat.eqb_refl. cbn.
      eexists. repeat split.
    + rewrite Forall_map in Hlt. exact Hlt.
  - apply IH; [exact Hs' | | exact Hin].
    eapply Forall_impl; [|exact Hv']. cbn. intros q [it Hq].
    cbn [consume store]. rewrite getItem_markItem, Hq.
    destruct (_ && _); eexists; reflexivity.
Qed.

Lemma allishSection_other (si sj : nat) (e : EvalState) :
  si <> sj ->
  getItems (store (e_alloc (allishSection takenSet si e))) sj
  = getItems (store (e_alloc e)) sj.
Proof.
  intros Hne. rewrite allishSection_refines. cbn [e_alloc].
  now apply applyPicks_other.
Qed.

Lemma allLoop_other (detail : Detail) (skip : bool) (ps : list (nat * Section))
    (sj : nat) :
  Forall (fun p => fst p <> sj) ps ->
  forall e, getItems (store (e_alloc (allLoop detail skip ps e))) sj
            = getItems (store (e_alloc e)) sj.
Proof.
  unfold allLoop. induction 1 as [|p ps Hp _ IH]; intros e; cbn [filter fold_left];
    [reflexivity|].
  destruct (isAllish detail (snd p)); [|apply IH]. cbn [fold_left].
  rewrite IH. destruct (skip && _); [reflexivity|]. now apply allishSection_other.
Qed.

Lemma allLoop_split (detail : Detail) (skip : bool) (ps : list (nat * Section))
    (n i : nat) (s : Section) (e : EvalState) :
  nth_error ps n = Some (i, s) ->
  isAllish detail s = true ->
  skip && isGESection (name s) = false ->
  allLoop detail skip ps e
  = allLoop detail skip (skipn (S n) ps)
      (allishSection takenSet i (allLoop detail skip (firstn n ps) e)).
Proof.
  intros Hnth Hall Hskip. rewrite (split_at ps n _ Hnth) at 1. unfold allLoop.
  rewrite filter_app, fold_left_app. cbn [filter snd]. rewrite Hall.
  cbn [fold_left fst snd]. rewrite Hskip. reflexivity.
Qed.

End Facts.

(** C8, as amended.  A LIST section that no CROSS_LIST_UNITS rule pools
    and whose name is not of the form "Select <n> ..." ([n] a positive
    numeral, a number word, or a word that the literal of [wordsToNum]
    inherits) is evaluated as an ALL section.  The whole evaluation is the
    one of the program in which the section has rule ALL.  In the run,
    unless the section is skipped as a GE section: when the ALL/LIST loop
    reaches the section its items are still unmatched; the section is
    evaluated by [allishSection], which walks its items in order
    ([specAll]), adds one required atom per item, one satisfied atom per
    matched item, marks each matched item with its pick and puts the
    pick's code into [usedSet]; the run continues from that state.
    Afterwards every item of the section is matched or has no taken and
    unused option.  Item by item: [allishItem] adds one required atom,
    and for a match one satisfied atom whose code is in [usedSet]. *)
Theorem list_section_is_all
    (aliases : CourseAliases) (coursesIndex : string -> option Q)
    (takenSet : CodeSet) (l1 : list RawSection) (s0 : RawSection)
    (l2 : list RawSection) (cr : list CrossRule) (skip : bool)
    (Hlist : ruleType (s_rule s0) = "LIST")
    (Hname : selectCount (s_name s0) = None)
    (Hown : selectsInherited (s_name s0) = false) :
  let detail := {| sections := l1 ++ s0 :: l2; cross_list_rules := cr |} in
  let detailALL := {| sections := l1 ++ asALL s0 :: l2; cross_list_rules := cr |} in
  sectionIsInCrossList detail (s_name s0) = false ->
  isAllish detail (workingSection s0) = true
  /\ evaluateProgram aliases coursesIndex takenSet detail skip
     = evaluateProgram aliases coursesIndex takenSet detailALL skip
  /\ (skip && isGESection (s_name s0) = false ->
      let si := List.length l1 in
      let used0 := snd (evalCrossListUnits takenSet detail []) in
      let ps := indexed (map workingSection (sections detail)) in
      let before := allLoop takenSet detail skip (firstn si ps)
                      (startState aliases coursesIndex detail used0) in
      let picks := specAll takenSet (indexSectionItems aliases coursesIndex s0) 0
                     (usedSet (e_alloc before)) in
      let after :=
        {| e_alloc := CountFacts.applyPicks (e_alloc before) si picks;
           requiredAtomCount :=
             (requiredAtomCount before + Z.of_nat (List.length (s_items s0)))%Z;
           metAtomCount := (metAtomCount before + Z.of_nat (List.length picks))%Z;
           e_report := e_report before |} in
      getItems (store (e_alloc before)) si = indexSectionItems aliases coursesIndex s0
      /\ allishSection takenSet si before = after
      /\ sectionsPhase aliases coursesIndex takenSet detail skip used0
         = laterLoops aliases takenSet detail skip
             (allLoop takenSet detail skip (skipn (S si) ps) after)
      /\ usedSet (e_alloc after)
         = fold_left add (map (fun p => code (snd p)) picks) (usedSet (e_alloc before))
      /\ StronglySorted lt (map fst picks)
      /\ (forall ii pick, In (ii, pick) picks ->
            exists it, getItem (store (e_alloc after)) si ii = Some it
                       /\ matched it = true /\ chosen it = Some pick)
      /\ (forall ii it, getItem (store (e_alloc after)) si ii = Some it ->
            matched it = true
            \/ findMatchForItem it takenSet (usedSet (e_alloc after)) = None))
  /\ forall si ii e,
       let e' := allishItem takenSet si ii e in
       requiredAtomCount e' = (requiredAtomCount e + 1)%Z
       /\ match getItem (store (e_alloc e)) si ii with
          | Some item =>
              match findMatchForItem item takenSet (usedSet (e_alloc e)) with
              | Some pick =>
                  metAtomCount e' = (metAtomCount e + 1)%Z
                  /\ has (usedSet (e_alloc e')) (code pick) = true
                  /\ exists item', getItem (store (e_alloc e')) si ii = Some item'
                                   /\ matched item' = true /\ chosen item' = Some pick
              | None => metAtomCount e' = metAtomCount e /\ e_alloc e' = e_alloc e
              end
          | None => metAtomCount e' = metAtomCount e /\ e_alloc e' = e_alloc e
          end.
Proof.
  intros detail detailALL Hcross.
  assert (Hw : alike detail (workingSection s0) (workingSection (asALL s0))).
  { right. unfold workingSection. rewrite (coerce_no_select s0 Hname), coerce_asALL.
    cbn [name rule asALL s_name]. repeat split; [|exact Hcross].
    destruct (s_rule s0) as [r|]; [exact Hlist | discriminate Hlist]. }
  assert (Hal : Forall2 (alike detail) (map workingSection (sections detail))
                        (map workingSection (sections detailALL))).
  { subst detail detailALL. cbn [sections]. rewrite !map_app. cbn [map].
    apply Forall2_app; [apply Forall2_same; now left|].
    constructor; [exact Hw | apply Forall2_same; now left]. }
  assert (Hallish : isAllish detail (workingSection s0) = true).
  { apply (isAllish_alike detail _ _ Hw). unfold isAllish, workingSection.
    rewrite coerce_asALL. reflexivity. }
  split; [exact Hallish|]. split; [|split].
  - assert (Hx : forall u, evalCrossListUnits takenSet detail u
                           = evalCrossListUnits takenSet detailALL u).
    { intros u. unfold evalCrossListUnits, detail, detailALL. cbn [cross_list_rules].
      destruct (find _ cr) as [rule|]; [|reflexivity].
      rewrite (sectionPool_same_items (l1 ++ s0 :: l2) (l1 ++ asALL s0 :: l2) cr rule);
        [reflexivity|].
      apply Forall2_app; [apply Forall2_same; auto|].
      constructor; [split; reflexivity | apply Forall2_same; auto]. }
    unfold evaluateProgram. rewrite <- Hx.
    destruct (evalCrossListUnits takenSet detail []) as [cross used0].
    rewrite <- (sectionsPhase_alike aliases coursesIndex takenSet detail detailALL
                  skip used0 eq_refl); [|
      subst detail detailALL; cbn [sections]; rewrite !map_app; reflexivity | exact Hal].
    destruct (sectionsPhase _ _ _ detail skip used0) as [e3|]; [|reflexivity].
    unfold crossFindings. cbn [cross_list_rules detail detailALL].
    rewrite (map_ext _ _ (fun r => crossFinding_alike detail _ _ (store (e_alloc e3)) r Hal)).
    reflexivity.
  - intros Hskip si used0 ps before picks after.
    assert (Hnth : nth_error ps si = Some (si, workingSection s0)).
    { apply indexed_nth. unfold detail. cbn [sections].
      rewrite map_app, nth_error_app2; rewrite length_map; [|unfold si; lia].
      unfold si. rewrite Nat.sub_diag. reflexivity. }
    assert (Hitems : getItems (store (e_alloc before)) si
                     = indexSectionItems aliases coursesIndex s0).
    { unfold before. rewrite allLoop_other.
      - unfold startState, getItems. cbn [e_alloc store]. unfold detail. cbn [sections].
        rewrite map_app, app_nth2; rewrite length_map; [|unfold si; lia].
        unfold si. rewrite Nat.sub_diag. reflexivity.
      - apply Forall_forall. intros p Hp. apply indexed_firstn_lt in Hp. lia. }
    assert (Hlen : List.length (indexSectionItems aliases coursesIndex s0)
                   = List.length (s_items s0)).
    { unfold indexSectionItems. now rewrite length_map. }
    assert (Hafter : allishSection takenSet si before = after).
    { rewrite allishSection_refines. rewrite Hitems, Hlen. reflexivity. }
    destruct (specAll_positions takenSet (indexSectionItems aliases coursesIndex s0)
                0 (usedSet (e_alloc before))) as [Hpos Hsorted].
    fold picks in Hpos, Hsorted.
    split; [exact Hitems|]. split; [exact Hafter|]. split; [|split; [|split; [|split]]].
    + rewrite sectionsPhase_loops. f_equal. fold ps.
      rewrite (allLoop_split takenSet detail skip ps si si (workingSection s0) _
                 Hnth Hallish Hskip).
      fold before. rewrite Hafter. reflexivity.
    + unfold after. cbn [e_alloc]. apply applyPicks_usedSet.
    + exact Hsorted.
    + unfold after. cbn [e_alloc]. apply applyPicks_marks; [exact Hsorted|].
      eapply Forall_impl; [|exact Hpos]. cbn. intros p Hp.
      unfold getItem. rewrite Hitems.
      destruct (nth_error (indexSectionItems aliases coursesIndex s0) (fst p)) eqn:E;
        [eexists; reflexivity|].
      apply nth_error_None in E. lia.
    + intros ii it Hget. rewrite <- Hafter in Hget |- *.
      destruct (allItems_exhaust takenSet si
                  (seq 0 (List.length (getItems (store (e_alloc before)) si))) before)
        as [_ Hex].
      assert (Hin : In ii (seq 0 (List.length (getItems (store (e_alloc before)) si)))).
      { apply in_seq. split; [lia|]. cbn.
        pose proof (applyPicks_grows (e_alloc before) si picks) as G.
        rewrite Hafter in Hget. unfold after in Hget. cbn [e_alloc] in Hget.
        destruct (CountFacts.grows_getItem_back _ _ _ _ _ G Hget) as [it1 H1].
        unfold getItem in H1.
        assert (Hsome : nth_error (getItems (store (e_alloc before)) si) ii <> None)
          by congruence.
        apply nth_error_Some in Hsome. exact Hsome. }
      specialize (Hex ii it Hin Hget). exact Hex.
  - apply allishItem_atoms.
Qed.

(** A LIST section named "Select one course" with two items, both taken. *)
Definition selectOne : Detail :=
  {| sections :=
       [ {| s_name := "Select one course"; s_rule := Some (CrossFacts.ruleOfType "LIST");
            s_items := [CrossFacts.rawItem [("ART 1", 3)];
                        CrossFacts.rawItem [("ART 2", 3)]] |} ];
     cross_list_rules := [] |}.

(** A LIST section named "Humanities" with two items, one of them taken. *)
Definition humanities : RawSection :=
  {| s_name := "Humanities"; s_rule := Some (CrossFacts.ruleOfType "LIST");
     s_items := [CrossFacts.rawItem [("ART 1", 3)]; CrossFacts.rawItem [("ART 2", 3)]] |}.

Lemma list_section_is_all_witness :
  ruleType (s_rule humanities) = "LIST"
  /\ selectCount (s_name humanities) = None
  /\ selectsInherited (s_name humanities) = false
  /\ sectionIsInCrossList {| sections := [humanities]; cross_list_rules := [] |}
                          (s_name humanities) = false
  /\ evaluateProgram PrereqFacts.noAliases (fun _ => None) ["ART 1"]
                     {| sections := [humanities]; cross_list_rules := [] |} false
     = evaluateProgram PrereqFacts.noAliases (fun _ => None) ["ART 1"]
                       {| sections := [asALL humanities]; cross_list_rules := [] |} false.
Proof.
  split; [reflexivity|]. split; [reflexivity|]. split; [reflexivity|].
  split; [reflexivity|].
  exact (proj1 (proj2 (list_section_is_all PrereqFacts.noAliases (fun _ => None)
                         ["ART 1"] [] humanities [] [] false
                         eq_refl eq_refl eq_refl eq_refl))).
Defined.

(** C8 as stated fails for a section whose name reads "Select <n> ...":
    it is a LIST section outside every cross-list rule, yet it is evaluated
    as [COUNT{min: 1, max: 1}]: one required atom instead of two, and only
    one of the two taken courses is consumed. *)
Lemma list_section_is_all_counterexample :
  ruleType (Some (CrossFacts.ruleOfType "LIST")) = "LIST"
  /\ sectionIsInCrossList selectOne "Select one course" = false
  /\ option_map (fun r => (requiredItems r, satisfied r, usedSet (finalAlloc r)))
       (evaluateProgram PrereqFacts.noAliases (fun _ => None) ["ART 1"; "ART 2"]
                        selectOne false)
     = Some (1%Z, 1%Z, ["ART 1"])
  /\ option_map (fun r => (requiredItems r, satisfied r, usedSet (finalAlloc r)))
       (evaluateProgram PrereqFacts.noAliases (fun _ => None) ["ART 1"; "ART 2"]
          {| sections := map asALL (sections selectOne); cross_list_rules := [] |} false)
     = Some (2%Z, 2%Z, ["ART 1"; "ART 2"]).
Proof. vm_compute. repeat split. Qed.

End ListFacts.

(** ** GE area leaves *)

Module AreaFacts.
Import GE.




Ltac split5 := split; [|split; [|split; [|split]]].

Section Passes.

Variable examUnits : Obj.t Q.

Local Abbreviation pref := (prefOf examUnits).

(** [seen] holds exactly the disciplines of [chosen], each once. *)
Definition selInv (sel : Sel) : Prop :=
  let '(chosen, _, seen) := sel in
  (forall p, has seen p = true <-> In p (map pref chosen))
  /\ NoDup (map pref chosen).

(** Every candidate of [scored] is chosen or barred by its discipline. *)
Definition considered (needDistinct : nat) (scored : list Scored) (sel : Sel) : Prop :=
  let '(chosen, _, seen) := sel in
  forall it, In it scored ->
             existsb (String.eqb (c it)) chosen = true
             \/ (needDistinct <> 0%nat /\ has seen (pref (c it)) = true).

Definition bothMet (needCourses : nat) (needUnits : Q) (sel : Sel) : Prop :=
  let '(chosen, units, _) := sel in
  (needCourses <= List.length chosen)%nat /\ needUnits <= units.

Lemma existsb_eqb_In (x : string) (l : list string) :
  existsb (String.eqb x) l = true <-> In x l.
Proof. apply (has_In l x). Qed.

Lemma pass1_spec (needCourses : nat) (needUnits : Q) (needDistinct : nat)
    (scored : list Scored) :
  forall chosen units seen,
    (needDistinct <> 0%nat -> selInv (chosen, units, seen)) ->
    let sel' := pass1 examUnits needCourses needUnits needDistinct scored
                      (chosen, units, seen) in
    (needDistinct <> 0%nat -> selInv sel')
    /\ (forall x, In x chosen -> In x (fst (fst sel')))
    /\ (forall p, has seen p = true -> has (snd sel') p = true)
    /\ (forall x, In x (fst (fst sel')) -> In x chosen \/ In x (map c scored))
    /\ (bothMet needCourses needUnits sel'
        \/ considered needDistinct scored sel').
Proof.
  induction scored as [|it rest IH]; intros chosen units seen Hinv; cbn [pass1].
  - cbn [fst snd]. split5; auto. right. unfold considered. intros it [].
  - destruct (negb (needDistinct =? 0)%nat && has seen (pref (c it))) eqn:Hskip.
    + apply andb_true_iff in Hskip. destruct Hskip as [Hnd Hseen].
      apply negb_true_iff, Nat.eqb_neq in Hnd.
      destruct (IH chosen units seen Hinv) as [Hi [Hc [Hs [Hsub Hend]]]].
      set (sel' := pass1 _ _ _ _ rest _) in *.
      split5; auto.
      * intros x Hx. destruct (Hsub x Hx); [now left | right; cbn; now right].
      * destruct Hend as [Hend | Hend]; [now left | right].
        destruct sel' as [[ch' un'] se']. cbn [snd] in Hs.
        intros it' [<- | Hin]; [right; split; auto | now apply Hend].
    + assert (Hinv' : needDistinct <> 0%nat ->
                      selInv (chosen ++ [c it], units + u it, add seen (pref (c it)))).
      { intros Hnd. destruct (Hinv Hnd) as [Hseen Hnodup].
        assert (Hfresh : has seen (pref (c it)) = false).
        { apply Nat.eqb_neq in Hnd. rewrite Hnd in Hskip. exact Hskip. }
        split.
        - intros p. rewrite has_add, map_app, in_app_iff, orb_true_iff, Hseen.
          cbn. rewrite String.eqb_eq. intuition congruence.
        - rewrite map_app. apply NoDup_app; [assumption | repeat constructor; auto |].
          intros p Hp [<- | []]. apply Hseen in Hp. congruence. }
      destruct ((needCourses <=? List.length (chosen ++ [c it]))%nat
                && Qgeb (units + u it) needUnits) eqn:Hstop.
      * apply andb_true_iff in Hstop. destruct Hstop as [H1 H2].
        apply Nat.leb_le in H1. apply Qgeb_le in H2.
        cbn [fst snd]. split5; auto.
        -- intros x Hx. apply in_or_app. now left.
        -- intros p Hp. now apply has_add_mono.
        -- intros x Hx. apply in_app_or in Hx.
           destruct Hx as [Hx | [<- | []]]; [now left | right; now left].
        -- left. split; assumption.
      * destruct (IH (chosen ++ [c it]) (units + u it) (add seen (pref (c it))) Hinv')
          as [Hi [Hc [Hs [Hsub Hend]]]].
        set (sel' := pass1 _ _ _ _ rest _) in *.
        split5; auto.
        -- intros x Hx. apply Hc. apply in_or_app. now left.
        -- intros p Hp. apply Hs. now apply has_add_mono.
        -- intros x Hx. destruct (Hsub x Hx) as [Hx' | Hx'].
           ++ apply in_app_or in Hx'. destruct Hx' as [Hx' | [<- | []]];
                [now left | right; now left].
           ++ right. now right.
        -- destruct Hend as [Hend | Hend]; [now left | right].
           destruct sel' as [[ch' un'] se']. cbn [fst] in Hc.
           intros it' [<- | Hin]; [|now apply Hend].
           left. apply existsb_eqb_In. apply Hc. apply in_or_app. right. now left.
Qed.






End Passes.

Section Pool.

Variable bucketMap : Obj.t CodeSet.
Variable examUnits : Obj.t Q.
Variable examByArea : Obj.t CodeSet.
Variable okCourses : CodeSet.
Variable coursesIndex : string -> option Q.


Lemma scoredPool_codes (areaName : string) (usedNow : CodeSet) (x : string) :
  In x (map c (scoredPool bucketMap examUnits examByArea okCourses coursesIndex
                          areaName usedNow))
  <-> In x (getList (areaCandidates bucketMap examByArea okCourses) areaName)
      /\ has usedNow x = false.
Proof.
  unfold scoredPool. rewrite in_map_iff. split.
  - intros [it [<- Hin]]. apply sortBy_In in Hin. apply in_map_iff in Hin.
    destruct Hin as [y [<- Hin]]. apply filter_In in Hin. cbn.
    destruct Hin as [Hin Hu]. now apply negb_true_iff in Hu.
  - intros [Hin Hu].
    exists {| c := x; u := unitsFor examUnits coursesIndex x;
              w := multiUseCount bucketMap x |}.
    split; [reflexivity|]. apply sortBy_In. apply in_map_iff. exists x.
    split; [reflexivity|]. apply filter_In.
    split; [assumption | now apply negb_true_iff].
Qed.

End Pool.






End AreaFacts.

(** ** First occurrences *)

Lemma dedupe_In (l : list string) :
  forall seen x, In x (GE.dedupe l seen) -> In x l.
Proof.
  induction l as [|y l IH]; intros seen x; cbn; [tauto|].
  destruct (has seen y); [intros H; right; eapply IH; eauto|].
  intros [<- | H]; [now left | right; eapply IH; eauto].
Qed.

Lemma dedupe_NoDup (l : list string) :
  forall seen, NoDup (GE.dedupe l seen)
               /\ forall x, In x (GE.dedupe l seen) -> ~ In x seen.
Proof.
  induction l as [|y l IH]; intros seen; cbn.
  - split; [constructor | intros x []].
  - destruct (has seen y) eqn:E; [apply IH|].
    destruct (IH (y :: seen)) as [Hnd Hout]. split.
    + constructor; [|exact Hnd]. intros Hin. apply (Hout y Hin). now left.
    + intros x [<- | Hin].
      * intros Hs. apply has_In in Hs. congruence.
      * intros Hs. apply (Hout x Hin). now right.
Qed.

Lemma dedupe_complete (l : list string) :
  forall seen x, In x l -> ~ In x seen -> In x (GE.dedupe l seen).
Proof.
  induction l as [|y l IH]; intros seen x; cbn; [tauto|].
  intros [<- | Hin] Hs.
  - destruct (has seen y) eqn:E; [|now left]. apply has_In in E. contradiction.
  - destruct (has seen y) eqn:E; [now apply IH|].
    destruct (String.eqb x y) eqn:Exy.
    + apply String.eqb_eq in Exy. now left.
    + right. apply IH; [exact Hin|]. intros [Hy | Hy]; [|contradiction].
      apply String.eqb_neq in Exy. congruence.
Qed.

(** ** GE logic nodes *)

Module WalkFacts.
Import GE.

(** Structural induction on logic nodes, through the lists of children. *)
Fixpoint Node_forall_ind (P : Node -> Prop)
    (HArea : forall a, P (NArea a))
    (HBucket : forall a, P (NBucket a))
    (HAnd : forall nodes mc mu, Forall P nodes -> P (NAnd nodes mc mu))
    (HOr : forall nodes d g, Forall P nodes -> P (NOr nodes d g))
    (HRequire : forall r, P (NRequire r))
    (HOther : P NOther)
    (n : Node) {struct n} : P n :=
  let children :=
    fix children (l : list Node) : Forall P l :=
      match l with
      | [] => Forall_nil P
      | x :: l' =>
          Forall_cons x
            (Node_forall_ind P HArea HBucket HAnd HOr HRequire HOther x)
            (children l')
      end in
  match n with
  | NArea a => HArea a
  | NBucket a => HBucket a
  | NAnd nodes mc mu => HAnd nodes mc mu (children nodes)
  | NOr nodes d g => HOr nodes d g (children nodes)
  | NRequire r => HRequire r
  | NOther => HOther
  end.

(** Two states with the same [used] and [alloc]. *)
Definition same (s s' : State) : Prop := used s = used s' /\ alloc s = alloc s'.


















Section Score.

Variable examUnits : Obj.t Q.
Variable coursesIndex : string -> option Q.

Local Abbreviation unitsOf := (unitsFor examUnits coursesIndex).




End Score.







Section Facts.

Variable bucketMap : Obj.t CodeSet.
Variable attrMap : Obj.t CodeSet.
Variable examUnits : Obj.t Q.
Variable examByArea : Obj.t CodeSet.
Variable okCourses : CodeSet.
Variable coursesIndex : string -> option Q.

Local Abbreviation walkNode :=
  (walk bucketMap attrMap examUnits examByArea okCourses coursesIndex).
Local Abbreviation score := (deltaScore examUnits coursesIndex).

Lemma same_restore (snap : CodeSet * Obj.t (list string)) (s s' : State) :
  same (restore snap s) (restore snap s').
Proof. split; reflexivity. Qed.







Section Generic.

Variable w : Node -> State -> bool * State.









End Generic.


End Facts.

Section Split.

Variable examUnits : Obj.t Q.
Variable coursesIndex : string -> option Q.
Variable w : Node -> State -> bool * State.


End Split.



(** Scenario 4: [AND(Area 1A (one course), OR(Area 1B, Area 1C))] with a
    single course, found in bucket 1B only. *)
Definition scenario4 : Node :=
  NAnd [ NArea {| area := "1A"; min_courses := 1; min_units := 0;
                  distinct_disciplines := 0 |};
         NOr [ NArea {| area := "1B"; min_courses := 1; min_units := 0;
                        distinct_disciplines := 0 |};
               NArea {| area := "1C"; min_courses := 1; min_units := 0;
                        distinct_disciplines := 0 |} ] None None ] 0 0.

(** The OR resolves to 1B and 1A stays unmet. *)
Example scenario4_run :
  let buckets := [("1A", ["ENGL 2"]); ("1B", ["ENGL 11"]); ("1C", ["CMST 2"])] in
  let r := walk buckets [] [] [] ["ENGL 11"] (fun _ => Some 3) scenario4
                {| used := []; alloc := []; orGroups := []; orChoice := [] |} in
  fst r = false
  /\ alloc (snd r) = [("1B", ["ENGL 11"]); ("1B/1C", ["ENGL 11"])]
  /\ orChoice (snd r) = [("1B/1C", Some "1B")].
Proof. vm_compute. repeat split. Qed.

End WalkFacts.

(** ** Further runs of the evaluators *)

Module Scenarios.
Import Program.

(** [evaluateProgram] always returns a result. *)
Lemma evaluateProgram_total (aliases : CourseAliases) (coursesIndex : string -> option Q)
    (takenSet : CodeSet) (detail : Detail) (skip : bool) :
  exists res, evaluateProgram aliases coursesIndex takenSet detail skip = Some res.
Proof.
  unfold evaluateProgram.
  destruct (evalCrossListUnits takenSet detail []) as [cross used0].
  destruct (EvalFacts.sectionsPhase_total aliases coursesIndex takenSet detail skip used0)
    as [e3 ->].
  destruct cross; eexists; reflexivity.
Qed.

(** Scenario 1: an ALL section with two items, one of them matched. *)
Example scenario1_run :
  option_map (fun r => (satisfied r, requiredItems r, percent r))
    (evaluateProgram PrereqFacts.noAliases (fun _ => None) ["BIOL 1"]
       {| sections :=
            [ {| s_name := "Core"; s_rule := Some (CrossFacts.ruleOfType "ALL");
                 s_items := [CrossFacts.rawItem [("BIOL 1", 4)];
                             CrossFacts.rawItem [("BIOL 2", 4)]] |} ];
          cross_list_rules := [] |} false)
  = Some (1%Z, 2%Z, 50%Z).
Proof. vm_compute. reflexivity. Qed.

(** The group-level fill of an AND node (C1, GE side): areas A and B are
    each satisfied by a course of their own, the group asks for four
    courses, and the one course left, a candidate of both areas, is
    allocated to A and again to B. *)
Example group_fill_allocates_twice :
  let leaf n := GE.NArea {| GE.area := n; GE.min_courses := 1; GE.min_units := 0;
                            GE.distinct_disciplines := 0 |} in
  let r := GE.walk [("A", ["ART 1"; "HUM 1"]); ("B", ["MUS 1"; "HUM 1"])] [] [] []
                   ["ART 1"; "HUM 1"; "MUS 1"] (fun _ => Some 3)
                   (GE.NAnd [leaf "A"; leaf "B"] 4 0)
                   {| GE.used := []; GE.alloc := []; GE.orGroups := [];
                      GE.orChoice := [] |} in
  fst r = true
  /\ GE.alloc (snd r) = [("A", ["ART 1"; "HUM 1"]); ("B", ["MUS 1"; "HUM 1"])].
Proof. vm_compute. split; reflexivity. Qed.

End Scenarios.

(** ** Invariants of the section allocators *)

Lemma fold_left_inv {A S} (P : S -> Prop) (f : S -> A -> S) (l : list A) :
  (forall s x, In x l -> P s -> P (f s x)) -> forall s, P s -> P (fold_left f l s).
Proof.
  induction l as [|x l IH]; intros Hf s Hs; cbn; [exact Hs|].
  apply IH; [intros s' y Hy; apply Hf; now right|]. apply Hf; [now left | exact Hs].
Qed.

Lemma Qsum_snoc (l : list Q) (x : Q) : Qsum (l ++ [x]) = (Qsum l + x)%Q.
Proof. unfold Qsum. now rewrite fold_left_app. Qed.

Module AllocFacts.
Import Program UnitsFacts.

Section Facts.

Variable aliases : CourseAliases.
Variable takenSet : CodeSet.
Variable poolsByList : Obj.t nat.

Definition codeIn (x : string) (chosen : list Chosen) : bool :=
  existsb (String.eqb x) (map ch_code chosen).

(** Relative to the allocation [a0] a section started from: the codes
    used now are those used then and the chosen ones; the chosen codes are
    pairwise distinct, taken, and were unused then. *)
Definition freshly (a0 a : Alloc) (chosen : list Chosen) : Prop :=
  (forall x, has (usedSet a) x = has (usedSet a0) x || codeIn x chosen)
  /\ NoDup (map ch_code chosen)
  /\ Forall (fun c => has takenSet (ch_code c) = true
                      /\ has (usedSet a0) (ch_code c) = false) chosen.

Lemma freshly_start (a0 : Alloc) : freshly a0 a0 [].
Proof.
  split; [|split; constructor]. intros x. cbn. now rewrite orb_false_r.
Qed.

Lemma findMatch_props (it : Item) (used : CodeSet) (pick : Opt) :
  findMatchForItem it takenSet used = Some pick ->
  In pick (options it) /\ has takenSet (code pick) = true
  /\ has used (code pick) = false.
Proof.
  unfold findMatchForItem. intros H. apply find_some in H. destruct H as [Hin H].
  apply andb_true_iff in H. destruct H as [Ht Hu].
  apply negb_true_iff in Hu. auto.
Qed.

Lemma freshly_consume (a0 a : Alloc) (chosen : list Chosen) (si ii : nat)
    (it : Item) (pick : Opt) (from : string) :
  freshly a0 a chosen ->
  findMatchForItem it takenSet (usedSet a) = Some pick ->
  freshly a0 (consume a si ii pick) (chosen ++ [mkChosen pick from]).
Proof.
  intros [Hu [Hnd Hall]] Hf. apply findMatch_props in Hf.
  destruct Hf as [_ [Ht Hnew]].
  rewrite Hu in Hnew. apply orb_false_iff in Hnew. destruct Hnew as [Hn0 Hnc].
  split; [|split].
  - intros x. cbn [consume usedSet]. rewrite has_add, Hu. unfold codeIn.
    rewrite map_app, existsb_app. cbn. now rewrite orb_false_r, orb_assoc.
  - rewrite map_app. apply NoDup_app; [assumption | repeat constructor; auto |].
    cbn. intros x Hx [<- | []].
    unfold codeIn in Hnc. apply has_In in Hx. unfold has in Hx. congruence.
  - apply Forall_app. split; [assumption|]. repeat constructor; assumption.
Qed.

(** *** COUNT sections *)

Section Keeps.

(** A property of the allocation and the chosen list that every single
    allocation keeps. *)
Variable P : Alloc -> list Chosen -> Prop.
Hypothesis P_step :
  forall a chosen si ii it pick from,
    P a chosen ->
    getItem (store a) si ii = Some it ->
    findMatchForItem it takenSet (usedSet a) = Some pick ->
    P (consume a si ii pick) (chosen ++ [mkChosen pick from]).

Lemma countLocal_keeps (max : nat) (from : string) (si : nat) (idxs : list nat) :
  forall a chosen,
    P a chosen ->
    P (fst (countLocal takenSet max from si idxs a chosen))
      (snd (countLocal takenSet max from si idxs a chosen)).
Proof.
  induction idxs as [|ii rest IH]; intros a chosen H; cbn [countLocal]; [exact H|].
  destruct (max <=? List.length chosen)%nat; [exact H|].
  destruct (getItem (store a) si ii) as [item|] eqn:Hget; [|now apply IH].
  destruct (findMatchForItem item takenSet (usedSet a)) as [pick|] eqn:Hf;
    [|now apply IH].
  apply IH. eapply P_step; eauto.
Qed.

Lemma countBorrowPool_keeps (need : nat) (listName : string) (pi : nat)
    (idxs : list nat) :
  forall a chosen,
    P a chosen ->
    P (fst (countBorrowPool takenSet need listName pi idxs a chosen))
      (snd (countBorrowPool takenSet need listName pi idxs a chosen)).
Proof.
  induction idxs as [|ii rest IH]; intros a chosen H; cbn [countBorrowPool]; [exact H|].
  destruct (need <=? List.length chosen)%nat; [exact H|].
  destruct (getItem (store a) pi ii) as [item|] eqn:Hget; [|now apply IH].
  destruct (matched item); [now apply IH|].
  destruct (findMatchForItem item takenSet (usedSet a)) as [pick|] eqn:Hf;
    [|now apply IH].
  apply IH. eapply P_step; eauto.
Qed.

Lemma countBorrow_keeps (need : nat) (allow : list string) :
  forall a chosen,
    P a chosen ->
    P (fst (countBorrow takenSet poolsByList need allow a chosen))
      (snd (countBorrow takenSet poolsByList need allow a chosen)).
Proof.
  induction allow as [|l rest IH]; intros a chosen H; cbn [countBorrow]; [exact H|].
  destruct (need <=? List.length chosen)%nat; [exact H|].
  destruct (Obj.get poolsByList l) as [pi|]; [|now apply IH].
  pose proof (countBorrowPool_keeps need l pi
                (seq 0 (List.length (getItems (store a) pi))) a chosen H) as Hp.
  destruct (countBorrowPool takenSet need l pi _ a chosen) as [a1 chosen1].
  now apply IH.
Qed.

Lemma satisfyCountSection_keeps (s : Section) (si : nat) (a : Alloc) :
  P a [] ->
  P (fst (satisfyCountSection takenSet poolsByList s si a))
    (snd (satisfyCountSection takenSet poolsByList s si a)).
Proof.
  intros H0. unfold satisfyCountSection.
  pose proof (countLocal_keeps (ruleMax (rule s)) (name s) si
                (seq 0 (List.length (getItems (store a) si))) a [] H0) as H1.
  destruct (countLocal takenSet _ (name s) si _ a []) as [a1 chosen1].
  now apply countBorrow_keeps.
Qed.

End Keeps.

(** *** UNITS sections *)

(** One allocation step of a UNITS section: some item's match is taken. *)
Definition took (s s' : UnitsState) : Prop :=
  exists pi ii it pick from,
    getItem (store (u_alloc s)) pi ii = Some it
    /\ findMatchForItem it takenSet (usedSet (u_alloc s)) = Some pick
    /\ s' = takePick s pi ii pick from.

Lemma picked_took (s s' : UnitsState) : picked takenSet s s' -> took s s'.
Proof.
  intros [pi [ii [it [pick [from [Hget [_ [Hf ->]]]]]]]].
  exists pi, ii, it, pick, from. auto.
Qed.

Section Invariant.

Variable P : UnitsState -> Prop.
Hypothesis P_took : forall s s', P s -> took s s' -> P s'.

Lemma unitsLocal_keeps (minU : Q) (from : string) (si : nat) (idxs : list nat) :
  forall s, P s -> P (unitsLocal takenSet minU from si idxs s).
Proof.
  induction idxs as [|ii rest IH]; intros s Hs; cbn [unitsLocal]; [assumption|].
  destruct (Qgeb (u_gotUnits s) minU); [assumption|].
  destruct (getItem (store (u_alloc s)) si ii) as [item|] eqn:Hget; [|auto].
  destruct (findMatchForItem item takenSet (usedSet (u_alloc s))) as [pick|] eqn:Hf;
    [|auto].
  apply IH. eapply P_took; [exact Hs|]. exists si, ii, item, pick, from. auto.
Qed.

Lemma disciplineLoop_keeps (sec : Section) (si : nat) (minU : Q) (minD : nat)
    (fuel : nat) (sd r : UnitsState * CodeSet) :
  P (fst sd) ->
  while fuel (disciplineStep aliases takenSet poolsByList sec si minU minD) sd = Some r ->
  P (fst r).
Proof.
  apply (while_inv (fun x => P (fst x))).
  - intros [s ds] [s' ds'] Hs. cbn [disciplineStep fst] in *.
    destruct (_ && _); [|discriminate].
    destruct (pickWithFilter _ _ _ _ _ _) as [s1|] eqn:Hp; [|discriminate].
    destruct (_ =? _)%nat; [discriminate|]. intros H. injection H as <- <-.
    eapply P_took; [exact Hs|]. apply picked_took.
    eapply pickWithFilter_picked; eauto.
  - intros [s ds] [s' ds'] Hs. cbn [disciplineStep fst] in *.
    destruct (_ && _); [|intros H; injection H as <- <-; assumption].
    destruct (pickWithFilter _ _ _ _ _ _) as [s1|] eqn:Hp;
      [|intros H; injection H as <- <-; assumption].
    destruct (_ =? _)%nat; [|discriminate]. intros H. injection H as <- <-.
    eapply P_took; [exact Hs|]. apply picked_took.
    eapply pickWithFilter_picked; eauto.
Qed.

Lemma perListLoop_keeps (perListMin : Obj.t Q) (allow : list string) :
  forall s r, P s -> perListLoop takenSet poolsByList perListMin allow s = Some r -> P r.
Proof.
  induction allow as [|l rest IH]; intros s r Hs; cbn [perListLoop].
  - intros H. now injection H as <-.
  - destruct (while _ _ _) as [[s' h']|] eqn:Hw; [|discriminate].
    apply IH.
    apply (while_inv (fun x => P (fst x))
             (perListStep takenSet poolsByList l (getOr0 perListMin l))) in Hw;
      [exact Hw | | | exact Hs].
    + intros [s1 h1] [s2 h2] H1. cbn [perListStep fst].
      destruct (Qltb h1 _); [|discriminate].
      destruct (pickOneFromList _ _ _ _) as [s3|] eqn:Hp; [|discriminate].
      intros H. injection H as <- <-.
      eapply P_took; [exact H1|]. apply picked_took.
      eapply pickOneFromList_picked; eauto.
    + intros [s1 h1] [s2 h2] H1. cbn [perListStep fst].
      destruct (Qltb h1 _); [|intros H; injection H as <- <-; assumption].
      destruct (pickOneFromList _ _ _ _) as [s3|] eqn:Hp; [discriminate|].
      intros H. injection H as <- <-. assumption.
Qed.

Lemma topUp_keeps (sec : Section) (si : nat) (minU : Q) (fuel : nat)
    (s r : UnitsState) :
  P s -> while fuel (topUpStep takenSet poolsByList sec si minU) s = Some r -> P r.
Proof.
  apply (while_inv P).
  - intros s1 s2 H1. unfold topUpStep. destruct (Qltb _ _); [|discriminate].
    destruct (pickWithFilter _ _ _ _ _ _) as [s3|] eqn:Hp; [|discriminate].
    intros H. injection H as <-.
    eapply P_took; [exact H1|]. apply picked_took.
    eapply pickWithFilter_picked; eauto.
  - intros s1 s2 H1. unfold topUpStep.
    destruct (Qltb _ _); [|intros H; injection H as <-; assumption].
    destruct (pickWithFilter _ _ _ _ _ _) as [s3|] eqn:Hp; [discriminate|].
    intros H. now injection H as <-.
Qed.

(** Whatever every allocation step keeps, the whole section keeps. *)
Lemma satisfyUnitsSection_keeps (sec : Section) (si : nat) (a : Alloc)
    (r : UnitsResult) :
  P {| u_alloc := a; u_chosen := []; u_gotUnits := 0 |} ->
  satisfyUnitsSection aliases takenSet poolsByList sec si a = Some r ->
  P {| u_alloc := ur_alloc r; u_chosen := ur_chosen r; u_gotUnits := ur_gotUnits r |}.
Proof.
  intros H0. unfold satisfyUnitsSection.
  set (s0 := {| u_alloc := a; u_chosen := []; u_gotUnits := 0 |}) in *.
  assert (H1 : forall s1,
             (if (0 <? ruleMinDisciplines (rule sec))%nat
              then option_map fst
                     (while (S (unmatchedCount (store a)))
                        (disciplineStep aliases takenSet poolsByList sec si
                           (ruleMinUnits (rule sec)) (ruleMinDisciplines (rule sec)))
                        (s0, []))
              else Some (unitsLocal takenSet (ruleMinUnits (rule sec)) (name sec) si
                           (seq 0 (List.length (getItems (store a) si))) s0))
             = Some s1 -> P s1).
  { intros s1. destruct (0 <? _)%nat.
    - destruct (while _ _ _) as [[s d]|] eqn:Hw; [|discriminate].
      cbn. intros H. injection H as <-.
      apply (disciplineLoop_keeps _ _ _ _ _ (s0, []) (s, d) H0 Hw).
    - intros H. injection H as <-. now apply unitsLocal_keeps. }
  destruct (if (0 <? _)%nat then _ else _) as [s1|]; [|discriminate].
  specialize (H1 s1 eq_refl).
  destruct (perListLoop _ _ _ _ s1) as [s2|] eqn:Hp; [|discriminate].
  apply perListLoop_keeps in Hp; [|exact H1].
  destruct (while _ _ s2) as [s3|] eqn:Hw; [|discriminate].
  apply topUp_keeps in Hw; [|exact Hp].
  intros H. injection H as <-. cbn. now destruct s3.
Qed.

End Invariant.

Lemma satisfyUnitsSection_keeps_alloc (P : Alloc -> list Chosen -> Prop) :
  (forall a chosen si ii it pick from,
      P a chosen ->
      getItem (store a) si ii = Some it ->
      findMatchForItem it takenSet (usedSet a) = Some pick ->
      P (consume a si ii pick) (chosen ++ [mkChosen pick from])) ->
  forall sec si a r,
    P a [] ->
    satisfyUnitsSection aliases takenSet poolsByList sec si a = Some r ->
    P (ur_alloc r) (ur_chosen r).
Proof.
  intros Hstep sec si a r H0 Hrun.
  apply (satisfyUnitsSection_keeps (fun s => P (u_alloc s) (u_chosen s))) in Hrun;
    [exact Hrun | | exact H0].
  intros s s' Hs [pi [ii [it [pick [from [Hget [Hf ->]]]]]]].
  cbn [takePick u_alloc u_chosen]. eapply Hstep; eauto.
Qed.

Definition tallied (a0 : Alloc) (s : UnitsState) : Prop :=
  freshly a0 (u_alloc s) (u_chosen s)
  /\ u_gotUnits s == Qsum (map ch_units (u_chosen s)).

Lemma tallied_took (a0 : Alloc) (s s' : UnitsState) :
  tallied a0 s -> took s s' -> tallied a0 s'.
Proof.
  intros [Hf Hq] [pi [ii [it [pick [from [Hget [Hm ->]]]]]]].
  split; cbn [takePick u_alloc u_chosen u_gotUnits].
  - eapply freshly_consume; eauto.
  - rewrite map_app. cbn [map]. rewrite Qsum_snoc. cbn. now rewrite Hq.
Qed.

End Facts.

(** X1.  The courses a COUNT section chooses are pairwise distinct, taken,
    and were unused when the section started; afterwards the used codes are
    those used before together with the chosen ones. *)
Theorem count_section_fresh
    (takenSet : CodeSet) (poolsByList : Obj.t nat) (s : Section) (si : nat)
    (a : Alloc) :
  let r := satisfyCountSection takenSet poolsByList s si a in
  NoDup (map ch_code (snd r))
  /\ Forall (fun c => has takenSet (ch_code c) = true
                      /\ has (usedSet a) (ch_code c) = false) (snd r)
  /\ forall x, has (usedSet (fst r)) x
               = has (usedSet a) x || existsb (String.eqb x) (map ch_code (snd r)).
Proof.
  intros r. subst r.
  pose proof (satisfyCountSection_keeps takenSet poolsByList (freshly takenSet a)
                (fun a1 ch si1 ii it pick from H Hget Hf =>
                   freshly_consume takenSet a a1 ch si1 ii it pick from H Hf)
                s si a (freshly_start takenSet a)) as [Hu [Hnd Hall]].
  repeat split; assumption.
Qed.

(** X2.  The courses a UNITS section chooses are pairwise distinct, taken,
    and were unused when the section started; afterwards the used codes are
    those used before together with the chosen ones, and the section's unit
    total is the sum of the units of the chosen courses. *)
Theorem units_section_fresh
    (aliases : CourseAliases) (takenSet : CodeSet) (poolsByList : Obj.t nat)
    (sec : Section) (si : nat) (a : Alloc) (r : UnitsResult)
    (Hrun : satisfyUnitsSection aliases takenSet poolsByList sec si a = Some r) :
  NoDup (map ch_code (ur_chosen r))
  /\ Forall (fun c => has takenSet (ch_code c) = true
                      /\ has (usedSet a) (ch_code c) = false) (ur_chosen r)
  /\ (forall x, has (usedSet (ur_alloc r)) x
                = has (usedSet a) x
                  || existsb (String.eqb x) (map ch_code (ur_chosen r)))
  /\ ur_gotUnits r == Qsum (map ch_units (ur_chosen r)).
Proof.
  pose proof (satisfyUnitsSection_keeps aliases takenSet poolsByList
                (tallied takenSet a) (tallied_took takenSet a) sec si a r) as H.
  destruct H as [[Hu [Hnd Hall]] Hq]; [|exact Hrun|auto].
  split; [apply freshly_start | reflexivity].
Qed.

Lemma units_section_fresh_witness :
  exists r,
    satisfyUnitsSection PrereqFacts.noAliases ["ART 1"; "ART 2"] [("Electives", 0%nat)]
                        scenario3Section 0 scenario3Alloc = Some r
    /\ NoDup (map ch_code (ur_chosen r))
    /\ ur_gotUnits r == Qsum (map ch_units (ur_chosen r)).
Proof.
  eexists. split; [vm_compute; reflexivity|].
  pose proof (units_section_fresh PrereqFacts.noAliases ["ART 1"; "ART 2"]
                [("Electives", 0%nat)] scenario3Section 0 scenario3Alloc _ eq_refl)
    as [Hnd [_ [_ Hq]]].
  split; [exact Hnd | exact Hq].
Defined.

End AllocFacts.


(** ** Rounding to binary64 *)

Module DoubleFacts.
Import Double.

Lemma rne_bounds (x : Q) : (Qfloor x <= rne x <= Qfloor x + 1)%Z.
Proof.
  unfold rne. destruct (Qcompare _ _); [destruct (Z.even _)| |]; lia.
Qed.

Lemma rne_comp (x y : Q) : x == y -> rne x = rne y.
Proof.
  intros H. unfold rne. rewrite (Qfloor_comp _ _ H).
  assert (E : x - inject_Z (Qfloor y) == y - inject_Z (Qfloor y)) by (rewrite H; reflexivity).
  rewrite (Qcompare_comp _ _ E _ _ (Qeq_refl (1 # 2))). reflexivity.
Qed.

Lemma rne_inject_Z (z : Z) : rne (inject_Z z) = z.
Proof.
  unfold rne. rewrite Qfloor_Z.
  assert (E : inject_Z z - inject_Z z == 0) by ring.
  rewrite (Qcompare_comp _ _ E _ _ (Qeq_refl (1 # 2))). reflexivity.
Qed.

Lemma rne_mono (x y : Q) : x <= y -> (rne x <= rne y)%Z.
Proof.
  intros H. pose proof (Qfloor_resp_le _ _ H) as Hf.
  destruct (Z.eq_dec (Qfloor x) (Qfloor y)) as [E | E].
  - unfold rne. rewrite E.
    destruct (Qcompare (x - inject_Z (Qfloor y)) (1 # 2)) eqn:Cx;
      destruct (Qcompare (y - inject_Z (Qfloor y)) (1 # 2)) eqn:Cy;
      repeat match goal with
             | H : Qcompare _ _ = Eq |- _ => apply Qeq_alt in H
             | H : Qcompare _ _ = Lt |- _ => apply Qlt_alt in H
             | H : Qcompare _ _ = Gt |- _ => apply Qgt_alt in H
             end;
      try (destruct (Z.even (Qfloor y))); first [lia | exfalso; lra].
  - pose proof (rne_bounds x). pose proof (rne_bounds y). lia.
Qed.

Lemma two_pos (z : Z) : 0 < 2 ^ z.
Proof. apply Qpower_0_lt. reflexivity. Qed.

Lemma two_plus (n m : Z) : 2 ^ (n + m) == 2 ^ n * 2 ^ m.
Proof. apply Qpower_plus. discriminate. Qed.

Lemma two_succ (n : Z) : 2 ^ (n + 1) == 2 * 2 ^ n.
Proof. rewrite two_plus. change (2 ^ 1) with 2. ring. Qed.

Lemma two_le (n m : Z) : (n <= m)%Z -> 2 ^ n <= 2 ^ m.
Proof. intros H. apply Qpower_le_compat_l; [exact H | discriminate]. Qed.

Lemma two_inject (n : Z) : (0 <= n)%Z -> inject_Z (2 ^ n) == 2 ^ n.
Proof. intros H. rewrite Zpower_Qpower by exact H. reflexivity. Qed.

Lemma ilog2_spec (x : Q) : 0 < x -> 2 ^ ilog2 x <= x /\ x < 2 ^ (ilog2 x + 1).
Proof.
  intros Hx. unfold ilog2.
  destruct x as [n d]. cbn [Qnum Qden].
  assert (Hn : (0 < n)%Z) by (unfold Qlt in Hx; cbn in Hx; lia).
  pose proof (Z.log2_spec n Hn) as [Ha1 Ha2].
  pose proof (Z.log2_spec (Zpos d) (Pos2Z.is_pos d)) as [Hb1 Hb2].
  pose proof (Z.log2_nonneg n) as Ha0. pose proof (Z.log2_nonneg (Zpos d)) as Hb0.
  set (a := Z.log2 n) in *. set (b := Z.log2 (Zpos d)) in *.
  assert (Hq : n # d == inject_Z n / inject_Z (Zpos d)) by apply Qmake_Qdiv.
  assert (Hd : 0 < inject_Z (Zpos d)) by reflexivity.
  assert (A1 : 2 ^ a <= inject_Z n).
  { rewrite <- two_inject by exact Ha0. now rewrite <- Zle_Qle. }
  assert (A2 : inject_Z n < 2 ^ (a + 1)).
  { rewrite <- two_inject by lia. rewrite <- Zlt_Qlt.
    replace (a + 1)%Z with (Z.succ a) by lia. exact Ha2. }
  assert (B1 : 2 ^ b <= inject_Z (Zpos d)).
  { rewrite <- two_inject by exact Hb0. now rewrite <- Zle_Qle. }
  assert (B2 : inject_Z (Zpos d) < 2 ^ (b + 1)).
  { rewrite <- two_inject by lia. rewrite <- Zlt_Qlt.
    replace (b + 1)%Z with (Z.succ b) by lia. exact Hb2. }
  destruct (Qle_bool (2 ^ (a - b)) (n # d)) eqn:E.
  - apply Qle_bool_iff in E. split; [exact E|].
    rewrite Hq. apply Qlt_shift_div_r; [exact Hd|].
    apply Qlt_le_trans with (2 ^ (a + 1)); [exact A2|].
    replace (a + 1)%Z with ((a - b + 1) + b)%Z by lia. rewrite two_plus.
    apply Qmult_le_l; [apply two_pos | exact B1].
  - assert (E' : n # d < 2 ^ (a - b)).
    { apply Qnot_le_lt. intros H. apply Qle_bool_iff in H. congruence. }
    split; [|replace (a - b - 1 + 1)%Z with (a - b)%Z by lia; exact E'].
    rewrite Hq. apply Qle_shift_div_l; [exact Hd|].
    apply Qle_trans with (2 ^ a); [|exact A1].
    replace a with ((a - b - 1) + (b + 1))%Z at 2 by lia. rewrite two_plus.
    apply Qmult_le_l; [apply two_pos | apply Qlt_le_weak; exact B2].
Qed.

Lemma ilog2_unique (x : Q) (e : Z) :
  2 ^ e <= x -> x < 2 ^ (e + 1) -> ilog2 x = e.
Proof.
  intros H1 H2.
  assert (Hx : 0 < x) by (eapply Qlt_le_trans; [apply two_pos | exact H1]).
  destruct (ilog2_spec x Hx) as [H3 H4].
  assert (L1 : (ilog2 x < e + 1)%Z).
  { apply (Qpower_lt_compat_l_inv 2); [|reflexivity].
    eapply Qle_lt_trans; eassumption. }
  assert (L2 : (e < ilog2 x + 1)%Z).
  { apply (Qpower_lt_compat_l_inv 2); [|reflexivity].
    eapply Qle_lt_trans; eassumption. }
  lia.
Qed.

Lemma ilog2_comp (x y : Q) : 0 < x -> x == y -> ilog2 x = ilog2 y.
Proof.
  intros Hx E. symmetry. destruct (ilog2_spec x Hx) as [H1 H2].
  apply ilog2_unique; rewrite <- E; assumption.
Qed.

Lemma ilog2_mono (x y : Q) : 0 < x -> x <= y -> (ilog2 x <= ilog2 y)%Z.
Proof.
  intros Hx Hxy.
  assert (Hy : 0 < y) by (eapply Qlt_le_trans; eassumption).
  destruct (ilog2_spec x Hx) as [H1 _]. destruct (ilog2_spec y Hy) as [_ H2].
  assert (L : (ilog2 x < ilog2 y + 1)%Z); [|lia].
  apply (Qpower_lt_compat_l_inv 2); [|reflexivity].
  eapply Qle_lt_trans; [exact H1|]. eapply Qle_lt_trans; eassumption.
Qed.

(** A positive number rounds to a number of its own binade, the upper end
    included. *)
Lemma roundPos_bounds (x : Q) :
  0 < x -> 2 ^ ilog2 x <= roundPos x /\ roundPos x <= 2 ^ (ilog2 x + 1).
Proof.
  intros Hx. destruct (ilog2_spec x Hx) as [H1 H2]. unfold roundPos.
  set (e := ilog2 x) in *.
  assert (S1 : inject_Z (2 ^ 52) <= x * 2 ^ (52 - e)).
  { rewrite two_inject by lia.
    replace 52%Z with (e + (52 - e))%Z at 1 by lia. rewrite two_plus.
    apply Qmult_le_compat_r; [exact H1 | apply Qlt_le_weak, two_pos]. }
  assert (S2 : x * 2 ^ (52 - e) <= inject_Z (2 ^ 53)).
  { rewrite two_inject by lia.
    replace 53%Z with ((e + 1) + (52 - e))%Z by lia. rewrite two_plus.
    apply Qmult_le_compat_r; [apply Qlt_le_weak; exact H2 | apply Qlt_le_weak, two_pos]. }
  apply rne_mono in S1, S2. rewrite rne_inject_Z in S1, S2.
  rewrite Zle_Qle in S1, S2. rewrite two_inject in S1, S2 by lia.
  split.
  - replace e with (52 + (e - 52))%Z at 1 by lia. rewrite two_plus.
    apply Qmult_le_compat_r; [exact S1 | apply Qlt_le_weak, two_pos].
  - replace (e + 1)%Z with (53 + (e - 52))%Z by lia. rewrite two_plus.
    apply Qmult_le_compat_r; [exact S2 | apply Qlt_le_weak, two_pos].
Qed.

Lemma roundPos_pos (x : Q) : 0 < x -> 0 < roundPos x.
Proof.
  intros Hx. eapply Qlt_le_trans; [apply two_pos | apply (roundPos_bounds x Hx)].
Qed.

Lemma roundPos_comp (x y : Q) : 0 < x -> x == y -> roundPos x == roundPos y.
Proof.
  intros Hx E. unfold roundPos. rewrite <- (ilog2_comp x y Hx E).
  assert (H : x * 2 ^ (52 - ilog2 x) == y * 2 ^ (52 - ilog2 x))
    by (apply Qmult_comp; [exact E | reflexivity]).
  rewrite (rne_comp _ _ H). reflexivity.
Qed.

Lemma roundPos_mono (x y : Q) : 0 < x -> x <= y -> roundPos x <= roundPos y.
Proof.
  intros Hx Hxy.
  assert (Hy : 0 < y) by (eapply Qlt_le_trans; eassumption).
  pose proof (ilog2_mono x y Hx Hxy) as He.
  destruct (Z.eq_dec (ilog2 x) (ilog2 y)) as [E | E].
  - unfold roundPos. rewrite E.
    apply Qmult_le_compat_r; [|apply Qlt_le_weak, two_pos].
    rewrite <- Zle_Qle. apply rne_mono.
    apply Qmult_le_compat_r; [exact Hxy | apply Qlt_le_weak, two_pos].
  - apply Qle_trans with (2 ^ (ilog2 x + 1)); [apply (roundPos_bounds x Hx)|].
    apply Qle_trans with (2 ^ ilog2 y); [apply two_le; lia | apply (roundPos_bounds y Hy)].
Qed.

Lemma Qnum_sign (x : Q) :
  match Qnum x with
  | Z0 => x == 0
  | Zpos _ => 0 < x
  | Zneg _ => x < 0
  end.
Proof. destruct x as [[|p|p] d]; cbn; [reflexivity | reflexivity | reflexivity]. Qed.

Lemma round_zero (x : Q) : x == 0 -> round x = 0.
Proof.
  intros H. unfold round. pose proof (Qnum_sign x) as S.
  destruct (Qnum x); [reflexivity | lra | lra].
Qed.

Lemma round_positive (x : Q) : 0 < x -> round x = roundPos x.
Proof.
  intros H. unfold round. pose proof (Qnum_sign x) as S.
  destruct (Qnum x); [lra | reflexivity | lra].
Qed.

Lemma round_nonneg (x : Q) : 0 <= x -> 0 <= round x.
Proof.
  intros H. destruct (Qlt_le_dec 0 x) as [Hp | Hn].
  - rewrite (round_positive x Hp). apply Qlt_le_weak. now apply roundPos_pos.
  - rewrite (round_zero x); [apply Qle_refl | lra].
Qed.

Lemma round_pos (x : Q) : 0 < x -> 0 < round x.
Proof. intros H. rewrite (round_positive x H). now apply roundPos_pos. Qed.

(** Rounding is monotone on the nonnegative numbers. *)
Lemma round_mono (x y : Q) : 0 <= x -> x <= y -> round x <= round y.
Proof.
  intros Hx Hxy. destruct (Qlt_le_dec 0 x) as [Hp | Hn].
  - rewrite (round_positive x Hp), (round_positive y) by lra.
    now apply roundPos_mono.
  - rewrite (round_zero x) by lra. apply round_nonneg. lra.
Qed.

Lemma round_comp (x y : Q) : 0 <= x -> x == y -> round x == round y.
Proof.
  intros Hx E. destruct (Qlt_le_dec 0 x) as [Hp | Hn].
  - rewrite (round_positive x Hp), (round_positive y) by lra.
    now apply roundPos_comp.
  - rewrite (round_zero x), (round_zero y) by lra. reflexivity.
Qed.

Lemma round_1 : round 1 == 1.
Proof. vm_compute. reflexivity. Qed.

Lemma round_100 : round 100 == 100.
Proof. vm_compute. reflexivity. Qed.

End DoubleFacts.

Lemma roundQ_percent (x : Q) : 0 <= x -> x <= 100 -> (0 <= roundQ x <= 100)%Z.
Proof.
  intros H0 H1. unfold roundQ. split.
  - change 0%Z with (Qfloor 0). apply Qfloor_resp_le. lra.
  - change 100%Z with (Qfloor (201 # 2)). apply Qfloor_resp_le. lra.
Qed.

(** The percentage [Math.round((met / required) * 100)]. *)
Lemma percent_bounds (met required : Z) :
  (0 <= met <= required)%Z -> required <> 0%Z ->
  (0 <= roundQ (Double.mul (Double.div (inject_Z met) (inject_Z required)) 100) <= 100)%Z.
Proof.
  intros Hm Hr.
  assert (Hq : 0 < inject_Z required).
  { change 0 with (inject_Z 0). rewrite <- Zlt_Qlt. lia. }
  assert (H0 : 0 <= inject_Z met / inject_Z required).
  { apply Qle_shift_div_l; [exact Hq|]. rewrite Qmult_0_l.
    change 0 with (inject_Z 0). rewrite <- Zle_Qle. lia. }
  assert (H1 : inject_Z met / inject_Z required <= 1).
  { apply Qle_shift_div_r; [exact Hq|]. rewrite Qmult_1_l. rewrite <- Zle_Qle. lia. }
  unfold Double.div, Double.mul.
  set (q := Double.round (inject_Z met / inject_Z required)).
  assert (Q0 : 0 <= q) by now apply DoubleFacts.round_nonneg.
  assert (Q1 : q <= 1).
  { apply Qle_trans with (Double.round 1); [now apply DoubleFacts.round_mono|].
    apply Qle_lteq. right. exact DoubleFacts.round_1. }
  apply roundQ_percent.
  - apply DoubleFacts.round_nonneg. nra.
  - apply Qle_trans with (Double.round 100).
    + apply DoubleFacts.round_mono; nra.
    + apply Qle_lteq. right. exact DoubleFacts.round_100.
Qed.

Lemma percent_full (required : Z) :
  required <> 0%Z ->
  roundQ (Double.mul (Double.div (inject_Z required) (inject_Z required)) 100) = 100%Z.
Proof.
  intros Hr.
  assert (Hq : ~ inject_Z required == 0).
  { change 0 with (inject_Z 0). rewrite inject_Z_injective. exact Hr. }
  assert (H1 : inject_Z required / inject_Z required == 1) by (field; exact Hq).
  unfold Double.div, Double.mul, roundQ.
  assert (E1 : Double.round (inject_Z required / inject_Z required) == 1).
  { apply Qeq_trans with (Double.round 1); [|exact DoubleFacts.round_1].
    apply DoubleFacts.round_comp; [lra | exact H1]. }
  assert (E2 : Double.round (Double.round (inject_Z required / inject_Z required) * 100)
               == 100).
  { apply Qeq_trans with (Double.round 100); [|exact DoubleFacts.round_100].
    apply DoubleFacts.round_comp; [lra|]. rewrite E1. reflexivity. }
  rewrite (Qfloor_comp _ (201 # 2)); [reflexivity|]. rewrite E2. reflexivity.
Qed.

Lemma percent_none (required : Z) :
  roundQ (Double.mul (Double.div (inject_Z 0) (inject_Z required)) 100) = 0%Z.
Proof.
  unfold Double.div, Double.mul.
  rewrite (DoubleFacts.round_zero (inject_Z 0 / inject_Z required));
    [reflexivity|].
  unfold Qdiv. change (inject_Z 0) with 0. ring.
Qed.

Module ProgressFacts.
Import Program UnitsFacts AllocFacts.

Section Facts.

Variable aliases : CourseAliases.
Variable coursesIndex : string -> option Q.
Variable takenSet : CodeSet.

Section Keeps.

Variable detail : Detail.

(** A property of the evaluator's state that each kind of section of
    the program keeps. *)
Variable R : EvalState -> Prop.
Hypothesis R_allish : forall si ii e, R e -> R (allishItem takenSet si ii e).
Hypothesis R_count :
  forall pools s si e,
    In s (map workingSection (sections detail)) ->
    R e -> R (countSection takenSet pools s si e).
Hypothesis R_units :
  forall pools s si e e',
    In s (map workingSection (sections detail)) ->
    R e -> unitsSection aliases takenSet pools s si e = Some e' -> R e'.

Lemma runUnits_keeps (pools : Obj.t nat) (l : list (nat * Section)) :
  Forall (fun p => In (snd p) (map workingSection (sections detail))) l ->
  forall e e', R e -> runUnits aliases takenSet pools l e = Some e' -> R e'.
Proof.
  induction 1 as [|[si s] l Hs _ IH]; intros e e' He; cbn [runUnits].
  - intros H. now injection H as <-.
  - destruct (unitsSection _ _ _ _ _ _) as [e1|] eqn:Hu; [|discriminate].
    apply IH. eapply R_units; eauto.
Qed.

Lemma indexed_snd {A} (l : list A) (p : nat * A) : In p (indexed l) -> In (snd p) l.
Proof. destruct p as [i x]. unfold indexed. apply in_combine_r. Qed.

Lemma sectionsPhase_keeps (skip : bool) (used0 : CodeSet) (e : EvalState) :
  R {| e_alloc := {| store := map (indexSectionItems aliases coursesIndex)
                                  (sections detail);
                     usedSet := used0 |};
       requiredAtomCount := 0; metAtomCount := 0; e_report := [] |} ->
  sectionsPhase aliases coursesIndex takenSet detail skip used0 = Some e -> R e.
Proof.
  intros H0. unfold sectionsPhase. apply runUnits_keeps.
  { apply Forall_forall. intros p Hp. apply filter_In in Hp. destruct Hp as [Hp _].
    apply filter_In in Hp. destruct Hp as [Hp _]. now apply indexed_snd. }
  apply fold_left_inv.
  { intros e1 p Hp H1. destruct (_ && _); [exact H1|]. apply R_count; [|exact H1].
    apply filter_In in Hp. destruct Hp as [Hp _]. now apply indexed_snd. }
  apply fold_left_inv; [|exact H0].
  intros e1 p _ H1. destruct (_ && _); [exact H1|].
  unfold allishSection. apply fold_left_inv; [|exact H1].
  intros e2 ii _ H2. now apply R_allish.
Qed.

End Keeps.

Section AllocKeeps.

(** A property of the allocation that every single allocation keeps. *)
Variable Q : Alloc -> Prop.
Hypothesis Q_step :
  forall a si ii it pick,
    Q a ->
    getItem (store a) si ii = Some it ->
    findMatchForItem it takenSet (usedSet a) = Some pick ->
    Q (consume a si ii pick).

Lemma sectionsPhase_keeps_alloc (detail : Detail) (skip : bool) (used0 : CodeSet)
    (e : EvalState) :
  Q {| store := map (indexSectionItems aliases coursesIndex) (sections detail);
       usedSet := used0 |} ->
  sectionsPhase aliases coursesIndex takenSet detail skip used0 = Some e ->
  Q (e_alloc e).
Proof.
  apply (sectionsPhase_keeps detail (fun e => Q (e_alloc e))).
  - intros si ii e0 H. unfold allishItem.
    destruct (getItem _ si ii) as [item|] eqn:Hget; [|exact H].
    destruct (findMatchForItem _ _ _) as [pick|] eqn:Hf; [|exact H].
    cbn [e_alloc]. eapply Q_step; eauto.
  - intros pools s si e0 _ H. unfold countSection.
    pose proof (satisfyCountSection_keeps takenSet pools (fun a _ => Q a)
                  (fun a ch si1 ii it pick from => Q_step a si1 ii it pick)
                  s si (e_alloc e0) H) as Hc.
    destruct (satisfyCountSection _ _ _ _ _) as [a ch]. exact Hc.
  - intros pools s si e0 e' _ H. unfold unitsSection.
    destruct (satisfyUnitsSection _ _ _ _ _ _) as [r|] eqn:Hr; [|discriminate].
    intros He. injection He as <-. cbn [e_alloc].
    apply (satisfyUnitsSection_keeps_alloc aliases takenSet pools (fun a _ => Q a)
             (fun a ch si1 ii it pick from => Q_step a si1 ii it pick)
             s si (e_alloc e0) r H Hr).
Qed.

End AllocKeeps.

(** *** Marks *)

(** Every mark of the store names an option of its item that is taken
    and used; an item without a mark is unmatched. *)
Definition soundMarks (a : Alloc) : Prop :=
  forall si ii it,
    getItem (store a) si ii = Some it ->
    match chosen it with
    | Some c => matched it = true /\ In c (options it)
                /\ has takenSet (code c) = true
                /\ has (usedSet a) (code c) = true
    | None => matched it = false
    end.

(** No code is the mark of two items. *)
Definition distinctMarks (a : Alloc) : Prop :=
  forall si ii sj ij it1 it2 c1 c2,
    getItem (store a) si ii = Some it1 -> chosen it1 = Some c1 ->
    getItem (store a) sj ij = Some it2 -> chosen it2 = Some c2 ->
    code c1 = code c2 -> si = sj /\ ii = ij.

Definition marksInv (used0 : CodeSet) (a : Alloc) : Prop :=
  soundMarks a /\ distinctMarks a
  /\ (forall si ii it c, getItem (store a) si ii = Some it -> chosen it = Some c ->
                         has used0 (code c) = false)
  /\ (forall x, has used0 x = true -> has (usedSet a) x = true).

Lemma marksInv_step (used0 : CodeSet) (a : Alloc) (si ii : nat) (it : Item)
    (pick : Opt) :
  marksInv used0 a ->
  getItem (store a) si ii = Some it ->
  findMatchForItem it takenSet (usedSet a) = Some pick ->
  marksInv used0 (consume a si ii pick).
Proof.
  intros [Hs [Hd [H0 Hsub]]] Hget Hf. apply findMatch_props in Hf.
  destruct Hf as [Hin [Ht Hu]].
  assert (Hnew : forall sj ij it', getItem (store (consume a si ii pick)) sj ij = Some it' ->
            (sj = si /\ ij = ii /\ it' = markOf pick it)
            \/ ((sj <> si \/ ij <> ii) /\ getItem (store a) sj ij = Some it')).
  { intros sj ij it' H. cbn [consume store] in H. rewrite getItem_markItem in H.
    destruct (si =? sj)%nat eqn:E1; destruct (ii =? ij)%nat eqn:E2; cbn in H.
    - apply Nat.eqb_eq in E1, E2. subst. rewrite Hget in H. injection H as <-.
      left. auto.
    - apply Nat.eqb_neq in E2. right. split; [right; congruence | exact H].
    - apply Nat.eqb_neq in E1. right. split; [left; congruence | exact H].
    - apply Nat.eqb_neq in E1. right. split; [left; congruence | exact H]. }
  split; [|split; [|split]].
  - intros sj ij it' H. destruct (Hnew _ _ _ H) as [[-> [-> ->]] | [_ Hold]].
    + cbn. repeat split; auto. cbn [consume usedSet]. apply has_add_same.
    + specialize (Hs _ _ _ Hold). destruct (chosen it') as [c|]; [|exact Hs].
      destruct Hs as [? [? [? ?]]]. repeat split; auto.
      cbn [consume usedSet]. now apply has_add_mono.
  - intros s1 i1 s2 i2 it1 it2 c1 c2 G1 C1 G2 C2 Heq.
    destruct (Hnew _ _ _ G1) as [[-> [-> ->]] | [N1 O1]];
      destruct (Hnew _ _ _ G2) as [[-> [-> ->]] | [N2 O2]].
    + auto.
    + cbn in C1. injection C1 as <-. specialize (Hs _ _ _ O2). rewrite C2 in Hs.
      destruct Hs as [_ [_ [_ Hused]]]. congruence.
    + cbn in C2. injection C2 as <-. specialize (Hs _ _ _ O1). rewrite C1 in Hs.
      destruct Hs as [_ [_ [_ Hused]]]. congruence.
    + eapply Hd; eauto.
  - intros sj ij it' c H C. destruct (Hnew _ _ _ H) as [[-> [-> ->]] | [_ Hold]].
    + cbn in C. injection C as <-.
      destruct (has used0 (code pick)) eqn:E; [|reflexivity].
      apply Hsub in E. congruence.
    + eapply H0; eauto.
  - intros x Hx. cbn [consume usedSet]. apply has_add_mono. auto.
Qed.

Lemma indexSectionItems_fresh (secs : list RawSection) (si ii : nat) (it : Item) :
  getItem (map (indexSectionItems aliases coursesIndex) secs) si ii = Some it ->
  matched it = false /\ chosen it = None.
Proof.
  unfold getItem. rewrite getItems_nth_error, nth_error_map.
  destruct (nth_error secs si) as [sec|]; cbn; [|destruct ii; discriminate].
  unfold indexSectionItems. rewrite nth_error_map.
  destruct (nth_error (s_items sec) ii); cbn; [|discriminate].
  intros H. injection H as <-. auto.
Qed.

Lemma marksInv_start (detail : Detail) (used0 : CodeSet) :
  marksInv used0
    {| store := map (indexSectionItems aliases coursesIndex) (sections detail);
       usedSet := used0 |}.
Proof.
  split; [|split; [|split]]; cbn [store usedSet].
  - intros si ii it H. apply indexSectionItems_fresh in H. destruct H as [Hm ->].
    exact Hm.
  - intros si ii sj ij it1 it2 c1 c2 H1 C1. apply indexSectionItems_fresh in H1.
    destruct H1 as [_ H1]. congruence.
  - intros si ii it c H C. apply indexSectionItems_fresh in H. destruct H as [_ H].
    congruence.
  - auto.
Qed.

Lemma evaluateProgram_marks (detail : Detail) (skip : bool) (res : Result) :
  evaluateProgram aliases coursesIndex takenSet detail skip = Some res ->
  marksInv (snd (evalCrossListUnits takenSet detail [])) (finalAlloc res).
Proof.
  unfold evaluateProgram.
  destruct (evalCrossListUnits takenSet detail []) as [cross used0]. cbn [snd].
  destruct (sectionsPhase _ _ _ _ _ _) as [e3|] eqn:Hp; [|discriminate].
  apply (sectionsPhase_keeps_alloc (marksInv used0) (marksInv_step used0)) in Hp;
    [|apply marksInv_start].
  destruct cross; intros H; injection H as <-; exact Hp.
Qed.

(** *** Progress *)

Lemma grows_itemsNonneg (a a' : Alloc) :
  grows a a' -> itemsNonneg (store a) -> itemsNonneg (store a').
Proof.
  intros G Ha si ii it' o Hget Hin.
  destruct (CountFacts.grows_getItem_back _ _ _ _ _ G Hget) as [it Hit].
  destruct G as [_ [_ I]]. destruct (I _ _ _ Hit) as [it2 [H2 [O2 _]]].
  assert (it2 = it') by congruence. subst it2.
  apply (Ha si ii it o Hit). congruence.
Qed.

Definition nonnegPicks (a : Alloc) (chosen : list Chosen) : Prop :=
  itemsNonneg (store a) /\ Forall (fun c => 0 <= ch_units c) chosen.

Lemma nonnegPicks_step (a : Alloc) (chosen : list Chosen) (si ii : nat) (it : Item)
    (pick : Opt) (from : string) :
  nonnegPicks a chosen ->
  getItem (store a) si ii = Some it ->
  findMatchForItem it takenSet (usedSet a) = Some pick ->
  nonnegPicks (consume a si ii pick) (chosen ++ [mkChosen pick from]).
Proof.
  intros [Hst Hch] Hget Hf. split.
  - eapply grows_itemsNonneg; [apply grows_consume | exact Hst].
  - apply Forall_app. split; [exact Hch|]. repeat constructor. cbn.
    apply findMatch_props in Hf. destruct Hf as [Hin _]. eapply Hst; eauto.
Qed.

Lemma avgUnits_pos (chosen : list Chosen) :
  Forall (fun c => 0 <= ch_units c) chosen -> 0 < avgUnits chosen.
Proof.
  intros H. destruct chosen as [|c0 rest]; [reflexivity|].
  unfold avgUnits. set (l := c0 :: rest) in *.
  assert (Hlen : 0 < inject_Z (Z.of_nat (List.length l))).
  { change 0 with (inject_Z 0). rewrite <- Zlt_Qlt. cbn. lia. }
  apply DoubleFacts.round_pos.
  apply Qlt_shift_div_l; [exact Hlen|]. rewrite Qmult_0_l.
  assert (Hpos : forall c, 0 <= ch_units c -> 0 < orQ (ch_units c) 3).
  { intros c Hc. unfold orQ. destruct (Qeq_bool (ch_units c) 0) eqn:E; [reflexivity|].
    apply Qeq_bool_neq in E. lra. }
  subst l. cbn [map]. unfold Qsum. cbn [fold_left].
  inversion H as [|? ? Hc0 Hrest]; subst.
  apply Qlt_le_trans with (0 + orQ (ch_units c0) 3).
  - specialize (Hpos _ Hc0). lra.
  - assert (G : forall l acc, Forall (fun q => 0 <= q) l -> acc <= fold_left Qplus l acc).
    { induction l as [|q l IH]; intros acc Hl; cbn; [lra|].
      inversion Hl; subst. eapply Qle_trans; [|apply IH; assumption]. lra. }
    apply G. apply Forall_map. eapply Forall_impl; [|exact Hrest].
    intros c Hc. apply Qlt_le_weak. now apply Hpos.
Qed.

Lemma estimatedCoursesNeeded_nonneg (minUnits : Q) (chosen : list Chosen) :
  0 <= minUnits -> Forall (fun c => 0 <= ch_units c) chosen ->
  (0 <= estimatedCoursesNeeded minUnits chosen)%Z.
Proof.
  intros Hm Hc. unfold estimatedCoursesNeeded.
  pose proof (avgUnits_pos chosen Hc) as Ha.
  assert (Hq : 0 <= Double.div minUnits (avgUnits chosen)).
  { apply DoubleFacts.round_nonneg. apply Qle_shift_div_l; [exact Ha | lra]. }
  pose proof (Qle_ceiling (Double.div minUnits (avgUnits chosen))) as Hceil.
  rewrite Zle_Qle. change (inject_Z 0) with 0. lra.
Qed.

(** Items carry non-negative units and the counters are in order. *)
Definition bounded (e : EvalState) : Prop :=
  itemsNonneg (store (e_alloc e))
  /\ (0 <= metAtomCount e <= requiredAtomCount e)%Z.

Lemma sectionsPhase_bounded (detail : Detail) (skip : bool) (used0 : CodeSet)
    (e : EvalState) :
  unitsNonneg (map (indexSectionItems aliases coursesIndex) (sections detail)) ->
  Forall (fun s => 0 <= ruleMinUnits (rule (workingSection s))) (sections detail) ->
  sectionsPhase aliases coursesIndex takenSet detail skip used0 = Some e ->
  bounded e.
Proof.
  intros Hu Hmin. apply (sectionsPhase_keeps detail bounded).
  - intros si ii e0 [Hst Hc]. unfold allishItem.
    destruct (getItem _ si ii) as [item|] eqn:Hget; [|split; cbn; [exact Hst | lia]].
    destruct (findMatchForItem _ _ _) as [pick|] eqn:Hf; [|split; cbn; [exact Hst | lia]].
    split; cbn [e_alloc requiredAtomCount metAtomCount]; [|lia].
    eapply grows_itemsNonneg; [apply grows_consume | exact Hst].
  - intros pools s si e0 _ [Hst Hc]. unfold countSection.
    pose proof (satisfyCountSection_keeps takenSet pools nonnegPicks nonnegPicks_step
                  s si (e_alloc e0) (conj Hst (Forall_nil _))) as [Hst' _].
    destruct (satisfyCountSection _ _ _ _ _) as [a ch]. split; cbn; [exact Hst' | lia].
  - intros pools s si e0 e' Hs [Hst Hc]. unfold unitsSection.
    destruct (satisfyUnitsSection _ _ _ _ _ _) as [r|] eqn:Hr; [|discriminate].
    intros He. injection He as <-.
    pose proof (satisfyUnitsSection_keeps_alloc aliases takenSet pools nonnegPicks
                  nonnegPicks_step s si (e_alloc e0) r (conj Hst (Forall_nil _)) Hr)
      as [Hst' Hch].
    pose proof (UnitsAtoms.satisfyUnitsSection_minUnits _ _ _ _ _ _ _ Hr) as Hmu.
    assert (Hest : (0 <= estimatedCoursesNeeded (ur_minUnits r) (ur_chosen r))%Z).
    { apply estimatedCoursesNeeded_nonneg; [|exact Hch]. rewrite Hmu.
      apply in_map_iff in Hs. destruct Hs as [s0 [<- Hs0]].
      rewrite Forall_forall in Hmin. now apply Hmin. }
    split; cbn; [exact Hst' | lia].
  - split; cbn; [now apply unitsNonneg_items | lia].
Qed.

End Facts.

(** X3.  At the end of [evaluateProgram] every matched item carries as its
    choice one of its own options, a course that is taken and recorded as
    used; an item without a choice is unmatched. *)
Theorem evaluation_marks_sound
    (aliases : CourseAliases) (coursesIndex : string -> option Q)
    (takenSet : CodeSet) (detail : Detail) (skip : bool) :
  exists res,
    evaluateProgram aliases coursesIndex takenSet detail skip = Some res
    /\ forall si ii it,
         getItem (store (finalAlloc res)) si ii = Some it ->
         match chosen it with
         | Some c => matched it = true /\ In c (options it)
                     /\ has takenSet (code c) = true
                     /\ has (usedSet (finalAlloc res)) (code c) = true
         | None => matched it = false
         end.
Proof.
  destruct (Scenarios.evaluateProgram_total aliases coursesIndex takenSet detail skip)
    as [res Hres].
  exists res. split; [exact Hres|].
  now destruct (evaluateProgram_marks aliases coursesIndex takenSet detail skip res Hres).
Qed.

(** X4.  The section loops of [evaluateProgram] consume a course at most
    once: no code is the choice of two items, no chosen code was consumed
    by the cross-list evaluation, and what the cross-list evaluation
    consumed stays used. *)
Theorem sections_consume_once
    (aliases : CourseAliases) (coursesIndex : string -> option Q)
    (takenSet : CodeSet) (detail : Detail) (skip : bool) :
  exists res,
    evaluateProgram aliases coursesIndex takenSet detail skip = Some res
    /\ let crossUsed := snd (evalCrossListUnits takenSet detail []) in
       (forall si ii sj ij it1 it2 c1 c2,
           getItem (store (finalAlloc res)) si ii = Some it1 -> chosen it1 = Some c1 ->
           getItem (store (finalAlloc res)) sj ij = Some it2 -> chosen it2 = Some c2 ->
           code c1 = code c2 -> si = sj /\ ii = ij)
       /\ (forall si ii it c,
              getItem (store (finalAlloc res)) si ii = Some it -> chosen it = Some c ->
              has crossUsed (code c) = false)
       /\ (forall x, has crossUsed x = true ->
                     has (usedSet (finalAlloc res)) x = true).
Proof.
  destruct (Scenarios.evaluateProgram_total aliases coursesIndex takenSet detail skip)
    as [res Hres].
  exists res. split; [exact Hres|].
  destruct (evaluateProgram_marks aliases coursesIndex takenSet detail skip res Hres)
    as [_ [Hd [H0 Hsub]]].
  cbv zeta. auto.
Qed.

(** X5.  When no option has negative units and no section a negative
    [min_units], the satisfied atoms are between zero and the required
    atoms, the percentage is between 0 and 100, and it is 100 when a
    non-zero number of required atoms is all satisfied. *)
Theorem progress_bounds
    (aliases : CourseAliases) (coursesIndex : string -> option Q)
    (takenSet : CodeSet) (detail : Detail) (skip : bool) (res : Result)
    (Hunits : UnitsFacts.unitsNonneg
                (map (indexSectionItems aliases coursesIndex) (sections detail)))
    (Hmin : Forall (fun s => 0 <= ruleMinUnits (rule (workingSection s)))
                   (sections detail))
    (Hrun : evaluateProgram aliases coursesIndex takenSet detail skip = Some res) :
  (0 <= satisfied res <= requiredItems res)%Z
  /\ (0 <= percent res <= 100)%Z
  /\ (requiredItems res <> 0%Z -> satisfied res = requiredItems res ->
      percent res = 100%Z).
Proof.
  revert Hrun. unfold evaluateProgram.
  destruct (evalCrossListUnits takenSet detail []) as [cross used0].
  destruct (sectionsPhase _ _ _ _ _ _) as [e3|] eqn:Hp; [|discriminate].
  apply sectionsPhase_bounded in Hp; [|assumption|assumption].
  destruct Hp as [_ Hb].
  set (rm := match cross with
             | Some c => (requiredAtomCount e3 + fst (crossAtoms c),
                          metAtomCount e3 + snd (crossAtoms c))%Z
             | None => (requiredAtomCount e3, metAtomCount e3)
             end).
  assert (Hrm : (0 <= snd rm <= fst rm)%Z).
  { subst rm. destruct cross as [c|]; cbn [fst snd]; [|exact Hb].
    pose proof (EvalFacts.crossAtoms_bounds c). lia. }
  destruct rm as [required met]. cbn [fst snd] in Hrm.
  intros H. injection H as <-. cbn [satisfied requiredItems percent].
  split; [exact Hrm|]. destruct (Z.eqb required 0) eqn:E.
  - apply Z.eqb_eq in E. split; [destruct (existsb _ _); lia | congruence].
  - apply Z.eqb_neq in E.
    assert (Hq : 0 < inject_Z required).
    { change 0 with (inject_Z 0). rewrite <- Zlt_Qlt. lia. }
    split.
    + now apply percent_bounds.
    + intros _ ->. now apply percent_full.
Qed.

(** Scenario 1: an ALL section with two items, one of them matched. *)
Definition scenario1 : Detail :=
  {| sections :=
       [ {| s_name := "Core"; s_rule := Some (CrossFacts.ruleOfType "ALL");
            s_items := [CrossFacts.rawItem [("BIOL 1", 4)];
                        CrossFacts.rawItem [("BIOL 2", 4)]] |} ];
     cross_list_rules := [] |}.

Lemma progress_bounds_witness :
  exists res,
    evaluateProgram PrereqFacts.noAliases (fun _ => None) ["BIOL 1"] scenario1 false
    = Some res
    /\ (0 <= satisfied res <= requiredItems res)%Z
    /\ (0 <= percent res <= 100)%Z.
Proof.
  eexists. split; [vm_compute; reflexivity|].
  assert (Hu : UnitsFacts.unitsNonneg
                 (map (indexSectionItems PrereqFacts.noAliases (fun _ => None))
                      (sections scenario1))).
  { repeat constructor; cbn; lra. }
  assert (Hm : Forall (fun s => 0 <= ruleMinUnits (rule (workingSection s)))
                      (sections scenario1)).
  { repeat constructor. vm_compute. discriminate. }
  pose proof (progress_bounds PrereqFacts.noAliases (fun _ => None) ["BIOL 1"]
                scenario1 false _ Hu Hm eq_refl) as [H1 [H2 _]].
  split; [exact H1 | exact H2].
Defined.

End ProgressFacts.

(** ** Invariants of the GE walk *)

Lemma fold_left_filter_idle {A S} (F : S -> A -> S) (P : A -> bool) (l : list A) :
  (forall s x, P x = false -> F s x = s) ->
  forall s, fold_left F (filter P l) s = fold_left F l s.
Proof.
  intros Hidle. induction l as [|x l IH]; intros s; cbn; [reflexivity|].
  destruct (P x) eqn:E; cbn; [apply IH|]. rewrite (Hidle s x E). apply IH.
Qed.

Module GEFacts.
Import GE WalkFacts.

Lemma getList_set (o : Obj.t (list string)) (k : string) (v : list string) (k' : string) :
  getList (Obj.set o k v) k' = if String.eqb k' k then v else getList o k'.
Proof. unfold getList. rewrite Obj_get_set. now destruct (String.eqb k' k). Qed.

Lemma getList_set_same (o : Obj.t (list string)) (k k' : string) :
  getList (Obj.set o k (getList o k)) k' = getList o k'.
Proof.
  rewrite getList_set. destruct (String.eqb k' k) eqn:E; [|reflexivity].
  apply String.eqb_eq in E. now subst.
Qed.

Lemma getList_pushAlloc (o : Obj.t (list string)) (k x k' : string) :
  getList (pushAlloc o k x) k'
  = if String.eqb k' k then getList o k ++ [x] else getList o k'.
Proof. unfold pushAlloc. apply getList_set. Qed.

Section Facts.

Variable bucketMap : Obj.t CodeSet.
Variable attrMap : Obj.t CodeSet.
Variable examUnits : Obj.t Q.
Variable examByArea : Obj.t CodeSet.
Variable okCourses : CodeSet.
Variable coursesIndex : string -> option Q.

Local Abbreviation candidates := (areaCandidates bucketMap examByArea okCourses).
Local Abbreviation walkNode :=
  (walk bucketMap attrMap examUnits examByArea okCourses coursesIndex).

(** *** What a walk keeps *)

Section Keeps.

(** A property of [used] and [alloc] that every allocating step keeps. *)
Variable I : State -> Prop.
Hypothesis I_same : forall s s', same s s' -> I s -> I s'.
Hypothesis I_leaf :
  forall a st, I st ->
    I (snd (walkLeaf bucketMap examUnits examByArea okCourses coursesIndex a st)).
Hypothesis I_require :
  forall r st, I st ->
    I (snd (satisfyRequires bucketMap attrMap examUnits examByArea okCourses
                            coursesIndex r st)).
Hypothesis I_group :
  forall sub mc mu st, I st ->
    I (snd (groupMinimum bucketMap examUnits examByArea okCourses coursesIndex
                         sub mc mu st)).
Hypothesis I_commit : forall kids d g st, I st -> I (commitOr kids d g st).

Lemma walkEach_keeps (w : Node -> State -> bool * State) (p : Node -> bool)
    (sub : list Node) :
  Forall (fun n => forall st, I st -> I (snd (w n st))) sub ->
  forall out st, I st -> I (snd (walkEach w p sub out st)).
Proof.
  induction 1 as [|n rest Hn _ IH]; intros out st Hst; cbn [walkEach]; [exact Hst|].
  destruct (p n); [|now apply IH].
  specialize (Hn st Hst). destruct (w n st) as [ok st']. now apply IH.
Qed.

Lemma orTrials_keeps (w : Node -> State -> bool * State) (kids : list Node) :
  forall i best st, I st -> I (snd (orTrials examUnits coursesIndex w kids i best st)).
Proof.
  induction kids as [|child rest IH]; intros i best st Hst; cbn [orTrials]; [exact Hst|].
  destruct (w child st) as [ok st1]. apply IH.
  apply (I_same st); [split; reflexivity | exact Hst].
Qed.

Lemma walkNth_keeps (w : Node -> State -> bool * State) (kids : list Node) :
  Forall (fun n => forall st, I st -> I (snd (w n st))) kids ->
  forall i st, I st -> I (snd (walkNth w kids i st)).
Proof.
  induction 1 as [|n rest Hn _ IH]; intros i st Hst; destruct i; cbn [walkNth snd]; auto.
Qed.

Lemma requireEach_keeps (sub : list Node) :
  forall out st, I st ->
    I (snd (requireEach bucketMap attrMap examUnits examByArea okCourses coursesIndex
                        sub out st)).
Proof.
  unfold requireEach. intros out st Hst.
  apply (fold_left_inv (fun acc : list bool * State => I (snd acc))); [|exact Hst].
  intros [o s] n _ Hs. destruct n; try exact Hs. cbn [snd fst] in *.
  specialize (I_require r s Hs).
  destruct (satisfyRequires _ _ _ _ _ _ r s) as [ok s']. exact I_require.
Qed.

Lemma walk_keeps (node : Node) : forall st, I st -> I (snd (walkNode node st)).
Proof.
  induction node as [a | a | sub mc mu IH | kids d g IH | r |] using Node_forall_ind;
    intros st Hst; cbn [walk].
  - destruct (Str.nonEmpty (area a)); [now apply I_leaf | exact Hst].
  - destruct (Str.nonEmpty (area a)); [now apply I_leaf | exact Hst].
  - pose proof (walkEach_keeps walkNode isOpNode sub IH [] st Hst) as H1.
    destruct (walkEach walkNode isOpNode sub [] st) as [out1 st1].
    pose proof (walkEach_keeps walkNode isAreaNode sub IH out1 st1 H1) as H2.
    destruct (walkEach walkNode isAreaNode sub out1 st1) as [out2 st2].
    pose proof (requireEach_keeps sub out2 st2 H2) as H3.
    destruct (requireEach _ _ _ _ _ _ sub out2 st2) as [out3 st3].
    pose proof (I_group sub mc mu st3 H3) as H4.
    destruct (groupMinimum _ _ _ _ _ sub mc mu st3) as [gm st4]. exact H4.
  - pose proof (orTrials_keeps walkNode kids 0 None st Hst) as H1.
    destruct (orTrials examUnits coursesIndex walkNode kids 0 None st) as [[best|] st1];
      [|exact H1].
    pose proof (walkNth_keeps walkNode kids IH (ch_child best) st1 H1) as H2.
    destruct (walkNth walkNode kids (ch_child best) st1) as [ok st2].
    now apply I_commit.
  - exact Hst.
  - exact Hst.
Qed.

End Keeps.

(** *** Where allocated courses come from *)

Lemma Obj_get_map {V W} (g : string -> V -> W) (o : Obj.t V) (k : string) :
  Obj.get (map (fun p => (fst p, g (fst p) (snd p))) o) k
  = option_map (g k) (Obj.get o k).
Proof.
  induction o as [|[k0 v0] o IH]; cbn; [reflexivity|].
  destruct (String.eqb k k0) eqn:E; [|exact IH].
  apply String.eqb_eq in E. now subst.
Qed.

(** A candidate of an area is a passed course of the area's bucket or an
    exam credited to the area. *)
Lemma candidates_source (a x : string) :
  In x (getList candidates a) ->
  Obj.hasKey bucketMap a = true
  /\ ((In x (codesOf bucketMap a) /\ has okCourses x = true)
      \/ In x (codesOf examByArea a)).
Proof.
  unfold getList, areaCandidates, Obj.hasKey, codesOf.
  rewrite (Obj_get_map (fun k s => dedupe (filter (has okCourses) s
                                           ++ match Obj.get examByArea k with
                                              | Some l => l
                                              | None => []
                                              end) [])).
  unfold CodeSet in *.
  destruct (Obj.get bucketMap a) as [s|]; cbn; [|intros []].
  intros H. apply dedupe_In in H. apply in_app_iff in H. split; [reflexivity|].
  destruct H as [H | H]; [left | now right]. now apply filter_In in H.
Qed.

Lemma pass2_sub (needUnits : Q) (needDistinct : nat) (scored : list Scored) :
  forall sel x,
    In x (fst (fst (pass2 examUnits needUnits needDistinct scored sel))) ->
    In x (fst (fst sel)) \/ In x (map c scored).
Proof.
  induction scored as [|it rest IH]; intros [[chosen units] seen] x; cbn [pass2];
    [now left|].
  assert (Hrest : In x (fst (fst (pass2 examUnits needUnits needDistinct rest
                                        (chosen, units, seen)))) ->
                  In x (fst (fst (chosen, units, seen))) \/ In x (map c (it :: rest))).
  { intros H. destruct (IH _ _ H); [now left | right; now right]. }
  destruct (existsb _ chosen); [exact Hrest|].
  destruct (_ && _); [exact Hrest|].
  assert (Hnew : In x (chosen ++ [c it]) ->
                 In x (fst (fst (chosen, units, seen))) \/ In x (map c (it :: rest))).
  { intros H. apply in_app_iff in H. destruct H as [H | [<- | []]];
      [now left | right; now left]. }
  destruct (Qgeb _ _); [exact Hnew|].
  intros H. destruct (IH _ _ H) as [H' | H']; [now apply Hnew | right; now right].
Qed.

Lemma pickForArea_chosen_In (a : AreaSpec) (usedNow : CodeSet) (x : string) :
  In x (p_chosen (pickForArea bucketMap examUnits examByArea okCourses coursesIndex
                              a usedNow)) ->
  In x (getList candidates (area a)) /\ has usedNow x = false.
Proof.
  unfold pickForArea.
  destruct (filter _ (getList candidates (area a))); [intros []|].
  set (scored := scoredPool _ _ _ _ _ (area a) usedNow).
  pose proof (AreaFacts.pass1_spec examUnits (min_courses a) (min_units a)
                (distinct_disciplines a) scored [] 0 []) as Hp.
  cbv zeta in Hp.
  destruct Hp as [_ [_ [_ [Hsub _]]]].
  { intros _. split; [|constructor]. intros p0. cbn. split; [discriminate | tauto]. }
  set (sel1 := pass1 _ _ _ _ scored _) in *.
  assert (Hin : forall y,
             In y (fst (fst (if Qltb (snd (fst sel1)) (min_units a)
                             then pass2 examUnits (min_units a) (distinct_disciplines a)
                                        scored sel1
                             else sel1))) ->
             In y (map c scored)).
  { intros y. destruct (Qltb _ _).
    - intros H. apply pass2_sub in H. destruct H as [H | H]; [|exact H].
      destruct (Hsub y H) as [[] | H']. exact H'.
    - intros H. destruct (Hsub y H) as [[] | H']. exact H'. }
  destruct (if Qltb _ _ then _ else _) as [[chosen units] seen]. cbn [fst] in Hin.
  intros H.
  apply (AreaFacts.scoredPool_codes bucketMap examUnits examByArea okCourses coursesIndex).
  apply Hin. destruct (_ && _); exact H.
Qed.

(** Every allocated code is a candidate of some area. *)
Definition okAlloc (al : Obj.t (list string)) : Prop :=
  forall k x, In x (getList al k) -> exists a, In x (getList candidates a).

Definition fromCandidates (st : State) : Prop := okAlloc (alloc st).

Lemma okAlloc_push (al : Obj.t (list string)) (k x : string) :
  okAlloc al -> (exists a, In x (getList candidates a)) -> okAlloc (pushAlloc al k x).
Proof.
  intros Hal Hx k' y. rewrite getList_pushAlloc.
  destruct (String.eqb k' k); [|apply Hal].
  intros H. apply in_app_iff in H.
  destruct H as [H | [<- | []]]; [eapply Hal; eauto | exact Hx].
Qed.

Lemma okAlloc_touch (al : Obj.t (list string)) (k : string) :
  okAlloc al -> okAlloc (Obj.set al k (getList al k)).
Proof. intros Hal k' y. rewrite getList_set_same. apply Hal. Qed.

Lemma walkLeaf_fromCandidates (a : AreaSpec) (st : State) :
  fromCandidates st ->
  fromCandidates
    (snd (walkLeaf bucketMap examUnits examByArea okCourses coursesIndex a st)).
Proof.
  intros Hst. unfold walkLeaf.
  pose proof (pickForArea_chosen_In a (used st)) as Hin.
  destruct (p_chosen (pickForArea _ _ _ _ _ a (used st))) as [|x0 l] eqn:Hch;
    [exact Hst|].
  rewrite <- Hch in *. clear Hch.
  set (step := fun (acc : CodeSet * Obj.t (list string)) (x : string) =>
                 let '(us, al) := acc in
                 if has us x then acc else (add us x, pushAlloc al (area a) x)).
  assert (Hfold : okAlloc
             (snd (fold_left step (p_chosen (pickForArea bucketMap examUnits
                      examByArea okCourses coursesIndex a (used st)))
                      (used st, Obj.set (alloc st) (area a)
                                        (getList (alloc st) (area a)))))).
  { apply (fold_left_inv (fun acc : CodeSet * Obj.t (list string) => okAlloc (snd acc))).
    - intros [us al] x Hx Hacc. cbn [step]. destruct (has us x); [exact Hacc|].
      cbn [snd] in *. apply okAlloc_push; [exact Hacc|].
      exists (area a). now apply Hin.
    - cbn [snd]. now apply okAlloc_touch. }
  fold step. destruct (fold_left step _ _) as [us al]. exact Hfold.
Qed.

Lemma requireLoop_fromCandidates (cnt : nat) (satArea : option string)
    (pool : list (string * string * Q)) :
  Forall (fun p => In (snd (fst p)) (getList candidates (fst (fst p)))) pool ->
  forall picked st,
    fromCandidates st -> fromCandidates (snd (requireLoop cnt satArea pool picked st)).
Proof.
  induction 1 as [|[[a x] ux] rest Hx _ IH]; intros picked st Hst; cbn [requireLoop];
    [exact Hst|].
  cbn [fst snd] in Hx. cbv zeta.
  assert (Hcand : exists a', In x (getList candidates a')) by (now exists a).
  match goal with
  | |- context [requireLoop cnt satArea rest (S picked) ?s] =>
      assert (Hs : fromCandidates s)
  end.
  { unfold fromCandidates. cbn [alloc].
    destruct satArea as [sa|];
      repeat first [ exact Hst
                   | apply okAlloc_touch
                   | apply okAlloc_push; [|exact Hcand]
                   | match goal with
                     | |- okAlloc (if ?b then _ else _) => destruct b
                     end ]. }
  destruct (cnt <=? S picked)%nat; [exact Hs | now apply IH].
Qed.

Lemma satisfyRequires_fromCandidates (r : RequireSpec) (st : State) :
  fromCandidates st ->
  fromCandidates
    (snd (satisfyRequires bucketMap attrMap examUnits examByArea okCourses
                          coursesIndex r st)).
Proof.
  intros Hst. unfold satisfyRequires.
  set (pool := sortBy moreUnits3 _).
  pose proof (requireLoop_fromCandidates (countOr1 r)
                (match satisfies_area r with
                 | Some sa => if Str.nonEmpty sa then Some sa else None
                 | None => None
                 end) pool) as H.
  destruct (requireLoop _ _ pool 0 st) as [picked st'] eqn:E.
  cbn [snd]. specialize (H ltac:(
    apply Forall_forall; intros p Hp; apply sortBy_In in Hp;
    apply in_flat_map in Hp; destruct Hp as [a [_ Hp]];
    apply in_map_iff in Hp; destruct Hp as [x [<- Hx]];
    apply filter_In in Hx; exact (proj1 Hx)) 0%nat st Hst).
  now rewrite E in H.
Qed.

Lemma groupFill_fromCandidates (mc : nat) (mu : Q) (pools : list (string * string * Q)) :
  Forall (fun p => In (snd (fst p)) (getList candidates (fst (fst p)))) pools ->
  forall have st,
    fromCandidates st -> fromCandidates (snd (groupFill mc mu pools have st)).
Proof.
  induction 1 as [|[[a x] ux] rest Hx _ IH]; intros have st Hst; cbn [groupFill];
    [exact Hst|].
  cbn [fst snd] in Hx.
  assert (H1 : okAlloc (pushAlloc (alloc st) a x)).
  { apply okAlloc_push; [exact Hst | now exists a]. }
  destruct (_ && _); [exact H1|]. apply IH. exact H1.
Qed.

Lemma groupMinimum_fromCandidates (sub : list Node) (mc : nat) (mu : Q) (st : State) :
  fromCandidates st ->
  fromCandidates
    (snd (groupMinimum bucketMap examUnits examByArea okCourses coursesIndex
                       sub mc mu st)).
Proof.
  intros Hst. unfold groupMinimum.
  destruct (_ || _); [|exact Hst].
  destruct (_ || _); [|exact Hst].
  set (pools := sortBy moreUnits3 _).
  pose proof (groupFill_fromCandidates mc mu pools) as H.
  match goal with
  | |- context [groupFill mc mu pools ?h st] =>
      specialize (H ltac:(
        apply Forall_forall; intros p Hp; apply sortBy_In in Hp;
        apply in_flat_map in Hp; destruct Hp as [a [_ Hp]];
        apply in_map_iff in Hp; destruct Hp as [x [<- Hx]];
        apply filter_In in Hx; exact (proj1 Hx)) h st Hst);
      destruct (groupFill mc mu pools h st) as [[hc hu] st']
  end.
  exact H.
Qed.

Lemma commitOr_fromCandidates (kids : list Node) (d g : option string) (st : State) :
  fromCandidates st -> fromCandidates (commitOr kids d g st).
Proof.
  intros Hst k y. unfold commitOr. cbn [alloc]. rewrite getList_set.
  destruct (String.eqb k _); [|apply Hst].
  destruct (match find _ _ with Some a => Some a | None => _ end) as [a|];
    [apply Hst | intros []].
Qed.

Lemma walk_fromCandidates (node : Node) (st : State) :
  fromCandidates st -> fromCandidates (snd (walkNode node st)).
Proof.
  apply (walk_keeps fromCandidates).
  - intros s s' [_ Ha] H k x. rewrite <- Ha. apply H.
  - apply walkLeaf_fromCandidates.
  - apply satisfyRequires_fromCandidates.
  - apply groupMinimum_fromCandidates.
  - apply commitOr_fromCandidates.
Qed.

(** *** OR nodes *)

Lemma orTrials_none (w : Node -> State -> bool * State) (kids : list Node) :
  forall i best st,
    fst (orTrials examUnits coursesIndex w kids i best st) = None ->
    best = None /\ kids = [].
Proof.
  induction kids as [|child rest IH]; intros i best st; cbn [orTrials]; [auto|].
  destruct (w child st) as [ok st1]. intros H. apply IH in H.
  destruct H as [H _]. destruct best as [b|]; [destruct (better _ _)|]; discriminate.
Qed.

(** *** Attribute requirements *)

Lemma requireLoop_spec (cnt : nat) (satArea : option string)
    (pool : list (string * string * Q)) :
  forall picked st,
    (picked < cnt)%nat ->
    let r := requireLoop cnt satArea pool picked st in
    fst r = Nat.min cnt (picked + List.length pool)
    /\ used (snd r)
       = fold_left add (map (fun p => snd (fst p)) (firstn (cnt - picked) pool)) (used st).
Proof.
  induction pool as [|[[a x] ux] rest IH]; intros picked st Hlt; cbn [requireLoop].
  - cbn. split; [lia|]. now rewrite firstn_nil.
  - destruct (cnt <=? S picked)%nat eqn:E.
    + apply Nat.leb_le in E. cbn [fst snd used List.length].
      replace (cnt - picked)%nat with 1%nat by lia. cbn. split; [lia | reflexivity].
    + apply Nat.leb_gt in E.
      match goal with
      | |- context [requireLoop cnt satArea rest (S picked) ?s] =>
          destruct (IH (S picked) s E) as [H1 H2]
      end.
      cbv zeta. rewrite H1, H2. cbn [used List.length]. split; [f_equal; lia|].
      replace (cnt - picked)%nat with (S (cnt - S picked)) by lia. reflexivity.
Qed.

(** *** AND nodes *)

Definition isBucketNode (n : Node) : bool :=
  match n with NBucket _ => true | _ => false end.

Lemma walkEach_filter (w : Node -> State -> bool * State) (p q : Node -> bool)
    (sub : list Node) :
  (forall n, p n = true -> q n = true) ->
  forall out st, walkEach w p (filter q sub) out st = walkEach w p sub out st.
Proof.
  intros Hpq. induction sub as [|n rest IH]; intros out st; cbn [filter walkEach];
    [reflexivity|].
  destruct (q n) eqn:Eq; cbn [walkEach].
  - destruct (p n); [destruct (w n st)|]; apply IH.
  - destruct (p n) eqn:Ep; [|apply IH]. apply Hpq in Ep. congruence.
Qed.

Lemma requireEach_filter (q : Node -> bool) (sub : list Node) :
  (forall r, q (NRequire r) = true) ->
  forall out st,
    requireEach bucketMap attrMap examUnits examByArea okCourses coursesIndex
                (filter q sub) out st
    = requireEach bucketMap attrMap examUnits examByArea okCourses coursesIndex
                  sub out st.
Proof.
  intros Hq out st. unfold requireEach. apply fold_left_filter_idle.
  intros acc n Hn. destruct n; try reflexivity. rewrite Hq in Hn. discriminate.
Qed.

End Facts.

(** X6.  Every course [evaluateGE] allocates to an area or group is a
    candidate of an area of the pattern: a course of that area's bucket
    that the student has passed, or an exam credited to that area. *)
Theorem ge_allocates_candidates
    (bucketMap attrMap : Obj.t CodeSet) (examUnits : Obj.t Q)
    (examByArea : Obj.t CodeSet) (okCourses : CodeSet)
    (coursesIndex : string -> option Q) (logic : Node) (k x : string)
    (Hin : In x (getList (alloc (evaluateGE bucketMap attrMap examUnits examByArea
                                           okCourses coursesIndex logic)) k)) :
  exists a,
    Obj.hasKey bucketMap a = true
    /\ ((In x (codesOf bucketMap a) /\ has okCourses x = true)
        \/ In x (codesOf examByArea a)).
Proof.
  unfold evaluateGE in Hin.
  apply (walk_fromCandidates bucketMap attrMap examUnits examByArea okCourses
           coursesIndex logic) in Hin.
  - destruct Hin as [a Ha]. exists a. now apply candidates_source in Ha.
  - intros k' y [].
Qed.

Lemma ge_allocates_candidates_witness :
  exists a,
    Obj.hasKey [("1A", ["ENGL 2"]); ("1B", ["ENGL 11"]); ("1C", ["CMST 2"])] a = true
    /\ ((In "ENGL 11"
            (codesOf [("1A", ["ENGL 2"]); ("1B", ["ENGL 11"]); ("1C", ["CMST 2"])] a)
         /\ has ["ENGL 11"] "ENGL 11" = true)
        \/ In "ENGL 11" (codesOf [] a)).
Proof.
  apply (ge_allocates_candidates
           [("1A", ["ENGL 2"]); ("1B", ["ENGL 11"]); ("1C", ["CMST 2"])] [] [] []
           ["ENGL 11"] (fun _ => Some 3) scenario4 "1B" "ENGL 11").
  vm_compute. left. reflexivity.
Defined.

(** X7.  An OR node with at least one child reports ok whether or not
    any alternative was satisfied; without children it reports not ok and
    leaves the state as it was. *)
Theorem or_node_verdict
    (bucketMap attrMap : Obj.t CodeSet) (examUnits : Obj.t Q)
    (examByArea : Obj.t CodeSet) (okCourses : CodeSet)
    (coursesIndex : string -> option Q)
    (kids : list Node) (d g : option string) (st : State) :
  match kids with
  | [] => walk bucketMap attrMap examUnits examByArea okCourses coursesIndex
               (NOr kids d g) st = (false, st)
  | _ :: _ => fst (walk bucketMap attrMap examUnits examByArea okCourses coursesIndex
                        (NOr kids d g) st) = true
  end.
Proof.
  destruct kids as [|k0 rest]; [reflexivity|]. cbn [walk].
  destruct (orTrials _ _ _ (k0 :: rest) 0 None st) as [[best|] st1] eqn:E.
  - now destruct (walkNth _ _ _ _).
  - apply (f_equal fst) in E. cbn [fst] in E. apply orTrials_none in E.
    destruct E as [_ E]. discriminate.
Qed.

(** X8.  An attribute requirement is satisfied exactly when at least
    [count] (1 when absent) unused candidates of its areas carry the
    attribute; satisfied or not, it marks as used the first [count]
    entries of that pool in descending order of units. *)
Theorem requires_verdict
    (bucketMap attrMap : Obj.t CodeSet) (examUnits : Obj.t Q)
    (examByArea : Obj.t CodeSet) (okCourses : CodeSet)
    (coursesIndex : string -> option Q) (r : RequireSpec) (st : State) :
  let available :=
    flat_map (fun a =>
                map (fun x => (a, x, unitsFor examUnits coursesIndex x))
                    (filter (fun x => negb (has (used st) x)
                                      && has (codesOf attrMap (attribute r)) x)
                            (getList (areaCandidates bucketMap examByArea okCourses) a)))
             (from_areas r) in
  let res := satisfyRequires bucketMap attrMap examUnits examByArea okCourses
                             coursesIndex r st in
  fst res = (countOr1 r <=? List.length available)%nat
  /\ used (snd res)
     = fold_left add
         (map (fun p => snd (fst p)) (firstn (countOr1 r) (sortBy moreUnits3 available)))
         (used st).
Proof.
  intros available res. subst res. unfold satisfyRequires. fold available.
  assert (Hpos : (0 < countOr1 r)%nat) by (unfold countOr1; destruct (count r); lia).
  pose proof (requireLoop_spec (countOr1 r)
                (match satisfies_area r with
                 | Some sa => if Str.nonEmpty sa then Some sa else None
                 | None => None
                 end) (sortBy moreUnits3 available) 0 st Hpos) as H.
  cbv zeta in H. destruct (requireLoop _ _ _ 0 st) as [picked st'].
  cbn [fst snd] in *. destruct H as [-> ->]. rewrite Nat.sub_0_r. split; [|reflexivity].
  rewrite <- (Permutation_length (sortBy_perm moreUnits3 available)).
  cbn [Nat.add]. destruct (countOr1 r <=? List.length available)%nat eqn:E.
  - apply Nat.leb_le in E. apply Nat.leb_le. lia.
  - apply Nat.leb_gt in E. apply Nat.leb_gt. lia.
Qed.

(** X9.  An AND node without a group minimum never walks its bucket
    children: removing them changes neither the verdict nor the state. *)
Theorem and_node_skips_buckets
    (bucketMap attrMap : Obj.t CodeSet) (examUnits : Obj.t Q)
    (examByArea : Obj.t CodeSet) (okCourses : CodeSet)
    (coursesIndex : string -> option Q) (sub : list Node) (st : State) :
  walk bucketMap attrMap examUnits examByArea okCourses coursesIndex
       (NAnd sub 0 0) st
  = walk bucketMap attrMap examUnits examByArea okCourses coursesIndex
         (NAnd (filter (fun n => negb (isBucketNode n)) sub) 0 0) st.
Proof.
  cbn [walk].
  rewrite (walkEach_filter _ isOpNode (fun n => negb (isBucketNode n)))
    by (intros [] H; try discriminate; reflexivity).
  destruct (walkEach _ isOpNode sub [] st) as [out1 st1].
  rewrite (walkEach_filter _ isAreaNode (fun n => negb (isBucketNode n)))
    by (intros [] H; try discriminate; reflexivity).
  destruct (walkEach _ isAreaNode sub out1 st1) as [out2 st2].
  rewrite requireEach_filter by reflexivity.
  destruct (requireEach _ _ _ _ _ _ sub out2 st2) as [out3 st3].
  reflexivity.
Qed.

End GEFacts.

(** ** Prerequisite summaries *)

Module SummaryFacts.
Import Prereq PrereqSummary.

(** Structural induction on requirement trees, through the lists of
    children. *)
Fixpoint PNode_forall_ind (P : Node -> Prop)
    (HNone : P PNone)
    (HAnd : forall nodes, Forall P nodes -> P (PAnd nodes))
    (HOr : forall nodes, Forall P nodes -> P (POr nodes))
    (HCourse : forall c b, P (PCourse c b))
    (HText : forall t b, P (PText t b))
    (n : Node) {struct n} : P n :=
  let children :=
    fix children (l : list Node) : Forall P l :=
      match l with
      | [] => Forall_nil P
      | x :: l' =>
          Forall_cons x (PNode_forall_ind P HNone HAnd HOr HCourse HText x) (children l')
      end in
  match n with
  | PNone => HNone
  | PAnd nodes => HAnd nodes (children nodes)
  | POr nodes => HOr nodes (children nodes)
  | PCourse c b => HCourse c b
  | PText t b => HText t b
  end.

(** The codes of the course leaves that are not flagged Concurrent. *)
Fixpoint courseLeaves (n : Node) : list string :=
  match n with
  | PAnd nodes | POr nodes => flat_map courseLeaves nodes
  | PCourse c false => if Str.nonEmpty c then [normalizeCode c] else []
  | _ => []
  end.

(** The fixed strings reported for the high-school requirements. *)
Definition hsMarkers : list string :=
  ["HS Chemistry (or take CHEM 11/CHEM 51)"; "HS_CHEMISTRY";
   "Intermediate Algebra"; "HS_INT_ALGEBRA"].

Definition summaryStrings (items : list SummaryItem) : list string :=
  flat_map (fun i => match i with SStr s => [s] | SGroup _ l => l end) items.

Lemma summaryStrings_flattenOptions (opts : list Missing) (o : option string) :
  summaryStrings (flattenOptions opts o) = flat_map flattenOption opts.
Proof.
  assert (H : forall l, summaryStrings (map SStr l) = l).
  { induction l as [|x l IH]; cbn; [reflexivity | now f_equal]. }
  unfold flattenOptions. destruct o as [o|]; [|apply H].
  destruct (_ && _); [|apply H]. cbn. apply app_nil_r.
Qed.

Section Facts.

Variable aliases : CourseAliases.

Section Monotone.

Variables userExams userExams' : list UserExam.
Variables takenSet takenSet' : CodeSet.
Hypothesis taken_more : forall c, has takenSet c = true -> has takenSet' c = true.
Hypothesis exams_more :
  forall e, hasOtherExam userExams e = true -> hasOtherExam userExams' e = true.

Lemma evalPrereqNode_monotone (n : Node) :
  met (evalPrereqNode aliases userExams takenSet n) = true ->
  met (evalPrereqNode aliases userExams' takenSet' n) = true.
Proof.
  induction n as [| nodes IH | nodes IH | c b | t b] using PNode_forall_ind.
  - auto.
  - rewrite !PrereqFacts.and_met, !forallb_forall. intros H n Hn.
    rewrite Forall_forall in IH. auto.
  - rewrite !PrereqFacts.or_met, !existsb_exists. intros [n [Hn H]].
    rewrite Forall_forall in IH. exists n. auto.
  - cbn [evalPrereqNode]. destruct (Str.nonEmpty c); [|auto].
    unfold evalCourse. destruct b; [auto|]. cbn [met].
    rewrite !orb_true_iff. intros [H | H]; [left | right]; auto.
  - cbn [evalPrereqNode]. destruct (Str.nonEmpty t); [|auto].
    unfold evalText. destruct b; [auto|].
    destruct (_ || _); [cbn [met]; apply exams_more|].
    destruct (_ || _); [|auto]. cbn [met].
    rewrite !orb_true_iff, !existsb_exists.
    intros [H | [c [Hc H]]]; [left; auto | right]. exists c. split; [exact Hc|].
    apply orb_true_iff in H. apply orb_true_iff. destruct H; [left | right]; auto.
Qed.

End Monotone.

Variable userExams : list UserExam.
Variable takenSet : CodeSet.

Local Abbreviation eval := (evalPrereqNode aliases userExams takenSet).

(** A string that may be reported for the tree [n]: a high-school marker,
    or the code of a course leaf of [n] that is not in the taken set,
    neither as written nor in canonical form. *)
Definition reportable (n : Node) (x : string) : Prop :=
  In x hsMarkers
  \/ (In x (courseLeaves n)
      /\ has takenSet x = false
      /\ has takenSet (canonicalizeCode aliases x) = false).

Lemma reportable_child (nodes : list Node) (n : Node) (x : string) :
  In n nodes -> reportable n x ->
  reportable (PAnd nodes) x /\ reportable (POr nodes) x.
Proof.
  intros Hn [H | [H1 H2]]; [split; now left|].
  split; right; (split; [|exact H2]); cbn [courseLeaves]; apply in_flat_map; eauto.
Qed.

Lemma unmet_reportable (n : Node) :
  met (eval n) = false ->
  forall x,
    In x (flat_map flattenOption (options (eval n)))
    \/ In x (flat_map flattenOption (flatOption (eval n))) ->
    reportable n x.
Proof.
  induction n as [| nodes IH | nodes IH | c b | t b] using PNode_forall_ind.
  - discriminate.
  - intros Hmet x Hx. rewrite Forall_forall in IH.
    assert (Hopt : In x (flat_map flattenOption (options (eval (PAnd nodes))))).
    { destruct Hx as [Hx | Hx]; [exact Hx|]. exact Hx. }
    clear Hx. cbn [evalPrereqNode met options] in Hopt, Hmet. rewrite Hmet in Hopt.
    apply in_flat_map in Hopt. destruct Hopt as [m [Hm Hx]].
    apply in_map_iff in Hm. destruct Hm as [r [<- Hr]].
    apply filter_In in Hr. destruct Hr as [Hr Hrm].
    apply in_map_iff in Hr. destruct Hr as [n [<- Hn]].
    apply negb_true_iff in Hrm.
    apply (reportable_child nodes n x Hn). apply (IH n Hn Hrm). now left.
  - intros Hmet x Hx. rewrite Forall_forall in IH.
    assert (Hopt : In x (flat_map flattenOption (options (eval (POr nodes))))).
    { destruct Hx as [Hx | Hx]; [exact Hx|]. exact Hx. }
    clear Hx. cbn [evalPrereqNode met options] in Hopt, Hmet. rewrite Hmet in Hopt.
    apply in_flat_map in Hopt. destruct Hopt as [m [Hm Hx]].
    apply in_flat_map in Hm. destruct Hm as [r [Hr Hm]].
    apply in_map_iff in Hr. destruct Hr as [n [<- Hn]].
    assert (Hnm : met (eval n) = false).
    { destruct (met (eval n)) eqn:E; [|reflexivity].
      assert (existsb met (map eval nodes) = true); [|congruence].
      apply existsb_exists. exists (eval n). split; [now apply in_map | exact E]. }
    apply (reportable_child nodes n x Hn). apply (IH n Hn Hnm). right.
    apply in_flat_map. eauto.
  - cbn [evalPrereqNode]. destruct (Str.nonEmpty c) eqn:Hc; [|discriminate].
    unfold evalCourse. destruct b; [discriminate|]. cbn [met]. intros Hmet x Hx.
    apply orb_false_iff in Hmet. destruct Hmet as [H1 H2].
    assert (x = normalizeCode c).
    { unfold flatOption in Hx. cbn [options singleOption] in Hx.
      rewrite H1, H2 in Hx. cbn [orb] in Hx.
      destruct (Str.nonEmpty (normalizeCode c)); cbn in Hx; intuition congruence. }
    subst x. right. cbn [courseLeaves]. rewrite Hc. cbn. auto.
  - cbn [evalPrereqNode]. destruct (Str.nonEmpty t); [|discriminate].
    unfold evalText. destruct b; [discriminate|].
    destruct (_ || _).
    { cbn [met]. intros Hmet x Hx. left. unfold flatOption in Hx.
      cbn [options singleOption] in Hx. rewrite Hmet in Hx. cbn in Hx. cbn. tauto. }
    destruct (_ || _); [|discriminate].
    cbn [met]. intros Hmet x Hx. left. unfold flatOption in Hx.
    cbn [options singleOption] in Hx. rewrite Hmet in Hx. cbn in Hx. cbn. tauto.
Qed.

End Facts.

(** X10.  Prerequisites stay met when the student has taken more: if a
    course's prerequisites are met on a taken set and a list of exams,
    they are met on every larger taken set and exam list, and no summary
    of missing prerequisites is produced. *)
Theorem prereqs_stay_met
    (aliases : CourseAliases) (userExams userExams' : list UserExam)
    (takenSet takenSet' : CodeSet) (requirementTree : string -> option Node)
    (courseCode : string)
    (Htaken : forall c, has takenSet c = true -> has takenSet' c = true)
    (Hexams : forall e, hasOtherExam userExams e = true ->
                        hasOtherExam userExams' e = true)
    (Hmet : met (result (checkPrereqsMet aliases userExams takenSet requirementTree
                                         courseCode)) = true) :
  met (result (checkPrereqsMet aliases userExams' takenSet' requirementTree
                               courseCode)) = true
  /\ getMissingPrereqSummary aliases userExams' takenSet' requirementTree courseCode
     = None.
Proof.
  assert (H : met (result (checkPrereqsMet aliases userExams' takenSet' requirementTree
                                           courseCode)) = true).
  { revert Hmet. unfold checkPrereqsMet.
    destruct (getCoursePrereqs aliases requirementTree courseCode) as [t|]; [|auto].
    cbn [result]. now apply evalPrereqNode_monotone. }
  split; [exact H|]. unfold getMissingPrereqSummary. now rewrite H.
Qed.

Lemma prereqs_stay_met_witness :
  met (result (checkPrereqsMet PrereqFacts.noAliases [] ["A"; "C"; "D"]
                 (fun c => if String.eqb c "X" then Some PrereqFacts.scenario6 else None)
                 "X")) = true
  /\ getMissingPrereqSummary PrereqFacts.noAliases [] ["A"; "C"; "D"]
       (fun c => if String.eqb c "X" then Some PrereqFacts.scenario6 else None) "X"
     = None.
Proof.
  apply (prereqs_stay_met PrereqFacts.noAliases [] [] ["A"; "C"] ["A"; "C"; "D"]).
  - intros c H. apply has_In in H. apply has_In.
    destruct H as [<- | [<- | []]]; simpl; auto.
  - intros e H. exact H.
  - vm_compute. reflexivity.
Defined.

(** X11.  A summary of missing prerequisites is produced exactly when the
    prerequisites are not met, and every string it lists is a
    high-school marker or the code of a course leaf of the tree that is
    not in the taken set, neither as written nor in canonical form. *)
Theorem missing_summary_untaken
    (aliases : CourseAliases) (userExams : list UserExam) (takenSet : CodeSet)
    (requirementTree : string -> option Node) (courseCode : string) :
  match getMissingPrereqSummary aliases userExams takenSet requirementTree
                                courseCode with
  | None =>
      met (result (checkPrereqsMet aliases userExams takenSet requirementTree
                                   courseCode)) = true
  | Some s =>
      met (result (checkPrereqsMet aliases userExams takenSet requirementTree
                                   courseCode)) = false
      /\ exists t,
           getCoursePrereqs aliases requirementTree courseCode = Some t
           /\ prereqTree s = Some t
           /\ Forall (fun x => In x hsMarkers
                               \/ (In x (courseLeaves t)
                                   /\ has takenSet x = false
                                   /\ has takenSet (canonicalizeCode aliases x) = false))
                     (summaryStrings (missing s))
  end.
Proof.
  unfold getMissingPrereqSummary, checkPrereqsMet.
  destruct (getCoursePrereqs aliases requirementTree courseCode) as [t|];
    [|reflexivity].
  cbn [result tree].
  destruct (met (evalPrereqNode aliases userExams takenSet t)) eqn:Hmet;
    [reflexivity|].
  split; [reflexivity|]. exists t. split; [reflexivity|]. split; [reflexivity|].
  cbn [missing]. rewrite summaryStrings_flattenOptions. apply Forall_forall.
  intros x Hx. apply (unmet_reportable aliases userExams takenSet t Hmet). now left.
Qed.

End SummaryFacts.

(** ** GE summary *)

Lemma Obj_hasKey_set {V} (o : Obj.t V) (k : string) (v : V) (k' : string) :
  Obj.hasKey (Obj.set o k v) k' = Obj.hasKey o k' || String.eqb k' k.
Proof.
  unfold Obj.hasKey. rewrite Obj_get_set.
  destruct (String.eqb k' k); [now rewrite orb_true_r | now rewrite orb_false_r].
Qed.

Module GESummaryFacts.
Import GE GESummary.

Section Facts.

Variable bucketMap : Obj.t CodeSet.
Variable examUnits : Obj.t Q.
Variable coursesIndex : string -> option Q.
Variable pattern : string.
Variable logic : Node.

Local Abbreviation build := (buildPerArea bucketMap examUnits coursesIndex pattern logic).

(** Every row counts the courses allocated under its own key. *)
Definition counted (al : Obj.t (list string)) (pa : Obj.t AreaStatus) : Prop :=
  forall k s, Obj.get pa k = Some s ->
              have s = List.length (getList al k)
              /\ units s = unitsOf examUnits coursesIndex (getList al k).

Lemma counted_set (al : Obj.t (list string)) (pa : Obj.t AreaStatus) (k : string)
    (row : AreaStatus) :
  counted al pa ->
  have row = List.length (getList al k) ->
  units row = unitsOf examUnits coursesIndex (getList al k) ->
  counted al (Obj.set pa k row).
Proof.
  intros Hpa Hh Hu k' s. rewrite Obj_get_set.
  destruct (String.eqb k' k) eqn:E; [|apply Hpa].
  apply String.eqb_eq in E. subst k'. intros H. injection H as <-. auto.
Qed.

Lemma fold_set_keys {A} (key : A -> string) (row : A -> AreaStatus) (l : list A) :
  forall pa k,
    Obj.hasKey (fold_left (fun pa e => Obj.set pa (key e) (row e)) l pa) k = true
    <-> Obj.hasKey pa k = true \/ In k (map key l).
Proof.
  induction l as [|e l IH]; intros pa k; cbn [fold_left map In]; [tauto|].
  rewrite IH, Obj_hasKey_set, orb_true_iff, String.eqb_eq.
  split; [intros [[H | H] | H] | intros [H | [H | H]]]; auto.
Qed.

Lemma fold_other_keys (al : Obj.t (list string)) (l : list string) :
  forall pa k,
    Obj.hasKey (fold_left (fun pa a => if Obj.hasKey pa a then pa
                                       else Obj.set pa a (otherRow examUnits coursesIndex al a))
                          l pa) k = true
    <-> Obj.hasKey pa k = true \/ In k l.
Proof.
  induction l as [|e l IH]; intros pa k; cbn [fold_left In]; [tauto|].
  rewrite IH. destruct (Obj.hasKey pa e) eqn:E.
  - split; [intros [H | H]; auto | intros [H | [<- | H]]; auto].
  - rewrite Obj_hasKey_set, orb_true_iff, String.eqb_eq.
    split; [intros [[H | H] | H] | intros [H | [H | H]]]; auto.
Qed.

Lemma build_counted (al orGroups : Obj.t (list string)) : counted al (build al orGroups).
Proof.
  unfold buildPerArea.
  apply fold_left_inv.
  { intros pa a _ Hpa. destruct (Obj.hasKey pa a); [exact Hpa|].
    now apply counted_set. }
  apply fold_left_inv.
  { intros pa e _ Hpa. now apply counted_set. }
  apply fold_left_inv.
  { intros pa a _ Hpa. now apply counted_set. }
  intros k s H. discriminate.
Qed.

Lemma build_keys (al orGroups : Obj.t (list string)) (k : string) :
  Obj.hasKey (build al orGroups) k = true
  <-> In k (Obj.keys bucketMap) \/ In k (Obj.keys orGroups) \/ In k (Obj.keys al).
Proof.
  unfold buildPerArea. rewrite fold_other_keys.
  rewrite (fold_set_keys fst (fun e => groupRow examUnits coursesIndex logic al (fst e) (snd e))).
  rewrite (fold_set_keys (fun a => a)
             (fun a => bucketRow examUnits coursesIndex pattern logic al a)).
  rewrite map_id. unfold Obj.keys at 2. cbn [Obj.hasKey Obj.get].
  split; [intros [[[H | H] | H] | H] | intros [H | [H | H]]]; auto. discriminate.
Qed.

Lemma listAreaLeaves_NoDup (node : Node) : NoDup (listAreaLeaves node).
Proof.
  assert (Hu : forall l, NoDup (uniq l)) by (intros l; apply dedupe_NoDup).
  destruct node; cbn [listAreaLeaves pushLeaves]; try apply Hu.
  - destruct (Str.nonEmpty (area a)); [repeat constructor; auto | apply Hu].
  - destruct (Str.nonEmpty (area a)); [repeat constructor; auto | apply Hu].
  - repeat constructor. auto.
Qed.

Lemma percentOf_bounds (pa : Obj.t AreaStatus) :
  (0 <= percentOf logic pa <= 100)%Z.
Proof.
  unfold percentOf.
  pose proof (filter_length_le (leafDone pa) (listAreaLeaves logic)) as Hle.
  destruct (listAreaLeaves logic) as [|x l] eqn:E; [lia|]. rewrite <- E in *.
  assert (Hpos : (0 < List.length (listAreaLeaves logic))%nat) by (rewrite E; cbn; lia).
  set (d := List.length (filter (leafDone pa) (listAreaLeaves logic))) in *.
  set (t := List.length (listAreaLeaves logic)) in *.
  assert (Ht : 0 < inject_Z (Z.of_nat t)).
  { change 0 with (inject_Z 0). rewrite <- Zlt_Qlt. lia. }
  apply roundQ_percent.
  - apply Qle_shift_div_l; [exact Ht|]. rewrite Qmult_0_l.
    change 0 with (inject_Z 0). rewrite <- Zle_Qle. lia.
  - apply Qle_shift_div_r; [exact Ht|].
    change 100 with (inject_Z 100). rewrite <- inject_Z_mult, <- Zle_Qle. lia.
Qed.

Lemma percentOf_all_done (pa : Obj.t AreaStatus) :
  listAreaLeaves logic <> [] ->
  forallb (leafDone pa) (listAreaLeaves logic) = true ->
  percentOf logic pa = 100%Z.
Proof.
  intros Hne Hall. unfold percentOf.
  assert (Hf : filter (leafDone pa) (listAreaLeaves logic) = listAreaLeaves logic).
  { rewrite forallb_forall in Hall. clear Hne.
    induction (listAreaLeaves logic) as [|x l IH]; cbn; [reflexivity|].
    rewrite (Hall x (or_introl eq_refl)). f_equal. apply IH.
    intros y Hy. apply Hall. now right. }
  rewrite Hf. destruct (listAreaLeaves logic) as [|x l] eqn:E; [contradiction|].
  set (t := List.length (x :: l)).
  assert (Ht : 0 < inject_Z (Z.of_nat t)).
  { change 0 with (inject_Z 0). rewrite <- Zlt_Qlt. subst t. cbn [List.length]. lia. }
  unfold roundQ.
  assert (Hx : inject_Z (100 * Z.of_nat t) / inject_Z (Z.of_nat t) + (1 # 2) == 201 # 2).
  { rewrite inject_Z_mult. field. lra. }
  rewrite Hx. reflexivity.
Qed.

End Facts.

(** X12.  The per-area summary of [evaluateGE] has a row for exactly the
    buckets, the OR groups and the allocated keys, and every row counts
    what is allocated under its own key: [have] is the number of courses
    and [units] the sum of their units. *)
Theorem ge_summary_counts
    (bucketMap attrMap : Obj.t CodeSet) (examUnits : Obj.t Q)
    (examByArea : Obj.t CodeSet) (okCourses : CodeSet)
    (coursesIndex : string -> option Q) (pattern : string) (logic : Node) :
  let res := evaluateGESummary bucketMap attrMap examUnits examByArea okCourses coursesIndex
                        pattern logic in
  (forall k, Obj.hasKey (perArea res) k = true
             <-> In k (Obj.keys bucketMap) \/ In k (Obj.keys (displayGroups res))
                 \/ In k (Obj.keys (r_alloc res)))
  /\ (forall k,
         match Obj.get (perArea res) k with
         | Some s =>
             have s = List.length (getList (r_alloc res) k)
             /\ units s = Qsum (map (unitsFor examUnits coursesIndex)
                                    (getList (r_alloc res) k))
         | None => True
         end).
Proof.
  intros res. subst res. unfold evaluateGESummary. cbn [perArea displayGroups r_alloc]. split.
  - intros k. apply build_keys.
  - intros k.
    destruct (Obj.get _ k) as [s|] eqn:E; [|exact I].
    exact (build_counted bucketMap examUnits coursesIndex pattern logic _ _ k s E).
Qed.

(** X13.  The leaves [evaluateGE] counts are pairwise distinct, its
    percentage is between 0 and 100, it is 0 when the logic has no leaf,
    and 100 when there are leaves and all of them are done. *)
Theorem ge_percent_bounds
    (bucketMap attrMap : Obj.t CodeSet) (examUnits : Obj.t Q)
    (examByArea : Obj.t CodeSet) (okCourses : CodeSet)
    (coursesIndex : string -> option Q) (pattern : string) (logic : Node) :
  let res := evaluateGESummary bucketMap attrMap examUnits examByArea okCourses coursesIndex
                        pattern logic in
  NoDup (listAreaLeaves logic)
  /\ (0 <= percent res <= 100)%Z
  /\ match listAreaLeaves logic with
     | [] => percent res = 0%Z
     | leaves =>
         if forallb (leafDone (perArea res)) leaves then percent res = 100%Z
         else True
     end.
Proof.
  intros res. subst res. unfold evaluateGESummary. cbn [perArea percent].
  split; [apply listAreaLeaves_NoDup|]. split; [apply percentOf_bounds|].
  destruct (listAreaLeaves logic) as [|x l] eqn:E.
  - unfold percentOf. now rewrite E.
  - rewrite <- E. destruct (forallb _ _) eqn:Hall; [|exact I].
    apply percentOf_all_done; [rewrite E; discriminate | exact Hall].
Qed.

End GESummaryFacts.

(** ** Code normalisation *)

Module StrFacts.
Import Str.

Lemma ascii_cases (P : ascii -> Prop) :
  (forall n, (n < 256)%nat -> P (ascii_of_nat n)) -> forall c, P c.
Proof.
  intros H c. rewrite <- (ascii_nat_embedding c). apply H. apply nat_ascii_bounded.
Qed.

Lemma forall_below (P : nat -> bool) (k : nat) :
  forallb P (seq 0 k) = true -> forall n, (n < k)%nat -> P n = true.
Proof.
  intros H n Hn. rewrite forallb_forall in H. apply H. apply in_seq. lia.
Qed.

(** A character that upper-casing and dash replacement leave alone. *)
Definition plain (c : ascii) : bool :=
  Ascii.eqb (upperChar c) c && Ascii.eqb (dashToSpace c) c.

Lemma plain_blank : plain " " = true.
Proof. reflexivity. Qed.

Lemma upper_dash_plain (c : ascii) : plain (dashToSpace (upperChar c)) = true.
Proof.
  revert c. apply ascii_cases.
  apply (forall_below (fun n => plain (dashToSpace (upperChar (ascii_of_nat n))))).
  vm_compute. reflexivity.
Qed.

Lemma upper_isSpace (c : ascii) : isSpace (upperChar c) = isSpace c.
Proof.
  revert c. apply ascii_cases. intros n Hn. apply Bool.eqb_prop. revert n Hn.
  apply (forall_below
           (fun n => Bool.eqb (isSpace (upperChar (ascii_of_nat n)))
                              (isSpace (ascii_of_nat n)))).
  vm_compute. reflexivity.
Qed.

Fixpoint allChars (p : ascii -> bool) (s : string) : bool :=
  match s with
  | EmptyString => true
  | String c s' => p c && allChars p s'
  end.

Lemma mapChars_id (f : ascii -> ascii) (p : ascii -> bool) (s : string) :
  (forall c, p c = true -> f c = c) -> allChars p s = true -> mapChars f s = s.
Proof.
  intros Hf. induction s as [|c s IH]; cbn; [reflexivity|].
  intros H. apply andb_true_iff in H. destruct H as [Hc Hs].
  now rewrite (Hf c Hc), IH.
Qed.

Lemma allChars_mapChars (f : ascii -> ascii) (p : ascii -> bool) (s : string) :
  (forall c, p (f c) = true) -> allChars p (mapChars f s) = true.
Proof. intros Hf. induction s as [|c s IH]; cbn; [reflexivity | now rewrite Hf, IH]. Qed.

Lemma allChars_collapse (p : ascii -> bool) (s : string) :
  p " "%char = true -> allChars p s = true -> allChars p (collapseSpaces s) = true.
Proof.
  intros Hb. induction s as [|c s IH]; [reflexivity|].
  cbn [allChars]. intros H. apply andb_true_iff in H. destruct H as [Hc Hs].
  cbn [collapseSpaces]. destruct (isSpace c).
  - destruct s as [|c' s']; [cbn; now rewrite Hb|].
    destruct (isSpace c'); [now apply IH|]. cbn [allChars]. rewrite Hb. now apply IH.
  - cbn [allChars]. rewrite Hc. now apply IH.
Qed.

Lemma allChars_dropSpaces (p : ascii -> bool) (s : string) :
  allChars p s = true -> allChars p (dropSpaces s) = true.
Proof.
  induction s as [|c s IH]; [reflexivity|]. cbn [dropSpaces].
  destruct (isSpace c); [|auto]. cbn [allChars]. intros H.
  apply andb_true_iff in H. now apply IH.
Qed.

Lemma allChars_dropTrailing (p : ascii -> bool) (s : string) :
  allChars p s = true -> allChars p (dropTrailingSpaces s) = true.
Proof.
  induction s as [|c s IH]; [reflexivity|]. cbn [dropTrailingSpaces].
  destruct (allSpaces (String c s)); [reflexivity|]. cbn [allChars]. intros H.
  apply andb_true_iff in H. destruct H as [Hc Hs]. now rewrite Hc, IH.
Qed.

Lemma allChars_trim (p : ascii -> bool) (s : string) :
  allChars p s = true -> allChars p (trim s) = true.
Proof. intros H. unfold trim. now apply allChars_dropTrailing, allChars_dropSpaces. Qed.

(** Every white-space character is a blank that no white space follows. *)
Fixpoint singleSpaced (s : string) : bool :=
  match s with
  | EmptyString => true
  | String c s' =>
      (if isSpace c
       then Ascii.eqb c " " && match s' with
                               | String c' _ => negb (isSpace c')
                               | EmptyString => true
                               end
       else true)
      && singleSpaced s'
  end.

Lemma collapse_head (s : string) :
  match collapseSpaces s, s with
  | String c _, String c0 _ => isSpace c = isSpace c0
  | EmptyString, EmptyString => True
  | _, _ => False
  end.
Proof.
  induction s as [|c s IH]; [exact I|]. cbn [collapseSpaces].
  destruct (isSpace c) eqn:E; [|cbv beta iota; rewrite ?E; reflexivity].
  destruct s as [|c' s']; [cbv beta iota; rewrite ?E; reflexivity|].
  destruct (isSpace c') eqn:E'; [|cbv beta iota; rewrite ?E; reflexivity].
  destruct (collapseSpaces (String c' s')) as [|d t]; [contradiction|].
  cbv beta iota. congruence.
Qed.

Lemma singleSpaced_collapse (s : string) : singleSpaced (collapseSpaces s) = true.
Proof.
  induction s as [|c s IH]; [reflexivity|]. cbn [collapseSpaces].
  destruct (isSpace c) eqn:E.
  - destruct s as [|c' s']; [reflexivity|].
    destruct (isSpace c') eqn:E'; [exact IH|].
    cbn [singleSpaced]. rewrite IH.
    pose proof (collapse_head (String c' s')) as Hh.
    destruct (collapseSpaces (String c' s')) as [|d t]; [contradiction|].
    cbn. rewrite Hh, E'. reflexivity.
  - cbn [singleSpaced]. now rewrite E, IH.
Qed.

Lemma collapse_singleSpaced (s : string) :
  singleSpaced s = true -> collapseSpaces s = s.
Proof.
  induction s as [|c s IH]; [reflexivity|]. cbn [singleSpaced collapseSpaces].
  intros H. apply andb_true_iff in H. destruct H as [Hc Hs].
  destruct (isSpace c); [|now rewrite IH].
  apply andb_true_iff in Hc. destruct Hc as [Hc Hn]. apply Ascii.eqb_eq in Hc. subst c.
  destruct s as [|c' s']; [reflexivity|].
  apply negb_true_iff in Hn. rewrite Hn. now rewrite IH.
Qed.

Lemma singleSpaced_dropSpaces (s : string) :
  singleSpaced s = true -> singleSpaced (dropSpaces s) = true.
Proof.
  induction s as [|c s IH]; [reflexivity|]. cbn [dropSpaces].
  destruct (isSpace c); [|auto]. cbn [singleSpaced]. intros H.
  apply andb_true_iff in H. now apply IH.
Qed.

Lemma dropTrailing_head (s : string) :
  match dropTrailingSpaces s with
  | String d _ => exists t, s = String d t
  | EmptyString => True
  end.
Proof.
  destruct s as [|d t]; [exact I|]. cbn [dropTrailingSpaces].
  destruct (allSpaces (String d t)); [exact I | eauto].
Qed.

Lemma singleSpaced_dropTrailing (s : string) :
  singleSpaced s = true -> singleSpaced (dropTrailingSpaces s) = true.
Proof.
  induction s as [|c s IH]; [reflexivity|]. cbn [dropTrailingSpaces].
  destruct (allSpaces (String c s)); [reflexivity|].
  cbn [singleSpaced]. intros H. apply andb_true_iff in H. destruct H as [Hc Hs].
  rewrite (IH Hs), andb_true_r.
  destruct (isSpace c); [|reflexivity].
  apply andb_true_iff in Hc. destruct Hc as [Hc Hn]. rewrite Hc. cbn [andb].
  pose proof (dropTrailing_head s) as Hh.
  destruct (dropTrailingSpaces s) as [|d t]; [reflexivity|].
  destruct Hh as [t' ->]. exact Hn.
Qed.

Lemma allSpaces_dropTrailing (s : string) :
  allSpaces (dropTrailingSpaces s) = true -> allSpaces s = true.
Proof.
  induction s as [|c s IH]; [reflexivity|]. cbn [dropTrailingSpaces].
  destruct (allSpaces (String c s)) eqn:E; [reflexivity|].
  cbn [allSpaces] in *. intros H. apply andb_true_iff in H. destruct H as [Hc Hs].
  rewrite Hc, (IH Hs) in E. discriminate.
Qed.

Lemma dropTrailing_idem (s : string) :
  dropTrailingSpaces (dropTrailingSpaces s) = dropTrailingSpaces s.
Proof.
  induction s as [|c s IH]; [reflexivity|]. cbn [dropTrailingSpaces].
  destruct (allSpaces (String c s)) eqn:E; [reflexivity|].
  cbn [dropTrailingSpaces].
  destruct (allSpaces (String c (dropTrailingSpaces s))) eqn:E'.
  - cbn [allSpaces] in E, E'. apply andb_true_iff in E'. destruct E' as [Hc Hs].
    rewrite Hc, (allSpaces_dropTrailing s Hs) in E. discriminate.
  - now rewrite IH.
Qed.

Lemma dropSpaces_head (s : string) :
  match dropSpaces s with
  | String c _ => isSpace c = false
  | EmptyString => True
  end.
Proof.
  induction s as [|c s IH]; [exact I|]. cbn [dropSpaces].
  destruct (isSpace c) eqn:E; [exact IH | exact E].
Qed.

Lemma trim_idem (s : string) : trim (trim s) = trim s.
Proof.
  unfold trim. pose proof (dropSpaces_head s) as Hh.
  destruct (dropSpaces s) as [|c t] eqn:E; [reflexivity|].
  assert (Hd : dropSpaces (dropTrailingSpaces (String c t))
               = dropTrailingSpaces (String c t)).
  { cbn [dropTrailingSpaces]. destruct (allSpaces (String c t)); [reflexivity|].
    cbn [dropSpaces]. now rewrite Hh. }
  rewrite Hd. apply dropTrailing_idem.
Qed.

Lemma singleSpaced_trim (s : string) :
  singleSpaced s = true -> singleSpaced (trim s) = true.
Proof. intros H. unfold trim. now apply singleSpaced_dropTrailing, singleSpaced_dropSpaces. Qed.

Lemma mapChars_mapChars (f g : ascii -> ascii) (s : string) :
  mapChars f (mapChars g s) = mapChars (fun c => f (g c)) s.
Proof. induction s as [|c s IH]; cbn; [reflexivity | now rewrite IH]. Qed.

(** Upper-casing goes through the white-space operations. *)
Lemma upper_collapse (s : string) :
  toUpperCase (collapseSpaces s) = collapseSpaces (toUpperCase s).
Proof.
  unfold toUpperCase. induction s as [|c s IH]; [reflexivity|].
  cbn [collapseSpaces mapChars]. rewrite upper_isSpace.
  destruct (isSpace c) eqn:E.
  - destruct s as [|c' s']; [reflexivity|]. cbn [mapChars]. rewrite upper_isSpace.
    destruct (isSpace c'); [exact IH|]. cbn [mapChars].
    change (upperChar " ") with " "%char. f_equal. exact IH.
  - cbn [mapChars]. f_equal. exact IH.
Qed.

Lemma upper_allSpaces (s : string) : allSpaces (toUpperCase s) = allSpaces s.
Proof.
  unfold toUpperCase. induction s as [|c s IH]; [reflexivity|].
  cbn [mapChars allSpaces]. now rewrite upper_isSpace, IH.
Qed.

Lemma upper_dropSpaces (s : string) :
  toUpperCase (dropSpaces s) = dropSpaces (toUpperCase s).
Proof.
  unfold toUpperCase. induction s as [|c s IH]; [reflexivity|].
  cbn [dropSpaces mapChars]. rewrite upper_isSpace.
  destruct (isSpace c); [exact IH | reflexivity].
Qed.

Lemma upper_dropTrailing (s : string) :
  toUpperCase (dropTrailingSpaces s) = dropTrailingSpaces (toUpperCase s).
Proof.
  induction s as [|c s IH]; [reflexivity|].
  cbn [dropTrailingSpaces].
  change (toUpperCase (String c s)) with (String (upperChar c) (toUpperCase s)).
  cbn [dropTrailingSpaces].
  change (String (upperChar c) (toUpperCase s)) with (toUpperCase (String c s)).
  rewrite upper_allSpaces. destruct (allSpaces (String c s)); [reflexivity|].
  change (toUpperCase (String c (dropTrailingSpaces s)))
    with (String (upperChar c) (toUpperCase (dropTrailingSpaces s))).
  now rewrite IH.
Qed.

Lemma upper_trim (s : string) : toUpperCase (trim s) = trim (toUpperCase s).
Proof. unfold trim. now rewrite upper_dropTrailing, upper_dropSpaces. Qed.

End StrFacts.

Module CodeFacts.
Import Str StrFacts.

Lemma normalizeCode_shape (raw : string) :
  allChars plain (normalizeCode raw) = true
  /\ singleSpaced (normalizeCode raw) = true.
Proof.
  unfold normalizeCode, toUpperCase. rewrite mapChars_mapChars. split.
  - apply allChars_trim, allChars_collapse; [reflexivity|].
    apply allChars_mapChars. apply upper_dash_plain.
  - apply singleSpaced_trim, singleSpaced_collapse.
Qed.

Lemma plain_fixed (c : ascii) :
  plain c = true -> upperChar c = c /\ dashToSpace c = c.
Proof.
  unfold plain. intros H. apply andb_true_iff in H. destruct H as [H1 H2].
  split; now apply Ascii.eqb_eq.
Qed.

(** X14.  [normalizeCode] is idempotent, so [canonicalizeCode] gives the
    same code for a raw code and for its normal form. *)
Theorem normalizeCode_idempotent (aliases : CourseAliases) (raw : string) :
  normalizeCode (normalizeCode raw) = normalizeCode raw
  /\ canonicalizeCode aliases (normalizeCode raw) = canonicalizeCode aliases raw.
Proof.
  assert (H : normalizeCode (normalizeCode raw) = normalizeCode raw).
  { destruct (normalizeCode_shape raw) as [Hp Hs].
    unfold normalizeCode at 1. unfold toUpperCase.
    rewrite (mapChars_id upperChar plain), (mapChars_id dashToSpace plain);
      try exact Hp; try (intros c Hc; now apply plain_fixed).
    rewrite (collapse_singleSpaced _ Hs). unfold normalizeCode. apply trim_idem. }
  split; [exact H|]. unfold canonicalizeCode. now rewrite H.
Qed.

Lemma upper_upper (c : ascii) : upperChar (upperChar c) = upperChar c.
Proof.
  revert c. apply ascii_cases. intros n Hn. apply Ascii.eqb_eq. revert n Hn.
  apply (forall_below
           (fun n => Ascii.eqb (upperChar (upperChar (ascii_of_nat n)))
                               (upperChar (ascii_of_nat n)))).
  vm_compute. reflexivity.
Qed.

Lemma upper_dash (c : ascii) : upperChar (dashToSpace c) = dashToSpace (upperChar c).
Proof.
  revert c. apply ascii_cases. intros n Hn. apply Ascii.eqb_eq. revert n Hn.
  apply (forall_below
           (fun n => Ascii.eqb (upperChar (dashToSpace (ascii_of_nat n)))
                               (dashToSpace (upperChar (ascii_of_nat n))))).
  vm_compute. reflexivity.
Qed.

Lemma norm_inside (s : string) : norm s = trim (collapseSpaces (toUpperCase s)).
Proof. unfold norm. now rewrite upper_trim, upper_collapse. Qed.

Lemma mapChars_ext (f g : ascii -> ascii) (s : string) :
  (forall c, f c = g c) -> mapChars f s = mapChars g s.
Proof. intros H. induction s as [|c s IH]; cbn; [reflexivity | now rewrite H, IH]. Qed.

(** X15.  [norm] is idempotent on every string; [normalizeCode] is [norm]
    after the dashes have been replaced by blanks, so the two agree on a
    code without a dash. *)
Theorem norm_normalizeCode (s : string) :
  norm (norm s) = norm s
  /\ normalizeCode s = norm (mapChars dashToSpace s)
  /\ (allChars (fun c => Ascii.eqb (dashToSpace c) c) s = true ->
      norm s = normalizeCode s).
Proof.
  assert (Hgen : normalizeCode s = norm (mapChars dashToSpace s)).
  { rewrite norm_inside. unfold normalizeCode, toUpperCase.
    rewrite !mapChars_mapChars. do 2 f_equal. apply mapChars_ext.
    intros c. symmetry. apply upper_dash. }
  split; [|split; [exact Hgen|]].
  - rewrite (norm_inside (norm s)), (norm_inside s).
    rewrite upper_trim, upper_collapse. unfold toUpperCase at 1.
    unfold toUpperCase. rewrite mapChars_mapChars.
    rewrite (mapChars_ext _ upperChar s upper_upper).
    rewrite (collapse_singleSpaced (trim _));
      [apply trim_idem | apply singleSpaced_trim, singleSpaced_collapse].
  - intros Hdash. rewrite Hgen. f_equal. symmetry.
    apply (mapChars_id dashToSpace (fun c => Ascii.eqb (dashToSpace c) c));
      [intros c Hc; now apply Ascii.eqb_eq | exact Hdash].
Qed.

(** A dash is kept by [norm] and becomes a blank in [normalizeCode]. *)
Example norm_keeps_dash :
  norm " math   1-a " = "MATH 1-A" /\ normalizeCode " math   1-a " = "MATH 1 A".
Proof. split; reflexivity. Qed.

End CodeFacts.

(** ** [uniq] *)

Module UniqFacts.
Import GE GESummary.

Lemma dedupe_fixed (l : list string) :
  forall seen, NoDup l -> (forall x, In x l -> ~ In x seen) -> dedupe l seen = l.
Proof.
  induction l as [|y l IH]; intros seen Hnd Hout; cbn; [reflexivity|].
  inversion Hnd as [|? ? Hy Hl]; subst.
  destruct (has seen y) eqn:E.
  - apply has_In in E. exfalso. apply (Hout y); [now left | exact E].
  - f_equal. apply IH; [exact Hl|]. intros x Hx [<- | Hs]; [contradiction|].
    apply (Hout x); [now right | exact Hs].
Qed.

(** X16.  [uniq] returns a list without repetition that has the members
    of its argument, and it returns a list without repetition as it is. *)
Theorem uniq_spec (a : list string) :
  NoDup (uniq a)
  /\ (forall x, In x (uniq a) <-> In x a)
  /\ (NoDup a -> uniq a = a).
Proof.
  unfold uniq. split; [apply dedupe_NoDup|]. split.
  - intros x. split; [apply dedupe_In | intros H; apply dedupe_complete; auto].
  - intros H. apply dedupe_fixed; auto.
Qed.

End UniqFacts.

(** ** Terms and transcript *)

Lemma fold_add_In (l : list string) :
  forall s x, In x (fold_left add l s) <-> In x s \/ In x l.
Proof.
  induction l as [|y l IH]; intros s x; cbn [fold_left In]; [tauto|].
  rewrite IH, <- !has_In, has_add, orb_true_iff, String.eqb_eq, !has_In.
  split; [intros [[H | H] | H] | intros [H | [H | H]]]; auto.
Qed.

Module TranscriptFacts.
Import Transcript.

(** Chronological order: by year, then by the position of the season in
    [TERM_ORDER] (-1 for a season that is not listed). *)
Definition chronLe (a b : Term) : Prop :=
  (year a < year b)%Z
  \/ (year a = year b
      /\ (indexOf TERM_ORDER (season a) <= indexOf TERM_ORDER (season b))%Z).

Lemma compareTerms_neg (a b : Term) :
  (compareTerms a b <? 0)%Z = false <-> chronLe b a.
Proof.
  unfold compareTerms, chronLe. rewrite Z.ltb_ge.
  destruct (year a =? year b)%Z eqn:E; cbn [negb].
  - apply Z.eqb_eq in E. lia.
  - apply Z.eqb_neq in E. lia.
Qed.

(** X17.  [compareTerms] is antisymmetric, and [addTerm] leaves the terms,
    the new one included, in chronological order: by year, and within a
    year Winter, Spring, Summer, Fall. *)
Theorem addTerm_chronological (s : string) (y : Z) (terms : list Term) :
  let added := {| season := s; year := y;
                  items := [{| ti_code := ""; ti_grade := "IP" |}] |} in
  (forall a b, compareTerms a b = (- compareTerms b a)%Z)
  /\ Permutation (terms ++ [added]) (addTerm s y terms)
  /\ StronglySorted chronLe (addTerm s y terms).
Proof.
  intros added. split; [|split].
  - intros a b. unfold compareTerms. rewrite (Z.eqb_sym (year b)).
    destruct (year a =? year b)%Z; cbn [negb]; lia.
  - apply sortBy_perm.
  - unfold addTerm. fold added.
    eapply StronglySorted_weaken;
      [|apply (sortBy_sorted (fun a b => (compareTerms a b <? 0)%Z))].
    + intros a b H. unfold notAfter in H. now apply compareTerms_neg in H.
    + intros a b H. apply Z.ltb_lt in H. apply Z.ltb_ge.
      unfold compareTerms in *. rewrite (Z.eqb_sym (year b)).
      destruct (year a =? year b)%Z; cbn [negb] in *; lia.
    + unfold notAfter. intros a b c0 H1 H2.
      apply compareTerms_neg in H1, H2. apply compareTerms_neg.
      unfold chronLe in *. lia.
Qed.

Section Facts.

Variable aliases : CourseAliases.
Variable coursesIndex : string -> option Q.
Variable examData : string -> list ExamRow.

(** *** Grade point average *)

Lemma gradePoints_range (g : string) (gp : Q) :
  GRADE_POINTS g = Some (Some gp) -> 0 <= gp /\ gp <= 4.
Proof.
  unfold GRADE_POINTS.
  repeat match goal with
         | |- context [if ?b then _ else _] => destruct b
         end; intros H; try discriminate; injection H as <-; split; lra.
Qed.

Lemma gradeTotals_bounds (rows : list Row) :
  Forall (fun r => 0 <= units r) rows ->
  let t := gradeTotals rows in
  0 <= fst t /\ fst t <= 4 * snd t.
Proof.
  intros Hu. unfold gradeTotals.
  apply (fold_left_inv (fun acc : Q * Q => 0 <= fst acc /\ fst acc <= 4 * snd acc));
    [|cbn; split; lra].
  intros [pts u] r Hr [H0 H4]. rewrite Forall_forall in Hu. specialize (Hu r Hr).
  destruct (GRADE_POINTS (grade r)) as [[gp|]|] eqn:E; [|auto..].
  apply gradePoints_range in E. destruct E as [G0 G4]. cbn [fst snd] in *.
  split; [|nra].
  assert (0 <= gp * units r) by (apply Qmult_le_0_compat; assumption). lra.
Qed.

Lemma rowsOf_units (terms : list Term) :
  (forall c m, coursesIndex c = Some m -> 0 <= m) ->
  Forall (fun r => 0 <= units r) (rowsOf aliases coursesIndex terms).
Proof.
  intros Hcat. apply Forall_forall. intros r Hr. unfold rowsOf in Hr.
  apply in_flat_map in Hr. destruct Hr as [t [_ Hr]].
  apply in_flat_map in Hr. destruct Hr as [it [_ Hr]].
  destruct (Str.nonEmpty (ti_code it)); [|destruct Hr].
  destruct Hr as [<- | []]. cbn [rowOf units].
  destruct (coursesIndex _) as [m|] eqn:E; [eapply Hcat; eauto | lra].
Qed.

(** *** The taken set *)

Lemma passing_completed (g : string) :
  has PASSING_GE g = true -> existsb (String.eqb g) ["IP"; "PL"; "W"] = false.
Proof.
  intros H. apply has_In in H.
  destruct H as [<- | [<- | [<- | [<- | []]]]]; reflexivity.
Qed.

Lemma rowsOf_In (terms : list Term) (r : Row) :
  In r (rowsOf aliases coursesIndex terms)
  <-> exists t it, In t terms /\ In it (items t)
                   /\ Str.nonEmpty (ti_code it) = true
                   /\ r = rowOf aliases coursesIndex it.
Proof.
  unfold rowsOf. rewrite in_flat_map. split.
  - intros [t [Ht Hr]]. apply in_flat_map in Hr. destruct Hr as [it [Hit Hr]].
    destruct (Str.nonEmpty (ti_code it)) eqn:E; [|destruct Hr].
    destruct Hr as [<- | []]. exists t, it. auto.
  - intros [t [it [Ht [Hit [Hne ->]]]]]. exists t. split; [exact Ht|].
    apply in_flat_map. exists it. split; [exact Hit|]. rewrite Hne. now left.
Qed.

Lemma takenCodesRaw_In (terms : list Term) (countPlanned : bool) (c : string) :
  In c (takenCodesRaw (computeTranscript aliases coursesIndex terms) countPlanned)
  <-> exists t it,
        In t terms /\ In it (items t) /\ Str.nonEmpty (ti_code it) = true
        /\ (has PASSING_GE (ti_grade it) = true
            \/ (countPlanned = true /\ (ti_grade it = "IP" \/ ti_grade it = "PL")))
        /\ c = canonicalizeCode aliases (ti_code it).
Proof.
  unfold takenCodesRaw, computeTranscript.
  destruct (gradeTotals _) as [pts u]. cbn [completed ip pl].
  rewrite in_app_iff, in_map_iff. split.
  - intros [[r [<- Hr]] | Hp].
    + apply filter_In in Hr. destruct Hr as [Hr Hpass].
      apply filter_In in Hr. destruct Hr as [Hr _].
      apply rowsOf_In in Hr. destruct Hr as [t [it [Ht [Hit [Hne ->]]]]].
      exists t, it. repeat split; auto.
    + destruct countPlanned; [|destruct Hp].
      apply in_app_iff in Hp.
      destruct Hp as [Hp | Hp]; apply in_map_iff in Hp; destruct Hp as [r [<- Hr]];
        apply filter_In in Hr; destruct Hr as [Hr Hg];
        apply rowsOf_In in Hr; destruct Hr as [t [it [Ht [Hit [Hne ->]]]]];
        apply String.eqb_eq in Hg; cbn [rowOf grade] in Hg;
        exists t, it; repeat split; auto.
  - intros [t [it [Ht [Hit [Hne [Hg ->]]]]]].
    assert (Hrow : In (rowOf aliases coursesIndex it) (rowsOf aliases coursesIndex terms)).
    { apply rowsOf_In. exists t, it. auto. }
    destruct Hg as [Hg | [-> Hg]].
    + left. exists (rowOf aliases coursesIndex it). split; [reflexivity|].
      apply filter_In. split; [|exact Hg]. apply filter_In. split; [exact Hrow|].
      cbn [rowOf grade]. now rewrite passing_completed.
    + right. apply in_app_iff.
      destruct Hg as [Hg | Hg]; [left | right]; apply in_map_iff;
        exists (rowOf aliases coursesIndex it); (split; [reflexivity|]);
        apply filter_In; (split; [exact Hrow|]); cbn [rowOf grade]; now rewrite Hg.
Qed.

(** *** Exam scores *)

Lemma meetsScore_monotone (row : ExamRow) (scheme : string) (s s' : Q) :
  s <= s' -> meetsScore row scheme s = true -> meetsScore row scheme s' = true.
Proof.
  intros Hle. unfold meetsScore. rewrite !andb_true_iff.
  intros [H1 H2]. split.
  - apply Qgeb_le in H1. apply Qgeb_le. lra.
  - destruct (score_cutoff row) as [cut|]; [|reflexivity].
    apply orb_true_iff in H2. apply orb_true_iff.
    destruct H2 as [H2 | H2]; [now left | right].
    apply Qgeb_le in H2. apply Qgeb_le. lra.
Qed.

End Facts.

(** X18.  When no catalog course has negative units, the grade point
    average of a transcript whose grades are those of [GRADE_OPTIONS] is
    between 0 and 4 when it is defined, and the units completed, in
    progress and planned are not negative. *)
Theorem gpa_bounds
    (aliases : CourseAliases) (coursesIndex : string -> option Q) (terms : list Term)
    (Hcatalog : forall c m, coursesIndex c = Some m -> 0 <= m)
    (Hgrades : Forall (fun t => Forall (fun it => In (ti_grade it) GRADE_OPTIONS)
                                       (items t)) terms) :
  let tr := computeTranscript aliases coursesIndex terms in
  match gpa tr with
  | Some g => 0 <= g /\ g <= 4
  | None => True
  end
  /\ 0 <= unitsCompleted tr /\ 0 <= unitsIP tr /\ 0 <= unitsPL tr.
Proof.
  intros tr. subst tr. unfold computeTranscript.
  pose proof (rowsOf_units aliases coursesIndex terms Hcatalog) as Hrows.
  set (rows := rowsOf aliases coursesIndex terms) in *.
  assert (Hfilter : forall p, Forall (fun r => 0 <= units r) (filter p rows)).
  { intros p. apply Forall_forall. intros r Hr. apply filter_In in Hr.
    rewrite Forall_forall in Hrows. now apply Hrows. }
  assert (Hsum : forall l, Forall (fun r => 0 <= units r) l -> 0 <= Qsum (map units l)).
  { intros l Hl. apply Qsum_nonneg. now apply Forall_map. }
  pose proof (gradeTotals_bounds
                (filter (fun r => negb (existsb (String.eqb (grade r)) ["IP"; "PL"; "W"]))
                        rows) (Hfilter _)) as Hb.
  cbv zeta in Hb. destruct (gradeTotals _) as [pts u]. cbn [fst snd] in Hb.
  cbn [gpa unitsCompleted unitsIP unitsPL]. split; [|split; [|split]].
  - destruct (Qltb 0 u) eqn:E; [|exact I]. apply Qltb_lt in E. split.
    + apply Qle_shift_div_l; [exact E | lra].
    + apply Qle_shift_div_r; [exact E | lra].
  - apply Hsum. apply Forall_forall. intros r Hr. apply filter_In in Hr.
    destruct Hr as [Hr _].
    pose proof (Hfilter (fun r => negb (existsb (String.eqb (grade r))
                                                ["IP"; "PL"; "W"]))) as Hf.
    rewrite Forall_forall in Hf. now apply Hf.
  - apply Hsum, Hfilter.
  - apply Hsum, Hfilter.
Qed.

Lemma gpa_bounds_witness :
  match gpa (computeTranscript PrereqFacts.noAliases
               (fun c => if String.eqb c "MATH 1" then Some 4 else Some 3)
               [{| season := "Fall"; year := 2023;
                   items := [{| ti_code := "MATH 1"; ti_grade := "A" |};
                             {| ti_code := "ENGL 2"; ti_grade := "C" |}] |}]) with
  | Some g => 0 <= g /\ g <= 4
  | None => True
  end.
Proof.
  refine (proj1 (gpa_bounds PrereqFacts.noAliases
                   (fun c => if String.eqb c "MATH 1" then Some 4 else Some 3)
                   [{| season := "Fall"; year := 2023;
                       items := [{| ti_code := "MATH 1"; ti_grade := "A" |};
                                 {| ti_code := "ENGL 2"; ti_grade := "C" |}] |}] _ _)).
  - intros c0 m. destruct (String.eqb c0 "MATH 1"); intros H; injection H as <-; lra.
  - repeat first [apply Forall_cons | apply Forall_nil]; simpl; auto 12.
Defined.

(** X19.  The taken set [evaluateProgram] builds from a transcript holds
    exactly the normalised canonical codes of the items graded A, B, C or
    P (and, when planned courses count, of those graded IP or PL), and
    the course equivalencies of the exams; an item graded D, F, NP or W
    contributes nothing. *)
Theorem taken_set_provenance
    (aliases : CourseAliases) (coursesIndex : string -> option Q)
    (examData : string -> list ExamRow) (terms : list Term)
    (countPlanned : bool) (userExams : list ScoredExam) (x : string) :
  In x (takenSetOf aliases examData (computeTranscript aliases coursesIndex terms)
                   countPlanned userExams)
  <-> (exists t it,
          In t terms /\ In it (items t) /\ Str.nonEmpty (ti_code it) = true
          /\ (In (ti_grade it) ["A"; "B"; "C"; "P"]
              \/ (countPlanned = true /\ In (ti_grade it) ["IP"; "PL"]))
          /\ x = norm (canonicalizeCode aliases
                         (canonicalizeCode aliases (ti_code it))))
      \/ In x (buildExamEquivalencyCodes aliases examData userExams).
Proof.
  unfold takenSetOf. rewrite !fold_add_In, in_map_iff. split.
  - intros [[[] | [c [<- Hc]]] | Hx]; [|now right].
    apply takenCodesRaw_In in Hc. destruct Hc as [t [it [Ht [Hit [Hne [Hg ->]]]]]].
    left. exists t, it. repeat split; auto.
    destruct Hg as [Hg | [Hp Hg]]; [left; now apply has_In in Hg|].
    right. split; [exact Hp|]. cbn. destruct Hg as [-> | ->]; auto.
  - intros [[t [it [Ht [Hit [Hne [Hg ->]]]]]] | Hx]; [|now right].
    left. right. exists (canonicalizeCode aliases (ti_code it)). split; [reflexivity|].
    apply takenCodesRaw_In. exists t, it. repeat split; auto.
    destruct Hg as [Hg | [Hp Hg]]; [left; now apply has_In|].
    right. split; [exact Hp|]. cbn in Hg. destruct Hg as [<- | [<- | []]]; auto.
Qed.

(** X20.  A higher score never loses exam credit: when the scores of
    the user's exams are raised, every code of the taken set stays in
    it. *)
Theorem exam_credit_monotone
    (aliases : CourseAliases) (examData : string -> list ExamRow)
    (transcript : TranscriptResult) (countPlanned : bool)
    (userExams userExams' : list ScoredExam) (x : string)
    (Hraised : Forall2 (fun a b => sx_program a = sx_program b
                                   /\ sx_exam a = sx_exam b
                                   /\ sx_score a <= sx_score b)
                       userExams userExams')
    (Hin : In x (takenSetOf aliases examData transcript countPlanned userExams)) :
  In x (takenSetOf aliases examData transcript countPlanned userExams').
Proof.
  unfold takenSetOf in *. rewrite fold_add_In in *.
  destruct Hin as [Hin | Hin]; [now left | right].
  unfold buildExamEquivalencyCodes, GESummary.uniq in *.
  apply dedupe_In in Hin. apply dedupe_complete; [|auto].
  apply in_flat_map in Hin. destruct Hin as [ux [Hux Hx]].
  assert (Hux' : exists ux', In ux' userExams'
                             /\ sx_program ux = sx_program ux'
                             /\ sx_exam ux = sx_exam ux'
                             /\ sx_score ux <= sx_score ux').
  { clear Hx. induction Hraised as [|a b l l' Hab _ IH]; [destruct Hux|].
    destruct Hux as [-> | Hux].
    - exists b. split; [now left | exact Hab].
    - destruct (IH Hux) as [ux' [H1 H2]]. exists ux'. split; [now right | exact H2]. }
  destruct Hux' as [ux' [Hin' [Hp [He Hs]]]].
  apply in_flat_map. exists ux'. split; [exact Hin'|].
  rewrite <- Hp, <- He.
  destruct (find _ (examData (sx_program ux))) as [row|]; [|exact Hx].
  destruct (meetsScore row "butte_local" (sx_score ux)) eqn:Hm; [|destruct Hx].
  now rewrite (meetsScore_monotone row "butte_local" _ _ Hs Hm).
Qed.

Lemma exam_credit_monotone_witness :
  In "MATH 30"
     (takenSetOf PrereqFacts.noAliases
        (fun p => if String.eqb p "AP"
                  then [{| x_exam := "Calculus AB"; min_score_butte_csu := None;
                           min_score_cal_getc := Some 4; score_cutoff := Some 3;
                           butte_course_equivalencies := ["MATH 30"] |}]
                  else [])
        (computeTranscript PrereqFacts.noAliases (fun _ => None) []) false
        [{| sx_program := "AP"; sx_exam := "Calculus AB"; sx_score := 5 |}]).
Proof.
  apply (exam_credit_monotone PrereqFacts.noAliases _ _ false
           [{| sx_program := "AP"; sx_exam := "Calculus AB"; sx_score := 3 |}]).
  - constructor; [|constructor]. cbn. repeat split. lra.
  - vm_compute. now left.
Defined.

End TranscriptFacts.

(** ** Catalog rights *)

Module RightsFacts.
Import Transcript.

(** The academic year a term belongs to: it starts in the fall. *)
Definition ayYear (t : Term) : Z :=
  if String.eqb (season t) "Fall" then year t
  else if String.eqb (season t) "Spring" || String.eqb (season t) "Summer"
       then (year t - 1)%Z
       else year t.

(** A term with a course that is not merely planned. *)
Definition active (t : Term) : bool :=
  existsb (fun i => Str.nonEmpty (ti_code i) && negb (String.eqb (ti_grade i) "PL"))
          (items t).

Definition enrolledYears (terms : list Term) : list Z :=
  map ayYear (filter active terms).

Lemma termToAY_ayYear (t : Term) : termToAY (season t) (year t) = AY_LABEL (ayYear t).
Proof.
  unfold termToAY, ayYear. destruct (String.eqb (season t) "Fall"); [reflexivity|].
  destruct (_ || _); reflexivity.
Qed.

(** A label reads back as its year. *)
Definition fourDigits (y : Z) : Prop := (1000 <= y <= 9999)%Z.

Lemma year_roundtrip (y : Z) : fourDigits y -> YEAR_FROM_LABEL (AY_LABEL y) = Some y.
Proof.
  intros [H0 H1].
  assert (Hall : forallb (fun n => let z := (1000 + Z.of_nat n)%Z in
                                   match YEAR_FROM_LABEL (AY_LABEL z) with
                                   | Some z' => (z' =? z)%Z
                                   | None => false
                                   end) (seq 0 (Z.to_nat 9000)) = true)
    by (vm_compute; reflexivity).
  rewrite forallb_forall in Hall. specialize (Hall (Z.to_nat (y - 1000))).
  cbv zeta in Hall. replace (1000 + Z.of_nat (Z.to_nat (y - 1000)))%Z with y in Hall by lia.
  destruct (YEAR_FROM_LABEL (AY_LABEL y)) as [z|].
  - f_equal. apply Z.eqb_eq. apply Hall. apply in_seq. lia.
  - discriminate Hall. apply in_seq. lia.
Qed.

Lemma AY_LABEL_inj (y y' : Z) :
  fourDigits y -> fourDigits y' -> AY_LABEL y = AY_LABEL y' -> y = y'.
Proof.
  intros H H' E. apply (f_equal YEAR_FROM_LABEL) in E.
  rewrite !year_roundtrip in E by assumption. congruence.
Qed.

Lemma labels_read_back (labels : list string) :
  Forall (fun l => exists y, fourDigits y /\ l = AY_LABEL y) labels ->
  exists ys, allSome (map YEAR_FROM_LABEL labels) = Some ys
             /\ labels = map AY_LABEL ys /\ Forall fourDigits ys.
Proof.
  induction 1 as [|l labels [y [Hy ->]] _ [ys [Hs [Hl Hf]]]].
  - exists []. repeat split; constructor.
  - exists (y :: ys). cbn [map allSome]. rewrite (year_roundtrip y Hy), Hs.
    repeat split; [cbn; congruence | now constructor].
Qed.

(** *** The loop *)

(** [y] is enrolled and so is every year from [y] to [p]. *)
Definition run (S : list Z) (p y : Z) : Prop :=
  In y S /\ forall w, (y <= w <= p)%Z -> In w S.

Lemma last_cons (y : Z) (rest : list Z) (p : Z) : last (y :: rest) p = last rest y.
Proof.
  revert y p. induction rest as [|z rest IH]; intros y p; [reflexivity|].
  change (last (y :: z :: rest) p) with (last (z :: rest) p).
  now rewrite (IH z p), (IH z y).
Qed.

Lemma In_add (s : CodeSet) (c x : string) : In x (add s c) <-> In x s \/ x = c.
Proof. rewrite <- !has_In, has_add, orb_true_iff, String.eqb_eq. tauto. Qed.

Lemma keepLoop_spec (rest : list Z) :
  forall (S : list Z) (p : Z) (keep : CodeSet),
    (forall s, In s S -> (s <= p)%Z) ->
    In p S ->
    StronglySorted Z.lt (p :: rest) ->
    (forall label, In label keep <-> exists y, label = AY_LABEL y /\ run S p y) ->
    forall label,
      In label (keepLoop (Some p) rest keep)
      <-> exists y, label = AY_LABEL y /\ run (S ++ rest) (last rest p) y.
Proof.
  induction rest as [|y rest IH]; intros S p keep Hmax Hp Hsorted Hkeep label.
  - cbn [keepLoop last]. rewrite app_nil_r. apply Hkeep.
  - cbn [keepLoop]. rewrite last_cons.
    replace (S ++ y :: rest) with ((S ++ [y]) ++ rest)
      by (now rewrite <- app_assoc).
    inversion Hsorted as [|? ? Hs Hall]; subst.
    assert (Hpy : (p < y)%Z) by (inversion Hall; assumption).
    apply IH.
    + intros s Hs'. apply in_app_iff in Hs'. destruct Hs' as [Hs' | [<- | []]]; [|lia].
      specialize (Hmax s Hs'). lia.
    + apply in_app_iff. right. now left.
    + exact Hs.
    + intros l. destruct (1 <? y - p)%Z eqn:Hgap.
      * apply Z.ltb_lt in Hgap. split.
        -- intros [<- | []]. exists y. split; [reflexivity|]. split.
           ++ apply in_app_iff. right. now left.
           ++ intros w Hw. apply in_app_iff. right. left. lia.
        -- intros [y' [-> [Hin Hrun]]]. left.
           apply in_app_iff in Hin. destruct Hin as [Hin | [<- | []]]; [|reflexivity].
           exfalso. pose proof (Hmax y' Hin) as Hy'.
           specialize (Hrun (p + 1)%Z ltac:(lia)).
           apply in_app_iff in Hrun. destruct Hrun as [Hrun | [Hrun | []]]; [|lia].
           pose proof (Hmax _ Hrun). lia.
      * apply Z.ltb_ge in Hgap. rewrite In_add, Hkeep. split.
        -- intros [[y' [-> [Hin Hrun]]] | ->].
           ++ exists y'. split; [reflexivity|]. split; [apply in_app_iff; now left|].
              intros w Hw. apply in_app_iff.
              destruct (Z_le_gt_dec w p) as [Hle | Hgt]; [left; apply Hrun; lia|].
              right. left. lia.
           ++ exists y. split; [reflexivity|]. split.
              ** apply in_app_iff. right. now left.
              ** intros w Hw. apply in_app_iff. right. left. lia.
        -- intros [y' [-> [Hin Hrun]]].
           apply in_app_iff in Hin. destruct Hin as [Hin | [<- | []]]; [|now right].
           left. exists y'. split; [reflexivity|]. split; [exact Hin|].
           intros w Hw. specialize (Hrun w ltac:(lia)).
           apply in_app_iff in Hrun. destruct Hrun as [Hrun | [Hrun | []]]; [exact Hrun | lia].
Qed.

Lemma sorted_last (p : Z) (rest : list Z) :
  StronglySorted Z.lt (p :: rest) ->
  In (last rest p) (p :: rest) /\ forall s, In s (p :: rest) -> (s <= last rest p)%Z.
Proof.
  revert p. induction rest as [|y rest IH]; intros p Hs.
  - cbn. split; [now left | intros s [<- | []]; lia].
  - rewrite last_cons. inversion Hs as [|? ? Hs' Hall]; subst.
    destruct (IH y Hs') as [Hin Hmax]. split; [now right|].
    intros s [<- | Hs'']; [|now apply Hmax].
    inversion Hall; subst. specialize (Hmax y (or_introl eq_refl)). lia.
Qed.

Lemma sortBy_Z_sorted (l : list Z) :
  NoDup l -> StronglySorted Z.lt (sortBy Z.ltb l).
Proof.
  intros Hnd.
  assert (Hle : StronglySorted Z.le (sortBy Z.ltb l)).
  { eapply StronglySorted_weaken; [|apply (sortBy_sorted Z.ltb)].
    - intros a b H. unfold notAfter in H. apply Z.ltb_ge in H. exact H.
    - intros a b H. apply Z.ltb_lt in H. apply Z.ltb_ge. lia.
    - unfold notAfter. intros a b c0 H1 H2. apply Z.ltb_ge in H1, H2.
      apply Z.ltb_ge. lia. }
  assert (Hnd' : NoDup (sortBy Z.ltb l)).
  { eapply Permutation_NoDup; [apply sortBy_perm | exact Hnd]. }
  induction Hle as [|a l' Hl IH Ha]; [constructor|].
  inversion Hnd' as [|? ? Hnotin Hnd'']; subst.
  constructor; [now apply IH|].
  rewrite Forall_forall in *. intros x Hx. specialize (Ha x Hx).
  assert (a <> x) by (intros ->; contradiction). lia.
Qed.

Lemma enrolledYears_fourDigits (terms : list Term) :
  Forall (fun t => (1001 <= year t <= 9999)%Z) terms ->
  Forall fourDigits (enrolledYears terms).
Proof.
  intros H. apply Forall_forall. intros y Hy. unfold enrolledYears in Hy.
  apply in_map_iff in Hy. destruct Hy as [t [<- Ht]]. apply filter_In in Ht.
  rewrite Forall_forall in H. specialize (H t (proj1 Ht)).
  unfold fourDigits, ayYear. destruct (String.eqb _ _); [lia|].
  destruct (_ || _); lia.
Qed.

(** X21.  For terms of the years 1001 to 9999, [computeAutoRights] keeps
    the academic years of the last unbroken run of enrolment: the label of
    an academic year is kept exactly when the student has a course that is
    not merely planned in it and in every academic year from it up to the
    latest such year. *)
Theorem auto_rights_last_run (terms : list Term)
    (Hrange : Forall (fun t => (1001 <= year t <= 9999)%Z) terms) :
  exists keep,
    computeAutoRights terms = Some keep
    /\ forall label,
         In label keep
         <-> exists y,
               label = AY_LABEL y
               /\ In y (enrolledYears terms)
               /\ forall z, In z (enrolledYears terms) -> (y <= z)%Z ->
                            forall w, (y <= w <= z)%Z -> In w (enrolledYears terms).
Proof.
  pose proof (enrolledYears_fourDigits terms Hrange) as HY.
  set (Y := enrolledYears terms) in *.
  unfold computeAutoRights.
  assert (Hays : map (fun t => termToAY (season t) (year t)) (filter active terms)
                 = map AY_LABEL Y).
  { unfold Y, enrolledYears. rewrite map_map. apply map_ext. apply termToAY_ayYear. }
  change (filter _ terms) with (filter active terms). rewrite Hays.
  set (L := sortBy String.ltb (GESummary.uniq (map AY_LABEL Y))).
  assert (HLin : forall l, In l L <-> In l (map AY_LABEL Y)).
  { intros l. unfold L. rewrite sortBy_In. unfold GESummary.uniq. split.
    - apply dedupe_In.
    - intros H. apply dedupe_complete; auto. }
  assert (HLnd : NoDup L).
  { eapply Permutation_NoDup; [apply sortBy_perm|]. apply dedupe_NoDup. }
  assert (HLform : Forall (fun l => exists y, fourDigits y /\ l = AY_LABEL y) L).
  { apply Forall_forall. intros l Hl. apply HLin in Hl. apply in_map_iff in Hl.
    destruct Hl as [y [<- Hy]]. exists y. split; [|reflexivity].
    rewrite Forall_forall in HY. now apply HY. }
  destruct (labels_read_back L HLform) as [ys [Hsome [HL Hys]]].
  assert (Hmem : forall y, In y ys <-> In y Y).
  { intros y. split.
    - intros Hy. assert (Hl : In (AY_LABEL y) L) by (rewrite HL; now apply in_map).
      apply HLin in Hl. apply in_map_iff in Hl. destruct Hl as [y' [E Hy']].
      rewrite Forall_forall in HY, Hys.
      now rewrite <- (AY_LABEL_inj y' y (HY _ Hy') (Hys _ Hy) E).
    - intros Hy. assert (Hl : In (AY_LABEL y) L) by (apply HLin; now apply in_map).
      rewrite HL in Hl. apply in_map_iff in Hl. destruct Hl as [y' [E Hy']].
      rewrite Forall_forall in HY, Hys.
      now rewrite (AY_LABEL_inj y' y (Hys _ Hy') (HY _ Hy) E) in Hy'. }
  assert (Hnd : NoDup ys).
  { rewrite HL in HLnd. now apply NoDup_map_inv in HLnd. }
  rewrite Hsome.
  pose proof (sortBy_Z_sorted ys Hnd) as Hsorted.
  assert (Hsin : forall y, In y (sortBy Z.ltb ys) <-> In y Y).
  { intros y. rewrite sortBy_In. apply Hmem. }
  destruct (sortBy Z.ltb ys) as [|p rest] eqn:Es.
  - assert (HYnil : forall y, ~ In y Y) by (intros y Hy; now apply Hsin in Hy).
    assert (HLnil : L = []).
    { destruct L as [|l L']; [reflexivity|]. exfalso.
      assert (Hl : In l (l :: L')) by now left.
      apply HLin in Hl. apply in_map_iff in Hl. destruct Hl as [y [_ Hy]].
      exact (HYnil y Hy). }
    rewrite HLnil. exists []. split; [reflexivity|]. intros label. split; [intros []|].
    intros [y [_ [Hy _]]]. exact (HYnil y Hy).
  - exists (keepLoop None (p :: rest) []). split.
    { destruct L; [|reflexivity].
      exfalso. symmetry in HL. apply map_eq_nil in HL. subst ys. discriminate Es. }
    intros label. cbn [keepLoop add has existsb].
    rewrite (keepLoop_spec rest [p] p [AY_LABEL p]); [| | | exact Hsorted |].
    + destruct (sorted_last p rest Hsorted) as [Hlast Hmax].
      cbn [app]. split.
      * intros [y [-> [Hin Hrun]]]. exists y. split; [reflexivity|].
        split; [now apply Hsin|]. intros z Hz Hyz w Hw. apply Hsin. apply Hrun.
        apply Hsin in Hz. specialize (Hmax z Hz). lia.
      * intros [y [-> [Hin Hrun]]]. exists y. split; [reflexivity|].
        split; [now apply Hsin|]. intros w Hw. apply Hsin.
        apply (Hrun (last rest p)); [now apply Hsin | lia | exact Hw].
    + intros s [<- | []]. lia.
    + now left.
    + intros l. split.
      * intros [<- | []]. exists p. split; [reflexivity|]. split; [now left|].
        intros w Hw. left. lia.
      * intros [y [-> [[<- | []] _]]]. now left.
Qed.

(** Fall 2021 and Spring 2024, with a gap in between: only 2023-2024 is
    kept. *)
Lemma auto_rights_last_run_witness :
  exists keep,
    computeAutoRights
      [{| season := "Fall"; year := 2021;
          items := [{| ti_code := "MATH 1"; ti_grade := "A" |}] |};
       {| season := "Spring"; year := 2024;
          items := [{| ti_code := "ENGL 2"; ti_grade := "IP" |}] |}]
    = Some keep
    /\ In "2023-2024" keep /\ ~ In "2021-2022" keep.
Proof.
  destruct (auto_rights_last_run
              [{| season := "Fall"; year := 2021;
                  items := [{| ti_code := "MATH 1"; ti_grade := "A" |}] |};
               {| season := "Spring"; year := 2024;
                  items := [{| ti_code := "ENGL 2"; ti_grade := "IP" |}] |}])
    as [keep [Hk _]].
  - repeat first [apply Forall_cons | apply Forall_nil]; simpl; lia.
  - exists keep. split; [exact Hk|].
    vm_compute in Hk. injection Hk as <-. split; [now left|].
    intros [H | []]. discriminate H.
Defined.

End RightsFacts.

(** ** Single allocation in the GE walk *)

Module GEOnceFacts.
Import GE WalkFacts GEFacts.

(** A logic tree without attribute requirements and without group
    minimum. *)
Fixpoint simple (n : Node) : bool :=
  match n with
  | NAnd sub mc mu => Nat.eqb mc 0 && Qeq_bool mu 0 && forallb simple sub
  | NOr kids _ _ => forallb simple kids
  | NRequire _ => false
  | NArea _ | NBucket _ | NOther => true
  end.

(** Apart from the keys [L] (the OR-group labels): every allocated code is
    used, no list repeats a code and no two lists share one. *)
Definition onceIn (L : string -> bool) (us : CodeSet) (al : Obj.t (list string)) : Prop :=
  (forall k x, In x (getList al k) -> has us x = true)
  /\ (forall k, L k = false -> NoDup (getList al k))
  /\ (forall k1 k2 x, k1 <> k2 -> L k1 = false -> L k2 = false ->
                      In x (getList al k1) -> In x (getList al k2) -> False).

Definition once (st : State) : Prop :=
  onceIn (Obj.hasKey (orGroups st)) (used st) (alloc st).

(** The OR-group labels of [st] are labels of [st']. *)
Definition ext (st st' : State) : Prop :=
  forall k, Obj.hasKey (orGroups st) k = true -> Obj.hasKey (orGroups st') k = true.

Lemma onceIn_more (L L' : string -> bool) (us : CodeSet) (al : Obj.t (list string)) :
  (forall k, L k = true -> L' k = true) -> onceIn L us al -> onceIn L' us al.
Proof.
  intros HL [Ha [Hb Hc]].
  assert (Hback : forall k, L' k = false -> L k = false).
  { intros k Hk. destruct (L k) eqn:E; [|reflexivity]. apply HL in E. congruence. }
  split; [exact Ha|]. split; [auto|]. intros k1 k2 x Hne H1 H2. eauto.
Qed.

Lemma onceIn_touch (L : string -> bool) (us : CodeSet) (al : Obj.t (list string))
    (k : string) :
  onceIn L us al -> onceIn L us (Obj.set al k (getList al k)).
Proof.
  intros [Ha [Hb Hc]]. split; [|split].
  - intros k' x. rewrite getList_set_same. apply Ha.
  - intros k'. rewrite getList_set_same. apply Hb.
  - intros k1 k2 x. rewrite !getList_set_same. apply Hc.
Qed.

Lemma onceIn_push (L : string -> bool) (us : CodeSet) (al : Obj.t (list string))
    (k x : string) :
  onceIn L us al -> has us x = false -> onceIn L (add us x) (pushAlloc al k x).
Proof.
  intros [Ha [Hb Hc]] Hx.
  assert (Hfresh : forall k', ~ In x (getList al k')).
  { intros k' Hin. apply Ha in Hin. congruence. }
  split; [|split].
  - intros k' y. rewrite getList_pushAlloc, has_add.
    destruct (String.eqb k' k).
    + intros H. apply in_app_iff in H. destruct H as [H | [<- | []]].
      * now rewrite (Ha _ _ H).
      * rewrite String.eqb_refl. apply orb_true_r.
    + intros H. now rewrite (Ha _ _ H).
  - intros k' Hk. rewrite getList_pushAlloc. destruct (String.eqb k' k) eqn:E; [|auto].
    apply String.eqb_eq in E. subst k'.
    apply NoDup_app; [auto | repeat constructor; auto |].
    intros y Hy [<- | []]. exact (Hfresh k Hy).
  - intros k1 k2 y Hne H1 H2. rewrite !getList_pushAlloc.
    destruct (String.eqb k1 k) eqn:E1; destruct (String.eqb k2 k) eqn:E2.
    + apply String.eqb_eq in E1, E2. congruence.
    + intros Hy1 Hy2. apply in_app_iff in Hy1. destruct Hy1 as [Hy1 | [<- | []]].
      * apply String.eqb_eq in E1. subst k1. eauto.
      * exact (Hfresh k2 Hy2).
    + intros Hy1 Hy2. apply in_app_iff in Hy2. destruct Hy2 as [Hy2 | [<- | []]].
      * apply String.eqb_eq in E2. subst k2. eauto.
      * exact (Hfresh k1 Hy1).
    + eauto.
Qed.

Section Facts.

Variable bucketMap : Obj.t CodeSet.
Variable attrMap : Obj.t CodeSet.
Variable examUnits : Obj.t Q.
Variable examByArea : Obj.t CodeSet.
Variable okCourses : CodeSet.
Variable coursesIndex : string -> option Q.

Local Abbreviation walkNode :=
  (walk bucketMap attrMap examUnits examByArea okCourses coursesIndex).

(** What a step keeps: single allocation, and the labels. *)
Definition keeps (f : State -> bool * State) : Prop :=
  forall st, once st -> once (snd (f st)) /\ ext st (snd (f st)).

Lemma ext_refl (st : State) : ext st st.
Proof. intros k H. exact H. Qed.

Lemma ext_trans (a b c0 : State) : ext a b -> ext b c0 -> ext a c0.
Proof. intros H1 H2 k H. auto. Qed.

Lemma walkLeaf_keeps (a : AreaSpec) :
  keeps (walkLeaf bucketMap examUnits examByArea okCourses coursesIndex a).
Proof.
  intros st Hst. unfold walkLeaf.
  destruct (p_chosen (pickForArea _ _ _ _ _ a (used st))) as [|x0 l] eqn:Hch;
    [split; [exact Hst | apply ext_refl]|].
  rewrite <- Hch. clear Hch.
  set (step := fun (acc : CodeSet * Obj.t (list string)) (x : string) =>
                 let '(us, al) := acc in
                 if has us x then acc else (add us x, pushAlloc al (area a) x)).
  assert (Hfold : forall chosen acc,
             onceIn (Obj.hasKey (orGroups st)) (fst acc) (snd acc) ->
             onceIn (Obj.hasKey (orGroups st)) (fst (fold_left step chosen acc))
                    (snd (fold_left step chosen acc))).
  { intros chosen acc. apply (fold_left_inv
      (fun acc : CodeSet * Obj.t (list string) =>
         onceIn (Obj.hasKey (orGroups st)) (fst acc) (snd acc))).
    intros [us al] x _ Hacc. cbn [step]. destruct (has us x) eqn:E; [exact Hacc|].
    cbn [fst snd] in *. now apply onceIn_push. }
  specialize (Hfold (p_chosen (pickForArea bucketMap examUnits examByArea okCourses
                                           coursesIndex a (used st)))
                    (used st, Obj.set (alloc st) (area a) (getList (alloc st) (area a)))).
  fold step. destruct (fold_left step _ _) as [us al]. cbn [fst snd] in *.
  split; [|intros k Hk; exact Hk]. apply Hfold. now apply onceIn_touch.
Qed.

Section Generic.

Variable w : Node -> State -> bool * State.

Lemma walkEach_once (p : Node -> bool) (sub : list Node) :
  Forall (fun n => keeps (w n)) sub ->
  forall out st, once st ->
    once (snd (walkEach w p sub out st)) /\ ext st (snd (walkEach w p sub out st)).
Proof.
  induction 1 as [|n rest Hn _ IH]; intros out st Hst; cbn [walkEach];
    [split; [exact Hst | apply ext_refl]|].
  destruct (p n); [|now apply IH].
  destruct (Hn st Hst) as [H1 E1]. destruct (w n st) as [ok st']. cbn [snd] in *.
  destruct (IH (out ++ [ok]) st' H1) as [H2 E2].
  split; [exact H2 | eapply ext_trans; eauto].
Qed.

Lemma orTrials_once (kids : list Node) :
  Forall (fun n => keeps (w n)) kids ->
  forall i best st, once st ->
    let r := orTrials examUnits coursesIndex w kids i best st in
    once (snd r) /\ ext st (snd r).
Proof.
  induction 1 as [|child rest Hn _ IH]; intros i best st Hst; cbn [orTrials];
    [split; [exact Hst | apply ext_refl]|].
  destruct (Hn st Hst) as [H1 E1]. destruct (w child st) as [ok st1]. cbn [snd] in *.
  match goal with
  | |- context [orTrials _ _ w rest (S i) ?b ?s] =>
      assert (Hs : once s /\ ext st s)
  end.
  { split; [|exact E1]. unfold once, restore. cbn [used alloc orGroups fst snd].
    eapply onceIn_more; [exact E1 | exact Hst]. }
  match goal with
  | |- context [orTrials _ _ w rest (S i) ?b ?s] =>
      destruct (IH (S i) b s (proj1 Hs)) as [H2 E2]
  end.
  cbv zeta in *. split; [exact H2 | eapply ext_trans; [exact (proj2 Hs) | exact E2]].
Qed.

Lemma walkNth_once (kids : list Node) :
  Forall (fun n => keeps (w n)) kids ->
  forall i st, once st ->
    once (snd (walkNth w kids i st)) /\ ext st (snd (walkNth w kids i st)).
Proof.
  induction 1 as [|n rest Hn _ IH]; intros i st Hst; destruct i; cbn [walkNth snd];
    try (split; [exact Hst | apply ext_refl]); auto.
Qed.

End Generic.

Lemma requireEach_none (sub : list Node) (out : list bool) (st : State) :
  forallb simple sub = true ->
  requireEach bucketMap attrMap examUnits examByArea okCourses coursesIndex sub out st
  = (out, st).
Proof.
  unfold requireEach. generalize (out, st). induction sub as [|n rest IH]; intros acc H;
    [reflexivity|].
  cbn [forallb] in H. apply andb_true_iff in H. destruct H as [Hn Hrest].
  cbn [fold_left]. destruct n; try discriminate; now apply IH.
Qed.

Lemma commitOr_once (kids : list Node) (d g : option string) (st : State) :
  once st -> once (commitOr kids d g st) /\ ext st (commitOr kids d g st).
Proof.
  intros [Ha [Hb Hc]]. unfold commitOr.
  set (label := groupLabelOf d g (kidAreasOf kids)).
  set (chosen := match find _ (kidAreasOf kids) with
                 | Some a => Some a
                 | None => hd_error (kidAreasOf kids)
                 end).
  assert (Hlab : forall k, Obj.hasKey (Obj.set (orGroups st) label (kidAreasOf kids)) k = false ->
                           Obj.hasKey (orGroups st) k = false /\ String.eqb k label = false).
  { intros k. rewrite Obj_hasKey_set. intros H. now apply orb_false_iff in H. }
  split.
  - unfold once. cbn [used alloc orGroups]. split; [|split].
    + intros k x. rewrite getList_set. destruct (String.eqb k label); [|apply Ha].
      destruct chosen as [a|]; [apply Ha | intros []].
    + intros k Hk. apply Hlab in Hk. destruct Hk as [Hk Hne].
      rewrite getList_set, Hne. now apply Hb.
    + intros k1 k2 x Hne H1 H2. apply Hlab in H1, H2.
      rewrite !getList_set, (proj2 H1), (proj2 H2). apply Hc; tauto.
  - intros k Hk. cbn [orGroups]. rewrite Obj_hasKey_set, Hk. reflexivity.
Qed.

Lemma walk_once (node : Node) : simple node = true -> keeps (walkNode node).
Proof.
  induction node as [a | a | sub mc mu IH | kids d g IH | r |] using Node_forall_ind;
    intros Hsimple st Hst; cbn [walk].
  - destruct (Str.nonEmpty (area a)); [now apply walkLeaf_keeps|].
    split; [exact Hst | apply ext_refl].
  - destruct (Str.nonEmpty (area a)); [now apply walkLeaf_keeps|].
    split; [exact Hst | apply ext_refl].
  - cbn [simple] in Hsimple. apply andb_true_iff in Hsimple.
    destruct Hsimple as [Hmin Hsub]. apply andb_true_iff in Hmin.
    destruct Hmin as [Hmc Hmu]. apply Nat.eqb_eq in Hmc. subst mc.
    assert (Hkids : Forall (fun n => keeps (walkNode n)) sub).
    { rewrite forallb_forall in Hsub. rewrite Forall_forall in *. auto. }
    destruct (walkEach_once walkNode isOpNode sub Hkids [] st Hst) as [H1 E1].
    destruct (walkEach walkNode isOpNode sub [] st) as [out1 st1]. cbn [snd] in *.
    destruct (walkEach_once walkNode isAreaNode sub Hkids out1 st1 H1) as [H2 E2].
    destruct (walkEach walkNode isAreaNode sub out1 st1) as [out2 st2]. cbn [snd] in *.
    rewrite (requireEach_none sub out2 st2 Hsub).
    unfold groupMinimum. rewrite Hmu. cbn [Nat.eqb negb orb snd].
    split; [exact H2 | eapply ext_trans; eauto].
  - cbn [simple] in Hsimple.
    assert (Hkids : Forall (fun n => keeps (walkNode n)) kids).
    { rewrite forallb_forall in Hsimple. rewrite Forall_forall in *. auto. }
    destruct (orTrials_once walkNode kids Hkids 0 None st Hst) as [H1 E1].
    destruct (orTrials examUnits coursesIndex walkNode kids 0 None st) as [[best|] st1];
      cbn [snd] in *; [|split; assumption].
    destruct (walkNth_once walkNode kids Hkids (ch_child best) st1 H1) as [H2 E2].
    destruct (walkNth walkNode kids (ch_child best) st1) as [ok st2]. cbn [snd] in *.
    destruct (commitOr_once kids d g st2 H2) as [H3 E3].
    split; [exact H3|]. eapply ext_trans; [exact E1|]. eapply ext_trans; eauto.
  - discriminate.
  - split; [exact Hst | apply ext_refl].
Qed.

End Facts.

(** X22.  In a pattern whose logic has no attribute requirement and no
    group minimum, [evaluateGE] allocates no course twice: OR-group labels
    apart (they repeat the list of the chosen alternative), the list of
    every key is without repetition and the lists of two different keys
    share no course. *)
Theorem ge_allocates_once
    (bucketMap attrMap : Obj.t CodeSet) (examUnits : Obj.t Q)
    (examByArea : Obj.t CodeSet) (okCourses : CodeSet)
    (coursesIndex : string -> option Q) (logic : Node)
    (Hsimple : simple logic = true) :
  let st := evaluateGE bucketMap attrMap examUnits examByArea okCourses coursesIndex
                       logic in
  (forall k, Obj.hasKey (orGroups st) k = false -> NoDup (getList (alloc st) k))
  /\ (forall k1 k2 x,
         k1 <> k2 ->
         Obj.hasKey (orGroups st) k1 = false -> Obj.hasKey (orGroups st) k2 = false ->
         In x (getList (alloc st) k1) -> ~ In x (getList (alloc st) k2)).
Proof.
  intros st. subst st. unfold evaluateGE.
  destruct (walk_once bucketMap attrMap examUnits examByArea okCourses coursesIndex
              logic Hsimple
              {| used := []; alloc := []; orGroups := []; orChoice := [] |})
    as [[_ [Hb Hc]] _].
  - split; [|split].
    + intros k x [].
    + intros k _. constructor.
    + intros k1 k2 x _ _ _ [].
  - split; [exact Hb|]. intros k1 k2 x Hne H1 H2 Hx1 Hx2. eapply Hc; eauto.
Qed.

Lemma ge_allocates_once_witness :
  simple scenario4 = true
  /\ NoDup (getList
              (alloc (evaluateGE
                        [("1A", ["ENGL 2"]); ("1B", ["ENGL 11"]); ("1C", ["CMST 2"])]
                        [] [] [] ["ENGL 11"] (fun _ => Some 3) scenario4))
              "1B").
Proof.
  split; [reflexivity|].
  apply (proj1 (ge_allocates_once
                  [("1A", ["ENGL 2"]); ("1B", ["ENGL 11"]); ("1C", ["CMST 2"])]
                  [] [] [] ["ENGL 11"] (fun _ => Some 3) scenario4 eq_refl)).
  vm_compute. reflexivity.
Defined.

End GEOnceFacts.

(** ** Consistency of the cross-list result *)

Lemma fold_Qplus_eq (l : list Q) :
  forall p q, p == q -> fold_left Qplus l p == fold_left Qplus l q.
Proof.
  induction l as [|z l IH]; intros p q Hpq; cbn [fold_left]; [exact Hpq|].
  apply IH. now rewrite Hpq.
Qed.

Lemma fold_Qplus_shift (l : list Q) :
  forall a b, fold_left Qplus l (a + b) == a + fold_left Qplus l b.
Proof.
  induction l as [|y l IH]; intros a b; cbn [fold_left]; [reflexivity|].
  rewrite <- IH. apply fold_Qplus_eq. ring.
Qed.

Lemma Qsum_cons (x : Q) (l : list Q) : Qsum (x :: l) == x + Qsum l.
Proof.
  unfold Qsum. cbn [fold_left]. rewrite <- fold_Qplus_shift.
  apply fold_Qplus_eq. ring.
Qed.

Lemma Qsum_values_replace (o : Obj.t Q) (k : string) (old v : Q) :
  Obj.get o k = Some old ->
  Qsum (Obj.values (Obj.replace o k v)) == Qsum (Obj.values o) - old + v.
Proof.
  unfold Obj.values. induction o as [|[k0 v0] o IH]; cbn [Obj.replace Obj.get map];
    [discriminate|].
  destruct (String.eqb k k0) eqn:E; cbn [map snd].
  - intros [= ->]. rewrite !Qsum_cons. ring.
  - intros H. rewrite !Qsum_cons, (IH H). ring.
Qed.

Lemma Qsum_values_insert (o : Obj.t Q) (k : string) (v : Q) :
  Qsum (Obj.values (Obj.insert o k v)) == Qsum (Obj.values o) + v.
Proof.
  unfold Obj.values. induction o as [|[k0 v0] o IH]; cbn [Obj.insert map].
  - rewrite Qsum_cons. unfold Qsum. cbn. ring.
  - destruct (Obj.before k k0); cbn [map snd fst].
    + rewrite !Qsum_cons. ring.
    + rewrite !Qsum_cons, IH. ring.
Qed.

Lemma Qsum_values_set (o : Obj.t Q) (k : string) (u : Q) :
  Qsum (Obj.values (Obj.set o k (Program.getOr0 o k + u))) == Qsum (Obj.values o) + u.
Proof.
  unfold Program.getOr0, Obj.set. destruct (Obj.get o k) as [old|] eqn:E.
  - rewrite (Qsum_values_replace o k old _ E). ring.
  - rewrite Qsum_values_insert. ring.
Qed.

Module CrossTotals.
Import Program.

Section Facts.

Variable takenSet : CodeSet.

Definition chosenOf (x : CrossState) (n : string) : list Hit :=
  match Obj.get (x_chosenBySection x) n with Some l => l | None => [] end.

(** Every section has earned the units of the courses chosen for it, and
    every marked course is taken. *)
Definition consistent (x : CrossState) : Prop :=
  (forall n, getOr0 (x_earnedBySection x) n == Qsum (map h_units (chosenOf x n)))
  /\ Forall (fun m => has takenSet (code (snd m)) = true) (x_marks x).

Lemma crossConsume_consistent (name : string) (h : Hit) (x : CrossState) :
  consistent x -> has takenSet (h_code h) = true -> consistent (crossConsume name h x).
Proof.
  intros [He Hm] Ht. split.
  - intros n. unfold chosenOf, getOr0. cbn [crossConsume x_earnedBySection x_chosenBySection].
    rewrite !Obj_get_set. destruct (String.eqb n name) eqn:E.
    + apply String.eqb_eq in E. subst n. cbv beta iota.
      rewrite map_app. cbn [map]. rewrite Qsum_snoc.
      specialize (He name). unfold chosenOf, getOr0 in He. rewrite <- He. reflexivity.
    + apply He.
  - cbn [crossConsume x_marks]. apply Forall_app. split; [exact Hm|].
    repeat constructor. exact Ht.
Qed.

Lemma crossConsume_sum (name : string) (h : Hit) (x : CrossState) :
  Qsum (Obj.values (x_earnedBySection (crossConsume name h x)))
  == Qsum (Obj.values (x_earnedBySection x)) + h_units h.
Proof. cbn [crossConsume x_earnedBySection]. apply Qsum_values_set. Qed.

Lemma crossConsume_used (name : string) (h : Hit) (x : CrossState) (c : string) :
  has (x_usedSet x) c = true -> has (x_usedSet (crossConsume name h x)) c = true.
Proof. cbn [crossConsume x_usedSet]. apply has_add_mono. Qed.

Definition keeping (used : CodeSet) (x : CrossState) : Prop :=
  consistent x /\ forall c, has used c = true -> has (x_usedSet x) c = true.

Lemma crossPass1Pool_keeping (used : CodeSet) (name : string) (need : Q)
    (hits : list Hit) :
  Forall (fun h => has takenSet (h_code h) = true) hits ->
  forall x, keeping used x -> keeping used (crossPass1Pool name need hits x).
Proof.
  induction 1 as [|h rest Hh _ IH]; intros x Hx; cbn [crossPass1Pool]; [exact Hx|].
  destruct (Qgeb _ need); [exact Hx|].
  destruct (_ || _); [now apply IH|]. apply IH. destruct Hx as [Hc Hu]. split.
  - now apply crossConsume_consistent.
  - intros c Hc'. apply crossConsume_used. auto.
Qed.

Lemma hitsBySection_taken (pool : Obj.t (list Hit)) :
  Forall (fun p => Forall (fun h => has takenSet (h_code h) = true) (snd p))
         (hitsBySection takenSet pool).
Proof.
  unfold hitsBySection. apply Forall_forall. intros p Hp.
  apply in_map_iff in Hp. destruct Hp as [q [<- _]]. cbn [snd].
  apply Forall_forall. intros h Hh. apply sortBy_In in Hh.
  apply filter_In in Hh. exact (proj2 Hh).
Qed.

Lemma crossPass1_keeping (used : CodeSet) (perMin : Obj.t Q) (hits : Obj.t (list Hit)) :
  Forall (fun p => Forall (fun h => has takenSet (h_code h) = true) (snd p)) hits ->
  forall x, keeping used x -> keeping used (crossPass1 perMin hits x).
Proof.
  intros Hhits x Hx. unfold crossPass1. apply fold_left_inv; [|exact Hx].
  intros x' p Hp Hx'. rewrite Forall_forall in Hhits.
  apply crossPass1Pool_keeping; [now apply Hhits | exact Hx'].
Qed.

Lemma crossPass2_keeping (used : CodeSet) (minTotal : Q) (leftovers : list Hit) :
  Forall (fun h => has takenSet (h_code h) = true) leftovers ->
  forall total x,
    keeping used x ->
    total == Qsum (Obj.values (x_earnedBySection x)) ->
    let r := crossPass2 minTotal leftovers (total, x) in
    keeping used (snd r) /\ fst r == Qsum (Obj.values (x_earnedBySection (snd r))).
Proof.
  induction 1 as [|h rest Hh _ IH]; intros total x Hx Ht; cbn [crossPass2];
    [split; assumption|].
  destruct (Qgeb total minTotal); [split; assumption|].
  apply IH.
  - destruct Hx as [Hc Hu]. split; [now apply crossConsume_consistent|].
    intros c Hc'. apply crossConsume_used. auto.
  - rewrite crossConsume_sum, Ht. reflexivity.
Qed.

Lemma leftovers_taken (hits : Obj.t (list Hit)) (x : CrossState) :
  Forall (fun p => Forall (fun h => has takenSet (h_code h) = true) (snd p)) hits ->
  Forall (fun h => has takenSet (h_code h) = true)
         (sortBy moreUnits (leftoversOf hits x)).
Proof.
  intros Hhits. apply Forall_forall. intros h Hh. apply sortBy_In in Hh.
  unfold leftoversOf in Hh. apply in_flat_map in Hh. destruct Hh as [p [Hp Hh]].
  apply in_map_iff in Hh. destruct Hh as [h0 [<- Hh0]]. cbn [h_code].
  apply filter_In in Hh0. rewrite Forall_forall in Hhits.
  specialize (Hhits p Hp). rewrite Forall_forall in Hhits. apply Hhits. tauto.
Qed.

Lemma get_constant {V} (keys : list string) (v : V) (n : string) :
  Obj.get (map (fun k => (k, v)) keys) n = None
  \/ Obj.get (map (fun k => (k, v)) keys) n = Some v.
Proof.
  induction keys as [|k keys IH]; cbn; [now left|].
  destruct (String.eqb n k); [now right | exact IH].
Qed.

End Facts.

(** X23.  The result of the cross-list evaluation is consistent: its
    total is the sum of the units earned per section, every section has
    earned the units of the courses chosen for it, every course it marks
    is in the taken set, and the codes that were used before stay used. *)
Theorem cross_result_consistent
    (takenSet : CodeSet) (detail : Detail) (usedSet usedSet' : CodeSet)
    (res : CrossResult)
    (Hrun : evalCrossListUnits takenSet detail usedSet = (Some res, usedSet')) :
  totalUnits res == Qsum (Obj.values (earnedBySection res))
  /\ (forall n,
         getOr0 (earnedBySection res) n
         == Qsum (map h_units (match Obj.get (chosenBySection res) n with
                               | Some l => l
                               | None => []
                               end)))
  /\ Forall (fun m => has takenSet (code (snd m)) = true) (marks res)
  /\ (forall c, has usedSet c = true -> has usedSet' c = true).
Proof.
  revert Hrun. unfold evalCrossListUnits.
  destruct (find _ (cross_list_rules detail)) as [rule|]; [|discriminate].
  set (pool := sectionPool detail rule).
  set (hits := hitsBySection takenSet pool).
  set (x0 := {| x_usedCodes := []; x_usedSet := usedSet;
                x_earnedBySection := map (fun n => (n, 0)) (Obj.keys pool);
                x_chosenBySection := map (fun n => (n, [])) (Obj.keys pool);
                x_marks := [] |}).
  assert (H0 : keeping takenSet usedSet x0).
  { split; [split|]; cbn [x0 x_marks x_usedSet]; [|constructor|auto].
    intros n. unfold chosenOf, getOr0. cbn [x0 x_earnedBySection x_chosenBySection].
    destruct (get_constant (Obj.keys pool) (0 : Q) n) as [-> | ->];
      destruct (get_constant (Obj.keys pool) ([] : list Hit) n) as [-> | ->];
      reflexivity. }
  pose proof (hitsBySection_taken takenSet pool) as Hhits. fold hits in Hhits.
  pose proof (crossPass1_keeping takenSet usedSet (c_per_list_min_units rule) hits
                Hhits x0 H0) as H1.
  set (x1 := crossPass1 (c_per_list_min_units rule) hits x0) in *.
  pose proof (crossPass2_keeping takenSet usedSet (orQ (c_min_units_total rule) 0)
                (sortBy moreUnits (leftoversOf hits x1))
                (leftovers_taken takenSet hits x1 Hhits)
                (Qsum (Obj.values (x_earnedBySection x1))) x1 H1 (Qeq_refl _)) as H2.
  cbv zeta in H2. destruct (crossPass2 _ _ _) as [total2 x2]. cbn [fst snd] in H2.
  destruct H2 as [[[He Hm] Hu] Ht].
  intros H. injection H as <- <-.
  cbn [totalUnits earnedBySection chosenBySection marks]. auto.
Qed.

Lemma cross_result_consistent_witness :
  exists res used',
    evalCrossListUnits CrossFacts.scenario5Taken CrossFacts.scenario5 [] = (Some res, used')
    /\ totalUnits res == Qsum (Obj.values (earnedBySection res)).
Proof.
  eexists. eexists. split; [vm_compute; reflexivity|].
  exact (proj1 (cross_result_consistent CrossFacts.scenario5Taken CrossFacts.scenario5
                  [] _ _ eq_refl)).
Defined.

End CrossTotals.

(** ** The selection of an area leaf *)

Module LeafFacts.
Import GE GEFacts.

Section Facts.

Variable bucketMap : Obj.t CodeSet.
Variable examUnits : Obj.t Q.
Variable examByArea : Obj.t CodeSet.
Variable okCourses : CodeSet.
Variable coursesIndex : string -> option Q.

Local Abbreviation unitsOf := (unitsFor examUnits coursesIndex).

(** The units of a selection are those of its courses. *)
Definition summed (sel : Sel) : Prop :=
  snd (fst sel) == Qsum (map unitsOf (fst (fst sel))).

Lemma summed_take (chosen : list string) (units : Q) (seen seen' : CodeSet)
    (it : Scored) :
  u it = unitsOf (c it) ->
  summed (chosen, units, seen) ->
  summed (chosen ++ [c it], units + u it, seen').
Proof.
  unfold summed. cbn [fst snd]. intros Hu Hs.
  rewrite map_app. cbn [map]. rewrite Qsum_snoc, Hu, Hs. reflexivity.
Qed.

Lemma pass1_result (needCourses : nat) (needUnits : Q) (needDistinct : nat)
    (scored : list Scored) :
  Forall (fun it => u it = unitsOf (c it)) scored ->
  forall chosen units seen,
    NoDup (chosen ++ map c scored) ->
    summed (chosen, units, seen) ->
    let sel' := pass1 examUnits needCourses needUnits needDistinct scored
                      (chosen, units, seen) in
    NoDup (fst (fst sel')) /\ summed sel'.
Proof.
  induction 1 as [|it rest Hit _ IH]; intros chosen units seen Hnd Hs; cbn [pass1].
  - rewrite app_nil_r in Hnd. split; assumption.
  - cbn [map] in Hnd.
    assert (Hskip : NoDup (chosen ++ map c rest)) by (now apply NoDup_remove_1 in Hnd).
    assert (Htake : NoDup ((chosen ++ [c it]) ++ map c rest))
      by (now rewrite <- app_assoc).
    destruct (_ && has seen _); [now apply IH|].
    destruct (_ && Qgeb _ _).
    + cbn [fst]. split; [now apply NoDup_app_remove_r in Htake|].
      now apply (summed_take chosen units seen).
    + apply IH; [exact Htake | now apply (summed_take chosen units seen)].
Qed.

Lemma pass2_result (needUnits : Q) (needDistinct : nat) (scored : list Scored) :
  Forall (fun it => u it = unitsOf (c it)) scored ->
  forall chosen units seen,
    NoDup chosen ->
    summed (chosen, units, seen) ->
    let sel' := pass2 examUnits needUnits needDistinct scored (chosen, units, seen) in
    NoDup (fst (fst sel')) /\ summed sel'.
Proof.
  induction 1 as [|it rest Hit _ IH]; intros chosen units seen Hnd Hs; cbn [pass2];
    [split; assumption|].
  destruct (existsb (String.eqb (c it)) chosen) eqn:E; [now apply IH|].
  destruct (_ && has seen _); [now apply IH|].
  assert (Htake : NoDup (chosen ++ [c it])).
  { apply NoDup_app; [exact Hnd | repeat constructor; auto |].
    intros x Hx [<- | []]. apply AreaFacts.existsb_eqb_In in Hx. congruence. }
  destruct (Qgeb _ _).
  - cbn [fst]. split; [exact Htake | now apply (summed_take chosen units seen)].
  - apply IH; [exact Htake | now apply (summed_take chosen units seen)].
Qed.

Lemma candidates_NoDup (a : string) :
  NoDup (getList (areaCandidates bucketMap examByArea okCourses) a).
Proof.
  unfold getList, areaCandidates.
  rewrite (Obj_get_map (fun k s => dedupe (filter (has okCourses) s
                                           ++ codesOf examByArea k) [])).
  unfold CodeSet in *. destruct (Obj.get bucketMap a); cbn; [|constructor].
  apply dedupe_NoDup.
Qed.

Lemma scoredPool_shape (a : string) (usedNow : CodeSet) :
  let scored := scoredPool bucketMap examUnits examByArea okCourses coursesIndex
                           a usedNow in
  Forall (fun it => u it = unitsOf (c it)) scored /\ NoDup (map c scored).
Proof.
  unfold scoredPool.
  set (pool := filter (fun x => negb (has usedNow x))
                      (getList (areaCandidates bucketMap examByArea okCourses) a)).
  set (mk := fun x => {| c := x; u := unitsOf x; w := multiUseCount bucketMap x |}).
  split.
  - apply Forall_forall. intros it Hit. apply sortBy_In in Hit.
    apply in_map_iff in Hit. destruct Hit as [x [<- _]]. reflexivity.
  - eapply Permutation_NoDup.
    + apply Permutation_map. apply sortBy_perm.
    + rewrite map_map. cbn [mk c]. rewrite map_id. apply NoDup_filter.
      apply candidates_NoDup.
Qed.

End Facts.

(** X24.  The courses an area leaf selects are pairwise distinct unused
    candidates of the area, the units it reports are the sum of their
    units, and a leaf without an unused candidate is not satisfied even
    when its minima are zero. *)
Theorem area_leaf_result
    (bucketMap : Obj.t CodeSet) (examUnits : Obj.t Q) (examByArea : Obj.t CodeSet)
    (okCourses : CodeSet) (coursesIndex : string -> option Q)
    (areaObj : AreaSpec) (usedNow : CodeSet) :
  let res := pickForArea bucketMap examUnits examByArea okCourses coursesIndex
                         areaObj usedNow in
  NoDup (p_chosen res)
  /\ Forall (fun x => In x (getList (areaCandidates bucketMap examByArea okCourses)
                                    (area areaObj))
                      /\ has usedNow x = false) (p_chosen res)
  /\ p_units res == Qsum (map (unitsFor examUnits coursesIndex) (p_chosen res))
  /\ match filter (fun x => negb (has usedNow x))
                  (getList (areaCandidates bucketMap examByArea okCourses)
                           (area areaObj)) with
     | [] => p_chosen res = [] /\ p_satisfied res = false
     | _ :: _ => True
     end.
Proof.
  intros res.
  assert (Hin : Forall (fun x => In x (getList (areaCandidates bucketMap examByArea
                                                  okCourses) (area areaObj))
                                 /\ has usedNow x = false) (p_chosen res)).
  { apply Forall_forall. intros x Hx. subst res.
    now apply pickForArea_chosen_In in Hx. }
  subst res. unfold pickForArea in *.
  destruct (filter _ (getList _ (area areaObj))) as [|x0 pool];
    [cbn; repeat split; constructor|].
  destruct (scoredPool_shape bucketMap examUnits examByArea okCourses coursesIndex
              (area areaObj) usedNow) as [Hu Hnd].
  set (scored := scoredPool _ _ _ _ _ (area areaObj) usedNow) in *.
  destruct (pass1_result examUnits coursesIndex (min_courses areaObj)
              (min_units areaObj) (distinct_disciplines areaObj) scored Hu [] 0 []
              Hnd (Qeq_refl _)) as [N1 S1].
  set (sel1 := pass1 _ _ _ _ scored _) in *.
  assert (H2 : NoDup (fst (fst (if Qltb (snd (fst sel1)) (min_units areaObj)
                                then pass2 examUnits (min_units areaObj)
                                           (distinct_disciplines areaObj) scored sel1
                                else sel1)))
               /\ summed examUnits coursesIndex
                    (if Qltb (snd (fst sel1)) (min_units areaObj)
                     then pass2 examUnits (min_units areaObj)
                                (distinct_disciplines areaObj) scored sel1
                     else sel1)).
  { destruct (Qltb _ _); [|split; assumption].
    destruct sel1 as [[ch un] se].
    now apply (pass2_result examUnits coursesIndex). }
  destruct (if Qltb _ _ then _ else _) as [[chosen units] seen].
  destruct H2 as [N2 S2]. unfold summed in S2. cbn [fst snd] in *.
  destruct (_ && _); cbn [p_chosen p_units] in *; repeat split; auto.
Qed.

End LeafFacts.

(** ** A transcript without courses *)

Module EmptyFacts.
Import Program AllocFacts ProgressFacts.

Lemma findMatch_empty (it : Item) (used : CodeSet) :
  findMatchForItem it [] used = None.
Proof.
  unfold findMatchForItem. destruct (find _ (options it)) as [o|] eqn:E; [|reflexivity].
  apply find_some in E. destruct E as [_ E]. discriminate E.
Qed.

Section Facts.

Variable aliases : CourseAliases.
Variable coursesIndex : string -> option Q.
Variable detail : Detail.

Definition start : Alloc :=
  {| store := map (indexSectionItems aliases coursesIndex) (sections detail);
     usedSet := [] |}.

(** Nothing has been allocated and nothing is satisfied. *)
Definition idle (e : EvalState) : Prop :=
  e_alloc e = start /\ metAtomCount e = 0%Z.

Lemma untouched_step (a : Alloc) (chosen : list Chosen) (si ii : nat) (it : Item)
    (pick : Opt) (from : string) :
  a = start /\ chosen = [] ->
  getItem (store a) si ii = Some it ->
  findMatchForItem it [] (usedSet a) = Some pick ->
  consume a si ii pick = start /\ chosen ++ [mkChosen pick from] = [].
Proof. intros _ _ H. rewrite findMatch_empty in H. discriminate. Qed.

Lemma sectionsPhase_idle (skip : bool) (e : EvalState) :
  Forall (fun s => 0 <= ruleMinUnits (rule (workingSection s))) (sections detail) ->
  sectionsPhase aliases coursesIndex [] detail skip [] = Some e -> idle e.
Proof.
  intros Hmin. apply (sectionsPhase_keeps aliases coursesIndex [] detail idle).
  - intros si ii e0 [Ha Hm]. unfold allishItem.
    destruct (getItem _ si ii) as [item|]; [|split; assumption].
    rewrite findMatch_empty. split; assumption.
  - intros pools s si e0 _ [Ha Hm]. unfold countSection.
    pose proof (satisfyCountSection_keeps [] pools
                  (fun a ch => a = start /\ ch = []) untouched_step
                  s si (e_alloc e0) (conj Ha eq_refl)) as [Ha' Hch].
    destruct (satisfyCountSection _ _ _ _ _) as [a ch]. cbn [fst snd] in *. subst ch.
    split; cbn; [exact Ha' | lia].
  - intros pools s si e0 e' Hs [Ha Hm]. unfold unitsSection.
    destruct (satisfyUnitsSection _ _ _ _ _ _) as [r|] eqn:Hr; [|discriminate].
    intros He. injection He as <-.
    pose proof (satisfyUnitsSection_keeps_alloc aliases [] pools
                  (fun a ch => a = start /\ ch = []) untouched_step
                  s si (e_alloc e0) r (conj Ha eq_refl) Hr) as [Ha' Hch].
    pose proof (UnitsAtoms.satisfyUnitsSection_minUnits _ _ _ _ _ _ _ Hr) as Hmu.
    assert (Hest : (0 <= estimatedCoursesNeeded (ur_minUnits r) (ur_chosen r))%Z).
    { apply estimatedCoursesNeeded_nonneg; [|rewrite Hch; constructor]. rewrite Hmu.
      apply in_map_iff in Hs. destruct Hs as [s0 [<- Hs0]].
      rewrite Forall_forall in Hmin. now apply Hmin. }
    rewrite Hch in *. split; cbn; [exact Ha' | lia].
  - split; reflexivity.
Qed.

End Facts.

(** X25.  On an empty taken set, for a program without a cross-list rule
    and without a negative [min_units], [evaluateProgram] matches no item
    and uses no code, no atom is satisfied, the percentage is 0 as soon as
    one atom is required, and a program without sections is complete at
    100. *)
Theorem empty_transcript
    (aliases : CourseAliases) (coursesIndex : string -> option Q)
    (detail : Detail) (skip : bool) (res : Result)
    (Hmin : Forall (fun s => 0 <= ruleMinUnits (rule (workingSection s)))
                   (sections detail))
    (Hnocross : find (fun r => String.eqb (c_type r) "CROSS_LIST_UNITS")
                     (cross_list_rules detail) = None)
    (Hrun : evaluateProgram aliases coursesIndex [] detail skip = Some res) :
  satisfied res = 0%Z
  /\ finalAlloc res
     = {| store := map (indexSectionItems aliases coursesIndex) (sections detail);
          usedSet := [] |}
  /\ (if Z.eqb (requiredItems res) 0
      then match sections detail with [] => percent res = 100%Z | _ => True end
      else percent res = 0%Z).
Proof.
  revert Hrun. unfold evaluateProgram, evalCrossListUnits. rewrite Hnocross.
  destruct (sectionsPhase _ _ _ _ _ _) as [e3|] eqn:Hp; [|discriminate].
  apply sectionsPhase_idle in Hp; [|exact Hmin]. destruct Hp as [Ha Hm].
  intros H. injection H as <-. cbn [satisfied finalAlloc requiredItems percent].
  split; [exact Hm|]. split; [exact Ha|].
  destruct (Z.eqb (requiredAtomCount e3) 0) eqn:E.
  - destruct (sections detail) eqn:Es; [|exact I].
    rewrite Ha. unfold start. rewrite Es. reflexivity.
  - rewrite Hm. apply percent_none.
Qed.

Lemma empty_transcript_witness :
  exists res,
    evaluateProgram PrereqFacts.noAliases (fun _ => None) [] scenario1 false = Some res
    /\ satisfied res = 0%Z.
Proof.
  eexists. split; [vm_compute; reflexivity|].
  refine (proj1 (empty_transcript PrereqFacts.noAliases (fun _ => None) scenario1
                   false _ _ eq_refl eq_refl)).
  repeat constructor. vm_compute. discriminate.
Defined.

End EmptyFacts.

(** ** Program closeness *)

Module ClosenessFacts.
Import Closeness.

Definition listedItems (prog : Prog) : list ListedItem :=
  flat_map l_items (prog_sections prog).

Lemma flat_map_length_map {A B C} (f : A -> list B) (g : B -> C) (l : list A) :
  List.length (flat_map (fun x => map g (f x)) l) = List.length (flat_map f l).
Proof.
  induction l as [|x l IH]; cbn; [reflexivity|].
  now rewrite !length_app, length_map, IH.
Qed.

(** X26.  For a program none of whose items has [any_of],
    [scoreProgramCourseCompletion] counts one required item per listed
    item, never more satisfied items than required ones, and a fraction
    between 0 and 1 that is 0 for a program without items; for any other
    program it is [evaluateProgram] with the GE sections skipped exactly
    when the program is a transfer degree or an associate degree. *)
Theorem legacy_score_bounds
    (aliases : CourseAliases) (coursesIndex : string -> option Q)
    (examData : string -> list Transcript.ExamRow)
    (userExams : list Transcript.ScoredExam)
    (prog : Prog) (transcript : Transcript.TranscriptResult) (countPlanned : bool) :
  match scoreProgramCourseCompletion aliases coursesIndex examData userExams
                                     prog transcript countPlanned with
  | Legacy s =>
      usesNew prog = false
      /\ requiredItems s = List.length (listedItems prog)
      /\ (satisfied s <= requiredItems s)%nat
      /\ 0 <= pct s /\ pct s <= 1
      /\ match listedItems prog with [] => pct s == 0 | _ => True end
  | NewScore r =>
      usesNew prog = true
      /\ r = Transcript.evaluateProgramFromTranscript aliases coursesIndex examData
               (detailOf prog) transcript countPlanned
               (fst (programRequiresGE prog) || snd (programRequiresGE prog))
               userExams
  end.
Proof.
  unfold scoreProgramCourseCompletion. destruct (usesNew prog) eqn:E.
  - destruct (programRequiresGE prog) as [l a]. split; reflexivity.
  - cbv zeta. cbn [requiredItems satisfied pct].
    set (have := if countPlanned then _ else _).
    set (rows := flat_map snd _).
    assert (Hlen : List.length rows = List.length (listedItems prog)).
    { subst rows. rewrite flat_map_concat_map, map_map, <- flat_map_concat_map.
      cbn [snd]. apply flat_map_length_map. }
    pose proof (filter_length_le lr_met rows) as Hle.
    split; [reflexivity|]. split; [exact Hlen|]. split; [exact Hle|].
    destruct (List.length rows) as [|n] eqn:En.
    + repeat split; try lra. unfold listedItems in *.
      destruct (flat_map l_items (prog_sections prog)); [reflexivity | exact I].
    + assert (Hpos : 0 < inject_Z (Z.of_nat (S n))).
      { change 0 with (inject_Z 0). rewrite <- Zlt_Qlt. lia. }
      repeat split.
      * apply Qle_shift_div_l; [exact Hpos|]. rewrite Qmult_0_l.
        change 0 with (inject_Z 0). rewrite <- Zle_Qle. lia.
      * apply Qle_shift_div_r; [exact Hpos|]. rewrite Qmult_1_l.
        rewrite <- Zle_Qle. lia.
      * unfold listedItems in *.
        destruct (flat_map l_items (prog_sections prog)); [discriminate Hlen | exact I].
Qed.

End ClosenessFacts.

(** ** Exam area tokens *)

Module ExamAreaFacts.
Import ExamAreas.

(** X27.  For the CSU Breadth pattern every area an exam token is mapped
    to is one of the CSU Breadth areas; whatever the pattern, a token of
    the form US<digits> is mapped to nothing, and an unknown pattern maps
    no token at all. *)
Theorem exam_tokens_areas (pattern : string) (tokens : list string) :
  Forall (fun a => isCsuArea a = true) (mapTokensToPatternAreas "csu_breadth" tokens)
  /\ mapTokensToPatternAreas pattern tokens
     = mapTokensToPatternAreas pattern (filter (fun x => negb (isUSToken x)) tokens)
  /\ (if existsb (String.eqb pattern)
                 ["igetc"; "cal_getc"; "butte_local"; "csu_breadth"]
      then True
      else mapTokensToPatternAreas pattern tokens = []).
Proof.
  split; [|split].
  - unfold mapTokensToPatternAreas. cbn [String.eqb Ascii.eqb Bool.eqb orb].
    apply Forall_forall. intros a Ha. apply in_flat_map in Ha.
    destruct Ha as [x [_ Ha]]. cbv zeta in Ha.
    destruct (isCsuArea (Str.toUpperCase (stripArea x))) eqn:E.
    + destruct Ha as [<- | []]. exact E.
    + destruct (Obj.get csuMap _) as [v|] eqn:G; [|destruct Ha].
      destruct (Str.nonEmpty v); [|destruct Ha]. destruct Ha as [<- | []].
      revert G. unfold csuMap. cbn [Obj.get].
      repeat match goal with
             | |- context [if ?b then _ else _] => destruct b
             end; intros G; try discriminate G; injection G as <-; reflexivity.
  - unfold mapTokensToPatternAreas.
    assert (Hf : forall l : list string,
               filter (fun x => negb (isUSToken x)) (filter (fun x => negb (isUSToken x)) l)
               = filter (fun x => negb (isUSToken x)) l).
    { induction l as [|x l IH]; cbn; [reflexivity|].
      destruct (negb (isUSToken x)) eqn:E; cbn; [rewrite E; now f_equal | exact IH]. }
    now rewrite Hf.
  - unfold mapTokensToPatternAreas. cbn [existsb]. rewrite orb_false_r.
    destruct (String.eqb pattern "igetc"); [exact I|].
    destruct (String.eqb pattern "cal_getc"); [exact I|].
    destruct (String.eqb pattern "butte_local"); [exact I|].
    destruct (String.eqb pattern "csu_breadth"); [exact I | reflexivity].
Qed.

End ExamAreaFacts.

(** ** Atoms of a UNITS section *)

Module AtomFacts.
Import Program UnitsFacts AllocFacts.

(** Rounding respects equality of rationals. *)
Lemma round_comp_all (x y : Q) : x == y -> Double.round x == Double.round y.
Proof.
  intros E. destruct (Qlt_le_dec x 0) as [Hn | Hp].
  - assert (Hy : y < 0) by (rewrite <- E; exact Hn).
    unfold Double.round.
    pose proof (DoubleFacts.Qnum_sign x) as Sx. pose proof (DoubleFacts.Qnum_sign y) as Sy.
    destruct (Qnum x); [lra | lra |]. destruct (Qnum y); [lra | lra |].
    apply Qopp_comp. apply DoubleFacts.roundPos_comp; [lra|]. now rewrite E.
  - now apply DoubleFacts.round_comp.
Qed.

(** The spec's words: the average unit size of [n] chosen courses worth
    [units] together, 3 when nothing is chosen. *)
Definition specAverageUnitSize (units : Q) (n : nat) : Q :=
  match n with
  | O => 3
  | _ => Double.div units (inject_Z (Z.of_nat n))
  end.

(** The spec's words: [ceil(min_units / average_unit_size_of_chosen)]. *)
Definition specCourseCount (minUnits units : Q) (n : nat) : Z :=
  Qceiling (Double.div minUnits (specAverageUnitSize units n)).

(** The number of chosen courses without units. *)
Definition zeroUnit (chosen : list Chosen) : nat :=
  List.length (filter (fun c => Qeq_bool (ch_units c) 0) chosen).

Lemma Qsum_or3 (chosen : list Chosen) :
  Qsum (map (fun c => orQ (ch_units c) 3) chosen)
  == Qsum (map ch_units chosen) + 3 * inject_Z (Z.of_nat (zeroUnit chosen)).
Proof.
  unfold zeroUnit. induction chosen as [|c l IH]; [reflexivity|].
  cbn [map filter]. rewrite !Qsum_cons, IH. unfold orQ.
  destruct (Qeq_bool (ch_units c) 0) eqn:E.
  - apply Qeq_bool_iff in E. cbn [List.length]. rewrite Nat2Z.inj_succ, <- Z.add_1_r.
    rewrite inject_Z_plus, E. change (inject_Z 1) with 1. ring.
  - ring.
Qed.

Lemma zeroUnit_none (chosen : list Chosen) :
  Forall (fun c => ~ ch_units c == 0) chosen -> zeroUnit chosen = 0%nat.
Proof.
  unfold zeroUnit. induction 1 as [|c l Hc _ IH]; [reflexivity|]. cbn [filter].
  destruct (Qeq_bool (ch_units c) 0) eqn:E; [|exact IH].
  apply Qeq_bool_iff in E. contradiction.
Qed.

(** The estimate of the source is the spec's course count, a chosen
    course without units counting for 3 units. *)
Lemma estimatedCoursesNeeded_spec (minUnits : Q) (chosen : list Chosen) :
  estimatedCoursesNeeded minUnits chosen
  = specCourseCount minUnits
      (Qsum (map ch_units chosen) + 3 * inject_Z (Z.of_nat (zeroUnit chosen)))
      (List.length chosen).
Proof.
  unfold estimatedCoursesNeeded, specCourseCount, avgUnits, specAverageUnitSize.
  destruct chosen as [|c l]; [reflexivity|].
  set (ch := c :: l). cbn [List.length]. fold (List.length ch).
  change (S (List.length l)) with (List.length ch).
  apply Qceiling_comp. unfold Double.div. apply round_comp_all.
  apply Qdiv_comp; [reflexivity|]. apply round_comp_all.
  apply Qdiv_comp; [apply Qsum_or3 | reflexivity].
Qed.

Section Facts.

Variable aliases : CourseAliases.
Variable takenSet : CodeSet.
Variable poolsByList : Obj.t nat.

(** The section's total is the sum of the units of its chosen courses. *)
Lemma satisfyUnitsSection_sum (sec : Section) (si : nat) (a : Alloc) (r : UnitsResult) :
  satisfyUnitsSection aliases takenSet poolsByList sec si a = Some r ->
  ur_gotUnits r = Qsum (map ch_units (ur_chosen r)).
Proof.
  intros Hr.
  apply (satisfyUnitsSection_keeps aliases takenSet poolsByList
           (fun s => u_gotUnits s = Qsum (map ch_units (u_chosen s)))) in Hr.
  - exact Hr.
  - intros s s' Hs [pi [ii [it [pick [from [Hget [Hm ->]]]]]]].
    cbn [takePick u_chosen u_gotUnits]. rewrite map_app. cbn [map].
    rewrite Qsum_snoc, Hs. reflexivity.
  - reflexivity.
Qed.

Lemma satisfyUnitsSection_missing (sec : Section) (si : nat) (a : Alloc) (r : UnitsResult) :
  satisfyUnitsSection aliases takenSet poolsByList sec si a = Some r ->
  ur_missing r = unitsMissing aliases sec (ur_chosen r) (ur_gotUnits r).
Proof.
  unfold satisfyUnitsSection.
  destruct (if (0 <? _)%nat then _ else _) as [s1|]; [|discriminate].
  destruct (perListLoop _ _ _ _ s1) as [s2|]; [|discriminate].
  destruct (while _ _ s2) as [s3|]; [|discriminate].
  intros H. injection H as <-. reflexivity.
Qed.

(** The missing list names exactly the sub-constraints that are unmet. *)
Lemma unitsMissing_spec (sec : Section) (chosen : list Chosen) (gotUnits : Q) :
  let minUnits := ruleMinUnits (rule sec) in
  let minDisc := ruleMinDisciplines (rule sec) in
  let disc := List.length (disciplinesOf aliases chosen) in
  let need := fun l => getOr0 (r_per_list_min_units (rule sec)) l in
  let have := fun l => unitsFrom l chosen in
  (forall d, In (MoreUnitsOverall d) (unitsMissing aliases sec chosen gotUnits)
             <-> gotUnits < minUnits /\ d = minUnits - gotUnits)
  /\ (forall d l, In (MoreUnitsFrom d l) (unitsMissing aliases sec chosen gotUnits)
                  <-> In l (r_allow_from (rule sec)) /\ have l < need l
                      /\ d = need l - have l)
  /\ (forall m k, In (NeedDisciplines m k) (unitsMissing aliases sec chosen gotUnits)
                  <-> (disc < minDisc)%nat /\ m = minDisc /\ k = disc)
  /\ (forall n nm, ~ In (MoreFrom n nm) (unitsMissing aliases sec chosen gotUnits))
  /\ (unitsMissing aliases sec chosen gotUnits = []
      <-> minUnits <= gotUnits /\ (minDisc <= disc)%nat
          /\ forall l, In l (r_allow_from (rule sec)) -> need l <= have l).
Proof.
  intros minUnits minDisc disc need have. unfold unitsMissing.
  fold minUnits minDisc disc.
  set (A := if (0 <? minDisc)%nat then _ else _).
  set (B := flat_map _ (r_allow_from (rule sec))).
  set (C := if Qltb gotUnits minUnits then _ else _).
  assert (HA : forall x, In x A <-> (disc < minDisc)%nat /\ x = NeedDisciplines minDisc disc).
  { intros x. subst A. destruct (0 <? minDisc)%nat eqn:E0.
    - destruct (disc <? minDisc)%nat eqn:E1.
      + apply Nat.ltb_lt in E1. cbn. split; [intros [<- | []]; auto | intros [_ ->]; auto].
      + apply Nat.ltb_ge in E1. cbn. split; [intros [] | intros [H _]; lia].
    - apply Nat.ltb_ge in E0. cbn. split; [intros [] | intros [H _]; lia]. }
  assert (HB : forall x, In x B <-> exists l, In l (r_allow_from (rule sec))
                                             /\ have l < need l
                                             /\ x = MoreUnitsFrom (need l - have l) l).
  { intros x. subst B. rewrite in_flat_map. split.
    - intros [l [Hl Hx]]. exists l. split; [exact Hl|].
      fold (need l) (have l) in Hx. destruct (Qltb (have l) (need l)) eqn:E.
      + apply Qltb_lt in E. destruct Hx as [<- | []]. auto.
      + destruct Hx.
    - intros [l [Hl [Hlt ->]]]. exists l. split; [exact Hl|].
      fold (need l) (have l). apply Qltb_lt in Hlt. rewrite Hlt. now left. }
  assert (HC : forall x, In x C <-> gotUnits < minUnits
                                    /\ x = MoreUnitsOverall (minUnits - gotUnits)).
  { intros x. subst C. destruct (Qltb gotUnits minUnits) eqn:E.
    - apply Qltb_lt in E. cbn. split; [intros [<- | []]; auto | intros [_ ->]; auto].
    - apply Qltb_ge in E. cbn. split; [intros [] | intros [H _]; lra]. }
  assert (Hin : forall x, In x (A ++ B ++ C) <-> In x A \/ In x B \/ In x C).
  { intros x. rewrite !in_app_iff. tauto. }
  split; [|split; [|split; [|split]]].
  - intros d. rewrite Hin, HA, HB, HC. split.
    + intros [[_ H] | [[l [_ [_ H]]] | [H1 H2]]]; try discriminate.
      injection H2 as ->. auto.
    + intros [H ->]. right. right. auto.
  - intros d l. rewrite Hin, HA, HB, HC. split.
    + intros [[_ H] | [[l' [Hl [Hlt H]]] | [_ H]]]; try discriminate.
      injection H as -> ->. auto.
    + intros [Hl [Hlt ->]]. right. left. exists l. auto.
  - intros m k. rewrite Hin, HA, HB, HC. split.
    + intros [[H1 H] | [[l' [_ [_ H]]] | [_ H]]]; try discriminate.
      injection H as -> ->. auto.
    + intros [H [-> ->]]. left. auto.
  - intros n nm. rewrite Hin, HA, HB, HC.
    intros [[_ H] | [[l' [_ [_ H]]] | [_ H]]]; discriminate.
  - split.
    + intros Hnil.
      assert (Hno : forall x, ~ In x (A ++ B ++ C)) by (intros x; rewrite Hnil; auto).
      split; [|split].
      * apply Qnot_lt_le. intros H. apply (Hno (MoreUnitsOverall (minUnits - gotUnits))).
        apply Hin. right. right. apply HC. auto.
      * apply Nat.nlt_ge. intros H. apply (Hno (NeedDisciplines minDisc disc)).
        apply Hin. left. apply HA. auto.
      * intros l Hl. apply Qnot_lt_le. intros H.
        apply (Hno (MoreUnitsFrom (need l - have l) l)).
        apply Hin. right. left. apply HB. exists l. auto.
    + intros [H1 [H2 H3]].
      assert (Hno : forall x, ~ In x (A ++ B ++ C)).
      { intros x Hx. apply Hin in Hx. destruct Hx as [Hx | [Hx | Hx]].
        - apply HA in Hx. lia.
        - apply HB in Hx. destruct Hx as [l [Hl [Hlt _]]]. specialize (H3 l Hl). lra.
        - apply HC in Hx. lra. }
      clear -Hno. destruct (A ++ B ++ C) as [|x rest]; [reflexivity|].
      exfalso. apply (Hno x). now left.
Qed.

End Facts.

(** C3, as amended.  A UNITS section adds
    [ceil(min_units / average)] required atoms, quotients being those of
    double-precision numbers, where the average is the total of the chosen
    courses' units over their number (3 when nothing is chosen; a chosen
    course without units counts for 3 units), and
    [min(number chosen, that count)] satisfied atoms, whether its
    constraints are met or not.  The constraints that are unmet are the
    entries of the section's missing list: one for [min_units], one for
    [min_disciplines] and one per [allow_from] list that is short of its
    per-list minimum; the list is empty exactly when all of them hold. *)
Theorem units_section_atoms
    (aliases : CourseAliases) (takenSet : CodeSet) (poolsByList : Obj.t nat)
    (s : Section) (si : nat) (e : EvalState) :
  exists r e',
    satisfyUnitsSection aliases takenSet poolsByList s si (e_alloc e) = Some r
    /\ unitsSection aliases takenSet poolsByList s si e = Some e'
    /\ ur_gotUnits r = Qsum (map ch_units (ur_chosen r))
    /\ let minUnits := ruleMinUnits (rule s) in
       let minDisc := ruleMinDisciplines (rule s) in
       let n := List.length (ur_chosen r) in
       let est := specCourseCount minUnits
                    (ur_gotUnits r + 3 * inject_Z (Z.of_nat (zeroUnit (ur_chosen r)))) n in
       let disc := List.length (disciplinesOf aliases (ur_chosen r)) in
       let need := fun l => getOr0 (r_per_list_min_units (rule s)) l in
       let have := fun l => unitsFrom l (ur_chosen r) in
       requiredAtomCount e' = (requiredAtomCount e + est)%Z
       /\ metAtomCount e' = (metAtomCount e + Z.min (Z.of_nat n) est)%Z
       /\ (Forall (fun c => ~ ch_units c == 0) (ur_chosen r) ->
           est = specCourseCount minUnits (ur_gotUnits r) n)
       /\ (n = 0%nat -> est = Qceiling (Double.div minUnits 3))
       /\ e_report e' = e_report e ++
            [{| rp_section := si; rp_chosen := ur_chosen r;
                rp_units := Some (ur_gotUnits r); rp_missing := ur_missing r;
                rp_required := est; rp_met := Z.min (Z.of_nat n) est |}]
       /\ (forall d, In (MoreUnitsOverall d) (ur_missing r)
                     <-> ur_gotUnits r < minUnits /\ d = minUnits - ur_gotUnits r)
       /\ (forall d l, In (MoreUnitsFrom d l) (ur_missing r)
                       <-> In l (r_allow_from (rule s)) /\ have l < need l
                           /\ d = need l - have l)
       /\ (forall m k, In (NeedDisciplines m k) (ur_missing r)
                       <-> (disc < minDisc)%nat /\ m = minDisc /\ k = disc)
       /\ (ur_missing r = []
           <-> minUnits <= ur_gotUnits r /\ (minDisc <= disc)%nat
               /\ forall l, In l (r_allow_from (rule s)) -> need l <= have l).
Proof.
  destruct (satisfyUnitsSection_total aliases takenSet poolsByList s si (e_alloc e))
    as [r Hr].
  pose proof (UnitsAtoms.satisfyUnitsSection_minUnits _ _ _ _ _ _ _ Hr) as Hmin.
  pose proof (satisfyUnitsSection_sum aliases takenSet poolsByList s si _ r Hr) as Hsum.
  pose proof (satisfyUnitsSection_missing aliases takenSet poolsByList s si _ r Hr) as Hmiss.
  exists r. unfold unitsSection. rewrite Hr. eexists. split; [reflexivity|].
  split; [reflexivity|]. split; [exact Hsum|].
  cbv zeta. cbn [requiredAtomCount metAtomCount e_report].
  rewrite Hmin, estimatedCoursesNeeded_spec, <- Hsum.
  destruct (unitsMissing_spec aliases s (ur_chosen r) (ur_gotUnits r))
    as [M1 [M2 [M3 [_ M5]]]].
  rewrite <- Hmiss in M1, M2, M3, M5.
  split; [reflexivity|]. split; [reflexivity|].
  split.
  { intros Hz. rewrite (zeroUnit_none _ Hz). unfold specCourseCount.
    apply Qceiling_comp. unfold Double.div. apply round_comp_all.
    apply Qdiv_comp; [reflexivity|].
    unfold specAverageUnitSize. destruct (List.length (ur_chosen r)); [reflexivity|].
    unfold Double.div. apply round_comp_all. apply Qdiv_comp; [|reflexivity].
    change (inject_Z (Z.of_nat 0)) with 0. ring. }
  split.
  { intros Hn. rewrite Hn. reflexivity. }
  split; [reflexivity|].
  split; [exact M1|]. split; [exact M2|]. split; [exact M3 | exact M5].
Qed.


(** The quotients are rounded: seven chosen courses worth 17 units against
    [min_units = 17] give eight atoms, although [17 / (17 / 7)] is 7. *)
Example units_estimate_rounding :
  let chosen := map (fun u => {| ch_code := "C"; ch_units := u; ch_from := "S" |})
                    [3; 3; 3; 2; 2; 2; 2] in
  estimatedCoursesNeeded 17 chosen = 8%Z
  /\ Qceiling (17 / (Qsum (map ch_units chosen) / 7)) = 7%Z.
Proof. vm_compute. split; reflexivity. Qed.

(** C3 as stated fails on scenario 3 ([UNITS{min_units: 9}], two 3-unit
    matches): the section adds three required atoms, not one, and two of
    them are counted as satisfied although 3 units are still missing. *)
Lemma units_section_atoms_counterexample :
  exists e',
    unitsSection PrereqFacts.noAliases ["ART 1"; "ART 2"] [("Electives", 0%nat)]
                 scenario3Section 0 UnitsAtoms.scenario3State = Some e'
    /\ requiredAtomCount e' = 3%Z
    /\ requiredAtomCount e' <> 1%Z
    /\ metAtomCount e' = 2%Z
    /\ map rp_missing (e_report e') = [[MoreUnitsOverall 3]].
Proof.
  eexists. split; [vm_compute; reflexivity|]. cbn. repeat split. discriminate.
Qed.

End AtomFacts.
